(** * Small-world graph index: a shallow embedding of
      similarity_search/src/method/small_world_rand.cc

    The index is modelled as a record holding the fields of the C++ class
    [SmallWorldRand<dist_t>] together with the store of the [MSWNode]
    objects it has allocated.  A pointer [MSWNode*] is the position of the
    node in that store.  Exceptions, failed CHECKs and undefined behaviour
    are outcomes of a small error monad; loops that the C++ writes with
    [while] take fuel. *)

From Stdlib Require Import ZArith Lia Ascii String Decimal DecimalString DecimalZ
  DecimalNat.
From stdpp Require Import base option list gmap strings sorting.

Local Open Scope nat_scope.

(** ** Outcomes *)

(** One constructor per [throw] or CHECK of the source file; the comment
    gives the message of the source. *)
Inductive Error : Type :=
| ErrParam            (* AnyParamManager: ill-typed or unused parameter *)
| ErrAlgoType         (* "algoType should be one of the following: old, v1merge" *)
| ErrNoEntryPoint     (* "Bug: there is not entry point set!" *)
| ErrNodeIdMax        (* "Bug: nodeId > maxInternalId" *)
| ErrEmptyElList      (* "Bug: the list of nodes shouldn't be empty!" *)
| ErrRangeSearch      (* "Range search is not supported!" *)
| ErrEfSearch         (* "efSearch should be > 0" *)
| ErrNodeIdElList     (* CHECK(nodeId < ElList_.size()), "Bug: nodeId > ElList_.size()" *)
| ErrUsed             (* CHECK(!e.used) *)
| ErrSaveNodeId       (* SaveIndex: "Bug: unexpected node ID ..." *)
| ErrField            (* ReadField fails *)
| ErrMethDesc         (* "Looks like you try to use an index created by a different method" *)
| ErrFormat           (* "Bug or inconsitent data, wrong format, line: ..." *)
| ErrFormatSep        (* "Bug or inconsitent data, wrong format, c1=..." *)
| ErrMutationNodeId   (* DATA_MUTATION_ERROR_MSG + " (unexpected node ID ..." *)
| ErrMutationObjId    (* DATA_MUTATION_ERROR_MSG + " (unexpected object ID ..." *)
| ErrNullPtr          (* "Bug, got NULL pointer in the second pass for nodeID ..." *)
| ErrFriendId         (* LoadIndex: "Bug: unexpected node ID ..." *)
| ErrTrailing         (* "It looks like there is some extract erroneous stuff ..." *)
| ErrLineQty          (* DATA_MUTATION_ERROR_MSG + " (expected number of lines ..." *)
| UndefinedBehaviour. (* top() of an empty queue, a null or dangling pointer, an index out of range *)

(** [OutOfFuel] is the model's outcome for a loop that was cut off;
    [Concurrent] stands for the branch of [CreateIndex] that starts
    threads, which this sequential model does not run. *)
Inductive result (A : Type) : Type :=
| Ok (a : A)
| Throw (e : Error)
| OutOfFuel
| Concurrent.
Arguments Ok {A} a.
Arguments Throw {A} e.
Arguments OutOfFuel {A}.
Arguments Concurrent {A}.

Definition rbind {A B : Type} (r : result A) (f : A → result B) : result B :=
  match r with
  | Ok a => f a
  | Throw e => Throw e
  | OutOfFuel => OutOfFuel
  | Concurrent => Concurrent
  end.

Notation "x <- c ;; k" := (rbind c (λ x, k))
  (at level 100, c at next level, right associativity).

Fixpoint foldM {A B : Type} (f : A → B → result A) (a : A) (l : list B) : result A :=
  match l with
  | [] => Ok a
  | b :: l' => a' <- f a b ;; foldM f a' l'
  end.

(** ** Data objects, nodes and the distance space *)

(** [Object]: the external id [id()] and the raw buffer [data()]. *)
Record Object : Type := mkObject { Object_id : Z; Object_data : list Z }.

#[global] Instance Object_eq_dec : EqDecision Object.
Proof. solve_decision. Defined.

(** A node pointer is a position in the store of allocated nodes. *)
Abbreviation ptr := nat (only parsing).

(** [MSWNode]: the constructor [MSWNode(obj, id)] stores both and starts
    with no friends. *)
Record MSWNode : Type := mkMSWNode {
  getData : Object;
  getId : nat;
  getAllFriends : list ptr
}.

Definition MSWNode_new (obj : Object) (id : nat) : MSWNode :=
  mkMSWNode obj id [].

(** [Space<dist_t>]: the distance type with its [operator<] and the two
    index-time distances.  The class is abstract in the source, so it is an
    interface here. *)
Class Space : Type := {
  dist_t : Type;
  dist_lt : dist_t → dist_t → bool;
  IndexTimeDistance : Object → Object → dist_t;
  ProxyDistance : Object → Object → dist_t
}.

(** Iteration order of [ElementMap].  The container type is declared in the
    header; all that is used of its order is that iterating visits every
    entry once. *)
Class ElementMapOrder : Type := {
  iteration : gmap Z ptr → list (Z * ptr);
  iteration_perm : ∀ m, iteration m ≡ₚ map_to_list m
}.

(** ** std::priority_queue

    A [priority_queue<T>] with comparison [less] is a list kept with the
    greatest element first.  C++ does not say which of two equivalent
    elements is nearer the top; here it is the one pushed first. *)
Section PriorityQueue.
Context {T : Type} (less : T → T → bool).

Fixpoint pq_push (x : T) (q : list T) : list T :=
  match q with
  | [] => [x]
  | y :: q' => if less y x then x :: y :: q' else y :: pq_push x q'
  end.

Definition pq_top (q : list T) : option T := head q.
Definition pq_pop (q : list T) : list T := tail q.
End PriorityQueue.

(** What a search does that is visible outside: distance computations,
    entries into the frontier, and offers to the result sink
    ([CheckAndAddToResult]); each is recorded with the node concerned. *)
Inductive Event {S : Space} : Type :=
| Dist (p : ptr)
| Push (p : ptr)
| Offer (d : dist_t) (p : ptr).

Inductive AlgoType : Type := kOld | kV1Merge.

(** The fields of [SmallWorldRand<dist_t>] and the nodes it allocated. *)
Record SmallWorldRand : Type := mkIndex {
  data_ : list Object;
  PrintProgress_ : bool;
  use_proxy_dist_ : bool;
  NN_ : nat;
  efConstruction_ : nat;
  efSearch_ : nat;
  indexThreadQty_ : nat;
  searchAlgoType_ : AlgoType;
  ElList_ : gmap Z ptr;
  pEntryPoint_ : option ptr;
  heap : list MSWNode
}.

(** The constructor initialises [space_], [data_], [PrintProgress_] and
    [use_proxy_dist_]; what the other members hold is given by [junk]. *)
Record Uninit : Type := mkUninit {
  u_NN : nat; u_efConstruction : nat; u_efSearch : nat;
  u_indexThreadQty : nat; u_searchAlgoType : AlgoType;
  u_pEntryPoint : option ptr
}.

Definition SmallWorldRand_new (PrintProgress : bool) (data : list Object)
    (junk : Uninit) : SmallWorldRand :=
  {| data_ := data; PrintProgress_ := PrintProgress; use_proxy_dist_ := false;
     NN_ := u_NN junk; efConstruction_ := u_efConstruction junk;
     efSearch_ := u_efSearch junk; indexThreadQty_ := u_indexThreadQty junk;
     searchAlgoType_ := u_searchAlgoType junk;
     ElList_ := ∅; pEntryPoint_ := u_pEntryPoint junk; heap := [] |}.

Definition set_heap (idx : SmallWorldRand) (h : list MSWNode) : SmallWorldRand :=
  {| data_ := data_ idx; PrintProgress_ := PrintProgress_ idx;
     use_proxy_dist_ := use_proxy_dist_ idx; NN_ := NN_ idx;
     efConstruction_ := efConstruction_ idx; efSearch_ := efSearch_ idx;
     indexThreadQty_ := indexThreadQty_ idx;
     searchAlgoType_ := searchAlgoType_ idx;
     ElList_ := ElList_ idx; pEntryPoint_ := pEntryPoint_ idx; heap := h |}.

Definition set_ElList (idx : SmallWorldRand) (m : gmap Z ptr) : SmallWorldRand :=
  {| data_ := data_ idx; PrintProgress_ := PrintProgress_ idx;
     use_proxy_dist_ := use_proxy_dist_ idx; NN_ := NN_ idx;
     efConstruction_ := efConstruction_ idx; efSearch_ := efSearch_ idx;
     indexThreadQty_ := indexThreadQty_ idx;
     searchAlgoType_ := searchAlgoType_ idx;
     ElList_ := m; pEntryPoint_ := pEntryPoint_ idx; heap := heap idx |}.

Definition set_pEntryPoint (idx : SmallWorldRand) (p : option ptr) : SmallWorldRand :=
  {| data_ := data_ idx; PrintProgress_ := PrintProgress_ idx;
     use_proxy_dist_ := use_proxy_dist_ idx; NN_ := NN_ idx;
     efConstruction_ := efConstruction_ idx; efSearch_ := efSearch_ idx;
     indexThreadQty_ := indexThreadQty_ idx;
     searchAlgoType_ := searchAlgoType_ idx;
     ElList_ := ElList_ idx; pEntryPoint_ := p; heap := heap idx |}.

(** [*p]: a pointer outside the store is dangling. *)
Definition deref (h : list MSWNode) (p : ptr) : result MSWNode :=
  match h !! p with
  | Some n => Ok n
  | None => Throw UndefinedBehaviour
  end.

(** [new MSWNode(obj, id)]: the new node is placed at the end of the store. *)
Definition new_MSWNode (idx : SmallWorldRand) (obj : Object) (id : nat)
    : SmallWorldRand * ptr :=
  (set_heap idx (heap idx ++ [MSWNode_new obj id]), length (heap idx)).

(** Modelled from the spec: [MSWNode::addFriend(p, false)] of the header,
    which appends without a duplicate check. *)
Definition addFriend (h : list MSWNode) (p friend : ptr) : result (list MSWNode) :=
  n <- deref h p ;;
  Ok (<[p := mkMSWNode (getData n) (getId n) (getAllFriends n ++ [friend])]> h).

(** Modelled from the spec: [link(first, second)] of the header adds each
    node to the other's friend list, first then second. *)
Definition link (h : list MSWNode) (first second : ptr) : result (list MSWNode) :=
  h1 <- addFriend h first second ;;
  addFriend h1 second first.

(** Modelled from the spec: [MSWNode::removeAllFriends()] of the header. *)
Definition removeAllFriends (h : list MSWNode) (p : ptr) : result (list MSWNode) :=
  n <- deref h p ;;
  Ok (<[p := mkMSWNode (getData n) (getId n) []]> h).

(** A [vector<bool>] read; the callers check the index first. *)
Definition bit (v : list bool) (i : nat) : result bool :=
  match v !! i with
  | Some b => Ok b
  | None => Throw UndefinedBehaviour
  end.

(** ** Parameters

    Modelled from the spec: [AnyParams] and [AnyParamManager] of the
    parameter headers.  A parameter list pairs names with values;
    [GetParamOptional] returns the value under a name or the default, and
    [CheckUnused] rejects a list that holds a name nobody asked for. *)
Inductive ParamValue : Type :=
| PNat (n : nat)
| PBool (b : bool)
| PStr (s : string).

Definition AnyParams : Type := list (string * ParamValue).

Fixpoint find_param (prm : AnyParams) (name : string) : option ParamValue :=
  match prm with
  | [] => None
  | (n, v) :: prm' => if String.eqb n name then Some v else find_param prm' name
  end.

Definition GetParamOptional_nat (prm : AnyParams) (name : string) (dflt : nat)
    : result nat :=
  match find_param prm name with
  | None => Ok dflt
  | Some (PNat n) => Ok n
  | Some _ => Throw ErrParam
  end.

Definition GetParamOptional_bool (prm : AnyParams) (name : string) (dflt : bool)
    : result bool :=
  match find_param prm name with
  | None => Ok dflt
  | Some (PBool b) => Ok b
  | Some _ => Throw ErrParam
  end.

Definition GetParamOptional_str (prm : AnyParams) (name : string) (dflt : string)
    : result string :=
  match find_param prm name with
  | None => Ok dflt
  | Some (PStr s) => Ok s
  | Some _ => Throw ErrParam
  end.

Definition CheckUnused (prm : AnyParams) (asked : list string) : result unit :=
  if forallb (λ nv, existsb (String.eqb (fst nv)) asked) prm
  then Ok tt else Throw ErrParam.

Definition getEmptyParams : AnyParams := [].

(** [ToLower] on the letters A..Z. *)
Definition lower_ascii (c : ascii) : ascii :=
  let n := nat_of_ascii c in
  if (65 <=? n) && (n <=? 90) then ascii_of_nat (n + 32) else c.

Fixpoint ToLower (s : string) : string :=
  match s with
  | EmptyString => EmptyString
  | String c s' => String (lower_ascii c) (ToLower s')
  end.

(** [SmallWorldRand::SetQueryTimeParams] *)
Definition SetQueryTimeParams (QueryTimeParams : AnyParams) (idx : SmallWorldRand)
    : result SmallWorldRand :=
  efSearch <- GetParamOptional_nat QueryTimeParams "efSearch" (NN_ idx) ;;
  tmp <- GetParamOptional_str QueryTimeParams "algoType" "old" ;;
  let tmp := ToLower tmp in
  algo <- (if String.eqb tmp "v1merge" then Ok kV1Merge
          else if String.eqb tmp "old" then Ok kOld
          else Throw ErrAlgoType) ;;
  _ <- CheckUnused QueryTimeParams ["efSearch"; "algoType"] ;;
  Ok {| data_ := data_ idx; PrintProgress_ := PrintProgress_ idx;
        use_proxy_dist_ := use_proxy_dist_ idx; NN_ := NN_ idx;
        efConstruction_ := efConstruction_ idx; efSearch_ := efSearch;
        indexThreadQty_ := indexThreadQty_ idx; searchAlgoType_ := algo;
        ElList_ := ElList_ idx; pEntryPoint_ := pEntryPoint_ idx;
        heap := heap idx |}.

(** ** Indexing *)

Section Indexing.
Context {S : Space} {O : ElementMapOrder}.

(** [EvaluatedMSWNodeDirect] and [EvaluatedMSWNodeReverse]: a distance
    with a node.  Direct compares by distance, Reverse the other way
    round, so a queue of Reverse has the nearest node on top. *)
Record EvaluatedMSWNode : Type := mkEvaluated {
  getDistance : dist_t;
  getMSWNode : ptr
}.

Definition less_Direct (a b : EvaluatedMSWNode) : bool :=
  dist_lt (getDistance a) (getDistance b).
Definition less_Reverse (a b : EvaluatedMSWNode) : bool :=
  dist_lt (getDistance b) (getDistance a).

(** The locals of [searchForIndexing] that live across the loop. *)
Record IndexSearch : Type := mkIndexSearch {
  is_visitedBitset : list bool;
  is_closestDistQueue : list dist_t;
  is_candidateSet : list EvaluatedMSWNode;
  is_resultSet : list EvaluatedMSWNode;
  is_events : list Event
}.

Definition index_distance (idx : SmallWorldRand) (o queryObj : Object) : dist_t :=
  if use_proxy_dist_ idx then ProxyDistance o queryObj
  else IndexTimeDistance o queryObj.

(** The body of the loop over [neighborCopy] (lines 288-316). *)
Definition searchForIndexing_neighbor (idx : SmallWorldRand) (queryObj : Object)
    (maxInternalId : nat) (st : IndexSearch) (pNeighbor : ptr)
    : result IndexSearch :=
  n <- deref (heap idx) pNeighbor ;;
  let nodeId := getId n in
  if maxInternalId <? nodeId then Throw ErrNodeIdMax else
  seen <- bit (is_visitedBitset st) nodeId ;;
  if seen then Ok st else
  let visited := <[nodeId := true]> (is_visitedBitset st) in
  let d := index_distance idx (getData n) queryObj in
  let '(closest, candidates, ev) :=
    if (length (is_closestDistQueue st) <? efConstruction_ idx)
       || match pq_top (is_closestDistQueue st) with
          | Some t => dist_lt d t
          | None => false
          end
    then
      let c := pq_push dist_lt d (is_closestDistQueue st) in
      let c := if efConstruction_ idx <? length c then pq_pop c else c in
      (c, pq_push less_Reverse (mkEvaluated d pNeighbor) (is_candidateSet st),
       [Dist pNeighbor; Push pNeighbor])
    else (is_closestDistQueue st, is_candidateSet st, [Dist pNeighbor]) in
  if length (is_resultSet st) <? NN_ idx then
    let r := pq_push less_Direct (mkEvaluated d pNeighbor) (is_resultSet st) in
    let r := if NN_ idx <? length r then pq_pop r else r in
    Ok (mkIndexSearch visited closest candidates r (is_events st ++ ev))
  else
    match pq_top (is_resultSet st) with
    | None => Throw UndefinedBehaviour
    | Some t =>
      if dist_lt d (getDistance t) then
        let r := pq_push less_Direct (mkEvaluated d pNeighbor) (is_resultSet st) in
        let r := if NN_ idx <? length r then pq_pop r else r in
        Ok (mkIndexSearch visited closest candidates r (is_events st ++ ev))
      else Ok (mkIndexSearch visited closest candidates (is_resultSet st)
                 (is_events st ++ ev))
    end.

(** The [while (!candidateSet.empty())] loop (lines 255-318). *)
Fixpoint searchForIndexing_loop (fuel : nat) (idx : SmallWorldRand)
    (queryObj : Object) (maxInternalId : nat) (st : IndexSearch)
    : result IndexSearch :=
  match fuel with
  | 0 => OutOfFuel
  | Datatypes.S fuel' =>
    match pq_top (is_candidateSet st) with
    | None => Ok st
    | Some currEv =>
      match pq_top (is_closestDistQueue st) with
      | None => Throw UndefinedBehaviour
      | Some lowerBound =>
        if dist_lt lowerBound (getDistance currEv) then Ok st
        else
          currNode <- deref (heap idx) (getMSWNode currEv) ;;
          let neighborCopy := getAllFriends currNode in
          let st1 := mkIndexSearch (is_visitedBitset st) (is_closestDistQueue st)
                       (pq_pop (is_candidateSet st)) (is_resultSet st)
                       (is_events st) in
          st2 <- foldM (searchForIndexing_neighbor idx queryObj maxInternalId)
                   st1 neighborCopy ;;
          searchForIndexing_loop fuel' idx queryObj maxInternalId st2
      end
    end
  end.

(** The state with which the loop is entered (lines 217-253). *)
Definition searchForIndexing_init (idx : SmallWorldRand) (queryObj : Object)
    (resultSet : list EvaluatedMSWNode) (maxInternalId : nat)
    : result IndexSearch :=
  let visitedBitset := replicate (maxInternalId + 1) false in
  match pEntryPoint_ idx with
  | None => Throw ErrNoEntryPoint
  | Some provider =>
    pnode <- deref (heap idx) provider ;;
    let d := index_distance idx (getData pnode) queryObj in
    let candidateSet := pq_push less_Reverse (mkEvaluated d provider) [] in
    let closest := pq_push dist_lt d [] in
    let closest :=
      if efConstruction_ idx <? length closest then pq_pop closest else closest in
    let nodeId := getId pnode in
    if maxInternalId <? nodeId then Throw ErrNodeIdMax else
    let visitedBitset := <[nodeId := true]> visitedBitset in
    let resultSet := pq_push less_Direct (mkEvaluated d provider) resultSet in
    let resultSet :=
      if NN_ idx <? length resultSet then pq_pop resultSet else resultSet in
    Ok (mkIndexSearch visitedBitset closest candidateSet resultSet
          [Dist provider; Push provider])
  end.

(** [SmallWorldRand::searchForIndexing].  The loop is given
    [maxInternalId + 2] rounds; [searchForIndexing_fuel] below shows that
    it never needs more. *)
Definition searchForIndexing (idx : SmallWorldRand) (queryObj : Object)
    (resultSet : list EvaluatedMSWNode) (maxInternalId : nat)
    : result IndexSearch :=
  st <- searchForIndexing_init idx queryObj resultSet maxInternalId ;;
  searchForIndexing_loop (maxInternalId + 2) idx queryObj maxInternalId st.

(** [SmallWorldRand::addCriticalSection]: [insert] leaves the map as it
    is when the key is taken. *)
Definition addCriticalSection (idx : SmallWorldRand) (newElement : ptr)
    : result SmallWorldRand :=
  n <- deref (heap idx) newElement ;;
  let key := Object_id (getData n) in
  match ElList_ idx !! key with
  | Some _ => Ok idx
  | None => Ok (set_ElList idx (<[key := newElement]> (ElList_ idx)))
  end.

(** [SmallWorldRand::add] *)
Definition add (idx : SmallWorldRand) (newElement : ptr) (maxInternalId : nat)
    : result SmallWorldRand :=
  h <- removeAllFriends (heap idx) newElement ;;
  let idx := set_heap idx h in
  if decide (ElList_ idx = ∅) then Throw ErrEmptyElList else
  n <- deref (heap idx) newElement ;;
  st <- searchForIndexing idx (getData n) [] maxInternalId ;;
  h <- foldM (λ h ev, link h (getMSWNode ev) newElement) (heap idx) (is_resultSet st) ;;
  addCriticalSection (set_heap idx h) newElement.

(** The sequential loop of [CreateIndex] (lines 142-146), entered with
    the objects from position [id] on. *)
Fixpoint CreateIndex_loop (objs : list Object) (id : nat) (idx : SmallWorldRand)
    : result SmallWorldRand :=
  match objs with
  | [] => Ok idx
  | obj :: objs' =>
    let '(idx1, node) := new_MSWNode idx obj id in
    idx2 <- add idx1 node (length (data_ idx)) ;;
    CreateIndex_loop objs' (Datatypes.S id) idx2
  end.

(** [SmallWorldRand::CreateIndex].  [hardware_concurrency] is the value
    of [thread::hardware_concurrency()].  The progress display is left
    out. *)
Definition CreateIndex (hardware_concurrency : nat) (IndexParams : AnyParams)
    (idx : SmallWorldRand) : result SmallWorldRand :=
  NN <- GetParamOptional_nat IndexParams "NN" 10 ;;
  efConstruction <- GetParamOptional_nat IndexParams "efConstruction" NN ;;
  indexThreadQty <-
    GetParamOptional_nat IndexParams "indexThreadQty" hardware_concurrency ;;
  use_proxy_dist <- GetParamOptional_bool IndexParams "useProxyDist" false ;;
  _ <- CheckUnused IndexParams
        ["NN"; "efConstruction"; "indexThreadQty"; "useProxyDist"] ;;
  let idx :=
    {| data_ := data_ idx; PrintProgress_ := PrintProgress_ idx;
       use_proxy_dist_ := use_proxy_dist; NN_ := NN;
       efConstruction_ := efConstruction; efSearch_ := NN;
       indexThreadQty_ := indexThreadQty;
       searchAlgoType_ := searchAlgoType_ idx;
       ElList_ := ElList_ idx; pEntryPoint_ := pEntryPoint_ idx;
       heap := heap idx |} in
  idx <- SetQueryTimeParams getEmptyParams idx ;;
  match data_ idx with
  | [] => Ok idx
  | obj0 :: rest =>
    let '(idx, node) := new_MSWNode idx obj0 0 in
    idx <- addCriticalSection idx node ;;
    let idx := set_pEntryPoint idx (snd <$> head (iteration (ElList_ idx))) in
    if indexThreadQty_ idx <=? 1 then CreateIndex_loop rest 1 idx
    else Concurrent
  end.
End Indexing.

(** ** Queries *)

(** [KNNQuery<dist_t>]: [GetK()] and [DistanceObjLeft(obj)], the distance
    from the query's own object.  What [CheckAndAddToResult] receives is
    recorded as [Offer] events. *)
Record KNNQuery {S : Space} : Type := mkKNNQuery {
  GetK : nat;
  DistanceObjLeft : Object → dist_t
}.

Section SortArrBI.
Context {S : Space}.

(** [SortArrBI<dist_t,MSWNode*>::Item] *)
Record Item : Type := mkItem {
  key : dist_t;
  data : ptr;
  used : bool
}.

(** Modelled from the spec: the class [SortArrBI] of sort_arr_bi.h,
    a fixed-capacity ordered buffer.  [sa_items] are the elements held
    ([size()] of them), [sa_capacity] is the size of the vector behind
    them. *)
Record SortArrBI : Type := mkSortArrBI {
  sa_capacity : nat;
  sa_items : list Item
}.

Definition SortArrBI_new (capacity : nat) : SortArrBI := mkSortArrBI capacity [].

Definition sa_size (sa : SortArrBI) : nat := length (sa_items sa).

(** Modelled from the spec: [push_unsorted_grow] of sort_arr_bi.h puts
    the element behind the ones held, growing the vector when it is
    full. *)
Definition push_unsorted_grow (sa : SortArrBI) (k : dist_t) (v : ptr) : SortArrBI :=
  mkSortArrBI (sa_capacity sa `max` (sa_size sa + 1))
              (sa_items sa ++ [mkItem k v false]).

(** Modelled from the spec: [top_key] of sort_arr_bi.h is the key in the
    last slot when the buffer is full, and +∞ ([None]) otherwise. *)
Definition top_key (sa : SortArrBI) : option dist_t :=
  if sa_size sa =? sa_capacity sa then key <$> last (sa_items sa) else None.

(** [d < topKey], where [None] is +∞. *)
Definition lt_top (d : dist_t) (topKey : option dist_t) : bool :=
  match topKey with
  | Some t => dist_lt d t
  | None => true
  end.

(** The sorted position of key [k]: behind every leading element that is
    not greater. *)
Fixpoint sorted_pos (k : dist_t) (l : list Item) : nat :=
  match l with
  | [] => 0
  | x :: l' => if dist_lt k (key x) then 0 else Datatypes.S (sorted_pos k l')
  end.

Definition insert_at (i : nat) (x : Item) (l : list Item) : list Item :=
  take i l ++ x :: drop i l.

(** Modelled from the spec: [push_or_replace_non_empty_exp] of
    sort_arr_bi.h.  A key that is not below [top_key] of a full buffer
    is dropped, and the call returns [size()]; otherwise the element
    goes to its sorted position, the last one is evicted when the
    buffer was full, and the call returns the position. *)
Definition push_or_replace_non_empty_exp (sa : SortArrBI) (k : dist_t) (v : ptr)
    : SortArrBI * nat :=
  if (sa_size sa =? sa_capacity sa) && negb (lt_top k (top_key sa))
  then (sa, sa_size sa)
  else
    let i := sorted_pos k (sa_items sa) in
    (mkSortArrBI (sa_capacity sa)
       (take (sa_capacity sa) (insert_at i (mkItem k v false) (sa_items sa))), i).

(** Merge of the held elements with a batch; [true] marks an element of
    the batch.  Of two equal keys the held one comes first. *)
Fixpoint merge_marked (l1 : list Item) : list Item → list (bool * Item) :=
  fix merge_aux (l2 : list Item) : list (bool * Item) :=
    match l1, l2 with
    | [], _ => pair true <$> l2
    | _, [] => pair false <$> l1
    | a :: l1', b :: l2' =>
      if dist_lt (key b) (key a) then (true, b) :: merge_aux l2'
      else (false, a) :: merge_marked l1' l2
    end.

Fixpoint first_marked (l : list (bool * Item)) : nat :=
  match l with
  | [] => 0
  | (m, _) :: l' => if m then 0 else Datatypes.S (first_marked l')
  end.

(** Modelled from the spec: [merge_with_sorted_items] of sort_arr_bi.h
    merges a sorted batch into the buffer, keeps at most [capacity]
    elements and returns the smallest position taken by an element of
    the batch ([size()] when none got in). *)
Definition merge_with_sorted_items (sa : SortArrBI) (batch : list Item)
    : SortArrBI * nat :=
  let merged := take (sa_capacity sa) (merge_marked (sa_items sa) batch) in
  (mkSortArrBI (sa_capacity sa) (snd <$> merged), first_marked merged).

(** [std::sort] on a range of [Item]s, which compare by key.  C++ does
    not say in which order elements with equal keys come out; here they
    come out in the reverse of their order in the range. *)
Fixpoint sort_insert (x : Item) (l : list Item) : list Item :=
  match l with
  | [] => [x]
  | y :: l' => if dist_lt (key x) (key y) then x :: y :: l' else y :: sort_insert x l'
  end.

Definition sort_items (l : list Item) : list Item := foldr sort_insert [] l.
End SortArrBI.

Definition MERGE_BUFFER_ALGO_SWITCH_THRESHOLD : nat := 100.

Section Search.
Context {S : Space} {O : ElementMapOrder}.

(** The locals of [SearchV1Merge] that live across the loop. *)
Record V1Search : Type := mkV1Search {
  v1_visitedBitset : list bool;
  v1_sortedArr : SortArrBI;
  v1_currElem : nat;
  v1_events : list Event
}.

(** The body of the loop that computes the distances (lines 435-447);
    [sz] is [sortedArr.size()] and [topKey] the value read before the
    loop. *)
Definition SearchV1Merge_neighbor (idx : SmallWorldRand) (query : KNNQuery)
    (sz : nat) (topKey : option dist_t)
    (acc : list bool * list Item * list Event) (neighbor : ptr)
    : result (list bool * list Item * list Event) :=
  let '(visited, itemBuff, events) := acc in
  n <- deref (heap idx) neighbor ;;
  let nodeId := getId n in
  if negb (nodeId <? size (ElList_ idx)) then Throw ErrNodeIdElList else
  seen <- bit visited nodeId ;;
  if seen then Ok acc else
  let d := DistanceObjLeft query (getData n) in
  let visited := <[nodeId := true]> visited in
  if (sz <? efSearch_ idx) || lt_top d topKey
  then Ok (visited, itemBuff ++ [mkItem d neighbor false],
           events ++ [Dist neighbor; Push neighbor])
  else Ok (visited, itemBuff, events ++ [Dist neighbor]).

(** Lines 461-467: one [push_or_replace_non_empty_exp] per staged item. *)
Definition push_each (sa : SortArrBI) (currElem : nat) (batch : list Item)
    : SortArrBI * nat :=
  fold_left (λ acc it,
               let '(sa', insIndex) :=
                 push_or_replace_non_empty_exp (fst acc) (key it) (data it) in
               (sa', if insIndex <? snd acc then insIndex else snd acc))
            batch (sa, currElem).

(** Lines 472-473: move on while the element under the cursor is used. *)
Fixpoint skip_used (fuel : nat) (queueData : list Item) (currElem : nat) : nat :=
  match fuel with
  | 0 => currElem
  | Datatypes.S fuel' =>
    match queueData !! currElem with
    | Some e => if used e then skip_used fuel' queueData (currElem + 1) else currElem
    | None => currElem
    end
  end.

(** Lines 449-469: the staged items are sorted and put into the buffer,
    and the cursor goes back to the smallest position they take. *)
Definition SearchV1Merge_insert (sa : SortArrBI) (currElem : nat)
    (itemBuff : list Item) : SortArrBI * nat :=
  let itemQty := length itemBuff in
  if itemQty =? 0 then (sa, currElem)
  else
    let sorted := sort_items itemBuff in
    if MERGE_BUFFER_ALGO_SWITCH_THRESHOLD <? itemQty then
      let '(sa', insIndex) := merge_with_sorted_items sa sorted in
      (sa', if insIndex <? currElem then insIndex else currElem)
    else push_each sa currElem sorted.

(** One round of the main loop (lines 415-473). *)
Definition SearchV1Merge_step (idx : SmallWorldRand) (query : KNNQuery)
    (st : V1Search) : result V1Search :=
  let sa := v1_sortedArr st in
  match sa_items sa !! v1_currElem st with
  | None => Throw UndefinedBehaviour
  | Some e =>
    if used e then Throw ErrUsed else
    let sa := mkSortArrBI (sa_capacity sa)
                (<[v1_currElem st := mkItem (key e) (data e) true]> (sa_items sa)) in
    currNode <- deref (heap idx) (data e) ;;
    let currElem := v1_currElem st + 1 in
    let topKey := top_key sa in
    acc <- foldM (SearchV1Merge_neighbor idx query (sa_size sa) topKey)
             (v1_visitedBitset st, [], v1_events st) (getAllFriends currNode) ;;
    let '(visited, itemBuff, events) := acc in
    let '(sa, currElem) := SearchV1Merge_insert sa currElem itemBuff in
    let currElem := skip_used (sa_size sa) (sa_items sa) currElem in
    Ok (mkV1Search visited sa currElem events)
  end.

(** The loop condition of line 414. *)
Definition SearchV1Merge_cond (idx : SmallWorldRand) (st : V1Search) : bool :=
  v1_currElem st <? sa_size (v1_sortedArr st) `min` efSearch_ idx.

Fixpoint SearchV1Merge_loop (fuel : nat) (idx : SmallWorldRand) (query : KNNQuery)
    (st : V1Search) : result V1Search :=
  match fuel with
  | 0 => OutOfFuel
  | Datatypes.S fuel' =>
    if SearchV1Merge_cond idx st then
      st' <- SearchV1Merge_step idx query st ;;
      SearchV1Merge_loop fuel' idx query st'
    else Ok st
  end.

(** Lines 386-410, for a non-empty [ElList_]. *)
Definition SearchV1Merge_init (idx : SmallWorldRand) (query : KNNQuery)
    : result V1Search :=
  if efSearch_ idx =? 0 then Throw ErrEfSearch else
  let visitedBitset := replicate (size (ElList_ idx)) false in
  match pEntryPoint_ idx with
  | None => Throw ErrNoEntryPoint
  | Some currNode =>
    let sortedArr := SortArrBI_new (efSearch_ idx `max` GetK query) in
    n <- deref (heap idx) currNode ;;
    let d := DistanceObjLeft query (getData n) in
    let sortedArr := push_unsorted_grow sortedArr d currNode in
    let nodeId := getId n in
    if negb (nodeId <? size (ElList_ idx)) then Throw ErrNodeIdElList else
    let visitedBitset := <[nodeId := true]> visitedBitset in
    Ok (mkV1Search visitedBitset sortedArr 0 [Dist currNode; Push currNode])
  end.

(** The traversal of [SearchV1Merge]: the state in which the main loop
    ends.  The loop is given [ElList_.size() + 1] rounds;
    [SearchV1Merge_fuel] below shows that it never needs more. *)
Definition SearchV1Merge_traverse (idx : SmallWorldRand) (query : KNNQuery)
    : result V1Search :=
  st <- SearchV1Merge_init idx query ;;
  SearchV1Merge_loop (size (ElList_ idx) + 1) idx query st.

(** Lines 476-478. *)
Definition SearchV1Merge_emit (idx : SmallWorldRand) (query : KNNQuery)
    (st : V1Search) : result (list Event) :=
  foldM (λ events e,
           _ <- deref (heap idx) (data e) ;;
           Ok (events ++ [Offer (key e) (data e)]))
        (v1_events st)
        (take (GetK query `min` sa_size (v1_sortedArr st))
              (sa_items (v1_sortedArr st))).

(** [SmallWorldRand::SearchV1Merge] *)
Definition SearchV1Merge (idx : SmallWorldRand) (query : KNNQuery)
    : result (list Event) :=
  if decide (ElList_ idx = ∅) then Ok [] else
  st <- SearchV1Merge_traverse idx query ;;
  SearchV1Merge_emit idx query st.

(** The locals of [SearchOld] that live across the loop. *)
Record OldSearch : Type := mkOldSearch {
  old_visitedBitset : list bool;
  old_closestDistQueue : list dist_t;
  old_candidateQueue : list EvaluatedMSWNode;
  old_events : list Event
}.

(** The body of the loop over the neighbours (lines 545-567). *)
Definition SearchOld_neighbor (idx : SmallWorldRand) (query : KNNQuery)
    (st : OldSearch) (neighbor : ptr) : result OldSearch :=
  n <- deref (heap idx) neighbor ;;
  let nodeId := getId n in
  if negb (nodeId <? size (ElList_ idx)) then Throw ErrNodeIdElList else
  seen <- bit (old_visitedBitset st) nodeId ;;
  if seen then Ok st else
  let d := DistanceObjLeft query (getData n) in
  let visited := <[nodeId := true]> (old_visitedBitset st) in
  if (length (old_closestDistQueue st) <? efSearch_ idx)
     || match pq_top (old_closestDistQueue st) with
        | Some t => dist_lt d t
        | None => false
        end
  then
    let c := pq_push dist_lt d (old_closestDistQueue st) in
    let c := if efSearch_ idx <? length c then pq_pop c else c in
    Ok (mkOldSearch visited c
          (pq_push less_Reverse (mkEvaluated d neighbor) (old_candidateQueue st))
          (old_events st ++ [Dist neighbor; Push neighbor; Offer d neighbor]))
  else
    Ok (mkOldSearch visited (old_closestDistQueue st) (old_candidateQueue st)
          (old_events st ++ [Dist neighbor; Offer d neighbor])).

(** The [while (!candidateQueue.empty())] loop (lines 521-569). *)
Fixpoint SearchOld_loop (fuel : nat) (idx : SmallWorldRand) (query : KNNQuery)
    (st : OldSearch) : result OldSearch :=
  match fuel with
  | 0 => OutOfFuel
  | Datatypes.S fuel' =>
    match pq_top (old_candidateQueue st) with
    | None => Ok st
    | Some currEv =>
      match pq_top (old_closestDistQueue st) with
      | None => Throw UndefinedBehaviour
      | Some lowerBound =>
        if dist_lt lowerBound (getDistance currEv) then Ok st
        else
          currNode <- deref (heap idx) (getMSWNode currEv) ;;
          let neighbor := getAllFriends currNode in
          let st1 := mkOldSearch (old_visitedBitset st) (old_closestDistQueue st)
                       (pq_pop (old_candidateQueue st)) (old_events st) in
          st2 <- foldM (SearchOld_neighbor idx query) st1 neighbor ;;
          SearchOld_loop fuel' idx query st2
      end
    end
  end.

(** Lines 496-519, for a non-empty [ElList_]. *)
Definition SearchOld_init (idx : SmallWorldRand) (query : KNNQuery)
    : result OldSearch :=
  if efSearch_ idx =? 0 then Throw ErrEfSearch else
  let visitedBitset := replicate (size (ElList_ idx)) false in
  match pEntryPoint_ idx with
  | None => Throw ErrNoEntryPoint
  | Some provider =>
    n <- deref (heap idx) provider ;;
    let d := DistanceObjLeft query (getData n) in
    let candidateQueue := pq_push less_Reverse (mkEvaluated d provider) [] in
    let closestDistQueue := pq_push dist_lt d [] in
    let nodeId := getId n in
    if negb (nodeId <? size (ElList_ idx)) then Throw ErrNodeIdElList else
    let visitedBitset := <[nodeId := true]> visitedBitset in
    Ok (mkOldSearch visitedBitset closestDistQueue candidateQueue
          [Dist provider; Offer d provider; Push provider])
  end.

(** [SmallWorldRand::SearchOld].  The loop is given [ElList_.size() + 1]
    rounds; [SearchOld_fuel] below shows that it never needs more. *)
Definition SearchOld (idx : SmallWorldRand) (query : KNNQuery)
    : result (list Event) :=
  if decide (ElList_ idx = ∅) then Ok [] else
  st <- SearchOld_init idx query ;;
  st <- SearchOld_loop (size (ElList_ idx) + 1) idx query st ;;
  Ok (old_events st).

(** [SmallWorldRand::Search(KNNQuery*, IdType)] *)
Definition Search (idx : SmallWorldRand) (query : KNNQuery) : result (list Event) :=
  match searchAlgoType_ idx with
  | kV1Merge => SearchV1Merge idx query
  | kOld => SearchOld idx query
  end.

(** [SmallWorldRand::Search(RangeQuery*, IdType)] *)
Definition Search_range (idx : SmallWorldRand) : result (list Event) :=
  Throw ErrRangeSearch.
End Search.

(** ** Saving and loading *)

(** Modelled from the spec: [WriteField] and [ReadField] of the utility
    header, with the names [METHOD_DESC], [LINE_QTY] and
    [METH_SMALL_WORLD_RAND].  A field takes one line of the file; reading
    a line under the name it was written with gives the value back. *)
Class FieldIO : Type := {
  METHOD_DESC : string;
  LINE_QTY : string;
  METH_SMALL_WORLD_RAND : string;
  WriteField_str : string → string → string;
  ReadField_str : string → string → option string;
  WriteField_nat : string → nat → string;
  ReadField_nat : string → string → option nat;
  ReadField_WriteField_str :
    ∀ name v, ReadField_str name (WriteField_str name v) = Some v;
  ReadField_WriteField_nat :
    ∀ name v, ReadField_nat name (WriteField_nat name v) = Some v
}.

(** What the source leaves to the implementation.  The declaration of
    [IdType] is not under src/: it is a signed integer type, taken here
    with [IdType_digits] value bits, so that it holds the numbers from
    [- 2 ^ IdType_digits] to [2 ^ IdType_digits - 1].  C++ does not say
    which argument of a call is evaluated first: [release_first] tells
    whether [node.release()], the second argument of [make_pair] at line
    651, is evaluated before the first. *)
Class Implementation : Type := {
  IdType_digits : nat;
  release_first : bool
}.

Section IdType.
Context {M : Implementation}.

Definition IdType_max : Z := 2 ^ Z.of_nat IdType_digits - 1.
Definition IdType_min : Z := - 2 ^ Z.of_nat IdType_digits.

Definition in_IdType (z : Z) : bool :=
  (IdType_min <=? z)%Z && (z <=? IdType_max)%Z.

(** The conversion of a [size_t] to [IdType], which keeps the low bits. *)
Definition to_IdType (n : nat) : Z :=
  ((Z.of_nat n + 2 ^ Z.of_nat IdType_digits)
   mod 2 ^ (Z.of_nat IdType_digits + 1) - 2 ^ Z.of_nat IdType_digits)%Z.
End IdType.

(** [operator<<] on an integer: decimal digits behind a minus sign for a
    negative number. *)
Definition print_Z (z : Z) : string := NilEmpty.string_of_int (Z.to_int z).

(** A [stringstream] being read: what is left of the text and the two
    state bits that the loader looks at. *)
Record stringstream : Type := mkStream {
  ss_buf : string;
  ss_eof : bool;
  ss_fail : bool
}.

Definition isspace (c : ascii) : bool :=
  let n := nat_of_ascii c in (n =? 32) || ((9 <=? n) && (n <=? 13)).

Definition isdigit (c : ascii) : bool :=
  let n := nat_of_ascii c in (48 <=? n) && (n <=? 57).

Fixpoint skipws (s : string) : string :=
  match s with
  | String c s' => if isspace c then skipws s' else s
  | EmptyString => s
  end.

(** The longest run of digits at the front of [s], and what follows it. *)
Fixpoint span_digits (s : string) : string * string :=
  match s with
  | String c s' =>
    if isdigit c then let '(ds, rest) := span_digits s' in (String c ds, rest)
    else (EmptyString, s)
  | EmptyString => (EmptyString, EmptyString)
  end.

Definition is_empty (s : string) : bool :=
  match s with EmptyString => true | _ => false end.

(** [str >> x] for an [IdType] [x]: white space is skipped, then come an
    optional sign and digits, all of which are taken.  Running into the
    end of the text sets [eofbit]; [failbit] is set when the stream was
    not good, when there is no digit, and when the number is outside
    [IdType]. *)
Definition read_int {M : Implementation} (ss : stringstream)
    : stringstream * option Z :=
  if ss_eof ss || ss_fail ss then (mkStream (ss_buf ss) (ss_eof ss) true, None)
  else
    match skipws (ss_buf ss) with
    | EmptyString => (mkStream EmptyString true true, None)
    | String c s' as s =>
      let '(neg, s1) :=
        if Ascii.eqb c "-" then (true, s')
        else if Ascii.eqb c "+" then (false, s') else (false, s) in
      let '(ds, rest) := span_digits s1 in
      match (if is_empty ds then None else NilEmpty.uint_of_string ds) with
      | Some u =>
        let z := Z.of_int (if neg then Decimal.Neg u else Decimal.Pos u) in
        if in_IdType z then (mkStream rest (is_empty rest) false, Some z)
        else (mkStream rest (is_empty rest) true, None)
      | None => (mkStream rest (is_empty rest) true, None)
      end
    end.

(** [str >> c] for a character [c]. *)
Definition read_char (ss : stringstream) : stringstream * option ascii :=
  if ss_eof ss || ss_fail ss then (mkStream (ss_buf ss) (ss_eof ss) true, None)
  else
    match skipws (ss_buf ss) with
    | EmptyString => (mkStream EmptyString true true, None)
    | String c s' => (mkStream s' false false, Some c)
    end.

Definition stringstream_of (line : string) : stringstream := mkStream line false false.

Section Serializer.
Context {F : FieldIO} {O : ElementMapOrder} {M : Implementation}.

Definition StrDesc : string := METH_SMALL_WORLD_RAND.

(** Lines 590-597: the friends of a node, each behind a blank. *)
Definition SaveIndex_friends (idx : SmallWorldRand) (line : string) (pNodeFriend : ptr)
    : result string :=
  f <- deref (heap idx) pNodeFriend ;;
  let nodeFriendID := to_IdType (getId f) in
  if negb ((0 <=? nodeFriendID)%Z
           && (nodeFriendID <? Z.of_nat (length (data_ idx)))%Z)
  then Throw ErrSaveNodeId else
  Ok (line +:+ " " +:+ print_Z nodeFriendID).

(** Lines 583-598: the line of one node. *)
Definition SaveIndex_node (idx : SmallWorldRand) (acc : list string * nat)
    (it : Z * ptr) : result (list string * nat) :=
  let '(outFile, lineNum) := acc in
  pNode <- deref (heap idx) (snd it) ;;
  let nodeID := to_IdType (getId pNode) in
  if negb ((0 <=? nodeID)%Z && (nodeID <? Z.of_nat (length (data_ idx)))%Z)
  then Throw ErrSaveNodeId else
  let line := print_Z nodeID +:+ ":" +:+
              print_Z (Object_id (getData pNode)) +:+ ":" in
  line <- foldM (SaveIndex_friends idx) line (getAllFriends pNode) ;;
  Ok (outFile ++ [line], lineNum + 1).

(** [SmallWorldRand::SaveIndex]; the file is the list of its lines. *)
Definition SaveIndex (idx : SmallWorldRand) : result (list string) :=
  let lineNum := 0 in
  let outFile := [WriteField_str METHOD_DESC StrDesc] in
  let lineNum := lineNum + 1 in
  let outFile := outFile ++ [WriteField_nat "NN" (NN_ idx)] in
  let lineNum := lineNum + 1 in
  acc <- foldM (SaveIndex_node idx) (outFile, lineNum) (iteration (ElList_ idx)) ;;
  let '(outFile, lineNum) := acc in
  let outFile := outFile ++ [EmptyString] in
  let lineNum := lineNum + 1 in
  Ok (outFile ++ [WriteField_nat LINE_QTY (lineNum + 1)]).

(** What [LoadIndex] keeps across the lines: the index and [ptrMapper]. *)
Record Loading : Type := mkLoading {
  ld_index : SmallWorldRand;
  ptrMapper : list (option ptr)
}.

(** The head of a line (lines 628-647): node id and object id, checked
    against [data_]. *)
Definition LoadIndex_head (idx : SmallWorldRand) (line : string)
    : result (stringstream * nat * Object) :=
  let str := stringstream_of line in
  let '(str, nodeID) := read_int str in
  match nodeID with None => Throw ErrFormat | Some nodeID =>
  let '(str, c1) := read_char str in
  match c1 with None => Throw ErrFormat | Some c1 =>
  let '(str, objID) := read_int str in
  match objID with None => Throw ErrFormat | Some objID =>
  let '(str, c2) := read_char str in
  match c2 with None => Throw ErrFormat | Some c2 =>
  if negb (Ascii.eqb c1 ":" && Ascii.eqb c2 ":") then Throw ErrFormatSep else
  if negb ((0 <=? nodeID)%Z && (nodeID <? Z.of_nat (length (data_ idx)))%Z)
  then Throw ErrMutationNodeId else
  match data_ idx !! Z.to_nat nodeID with
  | None => Throw UndefinedBehaviour
  | Some obj =>
    if negb (Object_id obj =? objID)%Z then Throw ErrMutationObjId
    else Ok (str, Z.to_nat nodeID, obj)
  end end end end end.

(** The loop of lines 657-665, cut off after [fuel] rounds. *)
Fixpoint LoadIndex_friends (fuel : nat) (ld : Loading) (pNode : ptr)
    (str : stringstream) : result (Loading * stringstream) :=
  match fuel with
  | 0 => OutOfFuel
  | Datatypes.S fuel' =>
    let '(str, nodeFriendID) := read_int str in
    match nodeFriendID with
    | None => Ok (ld, str)
    | Some nodeFriendID =>
      if negb ((0 <=? nodeFriendID)%Z
               && (nodeFriendID <? Z.of_nat (length (data_ (ld_index ld))))%Z)
      then Throw ErrFriendId else
      match ptrMapper ld !! Z.to_nat nodeFriendID with
      | None => Throw UndefinedBehaviour
      | Some None => Throw ErrNullPtr
      | Some (Some pFriendNode) =>
        h <- addFriend (heap (ld_index ld)) pNode pFriendNode ;;
        LoadIndex_friends fuel' (mkLoading (set_heap (ld_index ld) h) (ptrMapper ld))
          pNode str
      end
    end
  end.

(** One entry line in pass [pass] (lines 628-669).  At line 651 the key
    is [node->getData()->id()]: when [node.release()] has been evaluated
    before it, [node] is empty and the call goes through a null pointer. *)
Definition LoadIndex_line (pass : nat) (ld : Loading) (line : string)
    : result Loading :=
  hd <- LoadIndex_head (ld_index ld) line ;;
  let '(str, nodeID, obj) := hd in
  if pass =? 0 then
    let '(idx, node) := new_MSWNode (ld_index ld) obj nodeID in
    let mapper := <[nodeID := Some node]> (ptrMapper ld) in
    if release_first then Throw UndefinedBehaviour else
    let key := Object_id obj in
    match ElList_ idx !! key with
    | Some _ => Ok (mkLoading idx mapper)
    | None => Ok (mkLoading (set_ElList idx (<[key := node]> (ElList_ idx))) mapper)
    end
  else
    match ptrMapper ld !! nodeID with
    | None => Throw UndefinedBehaviour
    | Some None => Throw ErrNullPtr
    | Some (Some pNode) =>
      r <- LoadIndex_friends (String.length line + 1) ld pNode str ;;
      let '(ld, str) := r in
      if ss_eof str then Ok ld else Throw ErrTrailing
    end.

(** The [while (getline(inFile, line))] loop (lines 624-671): what is
    left of the file, the line count and the state when it ends. *)
Fixpoint LoadIndex_lines (pass : nat) (inFile : list string) (lineNum : nat)
    (ld : Loading) : result (list string * nat * Loading) :=
  match inFile with
  | [] => Ok ([], lineNum, ld)
  | line :: inFile' =>
    if is_empty line then Ok (inFile', lineNum + 1, ld)
    else
      ld' <- LoadIndex_line pass ld line ;;
      LoadIndex_lines pass inFile' (lineNum + 1) ld'
  end.

Definition set_NN (idx : SmallWorldRand) (NN : nat) : SmallWorldRand :=
  {| data_ := data_ idx; PrintProgress_ := PrintProgress_ idx;
     use_proxy_dist_ := use_proxy_dist_ idx; NN_ := NN;
     efConstruction_ := efConstruction_ idx; efSearch_ := efSearch_ idx;
     indexThreadQty_ := indexThreadQty_ idx;
     searchAlgoType_ := searchAlgoType_ idx;
     ElList_ := ElList_ idx; pEntryPoint_ := pEntryPoint_ idx;
     heap := heap idx |}.

(** [ReadField(inFile, name, value)]: the next line, read as a field. *)
Definition ReadField {A : Type} (rd : string → string → option A) (name : string)
    (inFile : list string) : result (A * list string) :=
  match inFile with
  | [] => Throw ErrField
  | line :: inFile' =>
    match rd name line with
    | Some v => Ok (v, inFile')
    | None => Throw ErrField
    end
  end.

(** One pass over the file (lines 610-678). *)
Definition LoadIndex_pass (pass : nat) (file : list string) (ld : Loading)
    : result Loading :=
  let inFile := file in
  let lineNum := 1 in
  r <- ReadField ReadField_str METHOD_DESC inFile ;;
  let '(methDesc, inFile) := r in
  let lineNum := lineNum + 1 in
  if negb (String.eqb methDesc StrDesc) then Throw ErrMethDesc else
  r <- ReadField ReadField_nat "NN" inFile ;;
  let '(NN, inFile) := r in
  let ld := mkLoading (set_NN (ld_index ld) NN) (ptrMapper ld) in
  let lineNum := lineNum + 1 in
  r <- LoadIndex_lines pass inFile lineNum ld ;;
  let '(inFile, lineNum, ld) := r in
  r <- ReadField ReadField_nat LINE_QTY inFile ;;
  let '(ExpLineNum, _) := r in
  if negb (lineNum =? ExpLineNum) then Throw ErrLineQty else Ok ld.

(** [SmallWorldRand::LoadIndex] on the lines of the file. *)
Definition LoadIndex (file : list string) (idx : SmallWorldRand)
    : result SmallWorldRand :=
  let ld := mkLoading idx (replicate (length (data_ idx)) None) in
  ld <- LoadIndex_pass 0 file ld ;;
  ld <- LoadIndex_pass 1 file ld ;;
  Ok (ld_index ld).
End Serializer.

(** ** What is observed of a run *)

Section Observations.
Context {S : Space}.

(** The nodes whose distance to the query was computed, the nodes that
    entered the frontier and the nodes offered to the result sink, each
    in the order of the run. *)
Definition evaluated (events : list Event) : list ptr :=
  omap (λ e, match e with Dist p => Some p | _ => None end) events.
Definition pushed (events : list Event) : list ptr :=
  omap (λ e, match e with Push p => Some p | _ => None end) events.
Definition offered (events : list Event) : list ptr :=
  omap (λ e, match e with Offer _ p => Some p | _ => None end) events.
Definition offers (events : list Event) : list (dist_t * ptr) :=
  omap (λ e, match e with Offer d p => Some (d, p) | _ => None end) events.

(** The internal id behind a pointer. *)
Definition node_id (h : list MSWNode) (p : ptr) : nat :=
  from_option getId 0 (h !! p).

(** Keys in ascending order: no element is followed by a smaller one. *)
Definition ascending (l : list dist_t) : Prop :=
  Sorted (λ a b, dist_lt b a = false) l.

(** The entries of the node table seen per internal id: the node with
    internal id [i] is bound to the object id [o] and its friends have
    the internal ids [fs], in this order. *)
Definition has_node (idx : SmallWorldRand) (i : nat) (o : Z) (fs : list nat) : Prop :=
  ∃ p n, ElList_ idx !! o = Some p ∧ heap idx !! p = Some n ∧
         getId n = i ∧ Object_id (getData n) = o ∧
         Forall2 (λ f j, ∃ m, heap idx !! f = Some m ∧ getId m = j)
                 (getAllFriends n) fs.
End Observations.

(** The states in which [SearchV1Merge] tests its loop condition. *)
Inductive V1_loop_head {S : Space} (idx : SmallWorldRand) (query : KNNQuery)
    : V1Search → Prop :=
| V1_head_first st :
    SearchV1Merge_init idx query = Ok st → V1_loop_head idx query st
| V1_head_next st st' :
    V1_loop_head idx query st →
    SearchV1Merge_cond idx st = true →
    SearchV1Merge_step idx query st = Ok st' →
    V1_loop_head idx query st'.

(** * The vocabulary of the properties *)

(** A run terminates when it returns or throws. *)
Definition terminates {A : Type} (r : result A) : Prop :=
  match r with
  | Ok _ | Throw _ => True
  | OutOfFuel | Concurrent => False
  end.

(** The number of bits that are still clear. *)
Definition unvisited (v : list bool) : nat := length (filter (λ b, b = false) v).

Section Traces.
Context {S : Space}.

(** What holds between the bitset and the events of a traversal: the
  nodes evaluated have pairwise different internal ids, their bits
  are set, and the nodes pushed are among the nodes evaluated, in
  the same order. *)
Definition trace_inv (h : list MSWNode) (v : list bool) (events : list Event) : Prop :=
NoDup (node_id h <$> evaluated events) ∧
(∀ p, p ∈ evaluated events → v !! node_id h p = Some true) ∧
pushed events `sublist_of` evaluated events.

(** The effect of looking at the neighbour [p] on the bitset, on the
  number [k] of frontier entries and on the events: either nothing
  changes, or [p] is a node with a clear bit, the bit is set, [p] is
  evaluated and possibly enters the frontier. *)
Inductive visit (h : list MSWNode) (p : ptr)
  : list bool * nat * list Event → list bool * nat * list Event → Prop :=
| visit_seen x : visit h p x x
| visit_skip v k events n tl :
  h !! p = Some n → v !! getId n = Some false →
  evaluated tl = [] → pushed tl = [] →
  visit h p (v, k, events) (<[getId n := true]> v, k, events ++ Dist p :: tl)
| visit_push v k events n tl :
  h !! p = Some n → v !! getId n = Some false →
  evaluated tl = [] → pushed tl = [p] →
  visit h p (v, k, events)
        (<[getId n := true]> v, Datatypes.S k, events ++ Dist p :: tl).

(** In [SearchOld] every node evaluated is offered at once, with the
  distance just computed. *)
Definition offered_all (query : KNNQuery) (h : list MSWNode) (events : list Event) : Prop :=
offered events = evaluated events ∧
Forall (λ dp, ∃ n, h !! dp.2 = Some n ∧ dp.1 = DistanceObjLeft query (getData n))
       (offers events).

(** The number of elements not yet expanded. *)
Definition unused (l : list Item) : nat := length (filter (λ e, used e = false) l).

(** The offers made at the end of [SearchV1Merge]. *)
Definition Offer_item (e : Item) : Event := Offer (key e) (data e).

(** The elements in front of position [cur] are all used. *)
Definition prefix_used (l : list Item) (cur : nat) : Prop :=
∀ i, i < cur → ∃ e, l !! i = Some e ∧ used e = true.

(** The cursor is at the first un-used element, or at the end when
  there is none. *)
Definition cursor_at_first_unused (st : V1Search) : Prop :=
prefix_used (sa_items (v1_sortedArr st)) (v1_currElem st) ∧
(∀ e, sa_items (v1_sortedArr st) !! v1_currElem st = Some e → used e = false) ∧
sa_size (v1_sortedArr st) ≤ sa_capacity (v1_sortedArr st).

(** No item is followed by one with a smaller key. *)
Definition asc_items (l : list Item) : Prop :=
Sorted (λ a b, dist_lt (key b) (key a) = false) l.

End Traces.

(** What a build reads and writes besides the query-time settings. *)
Definition core (idx : SmallWorldRand) :=
  (data_ idx, use_proxy_dist_ idx, NN_ idx, efConstruction_ idx,
   ElList_ idx, pEntryPoint_ idx, heap idx).

(** The graph: the nodes with their objects, internal ids and friend
    lists, and the node table. *)
Definition graph (idx : SmallWorldRand) := (heap idx, ElList_ idx).

Definition rmap {A B : Type} (f : A → B) (r : result A) : result B :=
  x <- r ;; Ok (f x).

(** The parameters of a build, as [CreateIndex] reads them. *)
Definition build_params (hardware_concurrency : nat) (IndexParams : AnyParams)
    (NN efConstruction indexThreadQty : nat) (useProxyDist : bool) : Prop :=
  GetParamOptional_nat IndexParams "NN" 10 = Ok NN ∧
  GetParamOptional_nat IndexParams "efConstruction" NN = Ok efConstruction ∧
  GetParamOptional_nat IndexParams "indexThreadQty" hardware_concurrency
    = Ok indexThreadQty ∧
  GetParamOptional_bool IndexParams "useProxyDist" false = Ok useProxyDist ∧
  CheckUnused IndexParams ["NN"; "efConstruction"; "indexThreadQty"; "useProxyDist"]
    = Ok tt.

(** The index after the first node is in place (lines 112-133). *)
Definition first_index (PrintProgress : bool) (obj0 : Object) (rest : list Object)
    (NN efConstruction indexThreadQty : nat) (useProxyDist : bool) : SmallWorldRand :=
  {| data_ := obj0 :: rest; PrintProgress_ := PrintProgress;
     use_proxy_dist_ := useProxyDist; NN_ := NN;
     efConstruction_ := efConstruction; efSearch_ := NN;
     indexThreadQty_ := indexThreadQty; searchAlgoType_ := kOld;
     ElList_ := {[ Object_id obj0 := 0 ]}; pEntryPoint_ := Some 0;
     heap := [MSWNode_new obj0 0] |}.

Section Built.
Context {S : Space}.

(** The nodes in the result of the indexing search are nodes of the
  store. *)
Definition result_valid (idx : SmallWorldRand) (st : IndexSearch) : Prop :=
Forall (λ ev, getMSWNode ev < length (heap idx)) (is_resultSet st).

(** The first [k] objects of [data] have their nodes in the store, each
  at the position of its internal id, with friends among them. *)
Definition heap_ok (data : list Object) (k : nat) (h : list MSWNode) : Prop :=
length h = k ∧
∀ p n, h !! p = Some n →
  getId n = p ∧ data !! p = Some (getData n) ∧
  Forall (λ f, f < k) (getAllFriends n).

(** The index after [k] objects have been inserted. *)
Record build_inv (data : list Object) (k : nat) (idx : SmallWorldRand) : Prop := {
bi_data : data_ idx = data;
bi_heap : heap_ok data k (heap idx);
bi_table : ∀ o p, ElList_ idx !! o = Some p ↔
                  p < k ∧ Object_id <$> data !! p = Some o
}.

End Built.

(** ** The text of a saved index *)

Definition starts_with_digit (s : string) : bool :=
  match s with String c _ => isdigit c | EmptyString => false end.

(** The line of a node with internal id [i], object id [o] and friends
    with the internal ids [fs]. *)
Fixpoint friends_text (fs : list nat) : string :=
  match fs with
  | [] => EmptyString
  | f :: fs' => " " +:+ print_Z (Z.of_nat f) +:+ friends_text fs'
  end.

Definition node_line (i : nat) (o : Z) (fs : list nat) : string :=
  print_Z (Z.of_nat i) +:+ ":" +:+ print_Z o +:+ ":" +:+ friends_text fs.

(** An entry of the saved file: internal id, object and the internal ids
    of the friends. *)
Abbreviation entry := (nat * Object * list nat)%type.

Definition entry_line (e : entry) : string :=
  node_line e.1.1 (Object_id e.1.2) e.2.

Definition node_at (h : list MSWNode) (p : nat) : MSWNode :=
  default (mkMSWNode (mkObject 0 []) 0 []) (h !! p).

Definition entry_of (h : list MSWNode) (p : nat) : entry :=
  (getId (node_at h p), getData (node_at h p),
   node_id h <$> getAllFriends (node_at h p)).

(** The node table and the store fit the data sequence: a node of the
    table is bound to the object at the position of its internal id and
    stands under the id of that object, and its friends are nodes of the
    table. *)
Record wf_index (idx : SmallWorldRand) : Prop := {
  wf_node : ∀ o p, ElList_ idx !! o = Some p →
    ∃ n, heap idx !! p = Some n ∧ data_ idx !! getId n = Some (getData n) ∧
         Object_id (getData n) = o;
  wf_friends : ∀ o p n f, ElList_ idx !! o = Some p → heap idx !! p = Some n →
    f ∈ getAllFriends n →
    ∃ m, heap idx !! f = Some m ∧ ElList_ idx !! Object_id (getData m) = Some f
}.

(** The positions of the data sequence and the ids of its objects are
    numbers of [IdType]. *)
Definition fits_IdType {M : Implementation} (data : list Object) : Prop :=
  (Z.of_nat (length data) <= IdType_max + 1)%Z ∧
  Forall (λ o, in_IdType (Object_id o) = true) data.

Definition mapped (pm : list (option nat)) (f : nat) : nat :=
  match pm !! f with Some (Some p) => p | _ => 0 end.

Definition add_friends (pfs : list nat) (n : MSWNode) : MSWNode :=
  mkMSWNode (getData n) (getId n) (getAllFriends n ++ pfs).

Section Saved.
Context {F : FieldIO} {O : ElementMapOrder} {M : Implementation}.

Definition saved_entries (idx : SmallWorldRand) : list entry :=
entry_of (heap idx) <$> (iteration (ElList_ idx)).*2.

(** What the first pass does with an entry. *)
Definition step0 (ld : Loading) (e : entry) : Loading :=
let idx := ld_index ld in
let node := length (heap idx) in
let idx1 := set_heap idx (heap idx ++ [MSWNode_new e.1.2 e.1.1]) in
mkLoading
  (match ElList_ idx !! Object_id e.1.2 with
   | Some _ => idx1
   | None => set_ElList idx1 (<[Object_id e.1.2 := node]> (ElList_ idx))
   end)
  (<[e.1.1 := Some node]> (ptrMapper ld)).

(** What the second pass does with an entry. *)
Definition step1 (ld : Loading) (e : entry) : Loading :=
let h := heap (ld_index ld) in
let p := mapped (ptrMapper ld) e.1.1 in
mkLoading
  (set_heap (ld_index ld)
     (<[p := add_friends (mapped (ptrMapper ld) <$> e.2) (node_at h p)]> h))
  (ptrMapper ld).

(** The file written for the entries [es]. *)
Definition saved_file (NN : nat) (es : list entry) : list string :=
[WriteField_str METHOD_DESC StrDesc; WriteField_nat "NN" NN] ++
(entry_line <$> es) ++
[EmptyString; WriteField_nat LINE_QTY (length es + 4)].

End Saved.

Section Loaded.
Context {F : FieldIO}.
Variables (data : list Object) (es : list entry).

Definition oid (e : entry) : Z := Object_id e.1.2.

Definition fresh_node (e : entry) : MSWNode := MSWNode_new e.1.2 e.1.1.

(** The entries fit the data sequence and no object id comes twice. *)
Definition entries_ok (l : list entry) : Prop :=
Forall (λ e, data !! e.1.1 = Some e.1.2) l ∧ NoDup (oid <$> l).

(** The state after the first pass has gone over the entries [l]. *)
Record inv0 (l : list entry) (ld : Loading) : Prop := {
inv0_data : data_ (ld_index ld) = data;
inv0_heap : heap (ld_index ld) = fresh_node <$> l;
inv0_len : length (ptrMapper ld) = length data;
inv0_table : ∀ o j, ElList_ (ld_index ld) !! o = Some j ↔
                    ∃ e, l !! j = Some e ∧ oid e = o;
inv0_mapper : ∀ i j, ptrMapper ld !! i = Some (Some j) ↔
                     ∃ e, l !! j = Some e ∧ e.1.1 = i
}.

(** The state after the second pass has gone over the first [k]
  entries; [ld0] is the state in which the first pass ended. *)
Record inv1 (ld0 : Loading) (k : nat) (ld : Loading) : Prop := {
inv1_data : data_ (ld_index ld) = data;
inv1_mapper : ptrMapper ld = ptrMapper ld0;
inv1_table : ElList_ (ld_index ld) = ElList_ (ld_index ld0);
inv1_entry : pEntryPoint_ (ld_index ld) = pEntryPoint_ (ld_index ld0);
inv1_len : length (heap (ld_index ld)) = length es;
inv1_heap : ∀ j e, es !! j = Some e →
  heap (ld_index ld) !! j
  = Some (mkMSWNode e.1.2 e.1.1
            (if decide (j < k) then mapped (ptrMapper ld0) <$> e.2 else []))
}.

(** What the second pass needs of the state to get through a line. *)
Definition pass1_ok (ld0 ld : Loading) : Prop :=
data_ (ld_index ld) = data ∧ ptrMapper ld = ptrMapper ld0 ∧
length (heap (ld_index ld)) = length es.

End Loaded.

(** ** A concrete setting: points on a line

    Objects carry one coordinate, distances are absolute differences on
    [Z], and fields are written as name, colon, value. *)
Module Sample.
Definition coord (o : Object) : Z :=
  match Object_data o with x :: _ => x | [] => 0%Z end.

#[export] Instance line_space : Space :=
  {| dist_t := Z; dist_lt := Z.ltb;
     IndexTimeDistance := λ a b, Z.abs (coord a - coord b);
     ProxyDistance := λ a b, Z.abs (coord a - coord b) |}.

Definition map_order_perm (m : gmap Z nat) : map_to_list m ≡ₚ map_to_list m :=
  Permutation_refl _.

#[export] Instance map_order : ElementMapOrder :=
  {| iteration := map_to_list; iteration_perm := map_order_perm |}.

Fixpoint strip_prefix (p s : string) : option string :=
  match p with
  | EmptyString => Some s
  | String c p' =>
    match s with
    | String d s' => if Ascii.eqb c d then strip_prefix p' s' else None
    | EmptyString => None
    end
  end.

Definition write_str (name v : string) : string := name +:+ ":" +:+ v.
Definition read_str (name line : string) : option string :=
  strip_prefix (name +:+ ":") line.
Definition write_nat (name : string) (v : nat) : string :=
  name +:+ ":" +:+ NilEmpty.string_of_uint (Nat.to_uint v).
Definition read_nat (name line : string) : option nat :=
  match strip_prefix (name +:+ ":") line with
  | Some s => Nat.of_uint <$> NilEmpty.uint_of_string s
  | None => None
  end.

(** Objects with the coordinates [l] and the ids 100, 101, ... *)
Definition points (l : list Z) : list Object :=
  imap (λ i x, mkObject (100 + Z.of_nat i) [x]) l.

Definition junk : Uninit := mkUninit 0 0 0 0 kOld None.

Definition query_at (x : Z) (k : nat) : KNNQuery :=
  mkKNNQuery _ k (λ o, Z.abs (coord o - x)).

Definition from_Ok {A : Type} (dflt : A) (r : result A) : A :=
  match r with Ok a => a | _ => dflt end.

(** Fields written as [name:value]. *)
#[export] Instance fields : FieldIO.
Proof.
  refine {| METHOD_DESC := "MethodDesc"; LINE_QTY := "LineQty";
            METH_SMALL_WORLD_RAND := "small_world_rand";
            WriteField_str := write_str; ReadField_str := read_str;
            WriteField_nat := write_nat; ReadField_nat := read_nat |}.
  - intros name v. unfold read_str, write_str.
    induction name as [|c name IH]; [reflexivity|].
    change (strip_prefix (String c (name +:+ ":"))
                         (String c (name +:+ ":" +:+ v)) = Some v).
    cbn [strip_prefix]. rewrite Ascii.eqb_refl. exact IH.
  - intros name v. unfold read_nat, write_nat.
    assert (strip_prefix (name +:+ ":")
              (name +:+ ":" +:+ NilEmpty.string_of_uint (Nat.to_uint v))
            = Some (NilEmpty.string_of_uint (Nat.to_uint v))) as ->.
    { induction name as [|c name IH]; [reflexivity|].
      change (strip_prefix (String c (name +:+ ":"))
                (String c (name +:+ ":" +:+ NilEmpty.string_of_uint (Nat.to_uint v)))
              = Some (NilEmpty.string_of_uint (Nat.to_uint v))).
      cbn [strip_prefix]. rewrite Ascii.eqb_refl. exact IH. }
    rewrite NilEmpty.usu. cbn [fmap option_fmap option_map].
    f_equal. apply DecimalNat.Unsigned.of_to.
Defined.

(** Two implementations with a 32-bit [IdType]: one evaluates the
    arguments of a call from left to right, the other from right to left.
    The first is the one meant where none is named. *)
#[export] Instance left_to_right : Implementation :=
  {| IdType_digits := 31; release_first := false |}.

Definition right_to_left : Implementation :=
  {| IdType_digits := 31; release_first := true |}.

(** A single-threaded build with [NN = 2] over the points [l], the file
    saved from it and the index loaded from that file. *)
Definition params : AnyParams := [("NN", PNat 2); ("indexThreadQty", PNat 1)].

Definition fresh (l : list Z) : SmallWorldRand :=
  SmallWorldRand_new false (points l) junk.

Definition built (l : list Z) : SmallWorldRand :=
  from_Ok (fresh []) (CreateIndex 4 params (fresh l)).

Definition saved (l : list Z) : list string :=
  from_Ok [] (SaveIndex (built l)).

Definition loaded (l : list Z) : SmallWorldRand :=
  from_Ok (fresh []) (LoadIndex (saved l) (fresh l)).

(** The index over [l] after a caller has inserted one more node, for an
    object at [x] and with the internal id [id], through [add]. *)
Definition extended (l : list Z) (x : Z) (id : nat) : SmallWorldRand :=
  let '(idx, node) := new_MSWNode (built l) (mkObject 900 [x]) id in
  from_Ok (fresh []) (add idx node (length (data_ idx))).

(** The index [idx] with [efSearch] set at query time. *)
Definition ready (efSearch : nat) (idx : SmallWorldRand) : SmallWorldRand :=
  from_Ok (fresh []) (SetQueryTimeParams [("efSearch", PNat efSearch)] idx).
End Sample.

(** * The indexing threads

    [IndexThreadParamsSW]: the members that the thread body reads.  The
    data sequence is the one of the index; the progress display is left
    out. *)
Record IndexThreadParamsSW : Type := mkIndexThreadParamsSW {
  index_every_ : nat;
  out_of_ : nat
}.

Section IndexThread.
Context {S : Space}.

(** The loop of [IndexThreadSW::operator()] (lines 84-96), entered with
    the objects from position [id] on.  [id % out_of_] is undefined for
    [out_of_ = 0]. *)
Fixpoint IndexThreadSW_loop (prm : IndexThreadParamsSW) (objs : list Object)
    (id : nat) (idx : SmallWorldRand) : result SmallWorldRand :=
  match objs with
  | [] => Ok idx
  | obj :: objs' =>
    if out_of_ prm =? 0 then Throw UndefinedBehaviour else
    if index_every_ prm =? id mod out_of_ prm then
      let '(idx1, node) := new_MSWNode idx obj id in
      idx2 <- add idx1 node (length (data_ idx)) ;;
      IndexThreadSW_loop prm objs' (Datatypes.S id) idx2
    else IndexThreadSW_loop prm objs' (Datatypes.S id) idx
  end.

(** [IndexThreadSW::operator()]: the work of one indexing thread, which
    skips the first object. *)
Definition IndexThreadSW (prm : IndexThreadParamsSW) (idx : SmallWorldRand)
    : result SmallWorldRand :=
  IndexThreadSW_loop prm (drop 1 (data_ idx)) 1 idx.
End IndexThread.

(** * The unit-test helpers of test/bunit.h *)

Module BUnit.

(** [TestException]: [what()] gives the message back. *)
Record TestException : Type := mkTestException { what : string }.

(** A helper returns or throws a [TestException]. *)
Inductive outcome : Type :=
| Passed
| Threw (e : TestException).

Definition kDisable : string := "DISABLE_".

(** What the templates ask of [T]: [operator==] and [operator<<]. *)
Class Testable (T : Type) : Type := {
  op_eq : T → T → bool;
  op_shift : T → string
}.

(** [int] with its [==] and its decimal output. *)
#[export] Instance Testable_int : Testable Z :=
  {| op_eq := Z.eqb; op_shift := print_Z |}.

(** [std::endl] *)
Definition endl : string := String (ascii_of_nat 10) EmptyString.

(** The primary template of [EQ], which does not look at [eps].  The
    specialisations for [float] and [double] are not modelled. *)
Definition EQ {T : Type} `{Testable T} (x y eps : T) : bool := op_eq x y.

Definition Expect_EQ {T : Type} `{Testable T} (msg : string) (expected actual : T)
    (file_name : string) (line_num : Z) (eps : T) : outcome :=
  if negb (EQ expected actual eps) then
    Threw (mkTestException
      (file_name +:+ "(" +:+ print_Z line_num +:+ "): " +:+
       "EXPECT_EQ(" +:+ msg +:+ ") " +:+ endl +:+
       "   expected: " +:+ op_shift expected +:+ endl +:+
       "   actual  : " +:+ op_shift actual +:+ endl))
  else Passed.

Definition Expect_NE {T : Type} `{Testable T} (msg : string) (expected actual : T)
    (file_name : string) (line_num : Z) (eps : T) : outcome :=
  if EQ expected actual eps then
    Threw (mkTestException
      (file_name +:+ "(" +:+ print_Z line_num +:+ "): " +:+
       "EXPECT_NE(" +:+ msg +:+ ") " +:+ endl +:+
       "   expected: " +:+ op_shift expected +:+ endl +:+
       "   actual  : " +:+ op_shift actual +:+ endl))
  else Passed.

(** [condition] is an [int]: zero is false, anything else true. *)
Definition Expect_True (msg : string) (condition : Z) (file_name : string)
    (line_num : Z) : outcome :=
  if (condition =? 0)%Z then
    Threw (mkTestException
      (file_name +:+ "(" +:+ print_Z line_num +:+ "): " +:+
       "EXPECT_TRUE(" +:+ msg +:+ ") " +:+ endl))
  else Passed.

Definition Expect_False (msg : string) (condition : Z) (file_name : string)
    (line_num : Z) : outcome :=
  if negb (condition =? 0)%Z then
    Threw (mkTestException
      (file_name +:+ "(" +:+ print_Z line_num +:+ "): " +:+
       " EXPECT_FALSE(" +:+ msg +:+ ") " +:+ endl))
  else Passed.

(** The head of every message: [file(line): ]. *)
Definition location (file_name : string) (line_num : Z) : string :=
  file_name +:+ "(" +:+ print_Z line_num +:+ "): ".
End BUnit.

(** * The vocabulary of the further properties *)

(** The object and the internal id of every node of the store. *)
Definition nodes (h : list MSWNode) : list (Object * nat) :=
  (λ n, (getData n, getId n)) <$> h.

(** A run returns when it ends without an exception. *)
Definition returns {A : Type} (r : result A) : Prop := ∃ a, r = Ok a.

(** The friends of the node at [p]; a pointer outside the store has
    none. *)
Definition friends (h : list MSWNode) (p : ptr) : list ptr :=
  from_option getAllFriends [] (h !! p).

(** [q] is reached from [p] along friend links. *)
Inductive reach (h : list MSWNode) (p : ptr) : ptr → Prop :=
| reach_refl : reach h p p
| reach_step q r : reach h p q → r ∈ friends h q → reach h p r.

(** The number of entries in all friend lists. *)
Definition degree_sum (h : list MSWNode) : nat :=
  sum_list (length ∘ getAllFriends <$> h).

(** [p] is the position of the first of the first [k] objects of [data]
    that has the id [o]. *)
Definition first_with_id (data : list Object) (k : nat) (o : Z) (p : nat) : Prop :=
  p < k ∧ Object_id <$> data !! p = Some o ∧
  ∀ q, q < p → Object_id <$> data !! q ≠ Some o.

(** A set of pointers [P] that holds with each node its friends. *)
Definition friend_closed (h : list MSWNode) (P : ptr → Prop) : Prop :=
  ∀ p n, P p → h !! p = Some n → Forall P (getAllFriends n).

(** A set of pointers [P] all of which are nodes with an internal id
    below [bound]. *)
Definition nodes_below (h : list MSWNode) (bound : nat) (P : ptr → Prop) : Prop :=
  ∀ p, P p → ∃ n, h !! p = Some n ∧ getId n < bound.

Section IndexingVocabulary.
Context {S : Space}.

(** What [searchForIndexing] keeps of its queues when it starts from the
    entry point with an empty result: candidates and results are in
    [P], the results are nodes evaluated, pairwise different and at
    most [NN_]. *)
Record result_inv (idx : SmallWorldRand) (P : ptr → Prop) (st : IndexSearch)
    : Prop := {
  ri_candidates : Forall (λ ev, P (getMSWNode ev)) (is_candidateSet st);
  ri_result : Forall (λ ev, P (getMSWNode ev)) (is_resultSet st);
  ri_evaluated : Forall P (evaluated (is_events st));
  ri_nodup : NoDup (getMSWNode <$> is_resultSet st);
  ri_known : ∀ ev, ev ∈ is_resultSet st → getMSWNode ev ∈ evaluated (is_events st);
  ri_length : length (is_resultSet st) ≤ NN_ idx;
  ri_some : 1 ≤ NN_ idx → is_resultSet st ≠ [];
  ri_trace : trace_inv (heap idx) (is_visitedBitset st) (is_events st)
}.

(** What keeps [searchForIndexing] clear of undefined behaviour: the bitset
    has a bit for every id, the candidates are in [P], and neither
    [closestDistQueue] nor [resultSet] is empty. *)
Record search_safe (maxInternalId : nat) (P : ptr → Prop) (st : IndexSearch)
    : Prop := {
  ss_bits : length (is_visitedBitset st) = maxInternalId + 1;
  ss_candidates : Forall (λ ev, P (getMSWNode ev)) (is_candidateSet st);
  ss_closest : is_closestDistQueue st ≠ [];
  ss_result : is_resultSet st ≠ []
}.
End IndexingVocabulary.

(** The index after the first [k] objects of [data] have been inserted
    one after another: the nodes stand at the positions of their internal
    ids, the entry point is the first node, an object id is bound to the
    first node that carries it, and the friend lists form an undirected
    graph without loops and double links. *)
Record graph_inv (data : list Object) (k : nat) (idx : SmallWorldRand) : Prop := {
  gi_data : data_ idx = data;
  gi_heap : heap_ok data k (heap idx);
  gi_k : 1 ≤ k ≤ length data;
  gi_entry : pEntryPoint_ idx = Some 0;
  gi_table : ∀ o p, ElList_ idx !! o = Some p ↔ first_with_id data k o p;
  gi_sym : ∀ p q, q ∈ friends (heap idx) p → p ∈ friends (heap idx) q;
  gi_irrefl : ∀ p, p ∉ friends (heap idx) p;
  gi_nodup : ∀ p, NoDup (friends (heap idx) p);
  gi_degree : degree_sum (heap idx) ≤ 2 * NN_ idx * (k - 1);
  gi_connected : 1 ≤ NN_ idx → ∀ p, p < k → reach (heap idx) 0 p
}.

Section QueryVocabulary.
Context {S : Space}.

(** What the classic search keeps with respect to a set of pointers [P]
    that holds the entry point and is closed under friends: the
    candidates and the nodes evaluated are in [P]. *)
Record old_inv (P : ptr → Prop) (st : OldSearch) : Prop := {
  oi_candidates : Forall (λ ev, P (getMSWNode ev)) (old_candidateQueue st);
  oi_evaluated : Forall P (evaluated (old_events st))
}.

(** What keeps the classic search clear of exceptions and undefined
    behaviour. *)
Record old_safe (idx : SmallWorldRand) (P : ptr → Prop) (st : OldSearch) : Prop := {
  os_bits : length (old_visitedBitset st) = size (ElList_ idx);
  os_candidates : Forall (λ ev, P (getMSWNode ev)) (old_candidateQueue st);
  os_closest : old_closestDistQueue st ≠ []
}.

(** The key and the node of a buffer element. *)
Definition item_pair (e : Item) : dist_t * ptr := (key e, data e).

(** [dp.1] is the distance from the query to the object of the node
    [dp.2]. *)
Definition true_distance (idx : SmallWorldRand) (query : KNNQuery)
    (dp : dist_t * ptr) : Prop :=
  ∃ n, heap idx !! dp.2 = Some n ∧ dp.1 = DistanceObjLeft query (getData n).

(** What the sorted-array search keeps of the elements [kds] that it
    holds, in the buffer or staged: each is a node of [P] with its
    distance to the query, no node comes twice, and every one has been
    evaluated. *)
Record v1_inv (idx : SmallWorldRand) (query : KNNQuery) (P : ptr → Prop)
    (kds : list (dist_t * ptr)) (events : list Event) : Prop := {
  vi_items : Forall (λ dp, P dp.2 ∧ true_distance idx query dp) kds;
  vi_nodup : NoDup kds.*2;
  vi_known : ∀ dp, dp ∈ kds → dp.2 ∈ evaluated events;
  vi_evaluated : Forall P (evaluated events)
}.

(** What keeps the sorted-array search clear of exceptions and undefined
    behaviour. *)
Record v1_safe (idx : SmallWorldRand) (P : ptr → Prop) (st : V1Search) : Prop := {
  vs_bits : length (v1_visitedBitset st) = size (ElList_ idx);
  vs_items : Forall (λ e, P (data e)) (sa_items (v1_sortedArr st));
  vs_cursor : cursor_at_first_unused st
}.
End QueryVocabulary.

(** The members that only the constructor, [CreateIndex] and
    [SetQueryTimeParams] assign. *)
Definition settings (idx : SmallWorldRand) :=
  (data_ idx, PrintProgress_ idx, use_proxy_dist_ idx, efConstruction_ idx,
   efSearch_ idx, indexThreadQty_ idx, searchAlgoType_ idx, pEntryPoint_ idx).

(** What [LoadIndex] leaves alone while it reads, and the value of [NN_]
    that it has read. *)
Definition load_frame
    (s : list Object * bool * bool * nat * nat * nat * AlgoType * option ptr)
    (NN : nat) (ld : Loading) : Prop :=
  settings (ld_index ld) = s ∧ NN_ (ld_index ld) = NN.

(** What [LoadIndex] keeps of the graph while it reads: nodes that agree
    with the data sequence and have nodes of the store as friends, a node
    table that binds object ids to nodes carrying them, and a pointer map
    into the store. *)
Record load_inv (ld : Loading) : Prop := {
  li_nodes : ∀ p n, heap (ld_index ld) !! p = Some n →
    data_ (ld_index ld) !! getId n = Some (getData n) ∧
    Forall (λ f, f < length (heap (ld_index ld))) (getAllFriends n);
  li_table : ∀ o p, ElList_ (ld_index ld) !! o = Some p →
    ∃ n, heap (ld_index ld) !! p = Some n ∧ Object_id (getData n) = o;
  li_mapper : ∀ i p, ptrMapper ld !! i = Some (Some p) →
    p < length (heap (ld_index ld))
}.

Section NearestVocabulary.
Context {S : Space}.

(** The index-time distance from the query object to the object of the
    node at [p]. *)
Definition idist (idx : SmallWorldRand) (queryObj : Object) (p : ptr) : dist_t :=
  index_distance idx (getData (node_at (heap idx) p)) queryObj.

(** A queue of [EvaluatedMSWNodeDirect] as a list: no element is followed
    by a farther one. *)
Definition farthest_first (R : list EvaluatedMSWNode) : Prop :=
  Sorted (λ a b, less_Direct a b = false) R.

(** The result queue holds the [NN_] nearest of the nodes evaluated, each
    with its distance. *)
Record nearest_inv (idx : SmallWorldRand) (queryObj : Object)
    (R : list EvaluatedMSWNode) (evd : list ptr) : Prop := {
  ni_sorted : farthest_first R;
  ni_dist : ∀ ev, ev ∈ R → getDistance ev = idist idx queryObj (getMSWNode ev);
  ni_known : ∀ ev, ev ∈ R → getMSWNode ev ∈ evd;
  ni_nodup : NoDup (getMSWNode <$> R);
  ni_full : length R < NN_ idx → ∀ p, p ∈ evd → p ∈ getMSWNode <$> R;
  ni_dropped : ∀ p ev, p ∈ evd → p ∉ getMSWNode <$> R → ev ∈ R →
    dist_lt (idist idx queryObj p) (getDistance ev) = false;
  ni_length : length R = NN_ idx `min` length evd
}.
End NearestVocabulary.

(** * Properties *)

(** ** The error monad *)

Lemma rbind_Ok {A B : Type} (r : result A) (f : A → result B) (b : B) :
  rbind r f = Ok b ↔ ∃ a, r = Ok a ∧ f a = Ok b.
Proof.
  split.
  - destruct r as [a| | |]; simpl; try discriminate. eauto.
  - intros (a & -> & Hf). exact Hf.
Qed.

Lemma rbind_terminates {A B : Type} (r : result A) (f : A → result B) :
  terminates r → (∀ a, r = Ok a → terminates (f a)) → terminates (rbind r f).
Proof. destruct r; simpl; intros Hr Hf; auto. Qed.

Lemma rbind_Throw {A B : Type} (r : result A) (f : A → result B) (e : Error) :
  rbind r f = Throw e → r = Throw e ∨ ∃ a, r = Ok a ∧ f a = Throw e.
Proof.
  destruct r as [a|e'| |]; simpl; try discriminate.
  - intros H. right. exists a. split; [reflexivity|exact H].
  - intros [= ->]. left. reflexivity.
Qed.

Lemma foldM_Throw {A B : Type} (f : A → B → result A) (e : Error) l : ∀ a,
  foldM f a l = Throw e → ∃ a' b, f a' b = Throw e.
Proof.
  induction l as [|b l IH]; intros a; simpl; [discriminate|].
  intros [H|(a1 & _ & H)]%rbind_Throw; eauto.
Qed.

Lemma foldM_app {A B : Type} (f : A → B → result A) (a : A) (l1 l2 : list B) :
  foldM f a (l1 ++ l2) = (a' <- foldM f a l1 ;; foldM f a' l2).
Proof.
  revert a. induction l1 as [|b l1 IH]; intros a; simpl; [reflexivity|].
  destruct (f a b); simpl; auto.
Qed.

(** An invariant of the folded function is an invariant of the fold. *)
Lemma foldM_invariant {A B : Type} (P : A → Prop) (f : A → B → result A) l :
  (∀ a b a', P a → f a b = Ok a' → P a') →
  ∀ a a', P a → foldM f a l = Ok a' → P a'.
Proof.
  intros Hstep. induction l as [|b l IH]; intros a a' Ha; simpl.
  - intros [= <-]. exact Ha.
  - intros (a1 & H1 & H2)%rbind_Ok. eauto.
Qed.

Lemma foldM_terminates {A B : Type} (f : A → B → result A) l :
  (∀ a b, terminates (f a b)) → ∀ a, terminates (foldM f a l).
Proof.
  intros Hf. induction l as [|b l IH]; intros a; simpl; [exact I|].
  apply rbind_terminates; auto.
Qed.

(** Taking [rbind]s and decisions apart in a hypothesis [H : ... = Ok _]. *)
Ltac split_Ok H :=
  repeat match type of H with
    | rbind _ _ = Ok _ =>
        let a := fresh "a" in let Ha := fresh "Ha" in
        apply rbind_Ok in H as (a & Ha & H)
    | (if ?c then Throw _ else _) = Ok _ =>
        let Hc := fresh "Hc" in destruct c eqn:Hc; [discriminate H|]
    | (let '(_, _) := ?p in _) = Ok _ => destruct p
    | Throw _ = Ok _ => discriminate H
    end.

(** ** The empty index and [efSearch = 0] *)

(** C8.  Over an empty data sequence [CreateIndex] either rejects its
    parameters or returns an index without nodes; on that index a kNN
    query, for any [k] and under either algorithm (however the query-time
    parameters are set), returns without error and offers nothing. *)
Theorem empty_build_then_query {S : Space} {O : ElementMapOrder}
    (hardware_concurrency : nat) (IndexParams : AnyParams)
    (PrintProgress : bool) (junk : Uninit) :
  match CreateIndex hardware_concurrency IndexParams
          (SmallWorldRand_new PrintProgress [] junk) with
  | Ok idx =>
      heap idx = [] ∧ ElList_ idx = ∅ ∧
      ∀ query : KNNQuery,
        SearchOld idx query = Ok [] ∧ SearchV1Merge idx query = Ok [] ∧
        ∀ QueryTimeParams idx',
          SetQueryTimeParams QueryTimeParams idx = Ok idx' → Search idx' query = Ok []
  | Throw e => e = ErrParam
  | OutOfFuel | Concurrent => False
  end.
Proof.
  unfold CreateIndex.
  destruct (GetParamOptional_nat IndexParams "NN" 10) as [NN|e| |] eqn:HNN;
    simpl; try (unfold GetParamOptional_nat in HNN;
                destruct (find_param _ _) as [[]|]; congruence).
  destruct (GetParamOptional_nat IndexParams "efConstruction" NN) as [efC|e| |] eqn:HefC;
    simpl; try (unfold GetParamOptional_nat in HefC;
                destruct (find_param _ _) as [[]|]; congruence).
  destruct (GetParamOptional_nat IndexParams "indexThreadQty" _) as [thr|e| |] eqn:Hthr;
    simpl; try (unfold GetParamOptional_nat in Hthr;
                destruct (find_param _ _) as [[]|]; congruence).
  destruct (GetParamOptional_bool IndexParams "useProxyDist" false) as [px|e| |] eqn:Hpx;
    simpl; try (unfold GetParamOptional_bool in Hpx;
                destruct (find_param _ _) as [[]|]; congruence).
  destruct (CheckUnused IndexParams _) as [[]|e| |] eqn:Hcu;
    simpl; try (unfold CheckUnused in Hcu; destruct (forallb _ _); congruence).
  split; [reflexivity|]. split; [reflexivity|].
  intros query. unfold SearchOld, SearchV1Merge. simpl.
  split; [reflexivity|]. split; [reflexivity|].
  intros prm idx' Hset. unfold SetQueryTimeParams in Hset.
  split_Ok Hset. injection Hset as Hset. subst idx'.
  unfold Search, SearchOld, SearchV1Merge. simpl. destruct a1; reflexivity.
Qed.

(** C10.  With [efSearch_ = 0] each of the two query algorithms, and
    [Search] whichever of them is selected, fails with "efSearch should be
    > 0" on an index whose node table is not empty, and returns without
    error and without offering anything on an empty one. *)
Theorem efSearch_zero {S : Space} (idx : SmallWorldRand) (query : KNNQuery) :
  efSearch_ idx = 0 →
  let expected := if decide (ElList_ idx = ∅) then Ok [] else Throw ErrEfSearch in
  SearchOld idx query = expected ∧ SearchV1Merge idx query = expected
  ∧ Search idx query = expected.
Proof.
  intros Hef. unfold Search, SearchOld, SearchV1Merge, SearchV1Merge_traverse,
    SearchOld_init, SearchV1Merge_init. simpl.
  rewrite Hef. simpl.
  destruct (decide (ElList_ idx = ∅)); simpl; destruct (searchAlgoType_ idx); auto.
Qed.

(** ** Priority queues *)

Lemma length_pq_push {T : Type} (less : T → T → bool) x q :
  length (pq_push less x q) = Datatypes.S (length q).
Proof.
  induction q as [|y q IH]; simpl; [reflexivity|].
  destruct (less y x); simpl; congruence.
Qed.

Lemma length_pq_pop {T : Type} (q : list T) y :
  pq_top q = Some y → Datatypes.S (length (pq_pop q)) = length q.
Proof. destruct q; simpl; [discriminate|reflexivity]. Qed.

(** ** The visited bitset bounds a traversal *)

Lemma unvisited_replicate n : unvisited (replicate n false) = n.
Proof.
  unfold unvisited. induction n as [|n IH]; [reflexivity|].
  change (replicate (Datatypes.S n) false) with (false :: replicate n false).
  rewrite filter_cons_True by reflexivity. simpl. f_equal. exact IH.
Qed.

Lemma unvisited_mark v i :
  v !! i = Some false → Datatypes.S (unvisited (<[i := true]> v)) = unvisited v.
Proof.
  unfold unvisited. revert i.
  induction v as [|b v IH]; intros [|i]; try discriminate.
  - intros [= ->]. change (<[0:=true]> (false :: v)) with (true :: v).
    rewrite filter_cons_False by discriminate.
    rewrite filter_cons_True by reflexivity. reflexivity.
  - intros Hi. change (<[Datatypes.S i:=true]> (b :: v)) with (b :: <[i:=true]> v).
    change ((b :: v) !! Datatypes.S i) with (v !! i) in Hi.
    rewrite !filter_cons.
    destruct (decide (b = false)); simpl; rewrite <- (IH i Hi); reflexivity.
Qed.

Section Visits.
Context {S : Space}.

Lemma evaluated_app l1 l2 : evaluated (l1 ++ l2) = evaluated l1 ++ evaluated l2.
Proof. apply omap_app. Qed.
Lemma pushed_app l1 l2 : pushed (l1 ++ l2) = pushed l1 ++ pushed l2.
Proof. apply omap_app. Qed.
Lemma offered_app l1 l2 : offered (l1 ++ l2) = offered l1 ++ offered l2.
Proof. apply omap_app. Qed.
Lemma offers_app l1 l2 : offers (l1 ++ l2) = offers l1 ++ offers l2.
Proof. apply omap_app. Qed.
Lemma evaluated_Dist p l : evaluated (Dist p :: l) = p :: evaluated l.
Proof. reflexivity. Qed.
Lemma pushed_Dist p l : pushed (Dist p :: l) = pushed l.
Proof. reflexivity. Qed.

Lemma visit_measure h p v k ev v' k' ev' :
  visit h p (v, k, ev) (v', k', ev') → unvisited v' + k' ≤ unvisited v + k.
Proof.
  inversion 1; subst; [lia| |];
    match goal with H : _ !! _ = Some false |- _ => apply unvisited_mark in H end;
    lia.
Qed.


Lemma trace_inv_mark h v events p n tl :
  h !! p = Some n → v !! getId n = Some false →
  evaluated tl = [] → pushed tl `sublist_of` [p] →
  trace_inv h v events →
  trace_inv h (<[getId n := true]> v) (events ++ Dist p :: tl).
Proof.
  intros Hp Hv Htl Hpush (Hnd & Hset & Hsub).
  assert (Hid : node_id h p = getId n) by (unfold node_id; rewrite Hp; reflexivity).
  assert (Hev : evaluated (events ++ Dist p :: tl) = evaluated events ++ [p]).
  { rewrite evaluated_app, evaluated_Dist, Htl. reflexivity. }
  assert (Hpu : pushed (events ++ Dist p :: tl) = pushed events ++ pushed tl).
  { rewrite pushed_app, pushed_Dist. reflexivity. }
  split; [|split].
  - rewrite Hev, fmap_app. apply NoDup_app. split; [exact Hnd|]. split.
    + intros i Hi. simpl. rewrite list_elem_of_singleton. intros ->.
      apply list_elem_of_fmap in Hi as (q & Hq & Hin).
      apply Hset in Hin. rewrite <- Hq, Hid in Hin. congruence.
    + simpl. apply NoDup_singleton.
  - intros q. rewrite Hev, elem_of_app, list_elem_of_singleton.
    intros [Hin | ->].
    + destruct (decide (node_id h q = getId n)) as [Heq|Hne].
      * apply Hset in Hin. congruence.
      * rewrite list_lookup_insert_ne by congruence. auto.
    + rewrite Hid. apply list_lookup_insert_eq.
      apply lookup_lt_Some in Hv. exact Hv.
  - rewrite Hev, Hpu. apply sublist_app; assumption.
Qed.

Lemma visit_trace_inv h p v k ev v' k' ev' :
  visit h p (v, k, ev) (v', k', ev') → trace_inv h v ev → trace_inv h v' ev'.
Proof.
  inversion 1; subst; [auto| |]; intros Hinv;
    eapply trace_inv_mark; eauto;
    match goal with H : pushed _ = _ |- _ => rewrite H end.
  - apply sublist_nil_l.
  - reflexivity.
Qed.

(** What [trace_inv] gives for the events alone. *)
Lemma trace_inv_NoDup h v events :
  trace_inv h v events →
  NoDup (node_id h <$> evaluated events) ∧
  NoDup (evaluated events) ∧ NoDup (pushed events).
Proof.
  intros (Hnd & _ & Hsub). split; [exact Hnd|].
  assert (NoDup (evaluated events)) by (eapply NoDup_fmap_1; exact Hnd).
  split; [assumption|]. eapply sublist_NoDup; eassumption.
Qed.

Lemma trace_inv_first h v p n tl :
  h !! p = Some n → getId n < length v →
  evaluated tl = [] → pushed tl = [p] →
  trace_inv h (<[getId n := true]> v) (Dist p :: tl).
Proof.
  intros Hp Hlt Htl Hpu.
  assert (Hid : node_id h p = getId n) by (unfold node_id; rewrite Hp; reflexivity).
  assert (Hev : evaluated (Dist p :: tl) = [p]).
  { rewrite evaluated_Dist, Htl. reflexivity. }
  assert (Hpush : pushed (Dist p :: tl) = [p]) by exact Hpu.
  split; [|split].
  - rewrite Hev. simpl. apply NoDup_singleton.
  - intros q. rewrite Hev, list_elem_of_singleton. intros ->.
    rewrite Hid. apply list_lookup_insert_eq. exact Hlt.
  - rewrite Hev, Hpush. reflexivity.
Qed.
End Visits.

Lemma deref_Ok h p n : deref h p = Ok n ↔ h !! p = Some n.
Proof. unfold deref. destruct (h !! p); split; congruence. Qed.

Lemma deref_terminates h p : terminates (deref h p).
Proof. unfold deref. destruct (h !! p); exact I. Qed.

Lemma bit_Ok v i b : bit v i = Ok b ↔ v !! i = Some b.
Proof. unfold bit. destruct (v !! i); split; congruence. Qed.

Lemma bit_terminates v i : terminates (bit v i).
Proof. unfold bit. destruct (v !! i); exact I. Qed.

(** ** The indexing search *)

Section IndexingFacts.
Context {S : Space}.

Lemma searchForIndexing_neighbor_visit idx queryObj maxInternalId st p st' :
  searchForIndexing_neighbor idx queryObj maxInternalId st p = Ok st' →
  visit (heap idx) p
    (is_visitedBitset st, length (is_candidateSet st), is_events st)
    (is_visitedBitset st', length (is_candidateSet st'), is_events st').
Proof.
  unfold searchForIndexing_neighbor. intros H.
  apply rbind_Ok in H as (n & Hn%deref_Ok & H).
  destruct (maxInternalId <? getId n); [discriminate|].
  apply rbind_Ok in H as (seen & Hseen%bit_Ok & H).
  destruct seen; [injection H as <-; constructor|].
  destruct (_ || _).
  - assert (visit (heap idx) p
      (is_visitedBitset st, length (is_candidateSet st), is_events st)
      (<[getId n:=true]> (is_visitedBitset st),
       length (pq_push less_Reverse
                 (mkEvaluated (index_distance idx (getData n) queryObj) p)
                 (is_candidateSet st)),
       is_events st ++ [Dist p; Push p])) as Hv.
    { rewrite length_pq_push.
      apply visit_push with (tl := [Push p]); auto. }
    destruct (length (is_resultSet st) <? NN_ idx).
    + injection H as <-. simpl. exact Hv.
    + destruct (pq_top (is_resultSet st)); [|discriminate].
      destruct (dist_lt _ _); injection H as <-; simpl; exact Hv.
  - assert (visit (heap idx) p
      (is_visitedBitset st, length (is_candidateSet st), is_events st)
      (<[getId n:=true]> (is_visitedBitset st), length (is_candidateSet st),
       is_events st ++ [Dist p])) as Hv.
    { apply visit_skip with (tl := []); auto. }
    destruct (length (is_resultSet st) <? NN_ idx).
    + injection H as <-. simpl. exact Hv.
    + destruct (pq_top (is_resultSet st)); [|discriminate].
      destruct (dist_lt _ _); injection H as <-; simpl; exact Hv.
Qed.

Lemma searchForIndexing_neighbor_terminates idx queryObj maxInternalId st p :
  terminates (searchForIndexing_neighbor idx queryObj maxInternalId st p).
Proof.
  unfold searchForIndexing_neighbor.
  apply rbind_terminates; [apply deref_terminates|]. intros n _.
  destruct (maxInternalId <? getId n); [exact I|].
  apply rbind_terminates; [apply bit_terminates|]. intros seen _.
  destruct seen; [exact I|].
  destruct (_ || _); destruct (length (is_resultSet st) <? NN_ idx);
    try exact I;
    destruct (pq_top (is_resultSet st)); try exact I;
    destruct (dist_lt _ _); exact I.
Qed.

(** What the loop over the neighbours keeps. *)
Lemma searchForIndexing_neighbors idx queryObj maxInternalId l st st' :
  foldM (searchForIndexing_neighbor idx queryObj maxInternalId) st l = Ok st' →
  unvisited (is_visitedBitset st') + length (is_candidateSet st')
    ≤ unvisited (is_visitedBitset st) + length (is_candidateSet st) ∧
  (trace_inv (heap idx) (is_visitedBitset st) (is_events st) →
   trace_inv (heap idx) (is_visitedBitset st') (is_events st')).
Proof.
  revert st st'.
  induction l as [|p l IH]; intros st st'; simpl.
  - intros [= <-]. split; [lia|auto].
  - intros (st1 & H1 & H2)%rbind_Ok.
    apply searchForIndexing_neighbor_visit in H1.
    destruct (IH _ _ H2) as [Hm Hi]. split.
    + apply visit_measure in H1. lia.
    + intros Hinv. apply Hi. eapply visit_trace_inv; eassumption.
Qed.
End IndexingFacts.

Section IndexingLoop.
Context {S : Space}.

Lemma searchForIndexing_loop_fuel idx queryObj maxInternalId fuel : ∀ st,
  unvisited (is_visitedBitset st) + length (is_candidateSet st) < fuel →
  terminates (searchForIndexing_loop fuel idx queryObj maxInternalId st).
Proof.
  induction fuel as [|fuel IH]; intros st Hlt; [lia|]. simpl.
  destruct (pq_top (is_candidateSet st)) as [currEv|] eqn:Htop; [|exact I].
  destruct (pq_top (is_closestDistQueue st)); [|exact I].
  destruct (dist_lt _ _); [exact I|].
  apply rbind_terminates; [apply deref_terminates|]. intros currNode _.
  apply rbind_terminates.
  - apply foldM_terminates. intros. apply searchForIndexing_neighbor_terminates.
  - intros st2 H2. apply IH.
    apply searchForIndexing_neighbors in H2 as [Hm _]. simpl in Hm.
    apply length_pq_pop in Htop. lia.
Qed.

Lemma searchForIndexing_loop_inv idx queryObj maxInternalId fuel : ∀ st st',
  searchForIndexing_loop fuel idx queryObj maxInternalId st = Ok st' →
  trace_inv (heap idx) (is_visitedBitset st) (is_events st) →
  trace_inv (heap idx) (is_visitedBitset st') (is_events st').
Proof.
  induction fuel as [|fuel IH]; intros st st'; simpl; [discriminate|].
  destruct (pq_top (is_candidateSet st)) as [currEv|]; [|intros [= <-]; auto].
  destruct (pq_top (is_closestDistQueue st)); [|discriminate].
  destruct (dist_lt _ _); [intros [= <-]; auto|].
  intros (currNode & _ & (st2 & H2 & Hl)%rbind_Ok)%rbind_Ok Hinv.
  apply (IH _ _ Hl).
  apply searchForIndexing_neighbors in H2 as [_ Hi]. apply Hi. exact Hinv.
Qed.

Lemma searchForIndexing_init_spec idx queryObj resultSet maxInternalId st :
  searchForIndexing_init idx queryObj resultSet maxInternalId = Ok st →
  unvisited (is_visitedBitset st) + length (is_candidateSet st) = maxInternalId + 1 ∧
  trace_inv (heap idx) (is_visitedBitset st) (is_events st).
Proof.
  unfold searchForIndexing_init.
  destruct (pEntryPoint_ idx) as [provider|]; [|discriminate].
  intros (pnode & Hp%deref_Ok & H)%rbind_Ok.
  destruct (maxInternalId <? getId pnode) eqn:Hid; [discriminate|].
  apply Nat.ltb_ge in Hid. injection H as <-. simpl.
  assert (Hb : replicate (maxInternalId + 1) false !! getId pnode = Some false).
  { apply lookup_replicate_2. lia. }
  split.
  - apply unvisited_mark in Hb. rewrite unvisited_replicate in Hb. lia.
  - apply trace_inv_first with (tl := [Push provider]); auto.
    rewrite length_replicate. lia.
Qed.

(** The rounds given to the loop of [searchForIndexing] are enough. *)
Lemma searchForIndexing_fuel idx queryObj resultSet maxInternalId :
  terminates (searchForIndexing idx queryObj resultSet maxInternalId).
Proof.
  unfold searchForIndexing. apply rbind_terminates.
  - unfold searchForIndexing_init.
    destruct (pEntryPoint_ idx) as [provider|]; [|exact I].
    apply rbind_terminates; [apply deref_terminates|]. intros n _.
    destruct (maxInternalId <? getId n); exact I.
  - intros st Hst. apply searchForIndexing_loop_fuel.
    apply searchForIndexing_init_spec in Hst as [Hm _]. lia.
Qed.

Lemma searchForIndexing_trace idx queryObj resultSet maxInternalId st :
  searchForIndexing idx queryObj resultSet maxInternalId = Ok st →
  trace_inv (heap idx) (is_visitedBitset st) (is_events st).
Proof.
  unfold searchForIndexing. intros (st0 & H0 & Hl)%rbind_Ok.
  eapply searchForIndexing_loop_inv; [exact Hl|].
  apply searchForIndexing_init_spec in H0 as [_ Hinv]. exact Hinv.
Qed.
End IndexingLoop.

(** ** The classic query search *)

Section SearchOldFacts.
Context {S : Space}.

Lemma offered_all_app query h events p n tl :
  h !! p = Some n →
  evaluated tl = [] → offers tl = [(DistanceObjLeft query (getData n), p)] →
  offered tl = [p] →
  offered_all query h events → offered_all query h (events ++ Dist p :: tl).
Proof.
  intros Hp Hev Hoff Hoffd [Heq Hall]. split.
  - rewrite offered_app, evaluated_app, evaluated_Dist, Hev, Heq.
    f_equal. exact Hoffd.
  - rewrite offers_app. apply Forall_app. split; [exact Hall|].
    change (offers (Dist p :: tl)) with (offers tl). rewrite Hoff.
    constructor; [|constructor]. exists n. split; [exact Hp|reflexivity].
Qed.

Lemma SearchOld_neighbor_visit idx query st p st' :
  SearchOld_neighbor idx query st p = Ok st' →
  visit (heap idx) p
    (old_visitedBitset st, length (old_candidateQueue st), old_events st)
    (old_visitedBitset st', length (old_candidateQueue st'), old_events st') ∧
  (offered_all query (heap idx) (old_events st) →
   offered_all query (heap idx) (old_events st')).
Proof.
  unfold SearchOld_neighbor. intros H.
  apply rbind_Ok in H as (n & Hn%deref_Ok & H).
  destruct (negb _); [discriminate|].
  apply rbind_Ok in H as (seen & Hseen%bit_Ok & H).
  destruct seen; [injection H as <-; split; [constructor|auto]|].
  destruct (_ || _); injection H as <-; simpl.
  - split.
    + rewrite length_pq_push.
      apply visit_push with (tl := [Push p; Offer _ p]); auto.
    + apply offered_all_app with (n := n); auto.
  - split.
    + apply visit_skip with (tl := [Offer _ p]); auto.
    + apply offered_all_app with (n := n); auto.
Qed.

Lemma SearchOld_neighbor_terminates idx query st p :
  terminates (SearchOld_neighbor idx query st p).
Proof.
  unfold SearchOld_neighbor.
  apply rbind_terminates; [apply deref_terminates|]. intros n _.
  destruct (negb _); [exact I|].
  apply rbind_terminates; [apply bit_terminates|]. intros seen _.
  destruct seen; [exact I|]. destruct (_ || _); exact I.
Qed.

Lemma SearchOld_neighbors idx query l : ∀ st st',
  foldM (SearchOld_neighbor idx query) st l = Ok st' →
  unvisited (old_visitedBitset st') + length (old_candidateQueue st')
    ≤ unvisited (old_visitedBitset st) + length (old_candidateQueue st) ∧
  (trace_inv (heap idx) (old_visitedBitset st) (old_events st) →
   trace_inv (heap idx) (old_visitedBitset st') (old_events st')) ∧
  (offered_all query (heap idx) (old_events st) →
   offered_all query (heap idx) (old_events st')).
Proof.
  induction l as [|p l IH]; intros st st'; simpl.
  - intros [= <-]. split; [lia|auto].
  - intros (st1 & H1 & H2)%rbind_Ok.
    apply SearchOld_neighbor_visit in H1 as [Hv Ho].
    destruct (IH _ _ H2) as (Hm & Hi & Ho'). split; [|split].
    + apply visit_measure in Hv. lia.
    + intros Hinv. apply Hi. eapply visit_trace_inv; eassumption.
    + auto.
Qed.

Lemma SearchOld_loop_fuel idx query fuel : ∀ st,
  unvisited (old_visitedBitset st) + length (old_candidateQueue st) < fuel →
  terminates (SearchOld_loop fuel idx query st).
Proof.
  induction fuel as [|fuel IH]; intros st Hlt; [lia|]. simpl.
  destruct (pq_top (old_candidateQueue st)) as [currEv|] eqn:Htop; [|exact I].
  destruct (pq_top (old_closestDistQueue st)); [|exact I].
  destruct (dist_lt _ _); [exact I|].
  apply rbind_terminates; [apply deref_terminates|]. intros currNode _.
  apply rbind_terminates.
  - apply foldM_terminates. intros. apply SearchOld_neighbor_terminates.
  - intros st2 H2. apply IH.
    apply SearchOld_neighbors in H2 as [Hm _]. simpl in Hm.
    apply length_pq_pop in Htop. lia.
Qed.

Lemma SearchOld_loop_inv idx query fuel : ∀ st st',
  SearchOld_loop fuel idx query st = Ok st' →
  (trace_inv (heap idx) (old_visitedBitset st) (old_events st) →
   trace_inv (heap idx) (old_visitedBitset st') (old_events st')) ∧
  (offered_all query (heap idx) (old_events st) →
   offered_all query (heap idx) (old_events st')).
Proof.
  induction fuel as [|fuel IH]; intros st st'; simpl; [discriminate|].
  destruct (pq_top (old_candidateQueue st)) as [currEv|]; [|intros [= <-]; auto].
  destruct (pq_top (old_closestDistQueue st)); [|discriminate].
  destruct (dist_lt _ _); [intros [= <-]; auto|].
  intros (currNode & _ & (st2 & H2 & Hl)%rbind_Ok)%rbind_Ok.
  destruct (IH _ _ Hl) as [Hi Ho].
  apply SearchOld_neighbors in H2 as (_ & Hi2 & Ho2). simpl in Hi2, Ho2.
  split; auto.
Qed.

Lemma SearchOld_init_spec idx query st :
  SearchOld_init idx query = Ok st →
  unvisited (old_visitedBitset st) + length (old_candidateQueue st)
    = size (ElList_ idx) ∧
  trace_inv (heap idx) (old_visitedBitset st) (old_events st) ∧
  offered_all query (heap idx) (old_events st).
Proof.
  unfold SearchOld_init.
  destruct (efSearch_ idx =? 0); [discriminate|].
  destruct (pEntryPoint_ idx) as [provider|]; [|discriminate].
  intros (n & Hp%deref_Ok & H)%rbind_Ok.
  destruct (getId n <? size (ElList_ idx)) eqn:Hid; [|discriminate].
  apply Nat.ltb_lt in Hid. injection H as <-. simpl.
  assert (Hb : replicate (size (ElList_ idx)) false !! getId n = Some false).
  { apply lookup_replicate_2. lia. }
  split; [|split].
  - apply unvisited_mark in Hb. rewrite unvisited_replicate in Hb. lia.
  - apply trace_inv_first with (tl := [Offer _ provider; Push provider]); auto.
    rewrite length_replicate. lia.
  - split; [reflexivity|]. constructor; [|constructor].
    exists n. split; [exact Hp|reflexivity].
Qed.

(** The rounds given to the loop of [SearchOld] are enough. *)
Lemma SearchOld_fuel idx query : terminates (SearchOld idx query).
Proof.
  unfold SearchOld. destruct (decide _) as [|Hne]; [exact I|].
  apply rbind_terminates.
  - unfold SearchOld_init.
    destruct (efSearch_ idx =? 0); [exact I|].
    destruct (pEntryPoint_ idx) as [provider|]; [|exact I].
    apply rbind_terminates; [apply deref_terminates|]. intros n _.
    destruct (negb _); exact I.
  - intros st Hst. apply rbind_terminates; [|intros; exact I].
    apply SearchOld_loop_fuel.
    apply SearchOld_init_spec in Hst as [Hm _]. lia.
Qed.

Lemma SearchOld_trace idx query events :
  SearchOld idx query = Ok events →
  (∃ v, trace_inv (heap idx) v events) ∧ offered_all query (heap idx) events.
Proof.
  unfold SearchOld. destruct (decide _).
  - intros [= <-]. split.
    + exists []. split; [constructor|]. split; [inversion 1|reflexivity].
    + split; [reflexivity|constructor].
  - intros (st0 & H0 & (st & Hl & [= <-])%rbind_Ok)%rbind_Ok.
    apply SearchOld_init_spec in H0 as (_ & Hi0 & Ho0).
    apply SearchOld_loop_inv in Hl as [Hi Ho]. eauto.
Qed.
End SearchOldFacts.

(** C5.  In a run of [SearchOld] the nodes offered to the result sink are
    the nodes whose distance to the query was computed, in the same order
    and each with the distance computed for it, whether or not the node
    was pushed into the queues; and no node is offered twice (the nodes
    offered have pairwise different internal ids). *)
Theorem SearchOld_offers_every_evaluated_node {S : Space}
    (idx : SmallWorldRand) (query : KNNQuery) (events : list Event) :
  SearchOld idx query = Ok events →
  offered events = evaluated events ∧
  Forall (λ dp, ∃ n, heap idx !! dp.2 = Some n ∧
                     dp.1 = DistanceObjLeft query (getData n)) (offers events) ∧
  pushed events `sublist_of` offered events ∧
  NoDup (offered events) ∧
  NoDup (node_id (heap idx) <$> offered events).
Proof.
  intros H. apply SearchOld_trace in H as [[v Hinv] [Heq Hall]].
  destruct (trace_inv_NoDup _ _ _ Hinv) as (Hids & Hnd & _).
  destruct Hinv as (_ & _ & Hsub).
  rewrite Heq. auto.
Qed.

(** ** The sorted buffer *)

Section SortArrBIFacts.
Context {S : Space}.

Lemma unused_app l1 l2 : unused (l1 ++ l2) = unused l1 + unused l2.
Proof. unfold unused. rewrite filter_app, length_app. reflexivity. Qed.

Lemma unused_cons x l :
  unused (x :: l) = (if used x then 0 else 1) + unused l.
Proof.
  unfold unused. rewrite filter_cons.
  destruct (used x); destruct (decide _); simpl; congruence.
Qed.

Lemma unused_le_length l : unused l ≤ length l.
Proof. apply length_filter. Qed.

Lemma unused_take n l : unused (take n l) ≤ unused l.
Proof.
  rewrite <- (take_drop n l) at 2. rewrite unused_app. lia.
Qed.

Lemma unused_insert_at i x l :
  unused (insert_at i x l) = (if used x then 0 else 1) + unused l.
Proof.
  unfold insert_at. rewrite unused_app, unused_cons.
  rewrite <- (take_drop i l) at 3. rewrite unused_app. lia.
Qed.

Lemma unused_mark l i e :
  l !! i = Some e → used e = false →
  Datatypes.S (unused (<[i := mkItem (key e) (data e) true]> l)) = unused l.
Proof.
  revert i. induction l as [|x l IH]; intros [|i]; try discriminate.
  - intros [= ->] He.
    change (<[0:=?y]> (e :: l)) with (y :: l).
    rewrite !unused_cons, He. reflexivity.
  - intros Hi He.
    change (<[Datatypes.S i:=?y]> (x :: l)) with (x :: <[i:=y]> l).
    rewrite !unused_cons. rewrite <- (IH i Hi He). lia.
Qed.

Lemma merge_marked_nil_l l2 : merge_marked [] l2 = pair true <$> l2.
Proof. destruct l2; reflexivity. Qed.

Lemma merge_marked_nil_r l1 : merge_marked l1 [] = pair false <$> l1.
Proof. destruct l1; reflexivity. Qed.

Lemma merge_marked_cons a l1 b l2 :
  merge_marked (a :: l1) (b :: l2) =
  if dist_lt (key b) (key a) then (true, b) :: merge_marked (a :: l1) l2
  else (false, a) :: merge_marked l1 (b :: l2).
Proof. reflexivity. Qed.

Lemma snd_pair_fmap (m : bool) (l : list Item) : (pair m <$> l).*2 = l.
Proof.
  induction l as [|x l IH]; [reflexivity|].
  rewrite !fmap_cons, IH. reflexivity.
Qed.

Lemma unused_merge_marked l1 : ∀ l2,
  unused (merge_marked l1 l2).*2 = unused l1 + unused l2.
Proof.
  induction l1 as [|a l1 IH1]; intros l2.
  - rewrite merge_marked_nil_l, snd_pair_fmap. reflexivity.
  - induction l2 as [|b l2 IH2].
    + rewrite merge_marked_nil_r, snd_pair_fmap.
      change (unused []) with 0. lia.
    + rewrite merge_marked_cons. destruct (dist_lt (key b) (key a)).
      * rewrite fmap_cons. simpl snd. rewrite (unused_cons b), (unused_cons b).
        rewrite IH2. lia.
      * rewrite fmap_cons. simpl snd. rewrite (unused_cons a), (unused_cons a).
        rewrite IH1. lia.
Qed.

Lemma length_sort_insert x l : length (sort_insert x l) = Datatypes.S (length l).
Proof.
  induction l as [|y l IH]; simpl; [reflexivity|].
  destruct (dist_lt _ _); simpl; congruence.
Qed.

Lemma length_sort_items l : length (sort_items l) = length l.
Proof.
  induction l as [|x l IH]; simpl; [reflexivity|].
  rewrite length_sort_insert. congruence.
Qed.

Lemma unused_push_or_replace sa k v sa' i :
  push_or_replace_non_empty_exp sa k v = (sa', i) →
  unused (sa_items sa') ≤ Datatypes.S (unused (sa_items sa)).
Proof.
  unfold push_or_replace_non_empty_exp.
  destruct (_ && _); intros [= <- <-]; simpl; [lia|].
  etransitivity; [apply unused_take|]. rewrite unused_insert_at. simpl. lia.
Qed.

Lemma unused_push_each batch : ∀ sa cur sa' cur',
  push_each sa cur batch = (sa', cur') →
  unused (sa_items sa') ≤ unused (sa_items sa) + length batch.
Proof.
  unfold push_each.
  induction batch as [|it batch IH]; intros sa cur sa' cur'; simpl.
  - intros [= <- <-]. lia.
  - destruct (push_or_replace_non_empty_exp sa (key it) (data it))
      as [sa1 i] eqn:Hp.
    intros H. apply IH in H. apply unused_push_or_replace in Hp. lia.
Qed.

Lemma unused_merge_with_sorted_items sa batch sa' i :
  merge_with_sorted_items sa batch = (sa', i) →
  unused (sa_items sa') ≤ unused (sa_items sa) + length batch.
Proof.
  unfold merge_with_sorted_items. intros [= <- <-]. simpl.
  rewrite fmap_take. etransitivity; [apply unused_take|].
  rewrite unused_merge_marked. pose proof (unused_le_length batch). lia.
Qed.
End SortArrBIFacts.

(** ** The sorted-array query search *)

Section SearchV1MergeFacts.
Context {S : Space}.

Lemma SearchV1Merge_neighbor_visit idx query sz topKey v buf ev p v' buf' ev' :
  SearchV1Merge_neighbor idx query sz topKey (v, buf, ev) p = Ok (v', buf', ev') →
  visit (heap idx) p (v, length buf, ev) (v', length buf', ev').
Proof.
  unfold SearchV1Merge_neighbor. intros H.
  apply rbind_Ok in H as (n & Hn%deref_Ok & H).
  destruct (negb _); [discriminate|].
  apply rbind_Ok in H as (seen & Hseen%bit_Ok & H).
  destruct seen; [injection H as <- <- <-; constructor|].
  destruct (_ || _); injection H as <- <- <-.
  - rewrite length_app. simpl. rewrite Nat.add_1_r.
    apply visit_push with (tl := [Push p]); auto.
  - apply visit_skip with (tl := []); auto.
Qed.

Lemma SearchV1Merge_neighbor_terminates idx query sz topKey acc p :
  terminates (SearchV1Merge_neighbor idx query sz topKey acc p).
Proof.
  unfold SearchV1Merge_neighbor. destruct acc as [[v buf] ev].
  apply rbind_terminates; [apply deref_terminates|]. intros n _.
  destruct (negb _); [exact I|].
  apply rbind_terminates; [apply bit_terminates|]. intros seen _.
  destruct seen; [exact I|]. destruct (_ || _); exact I.
Qed.

Lemma SearchV1Merge_neighbors idx query sz topKey l : ∀ v buf ev v' buf' ev',
  foldM (SearchV1Merge_neighbor idx query sz topKey) (v, buf, ev) l
    = Ok (v', buf', ev') →
  unvisited v' + length buf' ≤ unvisited v + length buf ∧
  (trace_inv (heap idx) v ev → trace_inv (heap idx) v' ev').
Proof.
  induction l as [|p l IH]; intros v buf ev v' buf' ev'; simpl.
  - intros [= <- <- <-]. split; [lia|auto].
  - intros ([[v1 buf1] ev1] & H1 & H2)%rbind_Ok.
    apply SearchV1Merge_neighbor_visit in H1.
    destruct (IH _ _ _ _ _ _ H2) as [Hm Hi]. split.
    + apply visit_measure in H1. lia.
    + intros Hinv. apply Hi. eapply visit_trace_inv; eassumption.
Qed.

Lemma unused_SearchV1Merge_insert sa cur buf sa' cur' :
  SearchV1Merge_insert sa cur buf = (sa', cur') →
  unused (sa_items sa') ≤ unused (sa_items sa) + length buf.
Proof.
  unfold SearchV1Merge_insert.
  destruct (length buf =? 0); [intros [= <- <-]; lia|].
  destruct (_ <? length buf).
  - destruct (merge_with_sorted_items sa (sort_items buf)) as [sa1 i] eqn:Hm.
    intros [= <- <-]. apply unused_merge_with_sorted_items in Hm.
    rewrite length_sort_items in Hm. exact Hm.
  - intros H. apply unused_push_each in H.
    rewrite length_sort_items in H. exact H.
Qed.

(** A round of the main loop, taken apart. *)
Lemma SearchV1Merge_step_Ok idx query st st' :
  SearchV1Merge_step idx query st = Ok st' →
  ∃ e currNode buf sa2 cur2,
    sa_items (v1_sortedArr st) !! v1_currElem st = Some e ∧ used e = false ∧
    heap idx !! data e = Some currNode ∧
    let sa1 := mkSortArrBI (sa_capacity (v1_sortedArr st))
                 (<[v1_currElem st := mkItem (key e) (data e) true]>
                    (sa_items (v1_sortedArr st))) in
    foldM (SearchV1Merge_neighbor idx query (sa_size sa1) (top_key sa1))
      (v1_visitedBitset st, [], v1_events st) (getAllFriends currNode)
      = Ok (v1_visitedBitset st', buf, v1_events st') ∧
    SearchV1Merge_insert sa1 (v1_currElem st + 1) buf = (sa2, cur2) ∧
    v1_sortedArr st' = sa2 ∧
    v1_currElem st' = skip_used (sa_size sa2) (sa_items sa2) cur2.
Proof.
  unfold SearchV1Merge_step.
  destruct (sa_items (v1_sortedArr st) !! v1_currElem st) as [e|] eqn:He;
    [|discriminate].
  destruct (used e) eqn:Hu; [discriminate|].
  intros (currNode & Hc%deref_Ok & ([[v buf] ev] & Hf & H)%rbind_Ok)%rbind_Ok.
  destruct (SearchV1Merge_insert _ _ buf) as [sa2 cur2] eqn:Hins.
  injection H as <-. simpl.
  exists e, currNode, buf, sa2, cur2. auto 10.
Qed.

Lemma SearchV1Merge_step_terminates idx query st :
  terminates (SearchV1Merge_step idx query st).
Proof.
  unfold SearchV1Merge_step.
  destruct (sa_items (v1_sortedArr st) !! v1_currElem st) as [e|]; [|exact I].
  destruct (used e); [exact I|].
  apply rbind_terminates; [apply deref_terminates|]. intros currNode _.
  apply rbind_terminates.
  - apply foldM_terminates. intros. apply SearchV1Merge_neighbor_terminates.
  - intros [[v buf] ev] _. destruct (SearchV1Merge_insert _ _ buf). exact I.
Qed.

(** A round of the loop lowers the number of clear bits plus unused
    buffer elements, and keeps what holds of the events. *)
Lemma SearchV1Merge_step_measure idx query st st' :
  SearchV1Merge_step idx query st = Ok st' →
  unvisited (v1_visitedBitset st') + unused (sa_items (v1_sortedArr st'))
    < unvisited (v1_visitedBitset st) + unused (sa_items (v1_sortedArr st)) ∧
  (trace_inv (heap idx) (v1_visitedBitset st) (v1_events st) →
   trace_inv (heap idx) (v1_visitedBitset st') (v1_events st')).
Proof.
  intros (e & currNode & buf & sa2 & cur2 & He & Hu & _ & Hf & Hins & Hsa & _)
    %SearchV1Merge_step_Ok.
  simpl in Hf, Hins.
  apply SearchV1Merge_neighbors in Hf as [Hm Hi].
  apply unused_SearchV1Merge_insert in Hins. simpl in Hins, Hm.
  pose proof (unused_mark _ _ _ He Hu). rewrite Hsa.
  split; [lia|exact Hi].
Qed.

Lemma SearchV1Merge_loop_fuel idx query fuel : ∀ st,
  unvisited (v1_visitedBitset st) + unused (sa_items (v1_sortedArr st)) < fuel →
  terminates (SearchV1Merge_loop fuel idx query st).
Proof.
  induction fuel as [|fuel IH]; intros st Hlt; [lia|]. simpl.
  destruct (SearchV1Merge_cond idx st); [|exact I].
  apply rbind_terminates; [apply SearchV1Merge_step_terminates|].
  intros st' Hst. apply IH.
  apply SearchV1Merge_step_measure in Hst as [Hm _]. lia.
Qed.

Lemma SearchV1Merge_init_spec idx query st :
  SearchV1Merge_init idx query = Ok st →
  unvisited (v1_visitedBitset st) + unused (sa_items (v1_sortedArr st))
    = size (ElList_ idx) ∧
  trace_inv (heap idx) (v1_visitedBitset st) (v1_events st).
Proof.
  unfold SearchV1Merge_init.
  destruct (efSearch_ idx =? 0); [discriminate|].
  destruct (pEntryPoint_ idx) as [currNode|]; [|discriminate].
  intros (n & Hp%deref_Ok & H)%rbind_Ok.
  destruct (getId n <? size (ElList_ idx)) eqn:Hid; [|discriminate].
  apply Nat.ltb_lt in Hid. injection H as <-. simpl.
  assert (Hb : replicate (size (ElList_ idx)) false !! getId n = Some false).
  { apply lookup_replicate_2. lia. }
  split.
  - apply unvisited_mark in Hb. rewrite unvisited_replicate in Hb.
    rewrite unused_cons. simpl. change (unused []) with 0. lia.
  - apply trace_inv_first with (tl := [Push currNode]); auto.
    rewrite length_replicate. lia.
Qed.

(** The rounds given to the loop of [SearchV1Merge] are enough. *)
Lemma SearchV1Merge_fuel idx query : terminates (SearchV1Merge idx query).
Proof.
  unfold SearchV1Merge. destruct (decide _) as [|Hne]; [exact I|].
  apply rbind_terminates.
  - unfold SearchV1Merge_traverse. apply rbind_terminates.
    + unfold SearchV1Merge_init.
      destruct (efSearch_ idx =? 0); [exact I|].
      destruct (pEntryPoint_ idx) as [currNode|]; [|exact I].
      apply rbind_terminates; [apply deref_terminates|]. intros n _.
      destruct (negb _); exact I.
    + intros st Hst. apply SearchV1Merge_loop_fuel.
      apply SearchV1Merge_init_spec in Hst as [Hm _]. lia.
  - intros st _. unfold SearchV1Merge_emit.
    apply foldM_terminates. intros ev e.
    apply rbind_terminates; [apply deref_terminates|]. intros; exact I.
Qed.

Lemma SearchV1Merge_loop_inv idx query fuel : ∀ st st',
  SearchV1Merge_loop fuel idx query st = Ok st' →
  trace_inv (heap idx) (v1_visitedBitset st) (v1_events st) →
  trace_inv (heap idx) (v1_visitedBitset st') (v1_events st').
Proof.
  induction fuel as [|fuel IH]; intros st st'; simpl; [discriminate|].
  destruct (SearchV1Merge_cond idx st); [|intros [= <-]; auto].
  intros (st1 & H1 & Hl)%rbind_Ok Hinv.
  apply (IH _ _ Hl). apply SearchV1Merge_step_measure in H1 as [_ Hi]. auto.
Qed.
End SearchV1MergeFacts.

Section SearchV1MergeEmit.
Context {S : Space}.

Lemma emit_fold idx (l : list Item) : ∀ ev events,
  foldM (λ events e,
           _ <- deref (heap idx) (data e) ;;
           Ok (events ++ [Offer (key e) (data e)])) ev l = Ok events →
  events = ev ++ (Offer_item <$> l).
Proof.
  induction l as [|e l IH]; intros ev events; simpl.
  - intros [= <-]. rewrite app_nil_r. reflexivity.
  - intros (ev1 & (n & _ & [= <-])%rbind_Ok & H)%rbind_Ok.
    apply IH in H. rewrite H, <- app_assoc. reflexivity.
Qed.

Lemma SearchV1Merge_emit_Ok idx query st events :
  SearchV1Merge_emit idx query st = Ok events →
  events = v1_events st ++
           (Offer_item <$> take (GetK query `min` sa_size (v1_sortedArr st))
                                (sa_items (v1_sortedArr st))).
Proof. apply emit_fold. Qed.

Lemma evaluated_Offer_items (l : list Item) : evaluated (Offer_item <$> l) = [].
Proof. induction l; [reflexivity|]. rewrite fmap_cons. exact IHl. Qed.

Lemma pushed_Offer_items (l : list Item) : pushed (Offer_item <$> l) = [].
Proof. induction l; [reflexivity|]. rewrite fmap_cons. exact IHl. Qed.

Lemma offers_Offer_items (l : list Item) :
  offers (Offer_item <$> l) = (λ e, (key e, data e)) <$> l.
Proof.
  induction l as [|e l IH]; [reflexivity|].
  rewrite !fmap_cons.
  change (offers (Offer_item e :: (Offer_item <$> l)))
    with ((key e, data e) :: offers (Offer_item <$> l)).
  rewrite IH. reflexivity.
Qed.

(** No offer is made before the main loop of [SearchV1Merge] ends. *)
Lemma SearchV1Merge_neighbor_offers idx query sz topKey acc p acc' :
  SearchV1Merge_neighbor idx query sz topKey acc p = Ok acc' →
  offers acc.2 = [] → offers acc'.2 = [].
Proof.
  unfold SearchV1Merge_neighbor. destruct acc as [[v buf] ev]. intros H.
  apply rbind_Ok in H as (n & _ & H).
  destruct (negb _); [discriminate|].
  apply rbind_Ok in H as (seen & _ & H).
  destruct seen; [injection H as <-; auto|].
  destruct (_ || _); injection H as <-; simpl;
    intros Hev; rewrite offers_app, Hev; reflexivity.
Qed.

Lemma SearchV1Merge_step_offers idx query st st' :
  SearchV1Merge_step idx query st = Ok st' →
  offers (v1_events st) = [] → offers (v1_events st') = [].
Proof.
  intros (e & currNode & buf & sa2 & cur2 & _ & _ & _ & Hf & _)
    %SearchV1Merge_step_Ok. simpl in Hf.
  revert Hf. generalize (getAllFriends currNode).
  intros l Hf H0.
  eapply (foldM_invariant
            (λ acc : list bool * list Item * list Event, offers acc.2 = []))
    in Hf; [exact Hf| |exact H0].
  intros a b a' Ha Hstep. eapply SearchV1Merge_neighbor_offers; eassumption.
Qed.

Lemma SearchV1Merge_traverse_spec idx query st :
  SearchV1Merge_traverse idx query = Ok st →
  trace_inv (heap idx) (v1_visitedBitset st) (v1_events st) ∧
  offers (v1_events st) = [].
Proof.
  unfold SearchV1Merge_traverse. intros (st0 & H0 & Hl)%rbind_Ok.
  assert (Hoff0 : offers (v1_events st0) = []).
  { unfold SearchV1Merge_init in H0.
    destruct (efSearch_ idx =? 0); [discriminate|].
    destruct (pEntryPoint_ idx) as [currNode|]; [|discriminate].
    apply rbind_Ok in H0 as (n & _ & H0).
    destruct (negb _); [discriminate|]. injection H0 as <-. reflexivity. }
  split.
  - eapply SearchV1Merge_loop_inv; [exact Hl|].
    apply SearchV1Merge_init_spec in H0 as [_ Hinv]. exact Hinv.
  - clear H0. revert Hl Hoff0. generalize (size (ElList_ idx) + 1).
    intros fuel. revert st0.
    induction fuel as [|fuel IH]; intros st0; simpl; [discriminate|].
    destruct (SearchV1Merge_cond idx st0); [|intros [= <-]; auto].
    intros (st1 & H1 & Hl)%rbind_Ok Hoff. apply (IH _ Hl).
    eapply SearchV1Merge_step_offers; eassumption.
Qed.
End SearchV1MergeEmit.

(** C9.  The indexing search and both query searches terminate (they
    return or throw) within the rounds that the model gives their loops:
    [maxInternalId + 2] tests of the loop condition for the indexing
    search and [ElList_.size() + 1] for the query searches.  In a run that
    returns, no node has its distance computed twice (the nodes evaluated
    have pairwise different internal ids) and no node enters the frontier
    twice. *)
Theorem searches_terminate {S : Space} (idx : SmallWorldRand)
    (queryObj : Object) (resultSet : list EvaluatedMSWNode) (maxInternalId : nat)
    (query : KNNQuery) :
  (terminates (searchForIndexing idx queryObj resultSet maxInternalId) ∧
   ∀ st, searchForIndexing idx queryObj resultSet maxInternalId = Ok st →
         NoDup (node_id (heap idx) <$> evaluated (is_events st)) ∧
         NoDup (evaluated (is_events st)) ∧ NoDup (pushed (is_events st))) ∧
  (terminates (SearchOld idx query) ∧
   ∀ events, SearchOld idx query = Ok events →
             NoDup (node_id (heap idx) <$> evaluated events) ∧
             NoDup (evaluated events) ∧ NoDup (pushed events)) ∧
  (terminates (SearchV1Merge idx query) ∧
   ∀ events, SearchV1Merge idx query = Ok events →
             NoDup (node_id (heap idx) <$> evaluated events) ∧
             NoDup (evaluated events) ∧ NoDup (pushed events)).
Proof.
  split; [|split].
  - split; [apply searchForIndexing_fuel|].
    intros st Hst. eapply trace_inv_NoDup, searchForIndexing_trace, Hst.
  - split; [apply SearchOld_fuel|].
    intros events Hev. apply SearchOld_trace in Hev as [[v Hinv] _].
    eapply trace_inv_NoDup, Hinv.
  - split; [apply SearchV1Merge_fuel|].
    intros events. unfold SearchV1Merge.
    destruct (decide _) as [|Hne].
    + intros [= <-]. repeat split; constructor.
    + intros (st & Ht & He)%rbind_Ok.
      apply SearchV1Merge_traverse_spec in Ht as [Hinv _].
      apply SearchV1Merge_emit_Ok in He. subst events.
      apply trace_inv_NoDup in Hinv.
      rewrite evaluated_app, pushed_app, evaluated_Offer_items,
        pushed_Offer_items, !app_nil_r. exact Hinv.
Qed.

(** ** The cursor of the sorted-array search *)

Section Cursor.
Context {S : Space}.

Lemma prefix_used_take l l' cur :
  take cur l' = take cur l → prefix_used l cur → prefix_used l' cur.
Proof.
  intros Ht Hp i Hi. destruct (Hp i Hi) as (e & He & Hu). exists e.
  split; [|exact Hu].
  rewrite <- (lookup_take_lt l' cur i), Ht, lookup_take_lt by lia. exact He.
Qed.

Lemma prefix_used_le l cur cur' :
  cur' ≤ cur → prefix_used l cur → prefix_used l cur'.
Proof. intros Hle Hp i Hi. apply Hp. lia. Qed.

Lemma sorted_pos_le k l : sorted_pos k l ≤ length l.
Proof.
  induction l as [|x l IH]; simpl; [lia|]. destruct (dist_lt _ _); lia.
Qed.

Lemma sorted_pos_lt_last k l x :
  last l = Some x → dist_lt k (key x) = true → sorted_pos k l < length l.
Proof.
  induction l as [|y l IH]; [discriminate|]. simpl sorted_pos.
  destruct (dist_lt k (key y)) eqn:Hy; [simpl; lia|].
  destruct l as [|z l]; [intros [= ->]; congruence|].
  intros Hl Hx. simpl length. apply Nat.succ_lt_mono in IH; auto.
Qed.

Lemma take_insert_at i x l :
  i ≤ length l → take i (insert_at i x l) = take i l.
Proof.
  intros Hi. unfold insert_at.
  rewrite take_app_le by (rewrite length_take; lia).
  rewrite take_take. f_equal. lia.
Qed.

Lemma length_insert_at i x l : length (insert_at i x l) = Datatypes.S (length l).
Proof.
  unfold insert_at. rewrite length_app. simpl.
  rewrite length_take, length_drop. lia.
Qed.

(** [push_or_replace_non_empty_exp] leaves what is in front of the
    position it returns; the buffer does not shrink and stays within
    its capacity. *)
Lemma push_or_replace_prefix sa k v sa' i :
  sa_size sa ≤ sa_capacity sa →
  push_or_replace_non_empty_exp sa k v = (sa', i) →
  take i (sa_items sa') = take i (sa_items sa) ∧
  sa_size sa ≤ sa_size sa' ≤ sa_capacity sa' ∧ sa_capacity sa' = sa_capacity sa.
Proof.
  unfold push_or_replace_non_empty_exp, sa_size. intros Hwf.
  destruct (length (sa_items sa) =? sa_capacity sa) eqn:Hfull; simpl.
  - apply Nat.eqb_eq in Hfull. unfold top_key, sa_size.
    rewrite Hfull, Nat.eqb_refl.
    destruct (last (sa_items sa)) as [x|] eqn:Hlast; simpl.
    + destruct (dist_lt k (key x)) eqn:Hlt; simpl; intros [= <- <-]; simpl.
      * pose proof (sorted_pos_lt_last _ _ _ Hlast Hlt) as Hpos.
        rewrite take_take, length_take, length_insert_at.
        split; [|lia].
        replace (_ `min` _) with (sorted_pos k (sa_items sa)) by lia.
        apply take_insert_at. lia.
      * split; [reflexivity|lia].
    + intros [= <- <-]. simpl. rewrite length_take, length_insert_at.
      split; [|lia]. apply last_None in Hlast. rewrite Hlast. reflexivity.
  - apply Nat.eqb_neq in Hfull. intros [= <- <-]. simpl.
    pose proof (sorted_pos_le k (sa_items sa)) as Hpos.
    rewrite take_take, length_take, length_insert_at.
    split; [|lia].
    replace (_ `min` _) with (sorted_pos k (sa_items sa)) by lia.
    apply take_insert_at. lia.
Qed.

Lemma push_each_prefix batch : ∀ sa cur sa' cur',
  sa_size sa ≤ sa_capacity sa →
  push_each sa cur batch = (sa', cur') →
  cur' ≤ cur ∧ take cur' (sa_items sa') = take cur' (sa_items sa) ∧
  sa_size sa ≤ sa_size sa' ≤ sa_capacity sa' ∧ sa_capacity sa' = sa_capacity sa.
Proof.
  unfold push_each.
  induction batch as [|it batch IH]; intros sa cur sa' cur' Hwf; simpl.
  - intros [= <- <-]. split; [lia|]. split; [reflexivity|lia].
  - destruct (push_or_replace_non_empty_exp sa (key it) (data it))
      as [sa1 i] eqn:Hp.
    apply push_or_replace_prefix in Hp as (Ht & Hsz & Hcap); [|exact Hwf].
    intros H. apply IH in H as (Hle & Ht' & Hsz' & Hcap'); [|lia].
    assert (cur' ≤ i ∧ cur' ≤ cur) as [Hi Hc]
      by (destruct (i <? cur) eqn:E;
          [apply Nat.ltb_lt in E|apply Nat.ltb_ge in E]; lia).
    split; [exact Hc|]. split; [|lia].
    rewrite Ht'. rewrite <- (Nat.min_l cur' i) by lia.
    rewrite <- !take_take, Ht. reflexivity.
Qed.

Lemma first_marked_le (l : list (bool * Item)) : first_marked l ≤ length l.
Proof.
  induction l as [|[m x] l IH]; simpl; [lia|]. destruct m; lia.
Qed.

Lemma first_marked_take c (l : list (bool * Item)) :
  first_marked (take c l) = c `min` first_marked l.
Proof.
  revert c. induction l as [|[m x] l IH]; intros [|c]; simpl; try reflexivity.
  destruct m; [reflexivity|]. rewrite IH. reflexivity.
Qed.

(** In front of the first element of the batch the merge holds the
    elements of the buffer. *)
Lemma merge_marked_prefix l1 : ∀ l2,
  take (first_marked (merge_marked l1 l2)) (merge_marked l1 l2).*2
  = take (first_marked (merge_marked l1 l2)) l1.
Proof.
  induction l1 as [|a l1 IH1]; intros l2.
  - rewrite merge_marked_nil_l. destruct l2; reflexivity.
  - destruct l2 as [|b l2].
    + rewrite merge_marked_nil_r, snd_pair_fmap. reflexivity.
    + rewrite merge_marked_cons. destruct (dist_lt (key b) (key a)).
      * reflexivity.
      * simpl first_marked. rewrite fmap_cons. simpl. f_equal. apply IH1.
Qed.

Lemma length_merge_marked l1 : ∀ l2,
  length (merge_marked l1 l2) = length l1 + length l2.
Proof.
  induction l1 as [|a l1 IH1]; intros l2.
  - rewrite merge_marked_nil_l, length_fmap. reflexivity.
  - induction l2 as [|b l2 IH2].
    + rewrite merge_marked_nil_r, length_fmap. simpl. lia.
    + rewrite merge_marked_cons. destruct (dist_lt _ _); simpl.
      * simpl in IH2. rewrite IH2. lia.
      * rewrite IH1. simpl. lia.
Qed.

Lemma merge_with_sorted_items_prefix sa batch sa' i :
  sa_size sa ≤ sa_capacity sa →
  merge_with_sorted_items sa batch = (sa', i) →
  take i (sa_items sa') = take i (sa_items sa) ∧
  sa_size sa ≤ sa_size sa' ≤ sa_capacity sa' ∧ sa_capacity sa' = sa_capacity sa.
Proof.
  unfold merge_with_sorted_items, sa_size. intros Hwf [= <- <-]. simpl.
  split.
  - rewrite first_marked_take, fmap_take, take_take.
    set (m := merge_marked (sa_items sa) batch).
    replace ((_ `min` first_marked m) `min` _)
      with (sa_capacity sa `min` first_marked m) by lia.
    rewrite <- !take_take. unfold m. rewrite merge_marked_prefix. reflexivity.
  - rewrite length_fmap, length_take, length_merge_marked. lia.
Qed.

Lemma SearchV1Merge_insert_prefix sa cur buf sa' cur' :
  sa_size sa ≤ sa_capacity sa →
  SearchV1Merge_insert sa cur buf = (sa', cur') →
  cur' ≤ cur ∧ take cur' (sa_items sa') = take cur' (sa_items sa) ∧
  sa_size sa ≤ sa_size sa' ≤ sa_capacity sa' ∧ sa_capacity sa' = sa_capacity sa.
Proof.
  unfold SearchV1Merge_insert. intros Hwf.
  destruct (length buf =? 0).
  { intros [= <- <-]. split; [lia|]. split; [reflexivity|lia]. }
  destruct (_ <? length buf); [|apply push_each_prefix; exact Hwf].
  destruct (merge_with_sorted_items sa (sort_items buf)) as [sa1 i] eqn:Hm.
  apply merge_with_sorted_items_prefix in Hm as (Ht & Hsz & Hcap); [|exact Hwf].
  intros [= <- <-].
  assert (∀ c, c = (if i <? cur then i else cur) → c ≤ i ∧ c ≤ cur) as Hc
    by (intros c ->; destruct (i <? cur) eqn:E;
        [apply Nat.ltb_lt in E|apply Nat.ltb_ge in E]; lia).
  destruct (Hc _ eq_refl) as [Hi Hle].
  split; [exact Hle|]. split; [|lia].
  set (c := if i <? cur then i else cur) in *.
  rewrite <- (Nat.min_l c i) by lia.
  rewrite <- !take_take, Ht. reflexivity.
Qed.

Lemma skip_used_spec fuel : ∀ l cur,
  prefix_used l cur → length l ≤ cur + fuel →
  prefix_used l (skip_used fuel l cur) ∧
  (∀ e, l !! skip_used fuel l cur = Some e → used e = false).
Proof.
  induction fuel as [|fuel IH]; intros l cur Hp Hlen; simpl.
  - split; [exact Hp|]. intros e He. apply lookup_lt_Some in He. lia.
  - destruct (l !! cur) as [e|] eqn:He.
    + destruct (used e) eqn:Hu.
      * apply IH; [|lia]. intros i Hi.
        destruct (decide (i = cur)) as [->|]; [eauto|]. apply Hp. lia.
      * split; [exact Hp|]. intros e' He'. congruence.
    + split; [exact Hp|]. intros e' He'. congruence.
Qed.

Lemma cursor_init idx query st :
  SearchV1Merge_init idx query = Ok st → cursor_at_first_unused st.
Proof.
  unfold SearchV1Merge_init.
  destruct (efSearch_ idx =? 0); [discriminate|].
  destruct (pEntryPoint_ idx) as [currNode|]; [|discriminate].
  intros (n & _ & H)%rbind_Ok.
  destruct (negb _); [discriminate|]. injection H as <-.
  unfold cursor_at_first_unused, sa_size. simpl. split; [|split].
  - intros i Hi. lia.
  - intros e [= <-]. reflexivity.
  - lia.
Qed.

Lemma cursor_step idx query st st' :
  SearchV1Merge_step idx query st = Ok st' →
  cursor_at_first_unused st → cursor_at_first_unused st'.
Proof.
  intros (e & currNode & buf & sa2 & cur2 & He & Hu & _ & _ & Hins & Hsa & Hcur)
    %SearchV1Merge_step_Ok (Hp & _ & Hwf).
  simpl in Hins.
  apply SearchV1Merge_insert_prefix in Hins as (Hle & Ht & Hsz & Hcap);
    [|unfold sa_size in *; simpl; rewrite length_insert; exact Hwf].
  unfold cursor_at_first_unused. rewrite Hsa, Hcur.
  simpl in Ht.
  assert (Hp2 : prefix_used (sa_items sa2) cur2).
  { apply (prefix_used_take _ _ _ Ht). apply prefix_used_le with (1 := Hle).
    intros i Hi. destruct (decide (i = v1_currElem st)) as [->|Hne].
    - exists (mkItem (key e) (data e) true). split; [|reflexivity].
      apply list_lookup_insert_eq. apply lookup_lt_Some in He. exact He.
    - rewrite list_lookup_insert_ne by congruence. apply Hp. lia. }
  destruct (skip_used_spec (sa_size sa2) (sa_items sa2) cur2 Hp2) as [H1 H2];
    [unfold sa_size; lia|].
  split; [exact H1|]. split; [exact H2|]. lia.
Qed.

Lemma cursor_loop_head idx query st :
  V1_loop_head idx query st → cursor_at_first_unused st.
Proof.
  induction 1 as [st H|st st' _ IH _ Hstep].
  - eapply cursor_init, H.
  - eapply cursor_step; eassumption.
Qed.

Lemma SearchV1Merge_neighbor_ErrUsed idx query sz topKey acc p :
  SearchV1Merge_neighbor idx query sz topKey acc p ≠ Throw ErrUsed.
Proof.
  unfold SearchV1Merge_neighbor. destruct acc as [[v buf] ev].
  intros [H|(n & _ & H)]%rbind_Throw.
  { unfold deref in H. destruct (_ !! _); discriminate. }
  destruct (negb _); [discriminate|].
  apply rbind_Throw in H as [H|(seen & _ & H)].
  { unfold bit in H. destruct (_ !! _); discriminate. }
  destruct seen; [discriminate|]. destruct (_ || _); discriminate.
Qed.

Lemma SearchV1Merge_step_ErrUsed idx query st :
  cursor_at_first_unused st → SearchV1Merge_step idx query st ≠ Throw ErrUsed.
Proof.
  intros (_ & Hun & _). unfold SearchV1Merge_step.
  destruct (sa_items (v1_sortedArr st) !! v1_currElem st) as [e|];
    [|discriminate].
  rewrite (Hun e eq_refl).
  intros [H|(currNode & _ & H)]%rbind_Throw.
  { unfold deref in H. destruct (_ !! _); discriminate. }
  apply rbind_Throw in H as [H|([[v buf] ev] & _ & H)].
  - apply foldM_Throw in H as (acc & p & H).
    eapply SearchV1Merge_neighbor_ErrUsed, H.
  - destruct (SearchV1Merge_insert _ _ buf). discriminate.
Qed.

Lemma SearchV1Merge_loop_ErrUsed idx query fuel : ∀ st,
  V1_loop_head idx query st →
  SearchV1Merge_loop fuel idx query st ≠ Throw ErrUsed.
Proof.
  induction fuel as [|fuel IH]; intros st Hhead; simpl; [discriminate|].
  destruct (SearchV1Merge_cond idx st) eqn:Hcond; [|discriminate].
  intros [H|(st' & Hstep & H)]%rbind_Throw.
  - eapply SearchV1Merge_step_ErrUsed; [|exact H].
    apply cursor_loop_head with (1 := Hhead).
  - eapply IH; [|exact H]. eapply V1_head_next; eassumption.
Qed.
End Cursor.

(** C4.  In [SearchV1Merge] the element under the cursor is un-used
    whenever the loop body is entered, so CHECK(!e.used) never fails; and
    each time the loop condition is tested the cursor is at the first
    un-used element of the buffer: every element in front of it is used
    and the element under it, if there is one, is not. *)
Theorem V1Merge_cursor_at_unused {S : Space} (idx : SmallWorldRand) (query : KNNQuery) :
  SearchV1Merge idx query ≠ Throw ErrUsed ∧
  ∀ st, V1_loop_head idx query st →
    cursor_at_first_unused st ∧
    SearchV1Merge_step idx query st ≠ Throw ErrUsed ∧
    (SearchV1Merge_cond idx st = true →
     ∃ e, sa_items (v1_sortedArr st) !! v1_currElem st = Some e ∧ used e = false).
Proof.
  split.
  - unfold SearchV1Merge. destruct (decide _) as [|Hne]; [discriminate|].
    intros [H|(st & _ & H)]%rbind_Throw.
    + unfold SearchV1Merge_traverse in H.
      apply rbind_Throw in H as [H|(st0 & H0 & H)].
      * unfold SearchV1Merge_init in H.
        destruct (efSearch_ idx =? 0); [discriminate|].
        destruct (pEntryPoint_ idx) as [currNode|]; [|discriminate].
        apply rbind_Throw in H as [H|(n & _ & H)].
        { unfold deref in H. destruct (_ !! _); discriminate. }
        destruct (negb _); discriminate.
      * eapply SearchV1Merge_loop_ErrUsed; [|exact H].
        apply V1_head_first. exact H0.
    + unfold SearchV1Merge_emit in H. apply foldM_Throw in H as (ev & e & H).
      apply rbind_Throw in H as [H|(n & _ & H)]; [|discriminate].
      unfold deref in H. destruct (_ !! _); discriminate.
  - intros st Hhead. pose proof (cursor_loop_head _ _ _ Hhead) as Hc.
    split; [exact Hc|]. split; [apply SearchV1Merge_step_ErrUsed, Hc|].
    intros Hcond. unfold SearchV1Merge_cond, sa_size in Hcond.
    apply Nat.ltb_lt in Hcond.
    destruct (lookup_lt_is_Some_2 (sa_items (v1_sortedArr st)) (v1_currElem st))
      as [e He]; [lia|].
    exists e. split; [exact He|]. destruct Hc as (_ & Hun & _). auto.
Qed.

(** ** The buffer of the sorted-array search is sorted *)

Section Ascending.
Context {S : Space}.
Hypothesis dist_lt_asym : ∀ a b : dist_t, dist_lt a b = true → dist_lt b a = false.

Lemma asc_items_keys l : asc_items l ↔ ascending (key <$> l).
Proof.
  unfold asc_items, ascending.
  induction l as [|x l IH]; [split; constructor|].
  rewrite fmap_cons. split; intros H; inversion H as [|? ? Hs Hhd]; subst;
    (constructor; [apply IH, Hs|]);
    destruct l; inversion Hhd; subst; constructor; assumption.
Qed.

Lemma HdRel_sort_insert a x l :
  HdRel (λ a b, dist_lt (key b) (key a) = false) a l →
  dist_lt (key x) (key a) = false →
  HdRel (λ a b, dist_lt (key b) (key a) = false) a (sort_insert x l).
Proof.
  intros Hl Hx. destruct l as [|y l]; simpl; [constructor; exact Hx|].
  destruct (dist_lt (key x) (key y)); constructor; [exact Hx|].
  inversion Hl; assumption.
Qed.

Lemma asc_sort_insert x l : asc_items l → asc_items (sort_insert x l).
Proof.
  unfold asc_items. induction 1 as [|y l Hs IH Hhd]; simpl.
  - repeat constructor.
  - destruct (dist_lt (key x) (key y)) eqn:Hxy.
    + constructor; [constructor; assumption|].
      constructor. apply dist_lt_asym, Hxy.
    + constructor; [exact IH|]. apply HdRel_sort_insert; assumption.
Qed.

Lemma asc_sort_items l : asc_items (sort_items l).
Proof.
  induction l as [|x l IH]; simpl; [constructor|].
  apply asc_sort_insert, IH.
Qed.

Lemma asc_take n l : asc_items l → asc_items (take n l).
Proof.
  unfold asc_items. intros Hs. revert n.
  induction Hs as [|y l Hs IH Hhd]; intros [|n]; simpl; try constructor.
  - apply IH.
  - destruct Hhd; destruct n; simpl; constructor. assumption.
Qed.

Lemma insert_at_sorted_pos x l :
  insert_at (sorted_pos (key x) l) x l = sort_insert x l.
Proof.
  unfold insert_at. induction l as [|y l IH]; simpl; [reflexivity|].
  destruct (dist_lt (key x) (key y)); simpl; [reflexivity|].
  rewrite IH. reflexivity.
Qed.

Lemma asc_push_or_replace sa k v sa' i :
  push_or_replace_non_empty_exp sa k v = (sa', i) →
  asc_items (sa_items sa) → asc_items (sa_items sa').
Proof.
  unfold push_or_replace_non_empty_exp.
  destruct (_ && _); intros [= <- <-]; simpl; [auto|].
  intros Hs. apply asc_take.
  rewrite (insert_at_sorted_pos (mkItem k v false)). apply asc_sort_insert, Hs.
Qed.

Lemma asc_push_each batch : ∀ sa cur sa' cur',
  push_each sa cur batch = (sa', cur') →
  asc_items (sa_items sa) → asc_items (sa_items sa').
Proof.
  unfold push_each.
  induction batch as [|it batch IH]; intros sa cur sa' cur'; simpl.
  - intros [= <- <-]. auto.
  - destruct (push_or_replace_non_empty_exp sa (key it) (data it))
      as [sa1 i] eqn:Hp.
    intros H Hs. apply IH in H; [exact H|].
    eapply asc_push_or_replace; eassumption.
Qed.

Lemma HdRel_merge_marked (x : Item) l1 l2 :
  HdRel (λ a b, dist_lt (key b) (key a) = false) x l1 →
  HdRel (λ a b, dist_lt (key b) (key a) = false) x l2 →
  HdRel (λ a b, dist_lt (key b) (key a) = false) x (merge_marked l1 l2).*2.
Proof.
  intros H1 H2. destruct l1 as [|a l1].
  - rewrite merge_marked_nil_l, snd_pair_fmap. exact H2.
  - destruct l2 as [|b l2].
    + rewrite merge_marked_nil_r, snd_pair_fmap. exact H1.
    + rewrite merge_marked_cons. destruct (dist_lt (key b) (key a));
        rewrite fmap_cons; constructor; cbn [snd].
      * inversion H2; assumption.
      * inversion H1; assumption.
Qed.

Lemma asc_merge_marked l1 : ∀ l2,
  asc_items l1 → asc_items l2 → asc_items (merge_marked l1 l2).*2.
Proof.
  unfold asc_items.
  induction l1 as [|a l1 IH1]; intros l2 H1 H2.
  - rewrite merge_marked_nil_l, snd_pair_fmap. exact H2.
  - induction l2 as [|b l2 IH2].
    + rewrite merge_marked_nil_r, snd_pair_fmap. exact H1.
    + rewrite merge_marked_cons.
      destruct (dist_lt (key b) (key a)) eqn:Hba; rewrite fmap_cons; cbn [snd].
      * inversion H2; subst. constructor; [apply IH2; assumption|].
        apply HdRel_merge_marked; [|assumption].
        constructor. apply dist_lt_asym, Hba.
      * inversion H1; subst. constructor; [apply IH1; assumption|].
        apply HdRel_merge_marked; [assumption|].
        constructor. exact Hba.
Qed.

Lemma asc_merge_with_sorted_items sa batch sa' i :
  merge_with_sorted_items sa batch = (sa', i) →
  asc_items (sa_items sa) → asc_items batch → asc_items (sa_items sa').
Proof.
  unfold merge_with_sorted_items. intros [= <- <-] Hs Hb. simpl.
  rewrite fmap_take. apply asc_take, asc_merge_marked; assumption.
Qed.

Lemma asc_SearchV1Merge_insert sa cur buf sa' cur' :
  SearchV1Merge_insert sa cur buf = (sa', cur') →
  asc_items (sa_items sa) → asc_items (sa_items sa').
Proof.
  unfold SearchV1Merge_insert.
  destruct (length buf =? 0); [intros [= <- <-]; auto|].
  destruct (_ <? length buf); [|apply asc_push_each].
  destruct (merge_with_sorted_items sa (sort_items buf)) as [sa1 i] eqn:Hm.
  intros [= <- <-] Hs.
  eapply asc_merge_with_sorted_items; [exact Hm|exact Hs|apply asc_sort_items].
Qed.

Lemma asc_mark l i e :
  l !! i = Some e → asc_items l →
  asc_items (<[i := mkItem (key e) (data e) true]> l).
Proof.
  intros He. rewrite !asc_items_keys, list_fmap_insert. simpl.
  rewrite list_insert_id; [auto|]. rewrite list_lookup_fmap, He. reflexivity.
Qed.

Lemma asc_step idx query st st' :
  SearchV1Merge_step idx query st = Ok st' →
  asc_items (sa_items (v1_sortedArr st)) →
  asc_items (sa_items (v1_sortedArr st')).
Proof.
  intros (e & currNode & buf & sa2 & cur2 & He & _ & _ & _ & Hins & Hsa & _)
    %SearchV1Merge_step_Ok Hs.
  rewrite Hsa. eapply asc_SearchV1Merge_insert; [exact Hins|].
  simpl. apply asc_mark; assumption.
Qed.

Lemma asc_traverse idx query st :
  SearchV1Merge_traverse idx query = Ok st →
  asc_items (sa_items (v1_sortedArr st)).
Proof.
  unfold SearchV1Merge_traverse. intros (st0 & H0 & Hl)%rbind_Ok.
  assert (Hs0 : asc_items (sa_items (v1_sortedArr st0))).
  { unfold SearchV1Merge_init in H0.
    destruct (efSearch_ idx =? 0); [discriminate|].
    destruct (pEntryPoint_ idx) as [currNode|]; [|discriminate].
    apply rbind_Ok in H0 as (n & _ & H0).
    destruct (negb _); [discriminate|]. injection H0 as <-.
    simpl. repeat constructor. }
  clear H0. revert Hl Hs0. generalize (size (ElList_ idx) + 1).
  intros fuel. revert st0.
  induction fuel as [|fuel IH]; intros st0; simpl; [discriminate|].
  destruct (SearchV1Merge_cond idx st0); [|intros [= <-]; auto].
  intros (st1 & H1 & Hl)%rbind_Ok Hs. apply (IH _ Hl).
  eapply asc_step; eassumption.
Qed.
End Ascending.

(** C6.  A [SearchV1Merge] query with parameter [k] on a non-empty index
    that returns has offered to the result sink the first
    [min(k, size)] elements of the buffer with which the traversal ended,
    each with its key and in the order of the buffer, and nothing else;
    the buffer is in ascending order of keys, and so are the distances
    offered.  (The order [<] on distances is taken asymmetric.) *)
Theorem V1Merge_offers_sorted_prefix {S : Space}
    (idx : SmallWorldRand) (query : KNNQuery) (events : list Event) :
  (∀ a b : dist_t, dist_lt a b = true → dist_lt b a = false) →
  ElList_ idx ≠ ∅ →
  SearchV1Merge idx query = Ok events →
  ∃ st, SearchV1Merge_traverse idx query = Ok st ∧
        let buffer := sa_items (v1_sortedArr st) in
        offers events
          = (λ e, (key e, data e)) <$> take (GetK query `min` length buffer) buffer ∧
        ascending (key <$> buffer) ∧
        ascending (offers events).*1.
Proof.
  intros Hasym Hne. unfold SearchV1Merge.
  destruct (decide _) as [|_]; [contradiction|].
  intros (st & Ht & He)%rbind_Ok. exists st. split; [exact Ht|].
  apply SearchV1Merge_emit_Ok in He. subst events.
  pose proof (asc_traverse Hasym _ _ _ Ht) as Hs.
  apply SearchV1Merge_traverse_spec in Ht as [_ Hoff].
  rewrite offers_app, Hoff, offers_Offer_items. simpl.
  split; [reflexivity|]. split; [apply asc_items_keys, Hs|].
  rewrite <- list_fmap_compose.
  change (ascending (key <$> take (GetK query `min` sa_size (v1_sortedArr st))
                                  (sa_items (v1_sortedArr st)))).
  apply asc_items_keys, asc_take, Hs.
Qed.

(** ** Building is deterministic *)

Section Determinism.
Context {S : Space}.

Lemma iteration_singleton {O : ElementMapOrder} (k : Z) (p : nat) :
  iteration ({[ k := p ]} : gmap Z nat) = [(k, p)].
Proof.
  apply Permutation_singleton_r.
  rewrite iteration_perm, map_to_list_singleton. reflexivity.
Qed.

Lemma CreateIndex_unfold {O : ElementMapOrder} hw prm print data junk
    NN efC thr proxy :
  build_params hw prm NN efC thr proxy →
  CreateIndex hw prm (SmallWorldRand_new print data junk) =
  match data with
  | [] =>
      Ok {| data_ := []; PrintProgress_ := print; use_proxy_dist_ := proxy;
            NN_ := NN; efConstruction_ := efC; efSearch_ := NN;
            indexThreadQty_ := thr; searchAlgoType_ := kOld;
            ElList_ := ∅; pEntryPoint_ := u_pEntryPoint junk; heap := [] |}
  | obj0 :: rest =>
      if thr <=? 1
      then CreateIndex_loop rest 1 (first_index print obj0 rest NN efC thr proxy)
      else Concurrent
  end.
Proof.
  intros (HNN & HefC & Hthr & Hpx & Hcu). unfold CreateIndex.
  rewrite HNN. simpl. rewrite HefC. simpl. rewrite Hthr. simpl.
  rewrite Hpx. simpl. rewrite Hcu. simpl.
  destruct data as [|obj0 rest]; [reflexivity|].
  unfold addCriticalSection. simpl.
  rewrite lookup_empty. simpl. rewrite insert_empty.
  rewrite iteration_singleton. reflexivity.
Qed.

Lemma searchForIndexing_loop_core idx1 idx2 queryObj maxInternalId fuel : ∀ st,
  core idx1 = core idx2 →
  searchForIndexing_loop fuel idx1 queryObj maxInternalId st
  = searchForIndexing_loop fuel idx2 queryObj maxInternalId st.
Proof.
  intros st Hc. destruct idx1, idx2. injection Hc as -> -> -> -> -> -> ->.
  revert st. induction fuel as [|fuel IH]; intros st; [reflexivity|].
  simpl. destruct (pq_top (is_candidateSet st)); [|reflexivity].
  destruct (pq_top (is_closestDistQueue st)); [|reflexivity].
  destruct (dist_lt _ _); [reflexivity|].
  destruct (deref _ _); simpl; try reflexivity.
  match goal with |- rbind ?r _ = rbind ?r' _ => change r' with r; destruct r end;
    simpl; auto.
Qed.

Lemma searchForIndexing_core idx1 idx2 queryObj resultSet maxInternalId :
  core idx1 = core idx2 →
  searchForIndexing idx1 queryObj resultSet maxInternalId
  = searchForIndexing idx2 queryObj resultSet maxInternalId.
Proof.
  intros Hc. unfold searchForIndexing.
  assert (searchForIndexing_init idx1 queryObj resultSet maxInternalId
          = searchForIndexing_init idx2 queryObj resultSet maxInternalId) as ->.
  { destruct idx1, idx2. injection Hc as -> -> -> -> -> -> ->. reflexivity. }
  destruct (searchForIndexing_init idx2 _ _ _); simpl; try reflexivity.
  apply searchForIndexing_loop_core, Hc.
Qed.

Lemma add_core idx1 idx2 newElement maxInternalId :
  core idx1 = core idx2 →
  rmap core (add idx1 newElement maxInternalId)
  = rmap core (add idx2 newElement maxInternalId).
Proof.
  intros Hc. unfold add.
  assert (Hh : heap idx1 = heap idx2) by (injection Hc; auto).
  assert (He : ElList_ idx1 = ElList_ idx2) by (injection Hc; auto).
  rewrite Hh. destruct (removeAllFriends (heap idx2) newElement) as [h| | |];
    simpl; try reflexivity.
  rewrite He. destruct (decide (ElList_ idx2 = ∅)) as [|Hne]; [reflexivity|].
  destruct (deref h newElement) as [n| | |]; simpl; try reflexivity.
  rewrite (searchForIndexing_core (set_heap idx1 h) (set_heap idx2 h))
    by (destruct idx1, idx2; injection Hc as -> -> -> -> -> -> ->; reflexivity).
  destruct (searchForIndexing _ _ _ _) as [st| | |]; simpl; try reflexivity.
  destruct (foldM _ h (is_resultSet st)) as [h'| | |]; simpl; try reflexivity.
  unfold addCriticalSection. simpl.
  destruct (deref h' newElement) as [n'| | |]; simpl; try reflexivity.
  rewrite He. destruct (ElList_ idx2 !! _); simpl;
    destruct idx1, idx2; injection Hc as -> -> -> -> -> -> ->; reflexivity.
Qed.

Lemma CreateIndex_loop_core objs : ∀ id idx1 idx2,
  core idx1 = core idx2 →
  rmap core (CreateIndex_loop objs id idx1)
  = rmap core (CreateIndex_loop objs id idx2).
Proof.
  induction objs as [|obj objs IH]; intros id idx1 idx2 Hc; simpl.
  - rewrite Hc. reflexivity.
  - assert (Hh : heap idx1 = heap idx2) by (injection Hc; auto).
    assert (Hd : data_ idx1 = data_ idx2) by (injection Hc; auto).
    rewrite Hh, Hd.
    assert (Ha : rmap core (add (set_heap idx1 (heap idx2 ++ [MSWNode_new obj id]))
                              (length (heap idx2)) (length (data_ idx2)))
               = rmap core (add (set_heap idx2 (heap idx2 ++ [MSWNode_new obj id]))
                              (length (heap idx2)) (length (data_ idx2)))).
    { apply add_core. destruct idx1, idx2.
      injection Hc as -> -> -> -> -> -> ->. reflexivity. }
    destruct (add (set_heap idx1 _) _ _) as [i1|e1| |];
      destruct (add (set_heap idx2 _) _ _) as [i2|e2| |];
      simpl in Ha |- *; try discriminate Ha; try reflexivity.
    + apply IH.
      exact (f_equal (λ r, match r with Ok c => c | _ => core i1 end) Ha).
    + injection Ha as ->. reflexivity.
Qed.
End Determinism.

(** C7.  Two builds without worker threads ([indexThreadQty] at most 1)
    over the same data sequence, with the same [NN], [efConstruction] and
    [useProxyDist], end in the same way (both return, or both fail alike)
    and return the same graph: the same nodes with the same internal ids
    and friend lists and the same node table; over a non-empty data
    sequence they return the same entry point too.  The builds may differ
    in everything else: the parameter lists themselves, the hardware
    concurrency, progress printing, the iteration order of the node table
    and what the index object held before. *)
Theorem CreateIndex_deterministic {S : Space} (O1 O2 : ElementMapOrder)
    (data : list Object) (NN efConstruction : nat) (useProxyDist : bool)
    (hw1 hw2 thr1 thr2 : nat) (prm1 prm2 : AnyParams)
    (print1 print2 : bool) (junk1 junk2 : Uninit) :
  build_params hw1 prm1 NN efConstruction thr1 useProxyDist →
  build_params hw2 prm2 NN efConstruction thr2 useProxyDist →
  thr1 ≤ 1 → thr2 ≤ 1 →
  let build1 := CreateIndex (O := O1) hw1 prm1 (SmallWorldRand_new print1 data junk1) in
  let build2 := CreateIndex (O := O2) hw2 prm2 (SmallWorldRand_new print2 data junk2) in
  rmap graph build1 = rmap graph build2 ∧
  (data ≠ [] → rmap pEntryPoint_ build1 = rmap pEntryPoint_ build2).
Proof.
  intros Hp1 Hp2 Ht1 Ht2. simpl.
  rewrite (CreateIndex_unfold _ _ _ _ _ _ _ _ _ Hp1).
  rewrite (CreateIndex_unfold _ _ _ _ _ _ _ _ _ Hp2).
  destruct data as [|obj0 rest].
  - split; [reflexivity|]. intros Hd. contradiction.
  - apply Nat.leb_le in Ht1, Ht2. rewrite Ht1, Ht2.
    pose proof (CreateIndex_loop_core rest 1
      (first_index print1 obj0 rest NN efConstruction thr1 useProxyDist)
      (first_index print2 obj0 rest NN efConstruction thr2 useProxyDist) eq_refl) as Hc.
    destruct (CreateIndex_loop rest 1 (first_index print1 _ _ _ _ _ _)) as [i1| | |];
      destruct (CreateIndex_loop rest 1 (first_index print2 _ _ _ _ _ _)) as [i2| | |];
      simpl in Hc |- *; try discriminate Hc; try (split; reflexivity).
    + injection Hc as _ _ _ _ He Hp Hh. unfold graph. rewrite He, Hp, Hh.
      split; reflexivity.
    + injection Hc as ->. split; reflexivity.
Qed.

(** ** The text of a saved node *)

Lemma String_app_cons c s t : String c s +:+ t = String c (s +:+ t).
Proof. reflexivity. Qed.

Lemma String_app_nil_l t : EmptyString +:+ t = t.
Proof. reflexivity. Qed.

Lemma String_app_nil_r s : s +:+ EmptyString = s.
Proof. induction s as [|c s IH]; [reflexivity|]. rewrite String_app_cons, IH. reflexivity. Qed.

Lemma String_app_assoc s t u : (s +:+ t) +:+ u = s +:+ t +:+ u.
Proof.
  induction s as [|c s IH]; [reflexivity|]. rewrite !String_app_cons, IH. reflexivity.
Qed.

Lemma String_length_app s t : String.length (s +:+ t) = String.length s + String.length t.
Proof.
  induction s as [|c s IH]; [reflexivity|]. rewrite String_app_cons. simpl.
  rewrite IH. reflexivity.
Qed.

Lemma isdigit_not_space c :
  isdigit c = true →
  isspace c = false ∧ Ascii.eqb c "-" = false ∧ Ascii.eqb c "+" = false.
Proof.
  destruct c as [[] [] [] [] [] [] [] []]; vm_compute; intros H;
    repeat split; congruence.
Qed.

Lemma span_digits_print u rest :
  starts_with_digit rest = false →
  span_digits (NilEmpty.string_of_uint u +:+ rest) = (NilEmpty.string_of_uint u, rest).
Proof.
  intros Hrest.
  induction u; cbn [NilEmpty.string_of_uint];
    rewrite ?String_app_cons; cbn [span_digits];
    try (change (isdigit _) with true; cbv iota; rewrite IHu; reflexivity).
  rewrite String_app_nil_l. destruct rest as [|c rest]; [reflexivity|].
  simpl in Hrest. cbn [span_digits]. rewrite Hrest. reflexivity.
Qed.

Lemma string_of_uint_head u :
  u ≠ Nil → ∃ c s, NilEmpty.string_of_uint u = String c s ∧ isdigit c = true.
Proof. destruct u; intros Hu; try contradiction; simpl; eauto. Qed.

Lemma to_int_nonnil z :
  ∃ u, u ≠ Nil ∧ (Z.to_int z = Decimal.Pos u ∨ Z.to_int z = Decimal.Neg u).
Proof.
  destruct z as [|p|p]; simpl.
  - exists (D0 Nil). split; [discriminate|auto].
  - exists (Pos.to_uint p). split; [apply DecimalPos.Unsigned.to_uint_nonnil|auto].
  - exists (Pos.to_uint p). split; [apply DecimalPos.Unsigned.to_uint_nonnil|auto].
Qed.

Lemma to_IdType_small {M : Implementation} (n : nat) :
  (Z.of_nat n <= IdType_max)%Z → to_IdType n = Z.of_nat n.
Proof.
  unfold IdType_max, to_IdType. intros Hn.
  set (d := Z.of_nat IdType_digits) in *.
  assert (0 < 2 ^ d)%Z by (apply Z.pow_pos_nonneg; lia).
  rewrite Z.pow_add_r by lia. change (2 ^ 1)%Z with 2%Z.
  rewrite Z.mod_small by lia. lia.
Qed.

Lemma in_IdType_small {M : Implementation} (n : nat) :
  (Z.of_nat n <= IdType_max)%Z → in_IdType (Z.of_nat n) = true.
Proof.
  unfold in_IdType, IdType_min, IdType_max. intros Hn.
  assert (0 < 2 ^ Z.of_nat IdType_digits)%Z by (apply Z.pow_pos_nonneg; lia).
  apply andb_true_iff. split; [apply Z.leb_le|apply Z.leb_le]; lia.
Qed.

(** Reading back a number of [IdType] that was printed, when no digit
    follows it. *)
Lemma read_int_print {M : Implementation} z rest :
  in_IdType z = true →
  starts_with_digit rest = false →
  read_int (mkStream (print_Z z +:+ rest) false false)
  = (mkStream rest (is_empty rest) false, Some z).
Proof.
  intros Hin Hrest. unfold read_int, print_Z. cbn [ss_eof ss_fail ss_buf orb].
  pose proof (DecimalZ.of_to z) as Hz.
  destruct (to_int_nonnil z) as (u & Hu & [Hi|Hi]); rewrite Hi in Hz |- *;
    cbn [NilEmpty.string_of_int];
    pose proof (span_digits_print u rest Hrest) as Hspan;
    pose proof (NilEmpty.usu u) as Husu;
    destruct (string_of_uint_head u Hu) as (c & s & Hcs & Hc);
    rewrite Hcs in Hspan, Husu |- *;
    destruct (isdigit_not_space c Hc) as (Hsp & Hminus & Hplus).
  - rewrite String_app_cons in Hspan |- *. cbn [skipws]. rewrite Hsp, Hminus, Hplus.
    rewrite Hspan. cbn [is_empty]. rewrite Husu. cbv zeta. rewrite Hz, Hin.
    reflexivity.
  - rewrite (String_app_cons "-"). cbn [skipws].
    change (isspace "-") with false. cbv iota. rewrite Ascii.eqb_refl.
    cbv iota. rewrite Hspan. cbn [is_empty]. rewrite Husu. cbv zeta.
    rewrite Hz, Hin. reflexivity.
Qed.

Lemma read_char_colon rest :
  read_char (mkStream (":" +:+ rest) false false)
  = (mkStream rest false false, Some ":"%char).
Proof. reflexivity. Qed.

Lemma friends_text_no_digit fs : starts_with_digit (friends_text fs) = false.
Proof. destruct fs; reflexivity. Qed.

Lemma friends_text_length fs : length fs ≤ String.length (friends_text fs).
Proof.
  induction fs as [|f fs IH]; [simpl; lia|].
  cbn [friends_text length]. rewrite !String_length_app.
  change (String.length " ") with 1. lia.
Qed.

Lemma node_line_not_empty i o fs : is_empty (node_line i o fs) = false.
Proof.
  unfold node_line, print_Z.
  destruct (to_int_nonnil (Z.of_nat i)) as (u & Hu & [-> | ->]);
    destruct (string_of_uint_head u Hu) as (c & s & Hcs & _);
    cbn [NilEmpty.string_of_int]; rewrite ?Hcs; reflexivity.
Qed.

Lemma node_line_length i o fs : length fs ≤ String.length (node_line i o fs).
Proof.
  unfold node_line. rewrite !String_length_app.
  pose proof (friends_text_length fs). lia.
Qed.

(** ** Saving a well-formed index *)

Section SaveFacts.
Context {F : FieldIO} {O : ElementMapOrder} {M : Implementation}.

Lemma fits_IdType_id data (i : nat) :
  fits_IdType data → i < length data →
  to_IdType i = Z.of_nat i ∧ in_IdType (Z.of_nat i) = true ∧
  (0 <=? Z.of_nat i)%Z && (Z.of_nat i <? Z.of_nat (length data))%Z = true.
Proof.
  intros [Hlen _] Hi.
  assert (Z.of_nat i <= IdType_max)%Z by lia.
  split; [by apply to_IdType_small|]. split; [by apply in_IdType_small|].
  apply andb_true_intro. split; [apply Z.leb_le|apply Z.ltb_lt]; lia.
Qed.

Lemma elem_of_iteration (m : gmap Z nat) o p :
  (o, p) ∈ iteration m ↔ m !! o = Some p.
Proof. rewrite iteration_perm. apply elem_of_map_to_list. Qed.

Lemma NoDup_iteration_keys (m : gmap Z nat) : NoDup (iteration m).*1.
Proof. rewrite iteration_perm. apply NoDup_fst_map_to_list. Qed.

Lemma SaveIndex_friends_Ok idx (fs : list nat) : ∀ line,
  fits_IdType (data_ idx) →
  Forall (λ f, ∃ m, heap idx !! f = Some m ∧ getId m < length (data_ idx)) fs →
  foldM (SaveIndex_friends idx) line fs
  = Ok (line +:+ friends_text (node_id (heap idx) <$> fs)).
Proof.
  induction fs as [|f fs IH]; intros line Hfit Hall.
  - simpl. rewrite String_app_nil_r. reflexivity.
  - inversion Hall as [|? ? (m & Hm & Hlt) Hall']; subst.
    cbn [foldM]. unfold SaveIndex_friends at 1. unfold deref. rewrite Hm.
    cbn [rbind].
    destruct (fits_IdType_id _ _ Hfit Hlt) as (-> & _ & ->). cbn [negb rbind].
    rewrite IH by (exact Hfit || exact Hall'). rewrite fmap_cons. cbn [friends_text].
    unfold node_id at 2. rewrite Hm. cbn [from_option].
    rewrite !String_app_assoc. reflexivity.
Qed.

Lemma wf_entry idx o p :
  wf_index idx → ElList_ idx !! o = Some p →
  ∃ n, heap idx !! p = Some n ∧ node_at (heap idx) p = n ∧
       data_ idx !! getId n = Some (getData n) ∧ Object_id (getData n) = o ∧
       Forall (λ f, ∃ m, heap idx !! f = Some m ∧
                         ElList_ idx !! Object_id (getData m) = Some f ∧
                         getId m < length (data_ idx)) (getAllFriends n).
Proof.
  intros Hwf Ho. destruct (wf_node _ Hwf _ _ Ho) as (n & Hn & Hd & Hid).
  exists n. unfold node_at. rewrite Hn. repeat split; auto.
  apply Forall_forall. intros f Hf.
  destruct (wf_friends _ Hwf _ _ _ _ Ho Hn Hf) as (m & Hm & Hem).
  exists m. repeat split; auto.
  destruct (wf_node _ Hwf _ _ Hem) as (m' & Hm' & Hd' & _).
  assert (m' = m) by congruence. subst m'.
  apply lookup_lt_Some in Hd'. exact Hd'.
Qed.

Lemma SaveIndex_nodes_Ok idx (l : list (Z * nat)) : ∀ outFile lineNum,
  fits_IdType (data_ idx) →
  wf_index idx → Forall (λ it, ElList_ idx !! it.1 = Some it.2) l →
  foldM (SaveIndex_node idx) (outFile, lineNum) l
  = Ok (outFile ++ (entry_line <$> (entry_of (heap idx) <$> l.*2)),
        lineNum + length l).
Proof.
  intros outFile lineNum Hfit Hwf. revert outFile lineNum.
  induction l as [|[o p] l IH]; intros outFile lineNum Hall.
  - simpl. rewrite app_nil_r, Nat.add_0_r. reflexivity.
  - inversion Hall as [|? ? Ho Hall']; subst. simpl in Ho.
    destruct (wf_entry _ _ _ Hwf Ho) as (n & Hn & Hat & Hd & Hid & Hfr).
    cbn [foldM]. unfold SaveIndex_node at 1. cbn [snd].
    unfold deref. rewrite Hn. cbn [rbind].
    pose proof (lookup_lt_Some _ _ _ Hd) as Hlt.
    destruct (fits_IdType_id _ _ Hfit Hlt) as (-> & _ & ->). cbn [negb].
    rewrite SaveIndex_friends_Ok; [|exact Hfit|].
    2:{ eapply Forall_impl; [exact Hfr|]. intros f (m & Hm & _ & Hl). eauto. }
    cbn [rbind]. rewrite IH by exact Hall'.
    rewrite !fmap_cons. cbn [snd length].
    rewrite <- app_assoc. cbn [app].
    unfold entry_line at 2, node_line, entry_of. rewrite Hat. cbn [fst snd].
    rewrite Hid, !String_app_assoc.
    replace (lineNum + 1 + length l) with (lineNum + Datatypes.S (length l)) by lia.
    reflexivity.
Qed.

(** The file that [SaveIndex] writes for a well-formed index. *)
Lemma SaveIndex_Ok idx :
  fits_IdType (data_ idx) →
  wf_index idx →
  SaveIndex idx
  = Ok ([WriteField_str METHOD_DESC StrDesc; WriteField_nat "NN" (NN_ idx)] ++
        (entry_line <$> saved_entries idx) ++
        [EmptyString;
         WriteField_nat LINE_QTY (length (saved_entries idx) + 4)]).
Proof.
  intros Hfit Hwf. unfold SaveIndex. cbn [app].
  rewrite SaveIndex_nodes_Ok; [|exact Hfit|exact Hwf|].
  2:{ apply Forall_forall. intros [o p] Hin. apply elem_of_iteration, Hin. }
  cbn [rbind]. unfold saved_entries. rewrite !length_fmap.
  rewrite <- !app_assoc. cbn [app].
  replace (0 + 1 + 1 + length (iteration (ElList_ idx)) + 1 + 1)
    with (length (iteration (ElList_ idx)) + 4) by lia.
  reflexivity.
Qed.
End SaveFacts.

(** ** Loading a saved file *)

Lemma add_friends_nil n : add_friends [] n = n.
Proof. destruct n. unfold add_friends. simpl. rewrite app_nil_r. reflexivity. Qed.

Lemma add_friends_add_friends l1 l2 n :
  add_friends l2 (add_friends l1 n) = add_friends (l1 ++ l2) n.
Proof. unfold add_friends. simpl. rewrite app_assoc. reflexivity. Qed.

Lemma set_heap_id idx : set_heap idx (heap idx) = idx.
Proof. destruct idx. reflexivity. Qed.

Lemma read_int_skip_space {M : Implementation} s :
  read_int (mkStream (String " " s) false false) = read_int (mkStream s false false).
Proof. reflexivity. Qed.

Section LoadFacts.
Context {F : FieldIO} {M : Implementation}.

Lemma LoadIndex_head_line idx i obj fs :
  fits_IdType (data_ idx) →
  data_ idx !! i = Some obj →
  LoadIndex_head idx (node_line i (Object_id obj) fs)
  = Ok (mkStream (friends_text fs) false false, i, obj).
Proof.
  intros Hfit Hd. unfold LoadIndex_head, node_line, stringstream_of.
  pose proof (lookup_lt_Some _ _ _ Hd) as Hlt.
  destruct (fits_IdType_id _ _ Hfit Hlt) as (_ & Hi & Hchk).
  assert (Ho : in_IdType (Object_id obj) = true).
  { destruct Hfit as [_ Hall].
    exact (proj1 (Forall_forall _ _) Hall obj (list_elem_of_lookup_2 _ _ _ Hd)). }
  rewrite (read_int_print _ _ Hi) by reflexivity.
  change (is_empty (":" +:+ ?x)) with false.
  rewrite read_char_colon.
  rewrite (read_int_print _ _ Ho) by reflexivity.
  change (is_empty (":" +:+ ?x)) with false.
  rewrite read_char_colon.
  rewrite Ascii.eqb_refl. cbn [andb negb]. rewrite Hchk.
  cbn [negb]. rewrite Nat2Z.id, Hd, Z.eqb_refl. reflexivity.
Qed.

Lemma LoadIndex_line_0 ld e :
  release_first = false →
  fits_IdType (data_ (ld_index ld)) →
  data_ (ld_index ld) !! e.1.1 = Some e.1.2 →
  LoadIndex_line 0 ld (entry_line e) = Ok (step0 ld e).
Proof.
  intros Hord Hfit Hd. unfold LoadIndex_line, entry_line.
  rewrite (LoadIndex_head_line _ _ _ _ Hfit Hd).
  cbn [rbind Nat.eqb new_MSWNode]. rewrite Hord.
  unfold step0. cbn [ElList_ set_heap heap].
  destruct (ElList_ (ld_index ld) !! Object_id e.1.2); reflexivity.
Qed.

Lemma addFriend_Ok h p n pf :
  h !! p = Some n → addFriend h p pf = Ok (<[p := add_friends [pf] n]> h).
Proof. intros Hp. unfold addFriend, deref. rewrite Hp. reflexivity. Qed.

Lemma LoadIndex_friends_text fs : ∀ fuel ld p n (b : bool),
  fits_IdType (data_ (ld_index ld)) →
  heap (ld_index ld) !! p = Some n →
  Forall (λ f, f < length (data_ (ld_index ld)) ∧
               ∃ pf, ptrMapper ld !! f = Some (Some pf)) fs →
  length fs < fuel → (b = true → fs = []) →
  LoadIndex_friends fuel ld p (mkStream (friends_text fs) b false)
  = Ok (mkLoading
          (set_heap (ld_index ld)
             (<[p := add_friends (mapped (ptrMapper ld) <$> fs) n]>
                (heap (ld_index ld))))
          (ptrMapper ld),
        mkStream EmptyString true true).
Proof.
  induction fs as [|f fs IH]; intros fuel ld p n b Hfit Hp Hall Hfuel Hb;
    (destruct fuel as [|fuel]; [simpl in Hfuel; lia|]).
  - cbn [LoadIndex_friends friends_text].
    assert (read_int (mkStream EmptyString b false)
            = (mkStream EmptyString true true, None)) as ->
      by (destruct b; reflexivity).
    rewrite fmap_nil, add_friends_nil, list_insert_id by exact Hp.
    rewrite set_heap_id. destruct ld. reflexivity.
  - assert (b = false) as -> by (destruct b; [discriminate (Hb eq_refl)|reflexivity]).
    inversion Hall as [|? ? (Hlt & pf & Hpf) Hall']; subst.
    cbn [LoadIndex_friends friends_text].
    rewrite String_app_cons, String_app_nil_l, read_int_skip_space.
    destruct (fits_IdType_id _ _ Hfit Hlt) as (_ & Hf & Hchk).
    rewrite (read_int_print _ _ Hf) by apply friends_text_no_digit.
    rewrite Hchk.
    cbn [negb]. rewrite Nat2Z.id, Hpf.
    rewrite (addFriend_Ok _ _ _ _ Hp). cbn [rbind].
    rewrite (IH fuel _ p (add_friends [pf] n)).
    + cbn [ld_index ptrMapper set_heap heap].
      rewrite list_insert_insert_eq, add_friends_add_friends.
      rewrite fmap_cons.
      assert (mapped (ptrMapper ld) f = pf) as ->
        by (unfold mapped; rewrite Hpf; reflexivity).
      destruct (ld_index ld). reflexivity.
    + destruct (ld_index ld). exact Hfit.
    + cbn [ld_index set_heap heap]. apply list_lookup_insert_eq.
      apply lookup_lt_Some in Hp. exact Hp.
    + exact Hall'.
    + simpl in Hfuel. lia.
    + destruct fs; [reflexivity|discriminate].
Qed.

Lemma LoadIndex_line_1 ld e p n :
  fits_IdType (data_ (ld_index ld)) →
  data_ (ld_index ld) !! e.1.1 = Some e.1.2 →
  ptrMapper ld !! e.1.1 = Some (Some p) →
  heap (ld_index ld) !! p = Some n →
  Forall (λ f, f < length (data_ (ld_index ld)) ∧
               ∃ pf, ptrMapper ld !! f = Some (Some pf)) e.2 →
  LoadIndex_line 1 ld (entry_line e) = Ok (step1 ld e).
Proof.
  intros Hfit Hd Hpm Hp Hall. unfold LoadIndex_line, entry_line.
  rewrite (LoadIndex_head_line _ _ _ _ Hfit Hd). cbn [rbind Nat.eqb].
  rewrite Hpm.
  rewrite (LoadIndex_friends_text e.2 _ ld p n false Hfit Hp Hall).
  - cbn [rbind ss_eof]. unfold step1.
    assert (mapped (ptrMapper ld) e.1.1 = p) as ->
      by (unfold mapped; rewrite Hpm; reflexivity).
    unfold node_at. rewrite Hp. reflexivity.
  - pose proof (node_line_length e.1.1 (Object_id e.1.2) e.2). lia.
  - discriminate.
Qed.

(** The loop over the lines follows the entries. *)
Lemma LoadIndex_lines_fold pass (step : Loading → entry → Loading)
    (P : Loading → Prop) (es : list entry) :
  (∀ ld e, P ld → e ∈ es →
     LoadIndex_line pass ld (entry_line e) = Ok (step ld e) ∧ P (step ld e)) →
  ∀ ld lineNum rest, P ld →
    LoadIndex_lines pass ((entry_line <$> es) ++ EmptyString :: rest) lineNum ld
    = Ok (rest, lineNum + length es + 1, fold_left step es ld).
Proof.
  induction es as [|e es IH]; intros Hstep ld lineNum rest HP.
  - simpl. rewrite Nat.add_0_r. reflexivity.
  - rewrite fmap_cons. cbn [app LoadIndex_lines].
    unfold entry_line at 1. rewrite node_line_not_empty.
    fold (entry_line e).
    destruct (Hstep ld e HP) as [-> HP']; [left|].
    cbn [rbind fold_left]. rewrite IH; [|intros; apply Hstep; [assumption|right; assumption]|exact HP'].
    cbn [length].
    replace (lineNum + 1 + length es + 1)
      with (lineNum + Datatypes.S (length es) + 1) by lia.
    reflexivity.
Qed.

Lemma ReadField_str_written name v rest :
  ReadField ReadField_str name (WriteField_str name v :: rest) = Ok (v, rest).
Proof. unfold ReadField. rewrite ReadField_WriteField_str. reflexivity. Qed.

Lemma ReadField_nat_written name v rest :
  ReadField ReadField_nat name (WriteField_nat name v :: rest) = Ok (v, rest).
Proof. unfold ReadField. rewrite ReadField_WriteField_nat. reflexivity. Qed.

Lemma LoadIndex_pass_fold pass (step : Loading → entry → Loading)
    (P : Loading → Prop) NN (es : list entry) ld :
  (∀ ld e, P ld → e ∈ es →
     LoadIndex_line pass ld (entry_line e) = Ok (step ld e) ∧ P (step ld e)) →
  P (mkLoading (set_NN (ld_index ld) NN) (ptrMapper ld)) →
  LoadIndex_pass pass (saved_file NN es) ld
  = Ok (fold_left step es (mkLoading (set_NN (ld_index ld) NN) (ptrMapper ld))).
Proof.
  intros Hstep HP. unfold LoadIndex_pass, saved_file. cbn [app].
  rewrite ReadField_str_written. cbn [rbind].
  rewrite String.eqb_refl. cbn [negb]. rewrite ReadField_nat_written.
  cbn [rbind].
  rewrite (LoadIndex_lines_fold pass step P es Hstep _ _ _ HP).
  cbn [rbind]. rewrite ReadField_nat_written. cbn [rbind].
  replace (1 + 1 + 1 + length es + 1) with (length es + 4) by lia.
  rewrite Nat.eqb_refl. reflexivity.
Qed.
End LoadFacts.

(** Projections of an updated index. *)
Ltac proj_simpl :=
  cbn [ld_index ptrMapper set_heap set_ElList set_NN set_pEntryPoint
       data_ ElList_ pEntryPoint_ heap NN_].
Ltac proj_simpl_in H :=
  cbn [ld_index ptrMapper set_heap set_ElList set_NN set_pEntryPoint
       data_ ElList_ pEntryPoint_ heap NN_] in H.

Section LoadedState.
Context {F : FieldIO}.
Variable data : list Object.

Lemma entries_ok_ids l j k e e' :
  entries_ok data l → l !! j = Some e → l !! k = Some e' → e.1.1 = e'.1.1 → j = k.
Proof.
  intros [H1 H2] Hj Hk Hid.
  apply (NoDup_lookup (oid <$> l) j k (oid e)); [exact H2| |].
  - rewrite list_lookup_fmap, Hj. reflexivity.
  - rewrite list_lookup_fmap, Hk. simpl. f_equal. unfold oid.
    pose proof (proj1 (Forall_forall _ _) H1 e (list_elem_of_lookup_2 _ _ _ Hj)) as He.
    pose proof (proj1 (Forall_forall _ _) H1 e' (list_elem_of_lookup_2 _ _ _ Hk)) as He'.
    simpl in He, He'. rewrite Hid in He. congruence.
Qed.

Lemma inv0_start idx :
  data_ idx = data → heap idx = [] → ElList_ idx = ∅ →
  inv0 data [] (mkLoading idx (replicate (length data) None)).
Proof.
  intros Hd Hh He. split; simpl; auto.
  - apply length_replicate.
  - intros o j. rewrite He, lookup_empty. split; [discriminate|].
    intros (e & Hl & _). discriminate.
  - intros i j. split.
    + intros H. apply lookup_replicate in H as [H _]. discriminate.
    + intros (e & Hl & _). discriminate.
Qed.

Lemma inv0_step l x ld :
  entries_ok data (l ++ [x]) → inv0 data l ld → inv0 data (l ++ [x]) (step0 ld x).
Proof.
  intros Hok [Hd Hh Hlen Ht Hm].
  assert (Hx : (l ++ [x]) !! length l = Some x)
    by (rewrite lookup_app_r, Nat.sub_diag by lia; reflexivity).
  assert (Hfresh : ∀ j e, l !! j = Some e → oid e ≠ oid x ∧ e.1.1 ≠ x.1.1).
  { intros j e Hj.
    assert (Hj' : (l ++ [x]) !! j = Some e) by (apply lookup_app_l_Some, Hj).
    pose proof (lookup_lt_Some _ _ _ Hj) as Hlt.
    split; intros Heq.
    - destruct Hok as [_ Hnd].
      assert (j = length l); [|lia].
      apply (NoDup_lookup (oid <$> l ++ [x]) j (length l) (oid e));
        [exact Hnd| |];
        rewrite list_lookup_fmap; [rewrite Hj'|rewrite Hx]; simpl; congruence.
    - pose proof (entries_ok_ids _ _ _ _ _ Hok Hj' Hx Heq). lia. }
  assert (Hnone : ElList_ (ld_index ld) !! Object_id x.1.2 = None).
  { destruct (ElList_ (ld_index ld) !! Object_id x.1.2) as [j|] eqn:E; [|reflexivity].
    apply Ht in E as (e & Hj & Ho). destruct (Hfresh _ _ Hj) as [Hne _].
    contradiction. }
  assert (Hxlt : x.1.1 < length (ptrMapper ld)).
  { rewrite Hlen. destruct Hok as [Hall _].
    apply Forall_app in Hall as [_ Hall]. inversion Hall as [|? ? Hdx _]; subst.
    apply lookup_lt_Some in Hdx. exact Hdx. }
  unfold step0. rewrite Hnone. split; cbn [ld_index ptrMapper].
  - destruct (ld_index ld). exact Hd.
  - assert (heap (set_ElList (set_heap (ld_index ld)
              (heap (ld_index ld) ++ [MSWNode_new x.1.2 x.1.1]))
              (<[Object_id x.1.2:=length (heap (ld_index ld))]>
                 (ElList_ (ld_index ld))))
            = heap (ld_index ld) ++ [MSWNode_new x.1.2 x.1.1]) as ->
      by reflexivity.
    rewrite Hh, fmap_app. reflexivity.
  - rewrite length_insert. exact Hlen.
  - intros o j.
    assert (ElList_ (set_ElList (set_heap (ld_index ld)
              (heap (ld_index ld) ++ [MSWNode_new x.1.2 x.1.1]))
              (<[Object_id x.1.2:=length (heap (ld_index ld))]>
                 (ElList_ (ld_index ld))))
            = <[oid x := length l]> (ElList_ (ld_index ld))) as ->
      by (cbn [ElList_ set_ElList]; rewrite Hh, length_fmap; reflexivity).
    destruct (decide (o = oid x)) as [->|Hne].
    + rewrite lookup_insert_eq. split.
      * intros [= <-]. eauto.
      * intros (e & Hj & Ho). f_equal.
        destruct (decide (j < length l)) as [Hlt|Hge].
        -- rewrite lookup_app_l in Hj by exact Hlt.
           destruct (Hfresh _ _ Hj) as [Hne' _]. contradiction.
        -- pose proof (lookup_lt_Some _ _ _ Hj) as Hlt'.
           rewrite length_app in Hlt'. simpl in Hlt'. lia.
    + rewrite lookup_insert_ne by congruence. rewrite Ht. split.
      * intros (e & Hj & Ho). exists e. split; [apply lookup_app_l_Some, Hj|exact Ho].
      * intros (e & Hj & Ho). exists e. split; [|exact Ho].
        destruct (decide (j < length l)) as [Hlt|Hge].
        -- rewrite lookup_app_l in Hj by exact Hlt. exact Hj.
        -- pose proof (lookup_lt_Some _ _ _ Hj) as Hlt'.
           rewrite length_app in Hlt'. simpl in Hlt'.
           assert (j = length l) as -> by lia.
           rewrite Hx in Hj. injection Hj as <-. congruence.
  - intros i j. rewrite Hh, length_fmap.
    destruct (decide (i = x.1.1)) as [->|Hne].
    + rewrite list_lookup_insert_eq by exact Hxlt. split.
      * intros [= <-]. eauto.
      * intros (e & Hj & Hi). do 2 f_equal.
        destruct (decide (j < length l)) as [Hlt|Hge].
        -- rewrite lookup_app_l in Hj by exact Hlt.
           destruct (Hfresh _ _ Hj) as [_ Hne']. contradiction.
        -- pose proof (lookup_lt_Some _ _ _ Hj) as Hlt'.
           rewrite length_app in Hlt'. simpl in Hlt'. lia.
    + rewrite list_lookup_insert_ne by congruence. rewrite Hm. split.
      * intros (e & Hj & Hi). exists e. split; [apply lookup_app_l_Some, Hj|exact Hi].
      * intros (e & Hj & Hi). exists e. split; [|exact Hi].
        destruct (decide (j < length l)) as [Hlt|Hge].
        -- rewrite lookup_app_l in Hj by exact Hlt. exact Hj.
        -- pose proof (lookup_lt_Some _ _ _ Hj) as Hlt'.
           rewrite length_app in Hlt'. simpl in Hlt'.
           assert (j = length l) as -> by lia.
           rewrite Hx in Hj. injection Hj as <-. congruence.
Qed.

Lemma entries_ok_app_l l1 l2 : entries_ok data (l1 ++ l2) → entries_ok data l1.
Proof.
  intros [H1 H2]. split.
  - apply Forall_app in H1 as [H1 _]. exact H1.
  - rewrite fmap_app in H2. apply NoDup_app in H2 as [H2 _]. exact H2.
Qed.

Lemma inv0_fold l : ∀ ld,
  entries_ok data l → inv0 data [] ld → inv0 data l (fold_left step0 l ld).
Proof.
  induction l as [|x l IH] using rev_ind; intros ld Hok H0; [exact H0|].
  rewrite fold_left_app. simpl. apply inv0_step; [exact Hok|].
  apply IH; [|exact H0]. eapply entries_ok_app_l, Hok.
Qed.
End LoadedState.

Section LoadedGraph.
Context {F : FieldIO} {M : Implementation}.
Variables (data : list Object) (es : list entry).
Hypothesis es_ok : entries_ok data es.
Hypothesis es_closed : ∀ e f, e ∈ es → f ∈ e.2 → ∃ e', e' ∈ es ∧ e'.1.1 = f.
Hypothesis data_fits : fits_IdType data.
Hypothesis key_first : release_first = false.

Lemma inv1_start ld0 : inv0 data es ld0 → inv1 data es ld0 0 ld0.
Proof.
  intros [Hd Hh Hlen Ht Hm]. split; auto.
  - rewrite Hh, length_fmap. reflexivity.
  - intros j e Hj. rewrite Hh, list_lookup_fmap, Hj.
    destruct (decide (j < 0)); [lia|reflexivity].
Qed.

Lemma inv1_step ld0 k x ld :
  inv0 data es ld0 → es !! k = Some x → inv1 data es ld0 k ld →
  inv1 data es ld0 (Datatypes.S k) (step1 ld x).
Proof.
  intros H0 Hx [Hd Hpm Ht Hep Hlen Hh].
  assert (Hk : mapped (ptrMapper ld) x.1.1 = k).
  { unfold mapped. rewrite Hpm.
    rewrite (proj2 (inv0_mapper _ _ _ H0 x.1.1 k)) by eauto. reflexivity. }
  unfold step1. rewrite Hk. split; proj_simpl.
  - exact Hd.
  - exact Hpm.
  - exact Ht.
  - exact Hep.
  - rewrite length_insert. exact Hlen.
  - intros j e Hj.
    destruct (decide (j = k)) as [->|Hne].
    + rewrite list_lookup_insert_eq
        by (rewrite Hlen; apply lookup_lt_Some in Hx; exact Hx).
      assert (e = x) as -> by congruence.
      unfold node_at. rewrite (Hh _ _ Hx).
      destruct (decide (k < k)); [lia|].
      destruct (decide (k < Datatypes.S k)); [|lia].
      rewrite Hpm. reflexivity.
    + rewrite list_lookup_insert_ne by congruence. rewrite (Hh _ _ Hj).
      destruct (decide (j < k)); destruct (decide (j < Datatypes.S k));
        try lia; reflexivity.
Qed.

Lemma inv1_fold ld0 l : ∀ rest,
  inv0 data es ld0 → es = l ++ rest →
  inv1 data es ld0 (length l) (fold_left step1 l ld0).
Proof.
  induction l as [|x l IH] using rev_ind; intros rest H0 Hes.
  - apply inv1_start, H0.
  - rewrite fold_left_app, length_app. simpl. rewrite Nat.add_1_r.
    apply inv1_step; [exact H0| |].
    + rewrite Hes, <- app_assoc. simpl.
      rewrite lookup_app_r, Nat.sub_diag by lia. reflexivity.
    + apply (IH ([x] ++ rest)); [exact H0|]. rewrite Hes, <- app_assoc.
      reflexivity.
Qed.

Lemma es_data e : e ∈ es → data !! e.1.1 = Some e.1.2.
Proof. destruct es_ok as [H _]. apply (proj1 (Forall_forall _ _) H). Qed.

(** The second pass finds every pointer it looks for. *)
Lemma pass1_line ld0 ld e :
  inv0 data es ld0 → pass1_ok data es ld0 ld → e ∈ es →
  LoadIndex_line 1 ld (entry_line e) = Ok (step1 ld e) ∧
  pass1_ok data es ld0 (step1 ld e).
Proof.
  intros H0 (Hd & Hm & Hlen) He.
  apply list_elem_of_lookup in He as [p Hp].
  pose proof (list_elem_of_lookup_2 _ _ _ Hp) as He.
  assert (Hpm : ptrMapper ld !! e.1.1 = Some (Some p)).
  { rewrite Hm. apply (inv0_mapper _ _ _ H0). eauto. }
  destruct (lookup_lt_is_Some_2 (heap (ld_index ld)) p) as [n Hn].
  { rewrite Hlen. apply lookup_lt_Some in Hp. exact Hp. }
  split.
  - eapply LoadIndex_line_1.
    + rewrite Hd. exact data_fits.
    + rewrite Hd. apply es_data, He.
    + exact Hpm.
    + exact Hn.
    + apply Forall_forall. intros f Hf.
      destruct (es_closed e f He Hf) as (e' & He' & Hid).
      rewrite Hd. split.
      * pose proof (es_data e' He') as Hd'. rewrite Hid in Hd'.
        apply lookup_lt_Some in Hd'. exact Hd'.
      * apply list_elem_of_lookup in He' as [q Hq]. exists q.
        rewrite Hm. apply (inv0_mapper _ _ _ H0). eauto.
  - unfold pass1_ok, step1. proj_simpl. rewrite length_insert. auto.
Qed.

(** Loading the file written for [es] into an index without nodes. *)
Lemma LoadIndex_saved_file NN idx0 :
  data_ idx0 = data → heap idx0 = [] → ElList_ idx0 = ∅ →
  ∃ ld0 ld1,
    LoadIndex (saved_file NN es) idx0 = Ok (ld_index ld1) ∧
    inv0 data es ld0 ∧ inv1 data es ld0 (length es) ld1 ∧
    pEntryPoint_ (ld_index ld0) = pEntryPoint_ idx0.
Proof.
  intros Hd Hh He. unfold LoadIndex.
  set (start := mkLoading (set_NN idx0 NN) (replicate (length (data_ idx0)) None)).
  set (ld0 := fold_left step0 es start).
  set (start1 := mkLoading (set_NN (ld_index ld0) NN) (ptrMapper ld0)).
  exists start1, (fold_left step1 es start1).
  assert (Hstart : inv0 data [] start).
  { unfold start. rewrite Hd. apply inv0_start; proj_simpl; assumption. }
  assert (H0 : inv0 data es ld0) by (apply inv0_fold; assumption).
  assert (H0' : inv0 data es start1).
  { destruct H0 as [A B C D E]. unfold start1. split; proj_simpl; auto. }
  assert (Hep : ∀ l ld, pEntryPoint_ (ld_index (fold_left step0 l ld))
                        = pEntryPoint_ (ld_index ld)).
  { intros l. induction l as [|x l IH]; intros ld; [reflexivity|].
    simpl. rewrite IH. unfold step0. proj_simpl.
    destruct (ElList_ (ld_index ld) !! _); reflexivity. }
  rewrite (LoadIndex_pass_fold 0 step0 (λ ld, data_ (ld_index ld) = data) NN es).
  - cbn [rbind]. fold start. fold ld0.
    rewrite (LoadIndex_pass_fold 1 step1 (pass1_ok data es start1) NN es).
    + cbn [rbind]. fold start1. split; [reflexivity|].
      split; [exact H0'|]. split.
      * apply (inv1_fold start1 es []); [exact H0'|]. rewrite app_nil_r. reflexivity.
      * unfold start1. proj_simpl. unfold ld0. rewrite Hep. reflexivity.
    + intros ld e Hok Hin. eapply pass1_line; eassumption.
    + fold start1. destruct (inv1_start _ H0') as [A B C D E G].
      repeat split; assumption.
  - intros ld e HP Hin. split.
    + apply LoadIndex_line_0; [exact key_first|rewrite HP; exact data_fits|].
      rewrite HP. apply es_data, Hin.
    + unfold step0. proj_simpl.
      destruct (ElList_ (ld_index ld) !! _); exact HP.
  - proj_simpl. exact Hd.
Qed.
End LoadedGraph.

(** ** The graph read back *)

Lemma friend_ids_unique h (l : list nat) (fs : list nat) :
  Forall2 (λ f j, ∃ m : MSWNode, h !! f = Some m ∧ getId m = j) l fs →
  fs = node_id h <$> l.
Proof.
  induction 1 as [|f j l fs (m & Hm & Hid) _ IH]; [reflexivity|].
  rewrite fmap_cons. f_equal; [|exact IH].
  unfold node_id. rewrite Hm. simpl. congruence.
Qed.

Lemma friend_ids_intro h (l : list nat) :
  Forall (λ f, is_Some (h !! f)) l →
  Forall2 (λ f j, ∃ m : MSWNode, h !! f = Some m ∧ getId m = j) l (node_id h <$> l).
Proof.
  induction 1 as [|f l [m Hm] _ IH]; [constructor|].
  rewrite fmap_cons. constructor; [|exact IH].
  exists m. split; [exact Hm|]. unfold node_id. rewrite Hm. reflexivity.
Qed.

Section LoadedNodes.
Context {F : FieldIO}.
Variables (data : list Object) (es : list entry).
Hypothesis es_ok : entries_ok data es.
Hypothesis es_closed : ∀ e f, e ∈ es → f ∈ e.2 → ∃ e', e' ∈ es ∧ e'.1.1 = f.

Lemma loaded_friend_ids ld0 ld1 e :
  inv0 data es ld0 → inv1 data es ld0 (length es) ld1 → e ∈ es →
  Forall (λ f, is_Some (heap (ld_index ld1) !! f)) (mapped (ptrMapper ld0) <$> e.2) ∧
  node_id (heap (ld_index ld1)) <$> (mapped (ptrMapper ld0) <$> e.2) = e.2.
Proof.
  intros H0 H1 He.
  assert (Hf : ∀ f, f ∈ e.2 →
    ∃ m, heap (ld_index ld1) !! mapped (ptrMapper ld0) f = Some m ∧ getId m = f).
  { intros f Hf. destruct (es_closed e f He Hf) as (e' & He' & Hid).
    apply list_elem_of_lookup in He' as [q Hq].
    assert (mapped (ptrMapper ld0) f = q) as ->.
    { unfold mapped. rewrite (proj2 (inv0_mapper _ _ _ H0 f q)) by eauto.
      reflexivity. }
    rewrite (inv1_heap _ _ _ _ _ H1 _ _ Hq). eexists. split; [reflexivity|].
    exact Hid. }
  split.
  - apply Forall_fmap, Forall_forall. intros f Hin.
    destruct (Hf f Hin) as (m & Hm & _). simpl. eauto.
  - rewrite <- list_fmap_compose. rewrite <- (list_fmap_id e.2) at 2.
    apply Forall_fmap_ext_1, Forall_forall. intros f Hin. simpl.
    destruct (Hf f Hin) as (m & Hm & Hid). unfold node_id. rewrite Hm.
    exact Hid.
Qed.

(** The nodes of the loaded index are the entries of the file. *)
Lemma loaded_has_node ld0 ld1 i o fs :
  inv0 data es ld0 → inv1 data es ld0 (length es) ld1 →
  has_node (ld_index ld1) i o fs ↔ ∃ obj, (i, obj, fs) ∈ es ∧ Object_id obj = o.
Proof.
  intros H0 H1. split.
  - intros (p & n & Hp & Hn & Hi & Ho & Hfr).
    rewrite (inv1_table _ _ _ _ _ H1) in Hp.
    apply (inv0_table _ _ _ H0) in Hp as (e & Hpe & Hoe).
    pose proof (list_elem_of_lookup_2 _ _ _ Hpe) as He.
    rewrite (inv1_heap _ _ _ _ _ H1 _ _ Hpe) in Hn.
    destruct (decide (p < length es)) as [_|Hge];
      [|apply lookup_lt_Some in Hpe; lia].
    injection Hn as <-. simpl in Hi, Ho, Hfr.
    apply friend_ids_unique in Hfr.
    destruct (loaded_friend_ids ld0 ld1 e H0 H1 He) as [_ Hids].
    rewrite Hids in Hfr. subst i fs.
    exists e.1.2. split; [|exact Hoe].
    destruct e as [[i' obj'] fs']. exact He.
  - intros (obj & He & Ho).
    apply list_elem_of_lookup in He as [p Hp].
    pose proof (list_elem_of_lookup_2 _ _ _ Hp) as He.
    exists p, (mkMSWNode obj i (mapped (ptrMapper ld0) <$> fs)).
    split; [|split; [|split; [|split]]]; simpl; auto.
    + rewrite (inv1_table _ _ _ _ _ H1). apply (inv0_table _ _ _ H0).
      exists (i, obj, fs). split; [exact Hp|exact Ho].
    + rewrite (inv1_heap _ _ _ _ _ H1 _ _ Hp). simpl.
      destruct (decide (p < length es)) as [_|Hge];
        [reflexivity|apply lookup_lt_Some in Hp; lia].
    + destruct (loaded_friend_ids ld0 ld1 _ H0 H1 He) as [Hall Hids].
      simpl in Hall, Hids. rewrite <- Hids at 2.
      apply friend_ids_intro, Hall.
Qed.
End LoadedNodes.

Section RoundTrip.
Context {F : FieldIO} {O : ElementMapOrder} {M : Implementation}.

(** The nodes of a well-formed index are the entries it saves. *)
Lemma saved_has_node idx i o fs :
  wf_index idx →
  has_node idx i o fs ↔ ∃ obj, (i, obj, fs) ∈ saved_entries idx ∧ Object_id obj = o.
Proof.
  intros Hwf. unfold saved_entries. split.
  - intros (p & n & Hp & Hn & Hi & Ho & Hfr).
    exists (getData n). split; [|exact Ho].
    apply list_elem_of_fmap. exists p. split.
    + unfold entry_of, node_at. rewrite Hn. simpl.
      apply friend_ids_unique in Hfr. congruence.
    + apply list_elem_of_fmap. exists (o, p). split; [reflexivity|].
      apply elem_of_iteration, Hp.
  - intros (obj & He & Ho).
    apply list_elem_of_fmap in He as (p & He & Hin).
    apply list_elem_of_fmap in Hin as ([o' p'] & Hp' & Hin). simpl in Hp'. subst p'.
    apply elem_of_iteration in Hin.
    destruct (wf_entry _ _ _ Hwf Hin) as (n & Hn & Hat & Hd & Hid & Hfr).
    unfold entry_of in He. rewrite Hat in He. injection He as -> -> ->.
    exists p, n. repeat split; auto.
    + congruence.
    + apply friend_ids_intro. eapply Forall_impl; [exact Hfr|].
      intros f (m & Hm & _). eauto.
Qed.

Lemma saved_entries_ok idx :
  wf_index idx →
  entries_ok (data_ idx) (saved_entries idx) ∧
  ∀ e f, e ∈ saved_entries idx → f ∈ e.2 →
         ∃ e', e' ∈ saved_entries idx ∧ e'.1.1 = f.
Proof.
  intros Hwf. unfold saved_entries. split; [split|].
  - apply Forall_fmap, Forall_fmap, Forall_forall. intros [o p] Hin.
    apply elem_of_iteration in Hin.
    destruct (wf_entry _ _ _ Hwf Hin) as (n & Hn & Hat & Hd & _).
    simpl. unfold entry_of. rewrite Hat. exact Hd.
  - assert (oid <$> (entry_of (heap idx) <$> (iteration (ElList_ idx)).*2)
            = (iteration (ElList_ idx)).*1) as ->.
    { rewrite <- !list_fmap_compose. apply Forall_fmap_ext_1.
      apply Forall_forall. intros [o p] Hin. apply elem_of_iteration in Hin.
      destruct (wf_entry _ _ _ Hwf Hin) as (n & Hn & Hat & _ & Hid & _).
      simpl. unfold oid, entry_of. rewrite Hat. exact Hid. }
    apply NoDup_iteration_keys.
  - intros e f He Hf.
    apply list_elem_of_fmap in He as (p & -> & Hin).
    apply list_elem_of_fmap in Hin as ([o p'] & Hp' & Hin). simpl in Hp'. subst p'.
    apply elem_of_iteration in Hin.
    destruct (wf_entry _ _ _ Hwf Hin) as (n & Hn & Hat & _ & _ & Hfr).
    unfold entry_of in Hf. rewrite Hat in Hf. simpl in Hf.
    apply list_elem_of_fmap in Hf as (fp & -> & Hfp).
    destruct (proj1 (Forall_forall _ _) Hfr fp Hfp) as (m & Hm & Hem & _).
    exists (entry_of (heap idx) fp). split.
    + apply list_elem_of_fmap. exists fp. split; [reflexivity|].
      apply list_elem_of_fmap. exists (Object_id (getData m), fp).
      split; [reflexivity|]. apply elem_of_iteration, Hem.
    + unfold entry_of, node_at, node_id. rewrite Hm. reflexivity.
Qed.

(** Saving a well-formed index and loading the file into an index
    without nodes over the same data gives the same nodes back, when the
    key of line 651 is evaluated before the node is released and the data
    fit [IdType]. *)
Lemma save_load_wf idx idx0 :
  release_first = false → fits_IdType (data_ idx) →
  wf_index idx →
  data_ idx0 = data_ idx → heap idx0 = [] → ElList_ idx0 = ∅ →
  ∃ file idx',
    SaveIndex idx = Ok file ∧ LoadIndex file idx0 = Ok idx' ∧
    (∀ i o fs, has_node idx' i o fs ↔ has_node idx i o fs) ∧
    pEntryPoint_ idx' = pEntryPoint_ idx0.
Proof.
  intros Hord Hfit Hwf Hd Hh He.
  destruct (saved_entries_ok idx Hwf) as [Hok Hclosed].
  destruct (LoadIndex_saved_file (data_ idx) (saved_entries idx) Hok Hclosed
              Hfit Hord (NN_ idx) idx0 Hd Hh He)
    as (ld0 & ld1 & Hload & H0 & H1 & Hep).
  exists (saved_file (NN_ idx) (saved_entries idx)), (ld_index ld1).
  split; [by apply SaveIndex_Ok|]. split; [exact Hload|]. split.
  - intros i o fs.
    rewrite (loaded_has_node _ _ Hclosed ld0 ld1 i o fs H0 H1).
    symmetry. apply saved_has_node, Hwf.
  - rewrite (inv1_entry _ _ _ _ _ H1). exact Hep.
Qed.
End RoundTrip.

(** ** A built index is well formed *)

Section BuildInvariant.
Context {S : Space}.

Lemma Forall_pq_push {T : Type} (less : T → T → bool) (P : T → Prop) x q :
  P x → Forall P q → Forall P (pq_push less x q).
Proof.
  intros Hx. induction 1 as [|y q Hy Hq IH]; simpl.
  - constructor; [exact Hx|constructor].
  - destruct (less y x); repeat constructor; assumption.
Qed.

Lemma Forall_pq_pop {T : Type} (P : T → Prop) (q : list T) :
  Forall P q → Forall P (pq_pop q).
Proof. destruct 1; simpl; [constructor|assumption]. Qed.

Lemma Forall_trim {T : Type} (P : T → Prop) (cap : nat) (q : list T) :
  Forall P q → Forall P (if cap <? length q then pq_pop q else q).
Proof. intros H. destruct (cap <? length q); [apply Forall_pq_pop|]; exact H. Qed.

Lemma searchForIndexing_neighbor_valid idx queryObj maxInternalId st p st' :
  searchForIndexing_neighbor idx queryObj maxInternalId st p = Ok st' →
  result_valid idx st → result_valid idx st'.
Proof.
  unfold searchForIndexing_neighbor, result_valid. intros H Hv.
  apply rbind_Ok in H as (n & Hn%deref_Ok & H).
  apply lookup_lt_Some in Hn.
  destruct (maxInternalId <? getId n); [discriminate|].
  apply rbind_Ok in H as (seen & _ & H).
  destruct seen; [injection H as <-; exact Hv|].
  assert (Hpush : ∀ d,
    Forall (λ ev, getMSWNode ev < length (heap idx))
      (if NN_ idx <? length (pq_push less_Direct (mkEvaluated d p) (is_resultSet st))
       then pq_pop (pq_push less_Direct (mkEvaluated d p) (is_resultSet st))
       else pq_push less_Direct (mkEvaluated d p) (is_resultSet st))).
  { intros d. apply Forall_trim, Forall_pq_push; auto. }
  destruct (_ || _); destruct (length (is_resultSet st) <? NN_ idx);
    try (injection H as <-; simpl; apply Hpush);
    (destruct (pq_top (is_resultSet st)); [|discriminate]);
    destruct (dist_lt _ _); injection H as <-; simpl; auto.
Qed.

Lemma searchForIndexing_loop_valid idx queryObj maxInternalId fuel : ∀ st st',
  searchForIndexing_loop fuel idx queryObj maxInternalId st = Ok st' →
  result_valid idx st → result_valid idx st'.
Proof.
  induction fuel as [|fuel IH]; intros st st'; simpl; [discriminate|].
  destruct (pq_top (is_candidateSet st)); [|intros [= <-]; auto].
  destruct (pq_top (is_closestDistQueue st)); [|discriminate].
  destruct (dist_lt _ _); [intros [= <-]; auto|].
  intros (currNode & _ & (st2 & H2 & Hl)%rbind_Ok)%rbind_Ok Hv.
  apply (IH _ _ Hl).
  eapply (foldM_invariant (result_valid idx)) in H2; [exact H2| |exact Hv].
  intros a b a' Ha Hstep. eapply searchForIndexing_neighbor_valid; eassumption.
Qed.

Lemma searchForIndexing_valid idx queryObj maxInternalId st :
  searchForIndexing idx queryObj [] maxInternalId = Ok st → result_valid idx st.
Proof.
  unfold searchForIndexing. intros (st0 & H0 & Hl)%rbind_Ok.
  eapply searchForIndexing_loop_valid; [exact Hl|].
  unfold searchForIndexing_init in H0.
  destruct (pEntryPoint_ idx) as [provider|]; [|discriminate].
  apply rbind_Ok in H0 as (n & Hn%deref_Ok & H0).
  apply lookup_lt_Some in Hn.
  destruct (maxInternalId <? getId n); [discriminate|].
  injection H0 as <-. unfold result_valid. simpl.
  destruct (NN_ idx <? 1); simpl; repeat constructor. exact Hn.
Qed.

Lemma addFriend_heap_ok data k h p f h' :
  heap_ok data k h → f < k → addFriend h p f = Ok h' → heap_ok data k h'.
Proof.
  intros [Hlen Hh] Hf H. unfold addFriend in H.
  apply rbind_Ok in H as (n & Hn%deref_Ok & [= <-]).
  split; [rewrite length_insert; exact Hlen|].
  intros q m Hq. destruct (decide (q = p)) as [->|Hne].
  - rewrite list_lookup_insert_eq in Hq by (apply lookup_lt_Some in Hn; exact Hn).
    injection Hq as <-. simpl. destruct (Hh _ _ Hn) as (A & B & C).
    repeat split; auto. apply Forall_app. split; [exact C|].
    constructor; [exact Hf|constructor].
  - rewrite list_lookup_insert_ne in Hq by congruence. apply Hh, Hq.
Qed.

Lemma link_heap_ok data k h a b h' :
  heap_ok data k h → a < k → b < k → link h a b = Ok h' → heap_ok data k h'.
Proof.
  intros Hok Ha Hb H. unfold link in H.
  apply rbind_Ok in H as (h1 & H1 & H2).
  eapply addFriend_heap_ok in H1; [|exact Hok|exact Hb].
  eapply addFriend_heap_ok in H2; [exact H2|exact H1|exact Ha].
Qed.

Lemma add_build_inv data k obj idx idx' :
  NoDup (Object_id <$> data) → data !! k = Some obj →
  build_inv data k idx →
  add (set_heap idx (heap idx ++ [MSWNode_new obj k])) k (length data) = Ok idx' →
  build_inv data (Datatypes.S k) idx'.
Proof.
  intros Hnd Hobj [Hd [Hlen Hh] Ht]. unfold add. proj_simpl.
  assert (Hnew : (heap idx ++ [MSWNode_new obj k]) !! k = Some (MSWNode_new obj k))
    by (rewrite lookup_app_r, Hlen, Nat.sub_diag by lia; reflexivity).
  assert (Hok1 : heap_ok data (Datatypes.S k) (heap idx ++ [MSWNode_new obj k])).
  { split; [rewrite length_app, Hlen; simpl; lia|].
    intros p n Hp. destruct (decide (p < k)) as [Hlt|Hge].
    - rewrite lookup_app_l in Hp by lia. destruct (Hh _ _ Hp) as (A & B & C).
      repeat split; auto. eapply Forall_impl; [exact C|]. simpl. lia.
    - pose proof (lookup_lt_Some _ _ _ Hp) as Hlt'.
      rewrite length_app, Hlen in Hlt'. simpl in Hlt'.
      assert (p = k) as -> by lia. rewrite Hnew in Hp. injection Hp as <-.
      simpl. repeat split; auto. }
  unfold removeAllFriends, deref. rewrite Hnew. cbn [rbind].
  rewrite list_insert_id by exact Hnew.
  destruct (decide (ElList_ idx = ∅)) as [|Hne]; [discriminate|].
  rewrite Hnew. cbn [rbind getData MSWNode_new].
  intros (st & Hst & (h & Hlink & Hadd)%rbind_Ok)%rbind_Ok.
  apply searchForIndexing_valid in Hst. unfold result_valid in Hst.
  proj_simpl_in Hst.
  assert (Hok2 : heap_ok data (Datatypes.S k) h).
  { revert Hlink Hok1 Hst. generalize (heap idx ++ [MSWNode_new obj k]).
    induction (is_resultSet st) as [|ev l IH]; intros h0; simpl.
    - intros [= <-]. auto.
    - intros (h1 & H1 & H2)%rbind_Ok Hok Hall.
      inversion Hall as [|? ? Hev Hall']; subst.
      assert (Hl1 : length h1 = length h0).
      { unfold link, addFriend in H1.
        apply rbind_Ok in H1 as (h' & (n & _ & [= <-])%rbind_Ok
                                     & (n' & _ & [= <-])%rbind_Ok).
        rewrite !length_insert. reflexivity. }
      eapply IH; [exact H2| |rewrite Hl1; exact Hall'].
      destruct Hok as [Hl0 Hh0].
      eapply link_heap_ok; [split; eassumption| | |exact H1]; lia. }
  unfold addCriticalSection in Hadd. proj_simpl_in Hadd.
  destruct Hok2 as [Hlen2 Hh2].
  destruct (lookup_lt_is_Some_2 h k) as [n Hn]; [lia|].
  unfold deref in Hadd. rewrite Hn in Hadd. cbn [rbind] in Hadd.
  destruct (Hh2 _ _ Hn) as (Hid & Hdn & _).
  assert (getData n = obj) as Hdata by congruence.
  rewrite Hdata in Hadd.
  assert (Hnone : ElList_ idx !! Object_id obj = None).
  { destruct (ElList_ idx !! Object_id obj) as [p|] eqn:E; [|reflexivity].
    apply Ht in E as [Hlt Hp].
    destruct (data !! p) as [obj'|] eqn:Hp'; [|discriminate].
    simpl in Hp. injection Hp as Hp.
    assert (p = k); [|lia].
    apply (NoDup_lookup (Object_id <$> data) p k (Object_id obj)); [exact Hnd| |];
      rewrite list_lookup_fmap; [rewrite Hp'|rewrite Hobj]; simpl; congruence. }
  rewrite Hnone in Hadd. injection Hadd as <-.
  split; proj_simpl; [exact Hd|split; assumption|].
  intros o p. destruct (decide (o = Object_id obj)) as [->|Hne'].
  - rewrite lookup_insert_eq. split.
    + intros [= <-]. split; [lia|]. rewrite Hobj. reflexivity.
    + intros [Hlt Hp]. f_equal.
      destruct (data !! p) as [obj'|] eqn:Hp'; [|discriminate].
      simpl in Hp. injection Hp as Hp. symmetry.
      apply (NoDup_lookup (Object_id <$> data) p k (Object_id obj)); [exact Hnd| |];
        rewrite list_lookup_fmap; [rewrite Hp'|rewrite Hobj]; simpl; congruence.
  - rewrite lookup_insert_ne by congruence. rewrite Ht. split.
    + intros [Hlt Hp]. split; [lia|exact Hp].
    + intros [Hlt Hp]. split; [|exact Hp].
      destruct (decide (p = k)) as [->|]; [|lia].
      rewrite Hobj in Hp. simpl in Hp. congruence.
Qed.

Lemma CreateIndex_loop_build_inv data objs : ∀ k idx idx',
  NoDup (Object_id <$> data) →
  (∀ j obj, objs !! j = Some obj → data !! (k + j) = Some obj) →
  length data = k + length objs →
  build_inv data k idx →
  CreateIndex_loop objs k idx = Ok idx' →
  build_inv data (length data) idx'.
Proof.
  induction objs as [|obj objs IH]; intros k idx idx' Hnd Hobjs Hlen Hinv; simpl.
  - intros [= <-]. simpl in Hlen. rewrite Hlen, Nat.add_0_r. exact Hinv.
  - intros (idx2 & Hadd & Hloop)%rbind_Ok.
    rewrite (bi_data _ _ _ Hinv) in Hadd.
    destruct (bi_heap _ _ _ Hinv) as [Hl _]. rewrite Hl in Hadd.
    eapply add_build_inv in Hadd; [|exact Hnd| |exact Hinv].
    2:{ specialize (Hobjs 0 obj eq_refl). rewrite Nat.add_0_r in Hobjs. exact Hobjs. }
    eapply IH; [exact Hnd| | |exact Hadd|exact Hloop].
    + intros j o Hj. specialize (Hobjs (Datatypes.S j) o Hj).
      rewrite <- Nat.add_succ_comm in Hobjs. exact Hobjs.
    + simpl in Hlen. lia.
Qed.

Lemma build_inv_wf data idx :
  build_inv data (length data) idx → wf_index idx.
Proof.
  intros [Hd [Hlen Hh] Ht]. split.
  - intros o p Hp. apply Ht in Hp as [Hlt Hp].
    destruct (lookup_lt_is_Some_2 (heap idx) p) as [n Hn]; [lia|].
    destruct (Hh _ _ Hn) as (Hid & Hdn & _).
    exists n. rewrite Hd, Hid. split; [exact Hn|]. split; [exact Hdn|].
    rewrite Hdn in Hp. simpl in Hp. congruence.
  - intros o p n f Hp Hn Hf.
    destruct (Hh _ _ Hn) as (_ & _ & Hfr).
    pose proof (proj1 (Forall_forall _ _) Hfr f Hf) as Hlt. simpl in Hlt.
    destruct (lookup_lt_is_Some_2 (heap idx) f) as [m Hm]; [lia|].
    destruct (Hh _ _ Hm) as (Hid & Hdm & _).
    exists m. split; [exact Hm|]. apply Ht. split; [exact Hlt|].
    rewrite Hdm. reflexivity.
Qed.

Lemma CreateIndex_Ok_params {O : ElementMapOrder} hw prm idx0 idx :
  CreateIndex hw prm idx0 = Ok idx →
  ∃ NN efC thr proxy, build_params hw prm NN efC thr proxy.
Proof.
  unfold CreateIndex, build_params. intros H.
  apply rbind_Ok in H as (NN & HNN & H).
  apply rbind_Ok in H as (efC & HefC & H).
  apply rbind_Ok in H as (thr & Hthr & H).
  apply rbind_Ok in H as (proxy & Hpx & H).
  apply rbind_Ok in H as ([] & Hcu & H).
  exists NN, efC, thr, proxy. auto.
Qed.

(** A successful build over objects with pairwise different ids ends in
    a well-formed index over the data. *)
Lemma CreateIndex_wf {O : ElementMapOrder} hw prm print data junk idx :
  NoDup (Object_id <$> data) →
  CreateIndex hw prm (SmallWorldRand_new print data junk) = Ok idx →
  wf_index idx ∧ data_ idx = data.
Proof.
  intros Hnd H.
  destruct (CreateIndex_Ok_params _ _ _ _ H) as (NN & efC & thr & proxy & Hprm).
  rewrite (CreateIndex_unfold _ _ _ _ _ _ _ _ _ Hprm) in H.
  destruct data as [|obj0 rest].
  - injection H as <-. split; [|reflexivity].
    split; simpl; intros o p; rewrite lookup_empty; discriminate.
  - destruct (thr <=? 1); [|discriminate].
    assert (Hinv : build_inv (obj0 :: rest) (length (obj0 :: rest)) idx).
    { eapply CreateIndex_loop_build_inv; [exact Hnd| | | |exact H].
      - intros j obj Hj. exact Hj.
      - reflexivity.
      - split; simpl; [reflexivity| |].
        + split; [reflexivity|]. intros [|p] n; [|discriminate].
          intros [= <-]. simpl. repeat split; constructor.
        + intros o p. split.
          * intros [Ho Hp]%lookup_singleton_Some. subst o p.
            split; [lia|reflexivity].
          * intros [Hlt Hp]. assert (p = 0) as -> by lia.
            simpl in Hp. injection Hp as <-. apply lookup_singleton_eq. }
    split; [eapply build_inv_wf, Hinv|apply (bi_data _ _ _ Hinv)].
Qed.
End BuildInvariant.

Lemma last_saved (a b q : string) (L : list string) :
  last (a :: b :: L ++ [EmptyString; q]) = Some q.
Proof.
  replace (a :: b :: L ++ [EmptyString; q])
    with (([a; b] ++ L ++ [EmptyString]) ++ [q])
    by (rewrite <- !app_assoc; reflexivity).
  apply last_snoc.
Qed.

(** The round trip where the key of line 651 is evaluated before the
    node is released and the data fit [IdType]: an index built by
    [CreateIndex] over objects with pairwise different ids can be saved,
    and loading the saved file into a fresh index over the same data
    sequence succeeds and gives the same graph back: the same internal
    ids bound to the same object ids, and for each node the same friends
    in the same order (so also as a multiset).  The count on the last
    line of the file is the number of its lines, which is the count the
    loader arrives at. *)
Lemma save_load_round_trip {S : Space} {F : FieldIO} {O : ElementMapOrder}
    {M : Implementation}
    (hardware_concurrency : nat) (IndexParams : AnyParams)
    (data : list Object) (PrintProgress PrintProgress' : bool)
    (junk junk' : Uninit) (idx : SmallWorldRand) :
  release_first = false → fits_IdType data →
  NoDup (Object_id <$> data) →
  CreateIndex hardware_concurrency IndexParams
    (SmallWorldRand_new PrintProgress data junk) = Ok idx →
  ∃ file idx',
    SaveIndex idx = Ok file ∧
    last file = Some (WriteField_nat LINE_QTY (length file)) ∧
    LoadIndex file (SmallWorldRand_new PrintProgress' data junk') = Ok idx' ∧
    ∀ i o fs, has_node idx' i o fs ↔ has_node idx i o fs.
Proof.
  intros Hord Hfit Hnd Hbuild.
  destruct (CreateIndex_wf _ _ _ _ _ _ Hnd Hbuild) as [Hwf Hd].
  rewrite <- Hd in Hfit.
  destruct (save_load_wf idx (SmallWorldRand_new PrintProgress' data junk')
              Hord Hfit Hwf)
    as (file & idx' & Hsave & Hload & Hnodes & _); auto.
  exists file, idx'. split; [exact Hsave|]. split; [|split; assumption].
  rewrite (SaveIndex_Ok idx Hfit Hwf) in Hsave. injection Hsave as <-.
  set (es := saved_entries idx).
  cbn [length]. rewrite length_app, length_fmap. cbn [length].
  replace (Datatypes.S (Datatypes.S (length es + 2))) with (length es + 4) by lia.
  apply last_saved.
Qed.

(** ** The entry point *)

Section EntryPoint.
Context {S : Space} {F : FieldIO} {M : Implementation}.

Lemma add_pEntryPoint idx p m idx' :
  add idx p m = Ok idx' → pEntryPoint_ idx' = pEntryPoint_ idx.
Proof.
  unfold add. intros (h & _ & H)%rbind_Ok.
  destruct (decide _) as [|Hne]; [discriminate|].
  apply rbind_Ok in H as (n & _ & (st & _ & (h' & _ & H)%rbind_Ok)%rbind_Ok).
  unfold addCriticalSection in H. apply rbind_Ok in H as (n' & _ & H).
  proj_simpl_in H. destruct (ElList_ idx !! _); injection H as <-; reflexivity.
Qed.

Lemma CreateIndex_loop_pEntryPoint objs : ∀ k idx idx',
  CreateIndex_loop objs k idx = Ok idx' → pEntryPoint_ idx' = pEntryPoint_ idx.
Proof.
  induction objs as [|obj objs IH]; intros k idx idx'; simpl.
  - intros [= <-]. reflexivity.
  - intros (idx2 & Hadd & Hloop)%rbind_Ok.
    rewrite (IH _ _ _ Hloop), (add_pEntryPoint _ _ _ _ Hadd). reflexivity.
Qed.

(** [CreateIndex] over a non-empty data sequence leaves the entry point
    at the first node created, and the insertions do not move it. *)
Lemma CreateIndex_pEntryPoint {O : ElementMapOrder} hw prm print obj0 rest junk idx :
  CreateIndex hw prm (SmallWorldRand_new print (obj0 :: rest) junk) = Ok idx →
  pEntryPoint_ idx = Some 0.
Proof.
  intros H.
  destruct (CreateIndex_Ok_params _ _ _ _ H) as (NN & efC & thr & proxy & Hprm).
  rewrite (CreateIndex_unfold _ _ _ _ _ _ _ _ _ Hprm) in H.
  destruct (thr <=? 1); [|discriminate].
  apply CreateIndex_loop_pEntryPoint in H. exact H.
Qed.

Lemma LoadIndex_friends_pEntryPoint fuel : ∀ ld p str ld' str',
  LoadIndex_friends fuel ld p str = Ok (ld', str') →
  pEntryPoint_ (ld_index ld') = pEntryPoint_ (ld_index ld).
Proof.
  induction fuel as [|fuel IH]; intros ld p str ld' str'; simpl; [discriminate|].
  destruct (read_int str) as [str1 [z|]]; [|intros [= <- _]; reflexivity].
  destruct (negb _); [discriminate|].
  destruct (ptrMapper ld !! Z.to_nat z) as [[pf|]|]; try discriminate.
  intros (h & _ & H)%rbind_Ok. apply IH in H. exact H.
Qed.

Lemma LoadIndex_line_pEntryPoint pass ld line ld' :
  LoadIndex_line pass ld line = Ok ld' →
  pEntryPoint_ (ld_index ld') = pEntryPoint_ (ld_index ld).
Proof.
  unfold LoadIndex_line. intros ([[str nodeID] obj] & _ & H)%rbind_Ok.
  destruct (pass =? 0).
  - cbn [new_MSWNode] in H. proj_simpl_in H.
    destruct release_first; [discriminate|].
    destruct (ElList_ (ld_index ld) !! _); injection H as <-; reflexivity.
  - destruct (ptrMapper ld !! nodeID) as [[pNode|]|]; try discriminate.
    apply rbind_Ok in H as ([ld1 str1] & Hf & H).
    apply LoadIndex_friends_pEntryPoint in Hf.
    destruct (ss_eof str1); [|discriminate]. injection H as <-. exact Hf.
Qed.

Lemma LoadIndex_lines_pEntryPoint pass inFile : ∀ lineNum ld inFile' lineNum' ld',
  LoadIndex_lines pass inFile lineNum ld = Ok (inFile', lineNum', ld') →
  pEntryPoint_ (ld_index ld') = pEntryPoint_ (ld_index ld).
Proof.
  induction inFile as [|line inFile IH]; intros lineNum ld inFile' lineNum' ld';
    simpl.
  - intros [= _ _ <-]. reflexivity.
  - destruct (is_empty line); [intros [= _ _ <-]; reflexivity|].
    intros (ld1 & H1 & H)%rbind_Ok. apply IH in H.
    apply LoadIndex_line_pEntryPoint in H1. congruence.
Qed.

Lemma LoadIndex_pass_pEntryPoint pass file ld ld' :
  LoadIndex_pass pass file ld = Ok ld' →
  pEntryPoint_ (ld_index ld') = pEntryPoint_ (ld_index ld).
Proof.
  unfold LoadIndex_pass. intros ([methDesc inFile] & _ & H)%rbind_Ok.
  destruct (negb _); [discriminate|].
  apply rbind_Ok in H as ([NN inFile1] & _ & H).
  apply rbind_Ok in H as ([[inFile2 lineNum] ld2] & Hl & H).
  apply rbind_Ok in H as ([ExpLineNum inFile3] & _ & H).
  destruct (negb _); [discriminate|]. injection H as <-.
  apply LoadIndex_lines_pEntryPoint in Hl. exact Hl.
Qed.

(** [LoadIndex] never assigns the entry point: after a load it is what
    it was before. *)
Lemma LoadIndex_pEntryPoint file idx idx' :
  LoadIndex file idx = Ok idx' → pEntryPoint_ idx' = pEntryPoint_ idx.
Proof.
  unfold LoadIndex.
  intros (ld0 & H0 & (ld1 & H1 & [= <-])%rbind_Ok)%rbind_Ok.
  apply LoadIndex_pass_pEntryPoint in H0, H1. simpl in H0. congruence.
Qed.
End EntryPoint.

(** * Further properties *)

(** ** Runs that return *)

Lemma returns_Ok {A : Type} (a : A) : returns (Ok a).
Proof. by exists a. Qed.

Lemma rbind_returns {A B : Type} (r : result A) (f : A → result B) (Q : B → Prop) :
  (∃ a, r = Ok a ∧ ∃ b, f a = Ok b ∧ Q b) → ∃ b, rbind r f = Ok b ∧ Q b.
Proof. intros (a & -> & b & Hb & HQ). exists b. by split. Qed.

Lemma foldM_invariant_Forall {A B : Type} (P : A → Prop) (Q : B → Prop)
    (f : A → B → result A) l :
  (∀ a b a', P a → Q b → f a b = Ok a' → P a') →
  ∀ a a', Forall Q l → P a → foldM f a l = Ok a' → P a'.
Proof.
  intros Hf. induction l as [|b l IH]; intros a a' HQ HP; simpl.
  - by intros [= <-].
  - intros (a1 & H1 & H2)%rbind_Ok.
    apply Forall_cons in HQ as [Hb HQ].
    apply (IH a1 a' HQ); [|exact H2]. exact (Hf a b a1 HP Hb H1).
Qed.

Lemma foldM_safe {A B : Type} (P : A → Prop) (Q : B → Prop)
    (f : A → B → result A) l :
  (∀ a b, P a → Q b → ∃ a', f a b = Ok a' ∧ P a') →
  ∀ a, Forall Q l → P a → ∃ a', foldM f a l = Ok a' ∧ P a'.
Proof.
  intros Hf. induction l as [|b l IH]; intros a HQ HP; simpl.
  - by exists a.
  - apply Forall_cons in HQ as [Hb HQ].
    destruct (Hf a b HP Hb) as (a1 & -> & HP1). simpl. by apply IH.
Qed.

Lemma pq_push_perm {T : Type} (less : T → T → bool) x q :
  pq_push less x q ≡ₚ x :: q.
Proof.
  induction q as [|y q IH]; simpl; [done|].
  destruct (less y x); [done|]. rewrite IH. apply Permutation_swap.
Qed.

Lemma pq_push_nonempty {T : Type} (less : T → T → bool) x q :
  pq_push less x q ≠ [].
Proof. destruct q as [|y q]; simpl; [done|]. by destruct (less y x). Qed.

Lemma trim_nonempty {T : Type} (cap : nat) (q : list T) :
  1 ≤ cap → q ≠ [] → (if cap <? length q then pq_pop q else q) ≠ [].
Proof.
  intros Hcap Hq. destruct (cap <? length q) eqn:Hlt; [|done].
  apply Nat.ltb_lt in Hlt. destruct q as [|a [|b q]]; simpl in *; [done|lia|done].
Qed.

Lemma trim_length {T : Type} (cap : nat) (q : list T) :
  length q ≤ Datatypes.S cap →
  length (if cap <? length q then pq_pop q else q) ≤ cap.
Proof.
  intros Hq. destruct (cap <? length q) eqn:Hlt.
  - destruct q; simpl in *; lia.
  - apply Nat.ltb_ge in Hlt. lia.
Qed.

Lemma trim_sublist {T : Type} (cap : nat) (q : list T) :
  (if cap <? length q then pq_pop q else q) `sublist_of` q.
Proof.
  destruct (cap <? length q); [|done].
  destruct q; simpl; [done|]. by apply sublist_cons.
Qed.

(** ** What the indexing search returns *)

Section IndexingResult.
Context {S : Space}.
Variables (idx : SmallWorldRand) (queryObj : Object) (maxInternalId : nat).
Variable P : ptr → Prop.
Hypothesis P_closed : friend_closed (heap idx) P.

Lemma not_evaluated_yet v events p n :
  trace_inv (heap idx) v events → heap idx !! p = Some n →
  v !! getId n = Some false → p ∉ evaluated events.
Proof.
  intros (_ & Hbits & _) Hn Hv Hin. specialize (Hbits p Hin).
  unfold node_id in Hbits. rewrite Hn in Hbits. simpl in Hbits. congruence.
Qed.

Lemma result_inv_update st visited closest cands R' ev d p :
  result_inv idx P st → P p → p ∉ evaluated (is_events st) →
  Forall (λ ev, P (getMSWNode ev)) cands → evaluated ev = [p] →
  R' = is_resultSet st ∨
  R' = (let r := pq_push less_Direct (mkEvaluated d p) (is_resultSet st) in
        if NN_ idx <? length r then pq_pop r else r) →
  trace_inv (heap idx) visited (is_events st ++ ev) →
  result_inv idx P (mkIndexSearch visited closest cands R' (is_events st ++ ev)).
Proof.
  intros [Hc Hr He Hnd Hk Hlen Hsome Htr] HP Hnew Hcands Hev HR Htr'.
  assert (∃ R'', R' `sublist_of` R'' ∧ R'' ≡ₚ mkEvaluated d p :: is_resultSet st)
    as (R'' & Hsub & Hperm).
  { destruct HR as [->| ->].
    - exists (mkEvaluated d p :: is_resultSet st). split; [by apply sublist_cons|done].
    - eexists. split; [apply trim_sublist|apply pq_push_perm]. }
  assert (Hall : ∀ x, x ∈ R' → x = mkEvaluated d p ∨ x ∈ is_resultSet st).
  { intros x Hx. eapply elem_of_sublist in Hx; [|exact Hsub].
    rewrite Hperm in Hx. by apply elem_of_cons in Hx. }
  constructor; simpl.
  - exact Hcands.
  - apply Forall_forall. intros x Hx. destruct (Hall x Hx) as [->|Hx'].
    + exact HP.
    + by eapply Forall_forall in Hr.
  - rewrite evaluated_app, Hev. apply Forall_app. split; [exact He|by constructor].
  - apply (sublist_NoDup _ (getMSWNode <$> R'')); [|by apply fmap_sublist].
    rewrite Hperm. simpl. apply NoDup_cons. split; [|exact Hnd].
    intros (x & Hx1 & Hx2)%list_elem_of_fmap. apply Hnew. rewrite Hx1. by apply Hk.
  - intros x Hx. rewrite evaluated_app, Hev. apply elem_of_app.
    destruct (Hall x Hx) as [->|Hx']; [right; simpl; by constructor|left; by apply Hk].
  - destruct HR as [->| ->]; [exact Hlen|].
    apply trim_length. rewrite length_pq_push. lia.
  - intros HNN. destruct HR as [->| ->]; [by apply Hsome|].
    apply trim_nonempty; [exact HNN|apply pq_push_nonempty].
  - exact Htr'.
Qed.

Lemma searchForIndexing_neighbor_result st p st' :
  searchForIndexing_neighbor idx queryObj maxInternalId st p = Ok st' →
  P p → result_inv idx P st → result_inv idx P st'.
Proof.
  intros H HP Hinv.
  assert (Htr : trace_inv (heap idx) (is_visitedBitset st') (is_events st')).
  { eapply visit_trace_inv; [exact (searchForIndexing_neighbor_visit _ _ _ _ _ _ H)|apply Hinv]. }
  revert H Htr. unfold searchForIndexing_neighbor.
  intros (n & Hn%deref_Ok & H)%rbind_Ok.
  destruct (maxInternalId <? getId n); [discriminate|].
  apply rbind_Ok in H as (seen & Hseen%bit_Ok & H).
  destruct seen; [by injection H as <-|].
  assert (Hnew : p ∉ evaluated (is_events st)).
  { eapply not_evaluated_yet; [apply Hinv|exact Hn|exact Hseen]. }
  destruct (_ || _);
    (destruct (length (is_resultSet st) <? NN_ idx);
     [|destruct (pq_top (is_resultSet st)); [|discriminate];
       destruct (dist_lt _ _)]);
    injection H as <-; simpl; intros Htr;
    (refine (result_inv_update st _ _ _ _ _ (index_distance idx (getData n) queryObj) p
               Hinv HP Hnew _ _ _ Htr);
     [first [apply Forall_pq_push; [exact HP|apply Hinv] | apply Hinv]
     |reflexivity
     |first [by left | by right]]).
Qed.

Lemma searchForIndexing_loop_result fuel : ∀ st st',
  searchForIndexing_loop fuel idx queryObj maxInternalId st = Ok st' →
  result_inv idx P st → result_inv idx P st'.
Proof.
  induction fuel as [|fuel IH]; intros st st'; simpl; [discriminate|].
  destruct (pq_top (is_candidateSet st)) as [currEv|] eqn:Htop;
    [|by intros [= <-]].
  destruct (pq_top (is_closestDistQueue st)); [|discriminate].
  destruct (dist_lt _ _); [by intros [= <-]|].
  intros (currNode & Hn%deref_Ok & (st2 & H2 & Hl)%rbind_Ok)%rbind_Ok Hinv.
  apply (IH _ _ Hl).
  assert (HPc : P (getMSWNode currEv)).
  { destruct Hinv as [Hc _ _ _ _ _ _ _].
    destruct (is_candidateSet st) as [|x q]; [discriminate|].
    injection Htop as <-. by apply Forall_cons in Hc as [Hx _]. }
  eapply (foldM_invariant_Forall (result_inv idx P) P); [| |  |exact H2].
  - intros a b a' Ha Hb Hab. eapply searchForIndexing_neighbor_result; eauto.
  - eapply P_closed; eauto.
  - destruct Hinv as [Hc Hr He Hnd Hk Hlen Hsome Htr].
    constructor; simpl; auto. by apply Forall_pq_pop.
Qed.


Lemma searchForIndexing_result st :
  (∀ provider, pEntryPoint_ idx = Some provider → P provider) →
  searchForIndexing idx queryObj [] maxInternalId = Ok st → result_inv idx P st.
Proof.
  intros Hentry. unfold searchForIndexing. intros (st0 & H0 & Hl)%rbind_Ok.
  apply (searchForIndexing_loop_result _ _ _ Hl).
  pose proof (searchForIndexing_init_spec _ _ _ _ _ H0) as [_ Htr].
  revert H0 Htr. unfold searchForIndexing_init.
  destruct (pEntryPoint_ idx) as [provider|]; [|discriminate].
  specialize (Hentry provider eq_refl).
  intros (pnode & Hp%deref_Ok & H)%rbind_Ok.
  destruct (maxInternalId <? getId pnode); [discriminate|].
  injection H as <-. simpl. intros Htr.
  set (ev := mkEvaluated (index_distance idx (getData pnode) queryObj) provider).
  assert (Hr : (if NN_ idx <? 1 then [] else [ev]) `sublist_of` [ev]).
  { destruct (NN_ idx <? 1); [apply sublist_nil_l|done]. }
  constructor; simpl.
  - by repeat constructor.
  - destruct (NN_ idx <? 1); by repeat constructor.
  - by repeat constructor.
  - destruct (NN_ idx <? 1); simpl; [constructor|].
    apply NoDup_singleton.
  - intros x Hx. eapply elem_of_sublist in Hx; [|exact Hr].
    apply list_elem_of_singleton in Hx as ->. simpl. by constructor.
  - destruct (NN_ idx <? 1) eqn:Hlt; simpl; [lia|].
    apply Nat.ltb_ge in Hlt. lia.
  - intros HNN. destruct (NN_ idx <? 1) eqn:Hlt; [|done].
    apply Nat.ltb_lt in Hlt. lia.
  - exact Htr.
Qed.
End IndexingResult.

(** ** The indexing search returns *)

Section IndexingSafe.
Context {S : Space}.
Variables (idx : SmallWorldRand) (queryObj : Object) (maxInternalId : nat).
Variable P : ptr → Prop.
Hypothesis P_closed : friend_closed (heap idx) P.
Hypothesis P_nodes : nodes_below (heap idx) (maxInternalId + 1) P.
Hypothesis efConstruction_pos : 1 ≤ efConstruction_ idx.
Hypothesis NN_pos : 1 ≤ NN_ idx.

Lemma searchForIndexing_neighbor_safe st p :
  search_safe maxInternalId P st → P p →
  ∃ st', searchForIndexing_neighbor idx queryObj maxInternalId st p = Ok st' ∧
         search_safe maxInternalId P st'.
Proof.
  intros [Hbits Hc Hcl Hr] HP. unfold searchForIndexing_neighbor.
  destruct (P_nodes p HP) as (n & Hn & Hid).
  unfold deref. rewrite Hn. cbn [rbind].
  replace (maxInternalId <? getId n) with false by (symmetry; apply Nat.ltb_ge; lia).
  destruct (lookup_lt_is_Some_2 (is_visitedBitset st) (getId n)) as [seen Hseen];
    [lia|].
  unfold bit. rewrite Hseen. cbn [rbind].
  destruct seen; [eexists; split; [reflexivity|by constructor]|].
  assert (Hbits' : length (<[getId n:=true]> (is_visitedBitset st)) = maxInternalId + 1)
    by (by rewrite length_insert).
  assert (HR : ∀ d, (let r := pq_push less_Direct (mkEvaluated d p) (is_resultSet st) in
                     if NN_ idx <? length r then pq_pop r else r) ≠ []).
  { intros d. apply trim_nonempty; [exact NN_pos|apply pq_push_nonempty]. }
  destruct (_ || _);
    (destruct (length (is_resultSet st) <? NN_ idx);
     [|destruct (pq_top (is_resultSet st)) eqn:Htop;
       [destruct (dist_lt _ _)|by destruct (is_resultSet st)]]);
    (eexists; split; [reflexivity|]); constructor; simpl; auto;
    try (apply Forall_pq_push; [exact HP|exact Hc]);
    try (apply trim_nonempty; [exact efConstruction_pos|apply pq_push_nonempty]);
    try apply HR.
Qed.

Lemma searchForIndexing_loop_safe fuel : ∀ st,
  search_safe maxInternalId P st →
  unvisited (is_visitedBitset st) + length (is_candidateSet st) < fuel →
  returns (searchForIndexing_loop fuel idx queryObj maxInternalId st).
Proof.
  induction fuel as [|fuel IH]; intros st Hsafe Hlt; [lia|]. simpl.
  destruct (pq_top (is_candidateSet st)) as [currEv|] eqn:Htop;
    [|apply returns_Ok].
  destruct (pq_top (is_closestDistQueue st)) eqn:Hcl;
    [|destruct Hsafe as [_ _ Hne _]; by destruct (is_closestDistQueue st)].
  destruct (dist_lt _ _); [apply returns_Ok|].
  assert (HPc : P (getMSWNode currEv)).
  { destruct Hsafe as [_ Hc _ _].
    destruct (is_candidateSet st) as [|x q]; [discriminate|].
    injection Htop as <-. by apply Forall_cons in Hc as [Hx _]. }
  destruct (P_nodes _ HPc) as (currNode & Hn & _).
  unfold deref. rewrite Hn. cbn [rbind].
  destruct (foldM_safe (search_safe maxInternalId P) P
              (searchForIndexing_neighbor idx queryObj maxInternalId)
              (getAllFriends currNode))
    with (a := mkIndexSearch (is_visitedBitset st) (is_closestDistQueue st)
                 (pq_pop (is_candidateSet st)) (is_resultSet st) (is_events st))
    as (st2 & H2 & Hsafe2).
  - intros a b. apply searchForIndexing_neighbor_safe.
  - eapply P_closed; eauto.
  - destruct Hsafe as [Hb Hc Hcl' Hr]. constructor; simpl; auto.
    by apply Forall_pq_pop.
  - rewrite H2. cbn [rbind]. apply IH; [exact Hsafe2|].
    apply searchForIndexing_neighbors in H2 as [Hm _]. simpl in Hm.
    apply length_pq_pop in Htop. lia.
Qed.

Lemma searchForIndexing_safe provider :
  pEntryPoint_ idx = Some provider → P provider →
  returns (searchForIndexing idx queryObj [] maxInternalId).
Proof.
  intros Hentry HP. unfold searchForIndexing.
  destruct (P_nodes _ HP) as (n & Hn & Hid).
  destruct (searchForIndexing_init idx queryObj [] maxInternalId) as [st0| | |] eqn:H0;
    [|exfalso; revert H0; unfold searchForIndexing_init, deref;
      rewrite Hentry, Hn; cbn [rbind];
      replace (maxInternalId <? getId n) with false
        by (symmetry; apply Nat.ltb_ge; lia);
      discriminate..].
  cbn [rbind]. apply searchForIndexing_loop_safe.
  - revert H0. unfold searchForIndexing_init, deref. rewrite Hentry, Hn. cbn [rbind].
    destruct (maxInternalId <? getId n); [discriminate|].
    intros [= <-]. constructor; cbn [is_visitedBitset is_candidateSet
      is_closestDistQueue is_resultSet].
    + by rewrite length_insert, length_replicate.
    + by repeat constructor.
    + destruct (efConstruction_ idx <? 1) eqn:E; [apply Nat.ltb_lt in E; lia|done].
    + destruct (NN_ idx <? 1) eqn:E; [apply Nat.ltb_lt in E; lia|done].
  - apply searchForIndexing_init_spec in H0 as [Hm _]. lia.
Qed.
End IndexingSafe.

Section IndexingNoFriends.
Context {S : Space}.

(** From an entry point without friends the search is over after one
    round. *)
Lemma searchForIndexing_no_friends idx queryObj maxInternalId provider n :
  pEntryPoint_ idx = Some provider → heap idx !! provider = Some n →
  getId n ≤ maxInternalId → getAllFriends n = [] → 1 ≤ efConstruction_ idx →
  ∃ st, searchForIndexing idx queryObj [] maxInternalId = Ok st ∧
        getMSWNode <$> is_resultSet st = if NN_ idx <? 1 then [] else [provider].
Proof.
  intros Hentry Hn Hid Hfr HefC.
  unfold searchForIndexing, searchForIndexing_init, deref. rewrite Hentry, Hn.
  cbn [rbind].
  replace (maxInternalId <? getId n) with false by (symmetry; apply Nat.ltb_ge; lia).
  cbn [rbind pq_push length].
  replace (efConstruction_ idx <? 1) with false by (symmetry; apply Nat.ltb_ge; lia).
  replace (maxInternalId + 2) with (Datatypes.S (Datatypes.S maxInternalId)) by lia.
  cbn [searchForIndexing_loop is_candidateSet is_closestDistQueue pq_top head].
  destruct (dist_lt _ _).
  - eexists. split; [reflexivity|]. cbn [is_resultSet].
    by destruct (NN_ idx <? 1).
  - unfold deref. cbn [getMSWNode]. rewrite Hn. cbn [rbind]. rewrite Hfr.
    cbn [foldM rbind searchForIndexing_loop is_candidateSet pq_pop tail pq_top head].
    eexists. split; [reflexivity|]. cbn [is_resultSet].
    by destruct (NN_ idx <? 1).
Qed.
End IndexingNoFriends.

(** ** What [add] does to the store *)

Lemma friends_lookup h p n : h !! p = Some n → friends h p = getAllFriends n.
Proof. unfold friends. by intros ->. Qed.

Lemma friends_None h p : h !! p = None → friends h p = [].
Proof. unfold friends. by intros ->. Qed.

Lemma elem_of_friends h p q :
  q ∈ friends h p → ∃ n, h !! p = Some n ∧ q ∈ getAllFriends n.
Proof.
  unfold friends. destruct (h !! p) as [n|]; simpl; [eauto|].
  by intros ?%elem_of_nil.
Qed.

Section LinkAll.
Context {S : Space}.

(** The loop of [add] that links the new element with the nodes of the
    result: each of them gets the new element as its last friend, and the
    new element gets them in the order of the queue. *)
Lemma link_all newp (R : list EvaluatedMSWNode) : ∀ h,
  NoDup (getMSWNode <$> R) → newp ∉ getMSWNode <$> R →
  Forall (λ r, r < length h) (getMSWNode <$> R) → newp < length h →
  ∃ h', foldM (λ h ev, link h (getMSWNode ev) newp) h R = Ok h' ∧
        length h' = length h ∧
        ∀ p, h' !! p
             = add_friends (if decide (p = newp) then getMSWNode <$> R
                            else if decide (p ∈ getMSWNode <$> R) then [newp]
                            else []) <$> h !! p.
Proof.
  induction R as [|ev R IH]; intros h Hnd Hnew Hval Hlt.
  - exists h. split; [reflexivity|]. split; [reflexivity|].
    intros p. simpl. destruct (decide (p = newp)).
    + destruct (h !! p); simpl; [|done]. by rewrite add_friends_nil.
    + destruct (decide (p ∈ [])) as [Hin|_]; [by apply elem_of_nil in Hin|].
      destruct (h !! p); simpl; [|done]. by rewrite add_friends_nil.
  - cbn [fmap list_fmap] in *.
    apply NoDup_cons in Hnd as [Hr Hnd].
    apply not_elem_of_cons in Hnew as [Hne Hnew].
    apply Forall_cons in Hval as [Hrlt Hval].
    destruct ev as [d r]. cbn [getMSWNode] in *.
    destruct (lookup_lt_is_Some_2 h r Hrlt) as [nr Hnr].
    destruct (lookup_lt_is_Some_2 h newp Hlt) as [nn Hnn].
    cbn [foldM getMSWNode]. unfold link.
    rewrite (addFriend_Ok h r nr newp Hnr). cbn [rbind].
    assert (Hnn1 : <[r:=add_friends [newp] nr]> h !! newp = Some nn).
    { rewrite list_lookup_insert_ne; [exact Hnn|]. intros ->. by apply Hne. }
    rewrite (addFriend_Ok _ newp nn r Hnn1). cbn [rbind].
    set (h2 := <[newp:=add_friends [r] nn]> (<[r:=add_friends [newp] nr]> h)).
    assert (Hlen2 : length h2 = length h) by (unfold h2; by rewrite !length_insert).
    destruct (IH h2) as (h' & Hfold & Hlen & Hspec); auto.
    { by rewrite Hlen2. }
    { by rewrite Hlen2. }
    exists h'. split; [exact Hfold|]. split; [congruence|].
    intros p. rewrite Hspec. unfold h2.
    destruct (decide (p = newp)) as [->|Hp].
    + rewrite list_lookup_insert_eq by (rewrite length_insert; lia).
      rewrite Hnn. simpl. by rewrite add_friends_add_friends.
    + rewrite list_lookup_insert_ne by done.
      destruct (decide (p = r)) as [->|Hpr].
      * rewrite list_lookup_insert_eq by lia. rewrite Hnr. simpl.
        destruct (decide (r ∈ getMSWNode <$> R)) as [Hin|_]; [done|].
        destruct (decide (r ∈ r :: (getMSWNode <$> R))) as [_|Hnin];
          [|exfalso; apply Hnin; by left].
        by rewrite add_friends_add_friends.
      * rewrite list_lookup_insert_ne by done.
        destruct (decide (p ∈ getMSWNode <$> R)) as [Hin|Hnin].
        -- destruct (decide (p ∈ r :: (getMSWNode <$> R))) as [_|Hnin'];
             [done|exfalso; apply Hnin'; by right].
        -- destruct (decide (p ∈ r :: (getMSWNode <$> R))) as [Hin'|_]; [|done].
           apply elem_of_cons in Hin' as [->|Hin']; done.
Qed.
End LinkAll.

(** ** The graph that a build leaves *)

Lemma degree_sum_app h1 h2 : degree_sum (h1 ++ h2) = degree_sum h1 + degree_sum h2.
Proof. unfold degree_sum. by rewrite fmap_app, sum_list_with_app. Qed.

Lemma degree_sum_insert h p n fs :
  h !! p = Some n →
  degree_sum (<[p := add_friends fs n]> h) = degree_sum h + length fs.
Proof.
  intros Hn. rewrite <- (take_drop_middle h p n Hn) at 2.
  assert (Hp : p < length h) by (by eapply lookup_lt_Some).
  rewrite <- (take_drop_middle h p n Hn) at 1.
  replace p with (length (take p h) + 0) at 1 by (rewrite length_take; lia).
  rewrite insert_app_r. cbn [insert list_insert].
  rewrite !degree_sum_app. unfold degree_sum at 2 4. cbn [fmap list_fmap sum_list].
  unfold add_friends. simpl. rewrite length_app. lia.
Qed.

Lemma link_degree_sum h a b h' :
  link h a b = Ok h' → degree_sum h' = degree_sum h + 2.
Proof.
  unfold link, addFriend.
  intros (h1 & (na & Ha%deref_Ok & [= <-])%rbind_Ok &
          (nb & Hb%deref_Ok & [= <-])%rbind_Ok)%rbind_Ok.
  change (mkMSWNode (getData nb) (getId nb) (getAllFriends nb ++ [a]))
    with (add_friends [a] nb).
  rewrite (degree_sum_insert _ b nb [a] Hb).
  change (mkMSWNode (getData na) (getId na) (getAllFriends na ++ [b]))
    with (add_friends [b] na).
  rewrite (degree_sum_insert _ a na [b] Ha). simpl. lia.
Qed.

Lemma link_all_degree_sum {S : Space} newp (R : list EvaluatedMSWNode) : ∀ h h',
  foldM (λ h ev, link h (getMSWNode ev) newp) h R = Ok h' →
  degree_sum h' = degree_sum h + 2 * length R.
Proof.
  induction R as [|ev R IH]; intros h h'; simpl.
  - intros [= <-]. lia.
  - intros (h1 & H1 & H2)%rbind_Ok. apply link_degree_sum in H1.
    apply IH in H2. lia.
Qed.

Lemma reach_mono h h' p q :
  (∀ a b, b ∈ friends h a → b ∈ friends h' a) → reach h p q → reach h' p q.
Proof.
  intros Hsub. induction 1 as [|q r _ IH Hr]; [constructor|].
  eapply reach_step; [exact IH|by apply Hsub].
Qed.

Lemma first_with_id_exists data k o q :
  q < k → Object_id <$> data !! q = Some o → ∃ p, first_with_id data k o p.
Proof.
  revert q. refine (well_founded_induction lt_wf _ _). intros q IH Hq Hid.
  destruct (decide (Exists (λ q', Object_id <$> data !! q' = Some o) (seq 0 q)))
    as [(q' & Hlt%elem_of_seq & Hid')%Exists_exists|Hnone].
  - apply (IH q'); [lia|lia|exact Hid'].
  - exists q. split; [exact Hq|]. split; [exact Hid|].
    intros q' Hlt Hid'. apply Hnone, Exists_exists. exists q'.
    split; [apply elem_of_seq; lia|exact Hid'].
Qed.

Lemma first_with_id_unique data k o p p' :
  first_with_id data k o p → first_with_id data k o p' → p = p'.
Proof.
  intros (_ & Hid & Hmin) (_ & Hid' & Hmin').
  destruct (Nat.lt_trichotomy p p') as [Hlt|[->|Hlt]]; [|done|].
  - by destruct (Hmin' p Hlt).
  - by destruct (Hmin p' Hlt).
Qed.

Section BuildGraph.
Context {S : Space}.

Lemma graph_inv_closed data k obj idx :
  graph_inv data k idx →
  friend_closed (heap idx ++ [MSWNode_new obj k]) (λ p, p < k) ∧
  nodes_below (heap idx ++ [MSWNode_new obj k]) (length data + 1) (λ p, p < k).
Proof.
  intros Hinv. destruct (gi_heap _ _ _ Hinv) as [Hlen Hh].
  pose proof (gi_k _ _ _ Hinv) as Hk. split.
  - intros p n Hp Hn. rewrite lookup_app_l in Hn by lia.
    by destruct (Hh _ _ Hn) as (_ & _ & Hfr).
  - intros p Hp. destruct (lookup_lt_is_Some_2 (heap idx) p) as [n Hn]; [lia|].
    exists n. rewrite lookup_app_l by lia. split; [exact Hn|].
    destruct (Hh _ _ Hn) as (-> & _ & _). lia.
Qed.

(** One insertion of the sequential build, given what its search
    returned. *)
Lemma add_graph_step data k obj idx st :
  graph_inv data k idx → data !! k = Some obj →
  searchForIndexing (set_heap idx (heap idx ++ [MSWNode_new obj k])) obj []
    (length data) = Ok st →
  ∃ idx', add (set_heap idx (heap idx ++ [MSWNode_new obj k])) k (length data)
          = Ok idx' ∧
          graph_inv data (Datatypes.S k) idx' ∧
          NN_ idx' = NN_ idx ∧ efConstruction_ idx' = efConstruction_ idx ∧
          efSearch_ idx' = efSearch_ idx ∧
          searchAlgoType_ idx' = searchAlgoType_ idx.
Proof.
  intros Hinv Hobj Hst.
  destruct (graph_inv_closed data k obj idx Hinv) as [Hclosed Hnodes].
  destruct Hinv as [Hd [Hlen Hh] Hk Hentry Ht Hsym Hirr Hnd Hdeg Hconn].
  set (h1 := heap idx ++ [MSWNode_new obj k]) in *.
  assert (Hnew : h1 !! k = Some (MSWNode_new obj k))
    by (unfold h1; rewrite lookup_app_r, Hlen, Nat.sub_diag by lia; reflexivity).
  assert (Hlen1 : length h1 = Datatypes.S k)
    by (unfold h1; rewrite length_app, Hlen; simpl; lia).
  assert (Hklt : k < length data) by (by eapply lookup_lt_Some).
  pose proof (searchForIndexing_result (set_heap idx h1) obj (length data)
                (λ p, p < k) Hclosed st) as Hres.
  destruct Hres as [_ Hr _ Hrnd _ Hrlen Hrsome _].
  { proj_simpl. rewrite Hentry. intros ? [= <-]. lia. }
  { exact Hst. }
  set (rs := getMSWNode <$> is_resultSet st) in *.
  assert (Hrs : Forall (λ r, r < k) rs).
  { unfold rs. apply Forall_fmap. exact Hr. }
  assert (Hkrs : k ∉ rs).
  { intros Hin. eapply Forall_forall in Hrs; [|exact Hin]. simpl in Hrs. lia. }
  destruct (link_all k (is_resultSet st) h1) as (h' & Hlink & Hlen' & Hspec);
    [exact Hrnd|exact Hkrs| |lia|].
  { eapply Forall_impl; [exact Hrs|]. simpl. lia. }
  fold rs in Hspec.
  (* the friend lists after the insertion *)
  assert (F1 : ∀ p, p < k →
            friends h' p = friends (heap idx) p ++ (if decide (p ∈ rs) then [k] else [])).
  { intros p Hp. unfold friends. rewrite Hspec. unfold h1.
    rewrite lookup_app_l by lia.
    destruct (decide (p = k)) as [->|_]; [lia|].
    destruct (lookup_lt_is_Some_2 (heap idx) p) as [n Hn]; [lia|].
    rewrite Hn. reflexivity. }
  assert (F2 : friends h' k = rs).
  { unfold friends. rewrite Hspec, Hnew.
    destruct (decide (k = k)); [reflexivity|done]. }
  assert (F3 : ∀ p, k < p → friends h' p = []).
  { intros p Hp. apply friends_None, lookup_ge_None. lia. }
  assert (F0 : ∀ p, k ≤ p → friends (heap idx) p = []).
  { intros p Hp. apply friends_None, lookup_ge_None. lia. }
  assert (Fold : ∀ p q, q ∈ friends (heap idx) p → p < k ∧ q < k).
  { intros p q (n & Hn & Hq)%elem_of_friends.
    split; [apply lookup_lt_Some in Hn; lia|].
    destruct (Hh _ _ Hn) as (_ & _ & Hfr).
    by eapply Forall_forall in Hfr. }
  assert (Hnode : h' !! k = Some (mkMSWNode obj k rs)).
  { rewrite Hspec, Hnew. destruct (decide (k = k)); [reflexivity|done]. }
  (* the call *)
  exists (match ElList_ idx !! Object_id obj with
          | Some _ => set_heap idx h'
          | None => set_ElList (set_heap idx h') (<[Object_id obj := k]> (ElList_ idx))
          end).
  split.
  { unfold add. proj_simpl. unfold removeAllFriends, deref. rewrite Hnew. cbn [rbind].
    rewrite list_insert_id by exact Hnew.
    destruct (decide (ElList_ idx = ∅)) as [He|_].
    { exfalso. destruct (lookup_lt_is_Some_2 data 0) as [obj0 Hobj0]; [lia|].
      assert (ElList_ idx !! Object_id obj0 = Some 0) as H0.
      { apply Ht. split; [lia|]. split; [by rewrite Hobj0|]. intros q Hq. lia. }
      rewrite He, lookup_empty in H0. discriminate. }
    rewrite Hnew. cbn [rbind getData MSWNode_new].
    change (set_heap (set_heap idx h1) h1) with (set_heap idx h1).
    rewrite Hst. cbn [rbind].
    rewrite Hlink. cbn [rbind]. unfold addCriticalSection, deref. proj_simpl.
    rewrite Hnode. cbn [rbind getData].
    destruct (ElList_ idx !! Object_id obj); reflexivity. }
  assert (Hheap : heap (match ElList_ idx !! Object_id obj with
                        | Some _ => set_heap idx h'
                        | None => set_ElList (set_heap idx h')
                                    (<[Object_id obj := k]> (ElList_ idx))
                        end) = h')
    by (destruct (ElList_ idx !! Object_id obj); reflexivity).
  split; [|by destruct (ElList_ idx !! Object_id obj)].
  constructor; rewrite ?Hheap.
  - by destruct (ElList_ idx !! Object_id obj).
  - split; [lia|]. intros p n Hp. rewrite Hspec in Hp.
    destruct (decide (p = k)) as [->|Hpk].
    + rewrite Hnew in Hp. injection Hp as <-. simpl.
      split; [reflexivity|]. split; [exact Hobj|].
      eapply Forall_impl; [exact Hrs|]. simpl. lia.
    + destruct (h1 !! p) as [m|] eqn:Hm; [|discriminate].
      injection Hp as <-. simpl.
      assert (p < k) as Hp.
      { apply lookup_lt_Some in Hm. lia. }
      unfold h1 in Hm. rewrite lookup_app_l in Hm by lia.
      destruct (Hh _ _ Hm) as (A & B & C). split; [exact A|]. split; [exact B|].
      apply Forall_app. split; [eapply Forall_impl; [exact C|]; simpl; lia|].
      destruct (decide (p ∈ rs)); repeat constructor.
  - lia.
  - by destruct (ElList_ idx !! Object_id obj).
  - intros o p.
    destruct (ElList_ idx !! Object_id obj) as [q|] eqn:Hq; proj_simpl.
    + rewrite Ht. apply Ht in Hq as (Hq1 & Hq2 & Hq3). split.
      * intros (A & B & C). split; [lia|]. by split.
      * intros (A & B & C). split; [|by split].
        destruct (decide (p = k)) as [->|]; [|lia].
        rewrite Hobj in B. simpl in B. injection B as <-.
        by destruct (C q Hq1).
    + assert (Hnone : ∀ q, q < k → Object_id <$> data !! q ≠ Some (Object_id obj)).
      { intros q Hqk Hid.
        destruct (first_with_id_exists data k _ q Hqk Hid) as (p' & Hp').
        apply Ht in Hp'. congruence. }
      destruct (decide (o = Object_id obj)) as [->|Hne].
      * rewrite lookup_insert_eq. split.
        -- intros [= <-]. split; [lia|]. split; [by rewrite Hobj|exact Hnone].
        -- intros (A & B & C). f_equal.
           destruct (decide (p = k)) as [->|]; [done|].
           destruct (Hnone p); [lia|exact B].
      * rewrite lookup_insert_ne by done. rewrite Ht. split.
        -- intros (A & B & C). split; [lia|]. by split.
        -- intros (A & B & C). split; [|by split].
           destruct (decide (p = k)) as [->|]; [|lia].
           rewrite Hobj in B. simpl in B. congruence.
  - intros p q Hq.
    destruct (Nat.lt_trichotomy p k) as [Hp|[->|Hp]].
    + rewrite F1 in Hq by exact Hp. apply elem_of_app in Hq as [Hq|Hq].
      * destruct (Fold _ _ Hq) as [_ Hqk]. rewrite F1 by exact Hqk.
        apply elem_of_app. left. by apply Hsym.
      * destruct (decide (p ∈ rs)) as [Hin|_]; [|by apply elem_of_nil in Hq].
        apply list_elem_of_singleton in Hq as ->. by rewrite F2.
    + rewrite F2 in Hq. assert (q < k) as Hqk by (by eapply Forall_forall in Hrs).
      rewrite F1 by exact Hqk. apply elem_of_app. right.
      destruct (decide (q ∈ rs)); [by left|done].
    + rewrite F3 in Hq by exact Hp. by apply elem_of_nil in Hq.
  - intros p Hin.
    destruct (Nat.lt_trichotomy p k) as [Hp|[->|Hp]].
    + rewrite F1 in Hin by exact Hp. apply elem_of_app in Hin as [Hin|Hin].
      * by apply (Hirr p).
      * destruct (decide (p ∈ rs)); [|by apply elem_of_nil in Hin].
        apply list_elem_of_singleton in Hin. lia.
    + rewrite F2 in Hin. done.
    + rewrite F3 in Hin by exact Hp. by apply elem_of_nil in Hin.
  - intros p.
    destruct (Nat.lt_trichotomy p k) as [Hp|[->|Hp]].
    + rewrite F1 by exact Hp. apply NoDup_app. split; [apply Hnd|]. split.
      * intros x Hx Hx'. destruct (decide (p ∈ rs)); [|by apply elem_of_nil in Hx'].
        apply list_elem_of_singleton in Hx' as ->.
        destruct (Fold _ _ Hx). lia.
      * destruct (decide (p ∈ rs)); [apply NoDup_singleton|constructor].
    + by rewrite F2.
    + rewrite F3 by exact Hp. constructor.
  - assert (NN_ (match ElList_ idx !! Object_id obj with
                 | Some _ => set_heap idx h'
                 | None => set_ElList (set_heap idx h')
                             (<[Object_id obj := k]> (ElList_ idx))
                 end) = NN_ idx) as -> by (by destruct (ElList_ idx !! Object_id obj)).
    rewrite (link_all_degree_sum _ _ _ _ Hlink). unfold h1.
    rewrite degree_sum_app. unfold degree_sum at 2. simpl.
    proj_simpl_in Hrlen. nia.
  - assert (NN_ (match ElList_ idx !! Object_id obj with
                 | Some _ => set_heap idx h'
                 | None => set_ElList (set_heap idx h')
                             (<[Object_id obj := k]> (ElList_ idx))
                 end) = NN_ idx) as -> by (by destruct (ElList_ idx !! Object_id obj)).
    intros HNN p Hp.
    assert (Hmono : ∀ q, q < k → reach h' 0 q).
    { intros q Hq. eapply reach_mono; [|by apply Hconn].
      intros a b Hb. destruct (Fold _ _ Hb) as [Ha _].
      rewrite F1 by exact Ha. apply elem_of_app. by left. }
    destruct (decide (p = k)) as [->|]; [|apply Hmono; lia].
    destruct (is_resultSet st) as [|ev R] eqn:HR; [by destruct (Hrsome HNN)|].
    assert (Hev : getMSWNode ev ∈ rs) by (unfold rs; by left).
    assert (Hevk : getMSWNode ev < k) by (by eapply Forall_forall in Hrs).
    eapply reach_step; [apply (Hmono _ Hevk)|].
    rewrite F1 by exact Hevk. apply elem_of_app. right.
    destruct (decide (getMSWNode ev ∈ rs)); [by left|done].
Qed.

Lemma add_graph_Ok data k obj idx idx' :
  graph_inv data k idx → data !! k = Some obj →
  add (set_heap idx (heap idx ++ [MSWNode_new obj k])) k (length data) = Ok idx' →
  ∃ st, searchForIndexing (set_heap idx (heap idx ++ [MSWNode_new obj k])) obj []
          (length data) = Ok st.
Proof.
  intros Hinv Hobj. destruct (gi_heap _ _ _ Hinv) as [Hlen _].
  unfold add. proj_simpl. unfold removeAllFriends, deref.
  assert (Hnew : (heap idx ++ [MSWNode_new obj k]) !! k = Some (MSWNode_new obj k))
    by (rewrite lookup_app_r, Hlen, Nat.sub_diag by lia; reflexivity).
  rewrite Hnew. cbn [rbind]. rewrite list_insert_id by exact Hnew.
  destruct (decide _); [discriminate|]. rewrite Hnew. cbn [rbind getData MSWNode_new].
  intros (st & Hst & _)%rbind_Ok. exists st. exact Hst.
Qed.

(** The loop of the sequential build from position [k] on. *)
Lemma CreateIndex_loop_graph data objs : ∀ k idx,
  graph_inv data k idx → objs = drop k data →
  (∀ idx', CreateIndex_loop objs k idx = Ok idx' →
     graph_inv data (length data) idx' ∧
     NN_ idx' = NN_ idx ∧ efConstruction_ idx' = efConstruction_ idx ∧
     efSearch_ idx' = efSearch_ idx ∧ searchAlgoType_ idx' = searchAlgoType_ idx) ∧
  (1 ≤ efConstruction_ idx → returns (CreateIndex_loop objs k idx)).
Proof.
  induction objs as [|obj objs IH]; intros k idx Hinv Hobjs.
  - assert (k = length data) as ->.
    { pose proof (gi_k _ _ _ Hinv) as Hk.
      assert (length (drop k data) = 0) as Hl by (by rewrite <- Hobjs).
      rewrite length_drop in Hl. lia. }
    split; [by intros idx' [= <-]|]. intros _. apply returns_Ok.
  - assert (Hobj : data !! k = Some obj).
    { rewrite <- (Nat.add_0_r k), <- lookup_drop, <- Hobjs. reflexivity. }
    assert (Hrest : objs = drop (Datatypes.S k) data).
    { replace (Datatypes.S k) with (k + 1) by lia.
      rewrite <- drop_drop, <- Hobjs. reflexivity. }
    destruct (gi_heap _ _ _ Hinv) as [Hlen _].
    cbn [CreateIndex_loop new_MSWNode]. rewrite Hlen, (gi_data _ _ _ Hinv).
    split.
    + intros idx' (idx2 & Hadd & Hloop)%rbind_Ok.
      destruct (add_graph_Ok _ _ _ _ _ Hinv Hobj Hadd) as (st & Hst).
      destruct (add_graph_step _ _ _ _ _ Hinv Hobj Hst)
        as (idx2' & Hadd' & Hinv2 & E1 & E2 & E3 & E4).
      assert (idx2' = idx2) as -> by congruence.
      destruct (IH _ _ Hinv2 Hrest) as [Hok _].
      destruct (Hok _ Hloop) as (A & B1 & B2 & B3 & B4).
      split; [exact A|]. repeat split; congruence.
    + intros HefC.
      assert (∃ st, searchForIndexing
                      (set_heap idx (heap idx ++ [MSWNode_new obj k])) obj []
                      (length data) = Ok st) as (st & Hst).
      { destruct (decide (1 ≤ NN_ idx)) as [HNN|HNN].
        - destruct (graph_inv_closed data k obj idx Hinv) as [Hclosed Hnodes].
          apply (searchForIndexing_safe
                   (set_heap idx (heap idx ++ [MSWNode_new obj k])) obj (length data)
                   (λ p, p < k) Hclosed Hnodes HefC HNN 0).
          + apply (gi_entry _ _ _ Hinv).
          + pose proof (gi_k _ _ _ Hinv). simpl. lia.
        - pose proof (gi_k _ _ _ Hinv) as Hk.
          destruct (lookup_lt_is_Some_2 (heap idx) 0) as [n Hn]; [lia|].
          destruct (gi_heap _ _ _ Hinv) as [_ Hh].
          destruct (Hh _ _ Hn) as (Hid & _ & _).
          destruct (searchForIndexing_no_friends
                      (set_heap idx (heap idx ++ [MSWNode_new obj k])) obj
                      (length data) 0 n) as (st & Hst & _).
          + apply (gi_entry _ _ _ Hinv).
          + proj_simpl. rewrite lookup_app_l by lia. exact Hn.
          + lia.
          + pose proof (gi_degree _ _ _ Hinv) as Hdeg.
            replace (NN_ idx) with 0 in Hdeg by lia.
            assert (length (getAllFriends n) ≤ degree_sum (heap idx)) as Hle.
            { unfold degree_sum.
              apply (sum_list_with_in (length (getAllFriends n)) id).
              apply list_elem_of_fmap. exists n. split; [reflexivity|].
              by eapply list_elem_of_lookup_2. }
            destruct (getAllFriends n); [reflexivity|simpl in Hle; lia].
          + exact HefC.
          + by exists st. }
      destruct (add_graph_step _ _ _ _ _ Hinv Hobj Hst)
        as (idx2 & Hadd & Hinv2 & E1 & E2 & _).
      rewrite Hadd. cbn [rbind].
      destruct (IH _ _ Hinv2 Hrest) as [_ Hret]. apply Hret; congruence.
Qed.

Lemma first_index_graph print obj0 rest NN efC thr proxy :
  graph_inv (obj0 :: rest) 1 (first_index print obj0 rest NN efC thr proxy).
Proof.
  constructor; cbn [first_index data_ heap pEntryPoint_ ElList_ NN_].
  - reflexivity.
  - split; [reflexivity|]. intros [|p] n; [|discriminate].
    intros [= <-]. simpl. repeat split; constructor.
  - simpl. lia.
  - reflexivity.
  - intros o p. split.
    + intros [Ho Hp]%lookup_singleton_Some. subst o p.
      split; [lia|]. split; [reflexivity|]. intros q Hq. lia.
    + intros (Hlt & Hp & _). assert (p = 0) as -> by lia.
      simpl in Hp. injection Hp as <-. apply lookup_singleton_eq.
  - intros [|p] q Hq; [|destruct p]; by apply elem_of_nil in Hq.
  - intros [|p] Hq; [|destruct p]; by apply elem_of_nil in Hq.
  - intros [|[|p]]; constructor.
  - unfold degree_sum. simpl. lia.
  - intros _ p Hp. assert (p = 0) as -> by lia. constructor.
Qed.

(** A sequential build over a non-empty data sequence that returns. *)
Lemma CreateIndex_graph {O : ElementMapOrder} hw prm print data junk idx :
  data ≠ [] →
  CreateIndex hw prm (SmallWorldRand_new print data junk) = Ok idx →
  graph_inv data (length data) idx ∧
  GetParamOptional_nat prm "NN" 10 = Ok (NN_ idx) ∧
  GetParamOptional_nat prm "efConstruction" (NN_ idx) = Ok (efConstruction_ idx) ∧
  efSearch_ idx = NN_ idx ∧ searchAlgoType_ idx = kOld.
Proof.
  intros Hne H.
  destruct (CreateIndex_Ok_params _ _ _ _ H) as (NN & efC & thr & proxy & Hprm).
  rewrite (CreateIndex_unfold _ _ _ _ _ _ _ _ _ Hprm) in H.
  destruct data as [|obj0 rest]; [done|].
  destruct (thr <=? 1); [|discriminate].
  destruct (CreateIndex_loop_graph (obj0 :: rest) rest 1 _
              (first_index_graph print obj0 rest NN efC thr proxy) eq_refl)
    as [Hok _].
  destruct (Hok _ H) as (Hinv & E1 & E2 & E3 & E4).
  cbn [first_index NN_ efConstruction_ efSearch_ searchAlgoType_] in *.
  destruct Hprm as (P1 & P2 & _).
  split; [exact Hinv|]. rewrite E1, E2, E3, E4. auto.
Qed.
End BuildGraph.

(** ** The sequential build *)

(** X1.  A sequential build (at most one indexing thread) whose
    parameters are accepted and whose [efConstruction] is at least 1
    returns an index without raising an exception, for every data sequence
    and every [NN]. *)
Theorem CreateIndex_returns {S : Space} {O : ElementMapOrder}
    (hw : nat) (prm : AnyParams) (print : bool) (data : list Object) (junk : Uninit)
    (NN efC thr : nat) (proxy : bool) :
  build_params hw prm NN efC thr proxy → thr ≤ 1 → 1 ≤ efC →
  returns (CreateIndex hw prm (SmallWorldRand_new print data junk)).
Proof.
  intros Hprm Hthr HefC.
  rewrite (CreateIndex_unfold _ _ _ _ _ _ _ _ _ Hprm).
  destruct data as [|obj0 rest]; [apply returns_Ok|].
  replace (thr <=? 1) with true by (symmetry; apply Nat.leb_le; exact Hthr).
  destruct (CreateIndex_loop_graph (obj0 :: rest) rest 1 _
              (first_index_graph print obj0 rest NN efC thr proxy) eq_refl)
    as [_ Hret].
  apply Hret. exact HefC.
Qed.

Lemma searchForIndexing_efConstruction_zero {S : Space} idx queryObj resultSet
    maxInternalId provider n :
  efConstruction_ idx = 0 → pEntryPoint_ idx = Some provider →
  heap idx !! provider = Some n → getId n ≤ maxInternalId →
  searchForIndexing idx queryObj resultSet maxInternalId = Throw UndefinedBehaviour.
Proof.
  intros HefC Hentry Hn Hid.
  unfold searchForIndexing, searchForIndexing_init, deref. rewrite Hentry, Hn, HefC.
  cbn [rbind].
  replace (maxInternalId <? getId n) with false by (symmetry; apply Nat.ltb_ge; lia).
  replace (maxInternalId + 2) with (Datatypes.S (maxInternalId + 1)) by lia.
  reflexivity.
Qed.

(** X2.  With [efConstruction = 0] a sequential build over two or more
    objects reaches [closestDistQueue.top()] on an empty queue in the
    first indexing search, which is undefined behaviour. *)
Theorem CreateIndex_efConstruction_zero {S : Space} {O : ElementMapOrder}
    (hw : nat) (prm : AnyParams) (print : bool) (data : list Object) (junk : Uninit)
    (NN thr : nat) (proxy : bool) :
  build_params hw prm NN 0 thr proxy → thr ≤ 1 → 2 ≤ length data →
  CreateIndex hw prm (SmallWorldRand_new print data junk) = Throw UndefinedBehaviour.
Proof.
  intros Hprm Hthr Hlen.
  rewrite (CreateIndex_unfold _ _ _ _ _ _ _ _ _ Hprm).
  destruct data as [|obj0 [|obj1 rest]]; [simpl in Hlen; lia..|].
  replace (thr <=? 1) with true by (symmetry; apply Nat.leb_le; exact Hthr).
  cbn [CreateIndex_loop new_MSWNode first_index heap length app].
  unfold add. proj_simpl. unfold removeAllFriends, deref.
  cbn [lookup list_lookup rbind getData getId MSWNode_new insert list_insert].
  destruct (decide _) as [He|_].
  { exfalso. apply (f_equal (λ m : gmap Z nat, m !! Object_id obj0)) in He.
    cbn [ElList_ set_heap first_index] in He.
    rewrite lookup_singleton_eq, lookup_empty in He. discriminate. }
  cbn [lookup list_lookup rbind getData].
  rewrite (searchForIndexing_efConstruction_zero _ _ _ _ 0 (MSWNode_new obj0 0));
    [reflexivity..|]. simpl. lia.
Qed.

Lemma table_size (data : list Object) (m : gmap Z nat) :
  (∀ o p, m !! o = Some p ↔ first_with_id data (length data) o p) →
  size m = length (remove_dups (Object_id <$> data)).
Proof.
  intros Ht. rewrite <- size_dom.
  assert (@eq (gset Z) (dom m) (list_to_set (remove_dups (Object_id <$> data)))) as ->.
  { apply set_eq. intros o.
    rewrite elem_of_dom, elem_of_list_to_set, elem_of_remove_dups. split.
    - intros [p (_ & Hp & _)%Ht].
      destruct (data !! p) as [obj|] eqn:Hobj; [|discriminate].
      injection Hp as <-. apply list_elem_of_fmap. exists obj.
      split; [reflexivity|]. by eapply list_elem_of_lookup_2.
    - intros (obj & -> & (q & Hq)%list_elem_of_lookup_1)%list_elem_of_fmap.
      destruct (first_with_id_exists data (length data) (Object_id obj) q)
        as (p & Hp).
      + by eapply lookup_lt_Some.
      + by rewrite Hq.
      + exists p. by apply Ht. }
  apply size_list_to_set, NoDup_remove_dups.
Qed.

(** X3.  A sequential build that returns has made one node per object:
    the node of the object at position [p] of the data has the internal
    id [p], and its friends are nodes of the store.  The node table binds
    an object id to the node of the first object that carries it, so it
    has as many entries as there are different object ids; with a repeated
    id it stays smaller than the data, which this path does not check.
    Over a non-empty data sequence the entry point is the first node. *)
Theorem CreateIndex_node_table {S : Space} {O : ElementMapOrder}
    (hw : nat) (prm : AnyParams) (print : bool) (data : list Object) (junk : Uninit)
    (idx : SmallWorldRand) :
  CreateIndex hw prm (SmallWorldRand_new print data junk) = Ok idx →
  data_ idx = data ∧ length (heap idx) = length data ∧
  (∀ p obj, data !! p = Some obj →
     ∃ fs, heap idx !! p = Some (mkMSWNode obj p fs) ∧
           Forall (λ f, f < length data) fs) ∧
  (∀ o p, ElList_ idx !! o = Some p ↔ first_with_id data (length data) o p) ∧
  size (ElList_ idx) = length (remove_dups (Object_id <$> data)) ∧
  (data ≠ [] → pEntryPoint_ idx = Some 0).
Proof.
  intros H. destruct (decide (data = [])) as [->|Hne].
  - destruct (CreateIndex_Ok_params _ _ _ _ H) as (NN & efC & thr & proxy & Hprm).
    rewrite (CreateIndex_unfold _ _ _ _ _ _ _ _ _ Hprm) in H.
    injection H as <-. cbn [data_ heap ElList_ pEntryPoint_].
    split; [reflexivity|]. split; [reflexivity|]. split; [intros p obj; discriminate|].
    split.
    { intros o p. rewrite lookup_empty. split; [discriminate|].
      intros (Hp & _). simpl in Hp. lia. }
    split; [reflexivity|done].
  - destruct (CreateIndex_graph _ _ _ _ _ _ Hne H) as (Hinv & _).
    destruct Hinv as [Hd [Hlen Hh] Hk Hentry Ht _ _ _ _ _].
    split; [exact Hd|]. split; [exact Hlen|]. split.
    { intros p obj Hobj.
      destruct (lookup_lt_is_Some_2 (heap idx) p) as [n Hn].
      { rewrite Hlen. by eapply lookup_lt_Some. }
      destruct (Hh _ _ Hn) as (Hid & Hdn & Hfr).
      exists (getAllFriends n). split; [|exact Hfr].
      rewrite Hn. f_equal. destruct n as [d i fs]. simpl in *. congruence. }
    split; [exact Ht|]. split; [by apply table_size|]. by intros _.
Qed.

(** X4.  In the graph of a sequential build that returns, friendship is
    mutual, no node is its own friend and no friend list holds a node
    twice. *)
Theorem CreateIndex_undirected {S : Space} {O : ElementMapOrder}
    (hw : nat) (prm : AnyParams) (print : bool) (data : list Object) (junk : Uninit)
    (idx : SmallWorldRand) :
  CreateIndex hw prm (SmallWorldRand_new print data junk) = Ok idx →
  ∀ p, NoDup (friends (heap idx) p) ∧ (p ∉ friends (heap idx) p) ∧
       ∀ q, q ∈ friends (heap idx) p ↔ p ∈ friends (heap idx) q.
Proof.
  intros H p. destruct (decide (data = [])) as [->|Hne].
  - destruct (CreateIndex_Ok_params _ _ _ _ H) as (NN & efC & thr & proxy & Hprm).
    rewrite (CreateIndex_unfold _ _ _ _ _ _ _ _ _ Hprm) in H.
    injection H as <-. cbn [heap]. unfold friends. simpl.
    split; [constructor|]. split; [by intros ?%elem_of_nil|].
    intros q. split; by intros ?%elem_of_nil.
  - destruct (CreateIndex_graph _ _ _ _ _ _ Hne H) as (Hinv & _).
    split; [apply (gi_nodup _ _ _ Hinv)|]. split; [apply (gi_irrefl _ _ _ Hinv)|].
    intros q. split; apply (gi_sym _ _ _ Hinv).
Qed.

(** X5.  When [NN] is at least 1, every node of a sequential build that
    returns is reached from the entry point along friend links. *)
Theorem CreateIndex_connected {S : Space} {O : ElementMapOrder}
    (hw : nat) (prm : AnyParams) (print : bool) (data : list Object) (junk : Uninit)
    (idx : SmallWorldRand) (provider p : ptr) :
  CreateIndex hw prm (SmallWorldRand_new print data junk) = Ok idx →
  1 ≤ NN_ idx → pEntryPoint_ idx = Some provider → p < length (heap idx) →
  reach (heap idx) provider p.
Proof.
  intros H HNN Hentry Hp. destruct (decide (data = [])) as [->|Hne].
  - destruct (CreateIndex_Ok_params _ _ _ _ H) as (NN & efC & thr & proxy & Hprm).
    rewrite (CreateIndex_unfold _ _ _ _ _ _ _ _ _ Hprm) in H.
    injection H as <-. simpl in Hp. lia.
  - destruct (CreateIndex_graph _ _ _ _ _ _ Hne H) as (Hinv & _).
    rewrite (gi_entry _ _ _ Hinv) in Hentry. injection Hentry as <-.
    apply (gi_connected _ _ _ Hinv HNN).
    destruct (gi_heap _ _ _ Hinv) as [Hlen _]. lia.
Qed.

(** X6.  The friend lists of a sequential build that returns hold at
    most [2 * NN * (N - 1)] entries for [N] objects; with [NN = 0] the
    graph has no links at all. *)
Theorem CreateIndex_degree_sum {S : Space} {O : ElementMapOrder}
    (hw : nat) (prm : AnyParams) (print : bool) (data : list Object) (junk : Uninit)
    (idx : SmallWorldRand) :
  CreateIndex hw prm (SmallWorldRand_new print data junk) = Ok idx →
  degree_sum (heap idx) ≤ 2 * NN_ idx * (length data - 1) ∧
  (NN_ idx = 0 → ∀ p, friends (heap idx) p = []).
Proof.
  intros H.
  assert (Hdeg : degree_sum (heap idx) ≤ 2 * NN_ idx * (length data - 1)).
  { destruct (decide (data = [])) as [->|Hne].
    - destruct (CreateIndex_Ok_params _ _ _ _ H) as (NN & efC & thr & proxy & Hprm).
      rewrite (CreateIndex_unfold _ _ _ _ _ _ _ _ _ Hprm) in H.
      injection H as <-. unfold degree_sum. simpl. lia.
    - destruct (CreateIndex_graph _ _ _ _ _ _ Hne H) as (Hinv & _).
      apply (gi_degree _ _ _ Hinv). }
  split; [exact Hdeg|]. intros HNN p. rewrite HNN in Hdeg.
  unfold friends. destruct (heap idx !! p) as [n|] eqn:Hn; [|reflexivity]. simpl.
  assert (length (getAllFriends n) ≤ degree_sum (heap idx)) as Hle.
  { unfold degree_sum. apply (sum_list_with_in (length (getAllFriends n)) id).
    apply list_elem_of_fmap. exists n. split; [reflexivity|].
    by eapply list_elem_of_lookup_2. }
  destruct (getAllFriends n); [reflexivity|simpl in Hle; lia].
Qed.

(** ** The classic query search on a closed set of nodes *)

Section SearchOldClosed.
Context {S : Space}.
Variables (idx : SmallWorldRand) (query : KNNQuery) (P : ptr → Prop).
Hypothesis P_closed : friend_closed (heap idx) P.

Lemma SearchOld_neighbor_closed st p st' :
  SearchOld_neighbor idx query st p = Ok st' →
  P p → old_inv P st → old_inv P st'.
Proof.
  unfold SearchOld_neighbor. intros H HP [Hc He].
  apply rbind_Ok in H as (n & Hn%deref_Ok & H).
  destruct (negb _); [discriminate|].
  apply rbind_Ok in H as (seen & Hseen%bit_Ok & H).
  destruct seen; [by injection H as <-|].
  destruct (_ || _); injection H as <-; constructor; simpl.
  - apply Forall_pq_push; [exact HP|exact Hc].
  - rewrite evaluated_app. apply Forall_app. split; [exact He|by constructor].
  - exact Hc.
  - rewrite evaluated_app. apply Forall_app. split; [exact He|by constructor].
Qed.

Lemma SearchOld_loop_closed fuel : ∀ st st',
  SearchOld_loop fuel idx query st = Ok st' → old_inv P st → old_inv P st'.
Proof.
  induction fuel as [|fuel IH]; intros st st'; simpl; [discriminate|].
  destruct (pq_top (old_candidateQueue st)) as [currEv|] eqn:Htop;
    [|by intros [= <-]].
  destruct (pq_top (old_closestDistQueue st)); [|discriminate].
  destruct (dist_lt _ _); [by intros [= <-]|].
  intros (currNode & Hn%deref_Ok & (st2 & H2 & Hl)%rbind_Ok)%rbind_Ok Hinv.
  apply (IH _ _ Hl).
  assert (HPc : P (getMSWNode currEv)).
  { destruct Hinv as [Hc _].
    destruct (old_candidateQueue st) as [|x q]; [discriminate|].
    injection Htop as <-. by apply Forall_cons in Hc as [Hx _]. }
  eapply (foldM_invariant_Forall (old_inv P) P); [| | |exact H2].
  - intros a b a' Ha Hb Hab. eapply SearchOld_neighbor_closed; eauto.
  - eapply P_closed; eauto.
  - destruct Hinv as [Hc He]. constructor; simpl; auto. by apply Forall_pq_pop.
Qed.

Lemma SearchOld_closed events :
  (∀ provider, pEntryPoint_ idx = Some provider → P provider) →
  SearchOld idx query = Ok events → Forall P (evaluated events).
Proof.
  intros Hentry. unfold SearchOld.
  destruct (decide _) as [|_]; [intros [= <-]; constructor|].
  intros (st0 & H0 & (st & Hl & [= <-])%rbind_Ok)%rbind_Ok.
  apply (SearchOld_loop_closed _ _ _ Hl). revert H0. unfold SearchOld_init.
  destruct (_ =? 0); [discriminate|].
  destruct (pEntryPoint_ idx) as [provider|]; [|discriminate].
  specialize (Hentry provider eq_refl).
  intros (n & Hn%deref_Ok & H)%rbind_Ok.
  destruct (negb _); [discriminate|]. injection H as <-.
  constructor; simpl; by repeat constructor.
Qed.
End SearchOldClosed.

Section SearchOldSafe.
Context {S : Space}.
Variables (idx : SmallWorldRand) (query : KNNQuery) (P : ptr → Prop).
Hypothesis P_closed : friend_closed (heap idx) P.
Hypothesis P_nodes : nodes_below (heap idx) (size (ElList_ idx)) P.
Hypothesis efSearch_pos : 1 ≤ efSearch_ idx.

Lemma SearchOld_neighbor_safe st p :
  old_safe idx P st → P p →
  ∃ st', SearchOld_neighbor idx query st p = Ok st' ∧ old_safe idx P st'.
Proof.
  intros [Hbits Hc Hcl] HP. unfold SearchOld_neighbor.
  destruct (P_nodes p HP) as (n & Hn & Hid).
  unfold deref. rewrite Hn. cbn [rbind].
  replace (getId n <? size (ElList_ idx)) with true
    by (symmetry; apply Nat.ltb_lt; lia).
  cbn [negb].
  destruct (lookup_lt_is_Some_2 (old_visitedBitset st) (getId n)) as [seen Hseen];
    [lia|].
  unfold bit. rewrite Hseen. cbn [rbind].
  destruct seen; [eexists; split; [reflexivity|by constructor]|].
  destruct (_ || _); (eexists; split; [reflexivity|]); constructor; simpl;
    rewrite ?length_insert; auto.
  - apply Forall_pq_push; [exact HP|exact Hc].
  - apply trim_nonempty; [exact efSearch_pos|apply pq_push_nonempty].
Qed.

Lemma SearchOld_loop_safe fuel : ∀ st,
  old_safe idx P st →
  unvisited (old_visitedBitset st) + length (old_candidateQueue st) < fuel →
  returns (SearchOld_loop fuel idx query st).
Proof.
  induction fuel as [|fuel IH]; intros st Hsafe Hlt; [lia|]. simpl.
  destruct (pq_top (old_candidateQueue st)) as [currEv|] eqn:Htop;
    [|apply returns_Ok].
  destruct (pq_top (old_closestDistQueue st)) eqn:Hcl;
    [|destruct Hsafe as [_ _ Hne]; by destruct (old_closestDistQueue st)].
  destruct (dist_lt _ _); [apply returns_Ok|].
  assert (HPc : P (getMSWNode currEv)).
  { destruct Hsafe as [_ Hc _].
    destruct (old_candidateQueue st) as [|x q]; [discriminate|].
    injection Htop as <-. by apply Forall_cons in Hc as [Hx _]. }
  destruct (P_nodes _ HPc) as (currNode & Hn & _).
  unfold deref. rewrite Hn. cbn [rbind].
  destruct (foldM_safe (old_safe idx P) P (SearchOld_neighbor idx query)
              (getAllFriends currNode))
    with (a := mkOldSearch (old_visitedBitset st) (old_closestDistQueue st)
                 (pq_pop (old_candidateQueue st)) (old_events st))
    as (st2 & H2 & Hsafe2).
  - intros a b. apply SearchOld_neighbor_safe.
  - eapply P_closed; eauto.
  - destruct Hsafe as [Hb Hc Hcl']. constructor; simpl; auto.
    by apply Forall_pq_pop.
  - rewrite H2. cbn [rbind]. apply IH; [exact Hsafe2|].
    apply SearchOld_neighbors in H2 as [Hm _]. simpl in Hm.
    apply length_pq_pop in Htop. lia.
Qed.

Lemma SearchOld_safe provider :
  pEntryPoint_ idx = Some provider → P provider → returns (SearchOld idx query).
Proof.
  intros Hentry HP. unfold SearchOld.
  destruct (decide _) as [|_]; [apply returns_Ok|].
  destruct (P_nodes _ HP) as (n & Hn & Hid).
  destruct (SearchOld_init idx query) as [st0| | |] eqn:H0;
    [|exfalso; revert H0; unfold SearchOld_init, deref;
      replace (efSearch_ idx =? 0) with false by (symmetry; apply Nat.eqb_neq; lia);
      rewrite Hentry, Hn; cbn [rbind];
      replace (getId n <? size (ElList_ idx)) with true
        by (symmetry; apply Nat.ltb_lt; lia);
      discriminate..].
  cbn [rbind].
  destruct (SearchOld_loop_safe (size (ElList_ idx) + 1) st0) as (st & Hst).
  - revert H0. unfold SearchOld_init, deref.
    destruct (_ =? 0); [discriminate|]. rewrite Hentry, Hn. cbn [rbind].
    destruct (negb _); [discriminate|]. intros [= <-].
    constructor; cbn [old_visitedBitset old_candidateQueue old_closestDistQueue].
    + by rewrite length_insert, length_replicate.
    + by repeat constructor.
    + done.
  - apply SearchOld_init_spec in H0 as (Hm & _). lia.
  - rewrite Hst. apply returns_Ok.
Qed.
End SearchOldSafe.

(** ** The elements of the sorted buffer *)

Lemma submseteq_NoDup {A : Type} (l k : list A) : l ⊆+ k → NoDup k → NoDup l.
Proof.
  intros [k' Hk]%submseteq_Permutation Hnd. rewrite Hk in Hnd.
  by apply NoDup_app in Hnd as (Hl & _).
Qed.

Section BufferItems.
Context {S : Space}.

Lemma sort_insert_perm (x : Item) l : sort_insert x l ≡ₚ x :: l.
Proof.
  induction l as [|y l IH]; simpl; [done|].
  destruct (dist_lt _ _); [done|]. rewrite IH. apply Permutation_swap.
Qed.

Lemma sort_items_perm (l : list Item) : sort_items l ≡ₚ l.
Proof.
  induction l as [|x l IH]; simpl; [done|].
  rewrite sort_insert_perm. by rewrite IH.
Qed.

Lemma merge_marked_perm (l1 : list Item) : ∀ l2, (merge_marked l1 l2).*2 ≡ₚ l1 ++ l2.
Proof.
  induction l1 as [|a l1 IH1]; intros l2.
  - by rewrite merge_marked_nil_l, snd_pair_fmap.
  - induction l2 as [|b l2 IH2].
    + by rewrite merge_marked_nil_r, snd_pair_fmap, app_nil_r.
    + rewrite merge_marked_cons. destruct (dist_lt (key b) (key a)).
      * rewrite fmap_cons. cbn [snd]. rewrite IH2.
        by rewrite (Permutation_middle (a :: l1) l2 b).
      * rewrite fmap_cons. cbn [snd]. by rewrite IH1.
Qed.

Lemma insert_at_perm i (x : Item) l : insert_at i x l ≡ₚ x :: l.
Proof.
  unfold insert_at. rewrite <- Permutation_middle. by rewrite take_drop.
Qed.

Lemma push_or_replace_sub sa k v sa' i :
  push_or_replace_non_empty_exp sa k v = (sa', i) →
  item_pair <$> sa_items sa' ⊆+ (k, v) :: (item_pair <$> sa_items sa).
Proof.
  unfold push_or_replace_non_empty_exp.
  destruct (_ && _); intros [= <- <-]; cbn [sa_items].
  - by apply submseteq_cons.
  - change ((k, v) :: (item_pair <$> sa_items sa))
      with (item_pair <$> (mkItem k v false :: sa_items sa)).
    apply fmap_submseteq. etransitivity.
    + apply sublist_submseteq, sublist_take.
    + apply Permutation_submseteq, insert_at_perm.
Qed.

Lemma push_each_sub batch : ∀ sa cur sa' cur',
  push_each sa cur batch = (sa', cur') →
  item_pair <$> sa_items sa' ⊆+ item_pair <$> (sa_items sa ++ batch).
Proof.
  unfold push_each.
  induction batch as [|it batch IH]; intros sa cur sa' cur'; simpl.
  - intros [= <- <-]. by rewrite app_nil_r.
  - destruct (push_or_replace_non_empty_exp sa (key it) (data it))
      as [sa1 i] eqn:Hp.
    intros H. apply IH in H. apply push_or_replace_sub in Hp.
    etransitivity; [exact H|]. rewrite !fmap_app, fmap_cons.
    change (item_pair it) with (key it, data it).
    rewrite <- Permutation_middle.
    change ((key it, data it) :: (item_pair <$> sa_items sa) ++ (item_pair <$> batch))
      with (((key it, data it) :: (item_pair <$> sa_items sa)) ++ (item_pair <$> batch)).
    by apply submseteq_skips_r.
Qed.

Lemma merge_with_sorted_items_sub sa batch sa' i :
  merge_with_sorted_items sa batch = (sa', i) →
  item_pair <$> sa_items sa' ⊆+ item_pair <$> (sa_items sa ++ batch).
Proof.
  unfold merge_with_sorted_items. intros [= <- <-]. cbn [sa_items].
  apply fmap_submseteq. rewrite fmap_take. etransitivity.
  - apply sublist_submseteq, sublist_take.
  - apply Permutation_submseteq, merge_marked_perm.
Qed.

Lemma SearchV1Merge_insert_sub sa cur buf sa' cur' :
  SearchV1Merge_insert sa cur buf = (sa', cur') →
  item_pair <$> sa_items sa' ⊆+ item_pair <$> (sa_items sa ++ buf).
Proof.
  unfold SearchV1Merge_insert.
  destruct (length buf =? 0).
  { intros [= <- <-]. apply fmap_submseteq, submseteq_inserts_r. done. }
  destruct (_ <? length buf).
  - destruct (merge_with_sorted_items sa (sort_items buf)) as [sa1 i] eqn:Hm.
    intros [= <- <-]. apply merge_with_sorted_items_sub in Hm.
    etransitivity; [exact Hm|]. apply Permutation_submseteq.
    by rewrite sort_items_perm.
  - intros H. apply push_each_sub in H.
    etransitivity; [exact H|]. apply Permutation_submseteq.
    by rewrite sort_items_perm.
Qed.

Lemma item_pair_mark (l : list Item) i e :
  l !! i = Some e →
  item_pair <$> <[i := mkItem (key e) (data e) true]> l = item_pair <$> l.
Proof.
  intros He. rewrite list_fmap_insert. apply list_insert_id.
  rewrite list_lookup_fmap, He. reflexivity.
Qed.

Lemma offered_offers (events : list Event) : offered events = (offers events).*2.
Proof.
  induction events as [|[p|p|d p] l IH]; simpl; [done|exact IH|exact IH|].
  unfold offered, offers in *. simpl. by rewrite IH.
Qed.
End BufferItems.

(** ** The sorted-array query search on a closed set of nodes *)

Section SearchV1MergeClosed.
Context {S : Space}.
Variables (idx : SmallWorldRand) (query : KNNQuery) (P : ptr → Prop).
Hypothesis P_closed : friend_closed (heap idx) P.

Lemma v1_inv_sub kds kds' events :
  kds' ⊆+ kds → v1_inv idx query P kds events → v1_inv idx query P kds' events.
Proof.
  intros Hsub [Hi Hnd Hk He]. constructor.
  - apply Forall_forall. intros dp Hdp.
    eapply Forall_forall in Hi; [exact Hi|]. by eapply elem_of_submseteq.
  - eapply submseteq_NoDup; [|exact Hnd]. by apply fmap_submseteq.
  - intros dp Hdp. apply Hk. by eapply elem_of_submseteq.
  - exact He.
Qed.

Lemma SearchV1Merge_neighbor_inv sz topKey items v buf ev p v' buf' ev' :
  SearchV1Merge_neighbor idx query sz topKey (v, buf, ev) p = Ok (v', buf', ev') →
  P p → trace_inv (heap idx) v ev →
  v1_inv idx query P (item_pair <$> (items ++ buf)) ev →
  v1_inv idx query P (item_pair <$> (items ++ buf')) ev'.
Proof.
  unfold SearchV1Merge_neighbor. intros H HP Htr [Hi Hnd Hk He].
  apply rbind_Ok in H as (n & Hn%deref_Ok & H).
  destruct (negb _); [discriminate|].
  apply rbind_Ok in H as (seen & Hseen%bit_Ok & H).
  destruct seen; [injection H as <- <- <-; by constructor|].
  assert (Hnew : p ∉ evaluated ev) by (by eapply not_evaluated_yet).
  destruct (_ || _); injection H as <- <- <-.
  - rewrite app_assoc, fmap_app. constructor.
    + apply Forall_app. split; [exact Hi|]. repeat constructor; [exact HP|].
      exists n. by split.
    + rewrite fmap_app. apply NoDup_app. split; [exact Hnd|]. split.
      * intros x (dp & -> & Hdp)%list_elem_of_fmap Hx.
        apply list_elem_of_singleton in Hx. simpl in Hx.
        apply Hnew. rewrite <- Hx. by apply Hk.
      * apply NoDup_singleton.
    + intros dp [Hdp|Hdp]%elem_of_app; rewrite evaluated_app; apply elem_of_app.
      * left. by apply Hk.
      * right. apply list_elem_of_singleton in Hdp as ->. simpl. by left.
    + rewrite evaluated_app. apply Forall_app. split; [exact He|by repeat constructor].
  - constructor; auto.
    + intros dp Hdp. rewrite evaluated_app. apply elem_of_app. left. by apply Hk.
    + rewrite evaluated_app. apply Forall_app. split; [exact He|by repeat constructor].
Qed.

Lemma SearchV1Merge_neighbors_inv sz topKey items l : ∀ v buf ev v' buf' ev',
  foldM (SearchV1Merge_neighbor idx query sz topKey) (v, buf, ev) l
    = Ok (v', buf', ev') →
  Forall P l → trace_inv (heap idx) v ev →
  v1_inv idx query P (item_pair <$> (items ++ buf)) ev →
  v1_inv idx query P (item_pair <$> (items ++ buf')) ev'.
Proof.
  induction l as [|p l IH]; intros v buf ev v' buf' ev'; simpl.
  - by intros [= <- <- <-].
  - intros ([[v1 buf1] ev1] & H1 & H2)%rbind_Ok HP Htr Hinv.
    apply Forall_cons in HP as [Hp HP].
    eapply IH; [exact H2|exact HP| |].
    + eapply visit_trace_inv; [|exact Htr].
      eapply SearchV1Merge_neighbor_visit. exact H1.
    + eapply SearchV1Merge_neighbor_inv; eauto.
Qed.

Lemma SearchV1Merge_step_inv st st' :
  SearchV1Merge_step idx query st = Ok st' →
  trace_inv (heap idx) (v1_visitedBitset st) (v1_events st) →
  v1_inv idx query P (item_pair <$> sa_items (v1_sortedArr st)) (v1_events st) →
  v1_inv idx query P (item_pair <$> sa_items (v1_sortedArr st')) (v1_events st').
Proof.
  intros H Htr Hinv.
  apply SearchV1Merge_step_Ok in H
    as (e & currNode & buf & sa2 & cur2 & He & Hu & Hc & Hf & Hins & Hsa & _).
  cbn zeta in Hf, Hins. rewrite Hsa.
  eapply v1_inv_sub; [eapply SearchV1Merge_insert_sub; exact Hins|].
  cbn [sa_items].
  eapply SearchV1Merge_neighbors_inv; [exact Hf| |exact Htr|].
  - eapply P_closed; [|exact Hc].
    destruct Hinv as [Hi _ _ _].
    apply (proj1 (Forall_forall _ _) Hi (item_pair e)).
    apply list_elem_of_fmap. exists e. split; [reflexivity|].
    by eapply list_elem_of_lookup_2.
  - rewrite app_nil_r, (item_pair_mark _ _ _ He). exact Hinv.
Qed.

Lemma SearchV1Merge_loop_closed fuel : ∀ st st',
  SearchV1Merge_loop fuel idx query st = Ok st' →
  trace_inv (heap idx) (v1_visitedBitset st) (v1_events st) →
  v1_inv idx query P (item_pair <$> sa_items (v1_sortedArr st)) (v1_events st) →
  v1_inv idx query P (item_pair <$> sa_items (v1_sortedArr st')) (v1_events st').
Proof.
  induction fuel as [|fuel IH]; intros st st'; simpl; [discriminate|].
  destruct (SearchV1Merge_cond idx st); [|by intros [= <-]].
  intros (st1 & H1 & Hl)%rbind_Ok Htr Hinv. apply (IH _ _ Hl).
  - by apply (SearchV1Merge_step_measure _ _ _ _ H1).
  - by eapply SearchV1Merge_step_inv.
Qed.

Lemma SearchV1Merge_traverse_closed st :
  (∀ provider, pEntryPoint_ idx = Some provider → P provider) →
  SearchV1Merge_traverse idx query = Ok st →
  v1_inv idx query P (item_pair <$> sa_items (v1_sortedArr st)) (v1_events st).
Proof.
  intros Hentry. unfold SearchV1Merge_traverse.
  intros (st0 & H0 & Hl)%rbind_Ok.
  apply (SearchV1Merge_loop_closed _ _ _ Hl).
  - by apply SearchV1Merge_init_spec in H0 as [_ Htr].
  - revert H0. unfold SearchV1Merge_init.
    destruct (_ =? 0); [discriminate|].
    destruct (pEntryPoint_ idx) as [provider|]; [|discriminate].
    specialize (Hentry provider eq_refl).
    intros (n & Hn%deref_Ok & H)%rbind_Ok.
    destruct (negb _); [discriminate|]. injection H as <-.
    cbn [v1_sortedArr v1_events push_unsorted_grow sa_items SortArrBI_new app
         fmap list_fmap item_pair key data].
    constructor.
    + repeat constructor; [exact Hentry|]. exists n. by split.
    + apply NoDup_singleton.
    + intros dp ->%list_elem_of_singleton. simpl. by left.
    + by repeat constructor.
Qed.
End SearchV1MergeClosed.

Section SearchV1MergeSafe.
Context {S : Space}.
Variables (idx : SmallWorldRand) (query : KNNQuery) (P : ptr → Prop).
Hypothesis P_closed : friend_closed (heap idx) P.
Hypothesis P_nodes : nodes_below (heap idx) (size (ElList_ idx)) P.

Lemma SearchV1Merge_neighbor_safe sz topKey acc p :
  length acc.1.1 = size (ElList_ idx) → Forall (λ e, P (data e)) acc.1.2 → P p →
  ∃ acc', SearchV1Merge_neighbor idx query sz topKey acc p = Ok acc' ∧
          length acc'.1.1 = size (ElList_ idx) ∧ Forall (λ e, P (data e)) acc'.1.2.
Proof.
  destruct acc as [[v buf] ev]. cbn [fst snd]. intros Hbits Hbuf HP.
  unfold SearchV1Merge_neighbor.
  destruct (P_nodes p HP) as (n & Hn & Hid).
  unfold deref. rewrite Hn. cbn [rbind].
  replace (getId n <? size (ElList_ idx)) with true
    by (symmetry; apply Nat.ltb_lt; lia).
  cbn [negb].
  destruct (lookup_lt_is_Some_2 v (getId n)) as [seen Hseen]; [lia|].
  unfold bit. rewrite Hseen. cbn [rbind].
  destruct seen; [eexists; split; [reflexivity|by split]|].
  destruct (_ || _); (eexists; split; [reflexivity|]); cbn [fst snd];
    rewrite length_insert; (split; [exact Hbits|]); [|exact Hbuf].
  apply Forall_app. split; [exact Hbuf|by repeat constructor].
Qed.

Lemma SearchV1Merge_step_safe st :
  v1_safe idx P st → SearchV1Merge_cond idx st = true →
  ∃ st', SearchV1Merge_step idx query st = Ok st' ∧ v1_safe idx P st'.
Proof.
  intros [Hbits Hitems Hcur] Hcond.
  assert (∃ st', SearchV1Merge_step idx query st = Ok st' ∧
                 length (v1_visitedBitset st') = size (ElList_ idx) ∧
                 Forall (λ e, P (data e)) (sa_items (v1_sortedArr st')))
    as (st' & Hstep & Hbits' & Hitems').
  { unfold SearchV1Merge_cond in Hcond. apply Nat.ltb_lt in Hcond.
    destruct (lookup_lt_is_Some_2 (sa_items (v1_sortedArr st)) (v1_currElem st))
      as [e He]; [unfold sa_size in Hcond; lia|].
    destruct Hcur as (_ & Hunused & _). specialize (Hunused e He).
    assert (HPe : P (data e)).
    { eapply Forall_forall in Hitems; [exact Hitems|].
      by eapply list_elem_of_lookup_2. }
    destruct (P_nodes _ HPe) as (currNode & Hc & _).
    unfold SearchV1Merge_step. rewrite He, Hunused. unfold deref. rewrite Hc.
    cbn [rbind].
    set (sa1 := mkSortArrBI _ _).
    destruct (foldM_safe
                (λ acc, length acc.1.1 = size (ElList_ idx) ∧
                        Forall (λ e, P (data e)) acc.1.2) P
                (SearchV1Merge_neighbor idx query (sa_size sa1) (top_key sa1))
                (getAllFriends currNode))
      with (a := (v1_visitedBitset st, @nil Item, v1_events st))
      as ([[v buf] ev] & Hf & Hv & Hbuf).
    - intros a b [Ha1 Ha2] Hb.
      destruct (SearchV1Merge_neighbor_safe (sa_size sa1) (top_key sa1) a b Ha1 Ha2 Hb)
        as (a' & Ha' & Hs). exists a'. by split.
    - eapply P_closed; eauto.
    - split; [exact Hbits|constructor].
    - rewrite Hf. cbn [rbind fst snd] in *.
      destruct (SearchV1Merge_insert sa1 (v1_currElem st + 1) buf)
        as [sa2 cur2] eqn:Hins.
      eexists. split; [reflexivity|]. cbn [v1_visitedBitset v1_sortedArr].
      split; [exact Hv|].
      apply SearchV1Merge_insert_sub in Hins.
      assert (Hall : Forall (λ dp : dist_t * ptr, P dp.2)
                       (item_pair <$> (sa_items sa1 ++ buf))).
      { apply Forall_fmap, Forall_app. split; [|exact Hbuf].
        unfold sa1. cbn [sa_items]. apply Forall_insert; [exact Hitems|exact HPe]. }
      apply Forall_forall. intros x Hx.
      apply (proj1 (Forall_forall _ _) Hall (item_pair x)).
      eapply elem_of_submseteq; [|exact Hins].
      apply list_elem_of_fmap. by exists x. }
  exists st'. split; [exact Hstep|]. constructor; auto.
  eapply cursor_step; [exact Hstep|]. exact Hcur.
Qed.

Lemma SearchV1Merge_loop_safe fuel : ∀ st,
  v1_safe idx P st →
  unvisited (v1_visitedBitset st) + unused (sa_items (v1_sortedArr st)) < fuel →
  ∃ st', SearchV1Merge_loop fuel idx query st = Ok st' ∧ v1_safe idx P st'.
Proof.
  induction fuel as [|fuel IH]; intros st Hsafe Hlt; [lia|]. simpl.
  destruct (SearchV1Merge_cond idx st) eqn:Hcond; [|by exists st].
  destruct (SearchV1Merge_step_safe st Hsafe Hcond) as (st1 & H1 & Hsafe1).
  rewrite H1. cbn [rbind]. apply IH; [exact Hsafe1|].
  apply SearchV1Merge_step_measure in H1 as [Hm _]. lia.
Qed.

Lemma SearchV1Merge_emit_safe st :
  Forall (λ e, P (data e)) (sa_items (v1_sortedArr st)) →
  returns (SearchV1Merge_emit idx query st).
Proof.
  intros Hitems. unfold SearchV1Merge_emit.
  assert (Htake : Forall (λ e, P (data e))
            (take (GetK query `min` sa_size (v1_sortedArr st))
                  (sa_items (v1_sortedArr st)))) by (by apply Forall_take).
  revert Htake. generalize (v1_events st).
  induction (take _ _) as [|e l IH]; intros ev Hall; simpl; [apply returns_Ok|].
  apply Forall_cons in Hall as [He Hall].
  destruct (P_nodes _ He) as (n & Hn & _). unfold deref at 1. rewrite Hn.
  cbn [rbind]. by apply IH.
Qed.

Lemma SearchV1Merge_safe provider :
  1 ≤ efSearch_ idx → pEntryPoint_ idx = Some provider → P provider →
  returns (SearchV1Merge idx query).
Proof.
  intros Hef Hentry HP. unfold SearchV1Merge.
  destruct (decide _) as [|_]; [apply returns_Ok|].
  destruct (P_nodes _ HP) as (n & Hn & Hid).
  unfold SearchV1Merge_traverse.
  destruct (SearchV1Merge_init idx query) as [st0| | |] eqn:H0;
    [|exfalso; revert H0; unfold SearchV1Merge_init, deref;
      replace (efSearch_ idx =? 0) with false by (symmetry; apply Nat.eqb_neq; lia);
      rewrite Hentry, Hn; cbn [rbind];
      replace (getId n <? size (ElList_ idx)) with true
        by (symmetry; apply Nat.ltb_lt; lia);
      discriminate..].
  cbn [rbind].
  destruct (SearchV1Merge_loop_safe (size (ElList_ idx) + 1) st0)
    as (st & Hst & [_ Hitems _]).
  - constructor; [| |by eapply cursor_init].
    + revert H0. unfold SearchV1Merge_init, deref.
      destruct (_ =? 0); [discriminate|]. rewrite Hentry, Hn. cbn [rbind].
      destruct (negb _); [discriminate|]. intros [= <-].
      cbn [v1_visitedBitset]. by rewrite length_insert, length_replicate.
    + revert H0. unfold SearchV1Merge_init, deref.
      destruct (_ =? 0); [discriminate|]. rewrite Hentry, Hn. cbn [rbind].
      destruct (negb _); [discriminate|]. intros [= <-].
      cbn [v1_sortedArr push_unsorted_grow sa_items SortArrBI_new app].
      by repeat constructor.
  - apply SearchV1Merge_init_spec in H0 as (Hm & _). lia.
  - rewrite Hst. cbn [rbind]. by apply SearchV1Merge_emit_safe.
Qed.
End SearchV1MergeSafe.

(** ** Queries *)

Lemma reach_closed h provider : friend_closed h (reach h provider).
Proof.
  intros p n Hp Hn. apply Forall_forall. intros q Hq.
  eapply reach_step; [exact Hp|]. by rewrite (friends_lookup h p n Hn).
Qed.

Lemma remove_dups_NoDup {A : Type} `{EqDecision A} (l : list A) :
  NoDup l → remove_dups l = l.
Proof.
  induction 1 as [|x l Hx _ IH]; simpl; [done|].
  destruct (decide_rel _ _ _) as [Hin|_]; [done|]. by rewrite IH.
Qed.

Lemma SetQueryTimeParams_frame prm idx idx' :
  SetQueryTimeParams prm idx = Ok idx' →
  data_ idx' = data_ idx ∧ heap idx' = heap idx ∧ ElList_ idx' = ElList_ idx ∧
  pEntryPoint_ idx' = pEntryPoint_ idx ∧ NN_ idx' = NN_ idx ∧
  efConstruction_ idx' = efConstruction_ idx ∧
  use_proxy_dist_ idx' = use_proxy_dist_ idx.
Proof.
  unfold SetQueryTimeParams. intros H. split_Ok H. injection H as <-.
  by repeat split.
Qed.

(** X7.  On an index built sequentially over objects with pairwise
    different ids, every kNN query returns without an exception under
    both algorithms, whatever the query-time parameters, as long as
    [efSearch] is at least 1. *)
Theorem queries_return_on_built_index {S : Space} {O : ElementMapOrder}
    (hw : nat) (prm qprm : AnyParams) (print : bool) (data : list Object)
    (junk : Uninit) (idx idx' : SmallWorldRand) (query : KNNQuery) :
  NoDup (Object_id <$> data) →
  CreateIndex hw prm (SmallWorldRand_new print data junk) = Ok idx →
  SetQueryTimeParams qprm idx = Ok idx' → 1 ≤ efSearch_ idx' →
  returns (SearchOld idx' query) ∧ returns (SearchV1Merge idx' query) ∧
  returns (Search idx' query).
Proof.
  intros Hnd Hbuild Hset Hef.
  assert (returns (SearchOld idx' query) ∧ returns (SearchV1Merge idx' query))
    as [H1 H2]; [|split; [exact H1|]; split; [exact H2|];
                  unfold Search; by destruct (searchAlgoType_ idx')].
  apply SetQueryTimeParams_frame in Hset as (_ & Hh & Ht & He & _).
  destruct (decide (data = [])) as [->|Hne].
  - destruct (CreateIndex_Ok_params _ _ _ _ Hbuild) as (NN & efC & thr & proxy & Hprm).
    rewrite (CreateIndex_unfold _ _ _ _ _ _ _ _ _ Hprm) in Hbuild.
    injection Hbuild as <-. cbn [ElList_] in Ht.
    unfold SearchOld, SearchV1Merge. rewrite Ht.
    destruct (decide _) as [_|Hx]; [|done]. split; apply returns_Ok.
  - destruct (CreateIndex_graph _ _ _ _ _ _ Hne Hbuild) as (Hinv & _).
    destruct Hinv as [Hd [Hlen Hh'] Hk Hentry Htab _ _ _ _ _].
    assert (Hsize : size (ElList_ idx') = length data).
    { rewrite Ht, (table_size data _ Htab), remove_dups_NoDup by exact Hnd.
      by rewrite length_fmap. }
    assert (Hclosed : friend_closed (heap idx') (λ p, p < length data)).
    { rewrite Hh. intros p n Hp Hn. by destruct (Hh' _ _ Hn) as (_ & _ & Hfr). }
    assert (Hnodes : nodes_below (heap idx') (size (ElList_ idx'))
                       (λ p, p < length data)).
    { rewrite Hh, Hsize. intros p Hp.
      destruct (lookup_lt_is_Some_2 (heap idx) p) as [n Hn]; [lia|].
      exists n. split; [exact Hn|]. destruct (Hh' _ _ Hn) as (-> & _ & _). exact Hp. }
    rewrite <- He in Hentry. split.
    + eapply (SearchOld_safe idx' query _ Hclosed Hnodes Hef 0); [exact Hentry|].
      simpl. lia.
    + eapply (SearchV1Merge_safe idx' query _ Hclosed Hnodes 0 Hef); [exact Hentry|].
      simpl. lia.
Qed.

(** X8.  What a [SearchV1Merge] query that returns offers to the result
    sink: each offer is a node of the store with the distance from the
    query to its object, no node is offered twice, every node offered has
    been evaluated, and there are at most [k] offers. *)
Theorem SearchV1Merge_offers {S : Space} (idx : SmallWorldRand) (query : KNNQuery)
    (events : list Event) :
  SearchV1Merge idx query = Ok events →
  Forall (true_distance idx query) (offers events) ∧
  NoDup (offered events) ∧
  (∀ p, p ∈ offered events → p ∈ evaluated events) ∧
  length (offers events) ≤ GetK query.
Proof.
  unfold SearchV1Merge.
  destruct (decide _) as [|_].
  { intros [= <-]. split; [constructor|]. split; [constructor|].
    split; [by intros p ?%elem_of_nil|simpl; lia]. }
  intros (st & Htrav & Hemit)%rbind_Ok.
  pose proof (SearchV1Merge_traverse_spec _ _ _ Htrav) as [_ Hoff].
  apply SearchV1Merge_emit_Ok in Hemit.
  assert (Hinv : v1_inv idx query (λ _, True)
                   (item_pair <$> sa_items (v1_sortedArr st)) (v1_events st)).
  { apply SearchV1Merge_traverse_closed; [|done|exact Htrav].
    intros p n _ _. by apply Forall_true. }
  set (l := take (GetK query `min` sa_size (v1_sortedArr st))
                 (sa_items (v1_sortedArr st))) in *.
  assert (Hoffers : offers events = item_pair <$> l).
  { rewrite Hemit, offers_app, Hoff, offers_Offer_items. reflexivity. }
  assert (Hsub : item_pair <$> l ⊆+ item_pair <$> sa_items (v1_sortedArr st)).
  { apply fmap_submseteq, sublist_submseteq, sublist_take. }
  apply (v1_inv_sub _ _ _ _ _ _ Hsub) in Hinv. destruct Hinv as [Hi Hnd Hk _].
  rewrite offered_offers, Hoffers. split; [|split; [exact Hnd|split]].
  - eapply Forall_impl; [exact Hi|]. by intros dp [_ Hdp].
  - intros p (dp & -> & Hdp)%list_elem_of_fmap.
    rewrite Hemit, evaluated_app. apply elem_of_app. left. by apply Hk.
  - rewrite length_fmap. unfold l. rewrite length_take. lia.
Qed.

(** X9.  A search looks only at nodes that are reached from the entry
    point along friend links: this holds for the nodes evaluated by the
    indexing search and by either query search. *)
Theorem searches_stay_reachable {S : Space} (idx : SmallWorldRand) (provider : ptr)
    (queryObj : Object) (maxInternalId : nat) (query : KNNQuery) :
  pEntryPoint_ idx = Some provider →
  (∀ st, searchForIndexing idx queryObj [] maxInternalId = Ok st →
         Forall (reach (heap idx) provider) (evaluated (is_events st))) ∧
  (∀ events, SearchOld idx query = Ok events →
             Forall (reach (heap idx) provider) (evaluated events)) ∧
  (∀ events, SearchV1Merge idx query = Ok events →
             Forall (reach (heap idx) provider) (evaluated events)).
Proof.
  intros Hentry.
  assert (Hp : ∀ p, pEntryPoint_ idx = Some p → reach (heap idx) provider p).
  { intros p Hp. rewrite Hentry in Hp. injection Hp as <-. constructor. }
  split; [|split].
  - intros st Hst.
    apply (ri_evaluated idx (reach (heap idx) provider) st).
    eapply searchForIndexing_result; [apply reach_closed|exact Hp|exact Hst].
  - intros events H.
    eapply SearchOld_closed; [apply reach_closed|exact Hp|exact H].
  - intros events. unfold SearchV1Merge.
    destruct (decide _) as [|_]; [intros [= <-]; constructor|].
    intros (st & Htrav & Hemit)%rbind_Ok.
    apply SearchV1Merge_emit_Ok in Hemit.
    rewrite Hemit, evaluated_app, evaluated_Offer_items, app_nil_r.
    eapply vi_evaluated.
    eapply SearchV1Merge_traverse_closed; [apply reach_closed|exact Hp|exact Htrav].
Qed.

(** ** The file that [SaveIndex] writes *)

Section SaveShape.
Context {F : FieldIO} {O : ElementMapOrder} {M : Implementation}.

Lemma SaveIndex_friends_not_empty idx fs : ∀ line line',
  foldM (SaveIndex_friends idx) line fs = Ok line' →
  is_empty line = false → is_empty line' = false.
Proof.
  induction fs as [|f fs IH]; intros line line'; simpl.
  - by intros [= <-].
  - intros (l1 & H1 & H2)%rbind_Ok Hne. apply (IH _ _ H2).
    unfold SaveIndex_friends in H1. split_Ok H1. injection H1 as <-.
    destruct line; [discriminate|reflexivity].
Qed.

Lemma SaveIndex_nodes_shape idx l : ∀ outFile lineNum outFile' lineNum',
  foldM (SaveIndex_node idx) (outFile, lineNum) l = Ok (outFile', lineNum') →
  ∃ lines, outFile' = outFile ++ lines ∧ length lines = length l ∧
           lineNum' = lineNum + length l ∧
           Forall (λ line, is_empty line = false) lines.
Proof.
  induction l as [|it l IH]; intros outFile lineNum outFile' lineNum'; simpl.
  - intros [= <- <-]. exists []. rewrite app_nil_r. repeat split; [lia|constructor].
  - intros ([out1 n1] & H1 & H2)%rbind_Ok.
    apply IH in H2 as (lines & -> & Hlen & -> & Hall).
    unfold SaveIndex_node in H1. split_Ok H1. injection H1 as <- <-.
    eexists (_ :: lines). rewrite <- app_assoc. split; [reflexivity|].
    split; [simpl; lia|]. split; [lia|]. constructor; [|exact Hall].
    eapply SaveIndex_friends_not_empty; [exact Ha0|].
    generalize (print_Z (to_IdType (getId a))). intros s.
    destruct s; reflexivity.
Qed.

Lemma SaveIndex_first_lines (idx : SmallWorldRand) (file : list string) :
  SaveIndex idx = Ok file →
  ∃ rest, file = WriteField_str METHOD_DESC StrDesc
                 :: WriteField_nat "NN" (NN_ idx) :: rest.
Proof.
  unfold SaveIndex. intros ([outFile lineNum] & Hf & [= <-])%rbind_Ok.
  apply SaveIndex_nodes_shape in Hf as (lines & -> & _).
  rewrite <- !app_assoc. cbn [app]. eauto.
Qed.

(** X10.  Whenever [SaveIndex] returns, whatever the index, the file
    starts with the method description and [NN], has one non-empty line
    per entry of the node table, then an empty line, and ends with the
    line count, which is the number of lines of the file. *)
Theorem SaveIndex_file_shape (idx : SmallWorldRand) (file : list string) :
  SaveIndex idx = Ok file →
  ∃ lines,
    file = [WriteField_str METHOD_DESC StrDesc; WriteField_nat "NN" (NN_ idx)] ++
           lines ++ [EmptyString; WriteField_nat LINE_QTY (length file)] ∧
    length lines = size (ElList_ idx) ∧
    Forall (λ line, line ≠ EmptyString) lines.
Proof.
  unfold SaveIndex. intros ([outFile lineNum] & Hf & [= <-])%rbind_Ok.
  apply SaveIndex_nodes_shape in Hf as (lines & -> & Hlen & -> & Hall).
  exists lines. split; [|split].
  - rewrite <- !app_assoc. cbn [app].
    set (n := 0 + 1 + 1 + length (iteration (ElList_ idx)) + 1 + 1).
    assert (length (WriteField_str METHOD_DESC StrDesc
                    :: WriteField_nat "NN" (NN_ idx)
                    :: lines ++ [EmptyString; WriteField_nat LINE_QTY n]) = n) as ->.
    { cbn [length]. rewrite length_app. cbn [length]. unfold n. lia. }
    reflexivity.
  - rewrite Hlen, (iteration_perm (ElList_ idx)). apply length_map_to_list.
  - eapply Forall_impl; [exact Hall|]. intros line Hl ->. discriminate.
Qed.
End SaveShape.

(** ** What [LoadIndex] accepts *)

Section LoadShape.
Context {F : FieldIO} {M : Implementation}.

Lemma LoadIndex_head_data idx line str nodeID obj :
  LoadIndex_head idx line = Ok (str, nodeID, obj) → data_ idx !! nodeID = Some obj.
Proof.
  unfold LoadIndex_head.
  destruct (read_int _) as [s1 [z1|]]; [|discriminate].
  destruct (read_char _) as [s2 [c1|]]; [|discriminate].
  destruct (read_int _) as [s3 [z2|]]; [|discriminate].
  destruct (read_char _) as [s4 [c2|]]; [|discriminate].
  destruct (negb _); [discriminate|]. destruct (negb _); [discriminate|].
  destruct (data_ idx !! Z.to_nat z1) as [o|] eqn:Ho; [|discriminate].
  destruct (negb _); [discriminate|]. by intros [= _ <- <-].
Qed.

Lemma LoadIndex_friends_frame s NN fuel : ∀ ld p str ld' str',
  LoadIndex_friends fuel ld p str = Ok (ld', str') →
  load_frame s NN ld → load_frame s NN ld'.
Proof.
  induction fuel as [|fuel IH]; intros ld p str ld' str'; simpl; [discriminate|].
  destruct (read_int str) as [str1 [z|]]; [|by intros [= <- _]].
  destruct (negb _); [discriminate|].
  destruct (ptrMapper ld !! Z.to_nat z) as [[pf|]|]; try discriminate.
  intros (h & _ & H)%rbind_Ok Hinv. apply (IH _ _ _ _ _ H). exact Hinv.
Qed.

Lemma LoadIndex_line_frame s NN pass ld line ld' :
  LoadIndex_line pass ld line = Ok ld' → load_frame s NN ld → load_frame s NN ld'.
Proof.
  unfold LoadIndex_line. intros ([[str nodeID] obj] & _ & H)%rbind_Ok Hinv.
  destruct (pass =? 0).
  - cbn [new_MSWNode] in H. proj_simpl_in H.
    destruct release_first; [discriminate|].
    destruct (ElList_ (ld_index ld) !! _); injection H as <-; exact Hinv.
  - destruct (ptrMapper ld !! nodeID) as [[pNode|]|]; try discriminate.
    apply rbind_Ok in H as ([ld1 str1] & Hf & H).
    destruct (ss_eof str1); [|discriminate]. injection H as <-.
    eapply LoadIndex_friends_frame; eauto.
Qed.

Lemma LoadIndex_friends_inv fuel : ∀ ld p str ld' str',
  LoadIndex_friends fuel ld p str = Ok (ld', str') → load_inv ld → load_inv ld'.
Proof.
  induction fuel as [|fuel IH]; intros ld p str ld' str'; simpl; [discriminate|].
  destruct (read_int str) as [str1 [z|]]; [|by intros [= <- _]].
  destruct (negb _); [discriminate|].
  destruct (ptrMapper ld !! Z.to_nat z) as [[pf|]|] eqn:Hpf; try discriminate.
  intros (h & Hadd & H)%rbind_Ok Hinv. apply (IH _ _ _ _ _ H).
  destruct Hinv as [Hnodes Htab Hmap].
  unfold addFriend in Hadd. apply rbind_Ok in Hadd as (n & Hn%deref_Ok & [= <-]).
  assert (Hp : p < length (heap (ld_index ld))) by (by eapply lookup_lt_Some).
  constructor; proj_simpl; rewrite ?length_insert; auto.
  - intros q m Hq. destruct (decide (q = p)) as [->|Hne].
    + rewrite list_lookup_insert_eq in Hq by exact Hp. injection Hq as <-. simpl.
      destruct (Hnodes _ _ Hn) as [A B]. split; [exact A|].
      apply Forall_app. split; [exact B|].
      constructor; [exact (Hmap _ _ Hpf)|constructor].
    + rewrite list_lookup_insert_ne in Hq by done. exact (Hnodes _ _ Hq).
  - intros o q Hq. destruct (Htab _ _ Hq) as (m & Hm & Ho).
    destruct (decide (q = p)) as [->|Hne].
    + rewrite list_lookup_insert_eq by exact Hp. eexists. split; [reflexivity|].
      simpl. congruence.
    + rewrite list_lookup_insert_ne by done. by exists m.
Qed.

Lemma LoadIndex_line_inv pass ld line ld' :
  LoadIndex_line pass ld line = Ok ld' → load_inv ld → load_inv ld'.
Proof.
  unfold LoadIndex_line. intros ([[str nodeID] obj] & Hhead & H)%rbind_Ok Hinv.
  destruct (pass =? 0).
  - apply LoadIndex_head_data in Hhead as Hobj.
    destruct Hinv as [Hnodes Htab Hmap].
    cbn [new_MSWNode] in H. proj_simpl_in H.
    destruct release_first; [discriminate|].
    set (h := heap (ld_index ld)) in *.
    assert (Hnodes' : ∀ p n, (h ++ [MSWNode_new obj nodeID]) !! p = Some n →
              data_ (ld_index ld) !! getId n = Some (getData n) ∧
              Forall (λ f, f < length (h ++ [MSWNode_new obj nodeID])) (getAllFriends n)).
    { intros p n Hp. rewrite length_app. simpl.
      destruct (decide (p < length h)) as [Hlt|Hge].
      - rewrite lookup_app_l in Hp by exact Hlt. destruct (Hnodes _ _ Hp) as [A B].
        split; [exact A|]. eapply Forall_impl; [exact B|]. simpl. lia.
      - rewrite lookup_app_r in Hp by lia.
        destruct (p - length h) as [|k]; [|by destruct k].
        injection Hp as <-. simpl. split; [exact Hobj|constructor]. }
    assert (Hmap' : ∀ i p, <[nodeID := Some (length h)]> (ptrMapper ld) !! i
                           = Some (Some p) →
                           p < length (h ++ [MSWNode_new obj nodeID])).
    { intros i p Hi. rewrite length_app. simpl.
      destruct (decide (i = nodeID)) as [->|Hne].
      - destruct (decide (nodeID < length (ptrMapper ld))) as [Hlt|Hge].
        + rewrite list_lookup_insert_eq in Hi by exact Hlt. injection Hi as <-. lia.
        + rewrite list_insert_ge in Hi by lia. apply Hmap in Hi. lia.
      - rewrite list_lookup_insert_ne in Hi by done. apply Hmap in Hi. lia. }
    assert (Htab' : ∀ o p, ElList_ (ld_index ld) !! o = Some p →
              ∃ n, (h ++ [MSWNode_new obj nodeID]) !! p = Some n ∧
                   Object_id (getData n) = o).
    { intros o p Hp. destruct (Htab _ _ Hp) as (n & Hn & Ho). exists n.
      split; [|exact Ho]. rewrite lookup_app_l; [exact Hn|].
      by eapply lookup_lt_Some. }
    destruct (ElList_ (ld_index ld) !! Object_id obj) eqn:Hl; injection H as <-;
      constructor; proj_simpl; auto.
    intros o p. destruct (decide (o = Object_id obj)) as [->|Hne].
    + rewrite lookup_insert_eq. intros [= <-]. exists (MSWNode_new obj nodeID).
      split; [|reflexivity]. rewrite lookup_app_r by lia.
      by rewrite Nat.sub_diag.
    + rewrite lookup_insert_ne by done. apply Htab'.
  - destruct (ptrMapper ld !! nodeID) as [[pNode|]|]; try discriminate.
    apply rbind_Ok in H as ([ld1 str1] & Hf & H).
    destruct (ss_eof str1); [|discriminate]. injection H as <-.
    eapply LoadIndex_friends_inv; eauto.
Qed.

Section Passes.
Variable I : Loading → Prop.
Hypothesis I_line : ∀ pass ld line ld',
  LoadIndex_line pass ld line = Ok ld' → I ld → I ld'.

Lemma LoadIndex_lines_shape pass inFile : ∀ lineNum ld rest lineNum' ld',
  LoadIndex_lines pass inFile lineNum ld = Ok (rest, lineNum', ld') → I ld →
  I ld' ∧
  ((rest = [] ∧ lineNum' = lineNum + length inFile ∧
    Forall (λ l, l ≠ EmptyString) inFile) ∨
   ∃ lines, inFile = lines ++ EmptyString :: rest ∧
            Forall (λ l, l ≠ EmptyString) lines ∧
            lineNum' = lineNum + length lines + 1).
Proof.
  induction inFile as [|line inFile IH]; intros lineNum ld rest lineNum' ld'; simpl.
  - intros [= <- <- <-] Hinv. split; [exact Hinv|]. left.
    split; [reflexivity|]. split; [simpl; lia|constructor].
  - destruct line as [|c line]; cbn [is_empty].
    + intros [= <- <- <-] Hinv. split; [exact Hinv|]. right. exists [].
      split; [reflexivity|]. split; [constructor|simpl; lia].
    + intros (ld1 & H1 & H)%rbind_Ok Hinv.
      apply I_line in H1; [|exact Hinv].
      destruct (IH _ _ _ _ _ H H1) as [Hinv' [(-> & -> & Hall)|(lines & -> & Hall & ->)]].
      * split; [exact Hinv'|]. left. split; [reflexivity|]. split; [simpl; lia|].
        by constructor.
      * split; [exact Hinv'|]. right. exists (String c line :: lines).
        split; [reflexivity|]. split; [by constructor|simpl; lia].
Qed.

Lemma LoadIndex_pass_shape pass file ld ld' :
  LoadIndex_pass pass file ld = Ok ld' →
  ∃ desc nn lines q rest NN,
    file = desc :: nn :: lines ++ EmptyString :: q :: rest ∧
    ReadField_str METHOD_DESC desc = Some StrDesc ∧
    ReadField_nat "NN" nn = Some NN ∧
    Forall (λ l, l ≠ EmptyString) lines ∧
    ReadField_nat LINE_QTY q = Some (length lines + 4) ∧
    (I (mkLoading (set_NN (ld_index ld) NN) (ptrMapper ld)) → I ld').
Proof.
  unfold LoadIndex_pass. intros H.
  apply rbind_Ok in H as ([methDesc inFile] & Hdesc & H).
  destruct (String.eqb methDesc StrDesc) eqn:Heq; [|discriminate].
  apply String.eqb_eq in Heq. subst methDesc. cbn [negb] in H.
  apply rbind_Ok in H as ([NN inFile1] & HNN & H).
  apply rbind_Ok in H as ([[inFile2 lineNum] ld2] & Hl & H).
  apply rbind_Ok in H as ([ExpLineNum inFile3] & Hq & H).
  destruct (lineNum =? ExpLineNum) eqn:Hnum; [|discriminate].
  apply Nat.eqb_eq in Hnum. subst ExpLineNum. injection H as <-.
  destruct file as [|desc file]; [discriminate|]. cbn [ReadField] in Hdesc.
  destruct (ReadField_str METHOD_DESC desc) as [v|] eqn:Hv; [|discriminate].
  injection Hdesc as -> <-.
  destruct file as [|nn file]; [discriminate|]. cbn [ReadField] in HNN.
  destruct (ReadField_nat "NN" nn) as [v|] eqn:Hv'; [|discriminate].
  injection HNN as -> <-.
  destruct inFile2 as [|q rest]; [discriminate|]. cbn [ReadField] in Hq.
  destruct (ReadField_nat LINE_QTY q) as [v|] eqn:Hv''; [|discriminate].
  injection Hq as -> _.
  assert (∃ lines, file = lines ++ EmptyString :: q :: rest ∧
                   Forall (λ l, l ≠ EmptyString) lines ∧
                   lineNum = 1 + 1 + 1 + length lines + 1) as (lines & -> & Hall & ->).
  { clear I_line. revert Hl. generalize (1 + 1 + 1).
    generalize (mkLoading (set_NN (ld_index ld) NN) (ptrMapper ld)).
    induction file as [|line file IH]; intros ld0 n; simpl; [discriminate|].
    destruct line as [|c line]; cbn [is_empty].
    - intros [= -> <- _]. exists []. split; [reflexivity|].
      split; [constructor|simpl; lia].
    - intros (ld1 & _ & H)%rbind_Ok. apply IH in H as (lines & -> & Hall & ->).
      exists (String c line :: lines). split; [reflexivity|].
      split; [by constructor|simpl; lia]. }
  exists desc, nn, lines, q, rest, NN.
  split; [reflexivity|]. split; [exact Hv|]. split; [exact Hv'|].
  split; [exact Hall|]. split; [rewrite Hv''; f_equal; lia|].
  intros HI. by apply (LoadIndex_lines_shape _ _ _ _ _ _ _ Hl).
Qed.
End Passes.
End LoadShape.

Section LoadTheorems.
Context {F : FieldIO} {M : Implementation}.

Lemma LoadIndex_lines_app pass extra inFile : ∀ lineNum ld q rest lineNum' ld',
  LoadIndex_lines pass inFile lineNum ld = Ok (q :: rest, lineNum', ld') →
  LoadIndex_lines pass (inFile ++ extra) lineNum ld
  = Ok (q :: rest ++ extra, lineNum', ld').
Proof.
  induction inFile as [|line inFile IH]; intros lineNum ld q rest lineNum' ld';
    simpl; [discriminate|].
  destruct (is_empty line).
  - intros [= -> <- <-]. reflexivity.
  - intros (ld1 & H1 & H)%rbind_Ok. rewrite H1. cbn [rbind]. by apply IH.
Qed.

Lemma LoadIndex_pass_app pass file extra ld ld' :
  LoadIndex_pass pass file ld = Ok ld' →
  LoadIndex_pass pass (file ++ extra) ld = Ok ld'.
Proof.
  unfold LoadIndex_pass. intros H.
  apply rbind_Ok in H as ([methDesc inFile] & Hdesc & H).
  destruct file as [|desc file]; [discriminate|]. cbn [ReadField app] in *.
  destruct (ReadField_str METHOD_DESC desc) as [v|]; [|discriminate].
  injection Hdesc as -> <-. cbn [rbind].
  destruct (negb _); [discriminate|].
  apply rbind_Ok in H as ([NN inFile1] & HNN & H).
  destruct file as [|nn file]; [discriminate|]. cbn [ReadField app] in *.
  destruct (ReadField_nat "NN" nn) as [v|]; [|discriminate].
  injection HNN as -> <-. cbn [rbind].
  apply rbind_Ok in H as ([[inFile2 lineNum] ld2] & Hl & H).
  apply rbind_Ok in H as ([ExpLineNum inFile3] & Hq & H).
  destruct inFile2 as [|q rest]; [discriminate|].
  rewrite (LoadIndex_lines_app _ extra _ _ _ _ _ _ _ Hl). cbn [rbind].
  cbn [ReadField app] in *.
  destruct (ReadField_nat LINE_QTY q) as [v|]; [|discriminate].
  injection Hq as -> _. cbn [rbind]. exact H.
Qed.

Lemma LoadIndex_first_lines (file : list string) (idx idx' : SmallWorldRand) :
  LoadIndex file idx = Ok idx' →
  settings idx' = settings idx ∧
  ∃ desc nn rest,
    file = desc :: nn :: rest ∧ ReadField_nat "NN" nn = Some (NN_ idx').
Proof.
  unfold LoadIndex.
  intros (ld0 & H0 & (ld1 & H1 & [= <-])%rbind_Ok)%rbind_Ok.
  assert (Hs0 : settings (ld_index ld0) = settings idx).
  { destruct (LoadIndex_pass_shape
                (λ ld, settings (ld_index ld) = settings idx) (λ p ld line ld' H Hs,
                   proj1 (LoadIndex_line_frame (settings idx) (NN_ (ld_index ld))
                            p ld line ld' H (conj Hs eq_refl))) _ _ _ _ H0)
      as (d0 & n0 & l0 & q0 & r0 & NN0 & _ & _ & _ & _ & _ & Hs). by apply Hs. }
  destruct (LoadIndex_pass_shape (λ _, True) (λ _ _ _ _ _ _, I) _ _ _ _ H1)
    as (desc & nn & lines & q & rest & NN & Hfile & _ & HNN & _).
  destruct (LoadIndex_pass_shape (load_frame (settings idx) NN)
              (LoadIndex_line_frame (settings idx) NN) _ _ _ _ H1)
    as (desc' & nn' & lines' & q' & rest' & NN' & Hfile' & _ & HNN' & _ & _ & Hfr).
  assert (NN' = NN) as ->.
  { rewrite Hfile in Hfile'. injection Hfile' as _ <- _. congruence. }
  destruct Hfr as [Hs HN]; [by split|].
  split; [exact Hs|]. exists desc, nn, (lines ++ EmptyString :: q :: rest).
  rewrite HN. by split.
Qed.

(** X11.  A file that [LoadIndex] accepts starts with the method
    description of this method and a line for [NN], goes on with
    non-empty lines up to an empty line, and has behind that the line
    count, which is the number of lines up to there; so a file cut off
    before its end is rejected.  The load sets [NN_] to the value of the
    file and leaves the data sequence, [efConstruction_], [efSearch_], the
    algorithm choice and the entry point as they were. *)
Theorem LoadIndex_file_shape (file : list string) (idx idx' : SmallWorldRand) :
  LoadIndex file idx = Ok idx' →
  settings idx' = settings idx ∧
  ∃ desc nn lines q rest,
    file = desc :: nn :: lines ++ EmptyString :: q :: rest ∧
    ReadField_str METHOD_DESC desc = Some StrDesc ∧
    ReadField_nat "NN" nn = Some (NN_ idx') ∧
    Forall (λ l, l ≠ EmptyString) lines ∧
    ReadField_nat LINE_QTY q = Some (length lines + 4).
Proof.
  unfold LoadIndex.
  intros (ld0 & H0 & (ld1 & H1 & [= <-])%rbind_Ok)%rbind_Ok.
  assert (Hs0 : settings (ld_index ld0) = settings idx).
  { destruct (LoadIndex_pass_shape
                (λ ld, settings (ld_index ld) = settings idx) (λ p ld line ld' H Hs,
                   proj1 (LoadIndex_line_frame (settings idx) (NN_ (ld_index ld))
                            p ld line ld' H (conj Hs eq_refl))) _ _ _ _ H0)
      as (d0 & n0 & l0 & q0 & r0 & NN0 & _ & _ & _ & _ & _ & Hs). by apply Hs. }
  destruct (LoadIndex_pass_shape (λ _, True) (λ _ _ _ _ _ _, I) _ _ _ _ H1)
    as (desc & nn & lines & q & rest & NN & Hfile & Hdesc & HNN & Hall & Hq & _).
  destruct (LoadIndex_pass_shape (load_frame (settings idx) NN)
              (LoadIndex_line_frame (settings idx) NN) _ _ _ _ H1)
    as (desc' & nn' & lines' & q' & rest' & NN' & Hfile' & _ & HNN' & _ & _ & Hfr).
  assert (NN' = NN) as ->.
  { rewrite Hfile in Hfile'. injection Hfile' as _ <- _. congruence. }
  destruct Hfr as [Hs HN]; [by split|].
  split; [exact Hs|]. exists desc, nn, lines, q, rest. rewrite HN.
  by repeat split.
Qed.

(** X12.  Whatever follows the line count in a file is not looked at:
    a file that [LoadIndex] accepts gives the same index with any lines
    added at its end. *)
Theorem LoadIndex_ignores_trailing_lines (file extra : list string)
    (idx idx' : SmallWorldRand) :
  LoadIndex file idx = Ok idx' → LoadIndex (file ++ extra) idx = Ok idx'.
Proof.
  unfold LoadIndex.
  intros (ld0 & H0 & (ld1 & H1 & [= <-])%rbind_Ok)%rbind_Ok.
  rewrite (LoadIndex_pass_app _ _ extra _ _ H0). cbn [rbind].
  rewrite (LoadIndex_pass_app _ _ extra _ _ H1). reflexivity.
Qed.

(** X13.  In an index that [LoadIndex] has filled from any file it
    accepts, on a fresh index, every node is bound to the object that
    the data sequence has at the position of the node's internal id,
    every friend is a node of the store, and the node table binds an
    object id only to a node that carries it. *)
Theorem LoadIndex_nodes_agree_with_data (file : list string) (print : bool)
    (data : list Object) (junk : Uninit) (idx' : SmallWorldRand) :
  LoadIndex file (SmallWorldRand_new print data junk) = Ok idx' →
  (∀ p n, heap idx' !! p = Some n →
     data !! getId n = Some (getData n) ∧
     Forall (λ f, f < length (heap idx')) (getAllFriends n)) ∧
  (∀ o p, ElList_ idx' !! o = Some p →
     ∃ n, heap idx' !! p = Some n ∧ Object_id (getData n) = o).
Proof.
  intros H.
  assert (Hd : data_ idx' = data).
  { apply LoadIndex_first_lines in H as [Hs _].
    apply (f_equal (λ s, s.1.1.1.1.1.1.1)) in Hs. exact Hs. }
  revert H. unfold LoadIndex.
  intros (ld0 & H0 & (ld1 & H1 & [= <-])%rbind_Ok)%rbind_Ok.
  assert (Hset : ∀ ld NN, load_inv ld →
                   load_inv (mkLoading (set_NN (ld_index ld) NN) (ptrMapper ld))).
  { intros ld NN [A B C]. by constructor. }
  destruct (LoadIndex_pass_shape load_inv LoadIndex_line_inv _ _ _ _ H0)
    as (d0 & n0 & l0 & q0 & r0 & NN0 & _ & _ & _ & _ & _ & Hinv0).
  destruct (LoadIndex_pass_shape load_inv LoadIndex_line_inv _ _ _ _ H1)
    as (d1 & n1 & l1 & q1 & r1 & NN1 & _ & _ & _ & _ & _ & Hinv1).
  destruct Hinv1 as [Hnodes Htab _].
  { apply Hset, Hinv0, Hset.
    constructor; cbn [ld_index ptrMapper SmallWorldRand_new heap ElList_ data_].
    - intros p n Hp. discriminate.
    - intros o p Hp. rewrite lookup_empty in Hp. discriminate.
    - intros i p Hi. apply lookup_replicate in Hi as [Hi _]. discriminate. }
  rewrite Hd in Hnodes. by split.
Qed.
End LoadTheorems.

(** ** The indexing threads *)

Lemma nodes_insert h p n fs :
  h !! p = Some n → nodes (<[p := mkMSWNode (getData n) (getId n) fs]> h) = nodes h.
Proof.
  intros Hn. unfold nodes. rewrite list_fmap_insert. apply list_insert_id.
  rewrite list_lookup_fmap, Hn. reflexivity.
Qed.

Lemma addFriend_nodes h p f h' : addFriend h p f = Ok h' → nodes h' = nodes h.
Proof.
  unfold addFriend. intros (n & Hn%deref_Ok & [= <-])%rbind_Ok.
  by apply nodes_insert.
Qed.

Section AddNodes.
Context {S : Space}.

(** [add] changes friend lists only: the nodes keep their objects and
    internal ids, and the settings stay. *)
Lemma add_nodes idx p m idx' :
  add idx p m = Ok idx' →
  nodes (heap idx') = nodes (heap idx) ∧ data_ idx' = data_ idx.
Proof.
  unfold add. intros (h & Hrem & H)%rbind_Ok. proj_simpl_in H.
  destruct (decide _) as [|_]; [discriminate|].
  apply rbind_Ok in H as (n & _ & H).
  apply rbind_Ok in H as (st & _ & H).
  apply rbind_Ok in H as (h2 & Hlink & H).
  assert (H1 : nodes h = nodes (heap idx)).
  { unfold removeAllFriends in Hrem.
    apply rbind_Ok in Hrem as (n0 & Hn0%deref_Ok & [= <-]). by apply nodes_insert. }
  assert (H2 : nodes h2 = nodes h).
  { assert (∀ l h0 h3,
              foldM (λ h ev, link h (getMSWNode ev) p) h0 l = Ok h3 →
              nodes h3 = nodes h0) as Hall.
    { induction l as [|ev l IH]; intros h0 h3; simpl.
      - by intros [= <-].
      - intros (h1 & Hl & Hf)%rbind_Ok. rewrite (IH _ _ Hf).
        unfold link in Hl. apply rbind_Ok in Hl as (ha & Ha & Hb).
        apply addFriend_nodes in Ha, Hb. congruence. }
    exact (Hall _ _ _ Hlink). }
  unfold addCriticalSection in H. proj_simpl_in H.
  apply rbind_Ok in H as (n1 & _ & H).
  destruct (ElList_ idx !! _); injection H as <-; proj_simpl; split; congruence.
Qed.

(** What one thread, run on its own, adds to the store: a node for each
    position that is its own, in ascending order. *)
Lemma IndexThreadSW_loop_nodes prm objs : ∀ id idx idx',
  IndexThreadSW_loop prm objs id idx = Ok idx' →
  data_ idx' = data_ idx ∧
  nodes (heap idx')
  = nodes (heap idx) ++
    filter (λ on, on.2 mod out_of_ prm = index_every_ prm)
           (zip objs (seq id (length objs))).
Proof.
  induction objs as [|obj objs IH]; intros id idx idx'; simpl.
  - intros [= <-]. by rewrite app_nil_r.
  - destruct (out_of_ prm =? 0); [discriminate|].
    destruct (index_every_ prm =? id mod out_of_ prm) eqn:Hsel.
    + apply Nat.eqb_eq in Hsel.
      intros (idx2 & Hadd & Hloop)%rbind_Ok.
      apply add_nodes in Hadd as [Hn Hd]. proj_simpl_in Hn. proj_simpl_in Hd.
      apply IH in Hloop as [Hd' Hn']. split; [congruence|].
      rewrite Hn', Hn. unfold nodes at 1. rewrite fmap_app. cbn [fmap list_fmap].
      rewrite filter_cons_True by (simpl; congruence).
      rewrite <- app_assoc. reflexivity.
    + apply Nat.eqb_neq in Hsel. intros Hloop.
      apply IH in Hloop as [Hd' Hn']. split; [exact Hd'|].
      rewrite Hn'. rewrite filter_cons_False by (simpl; congruence). reflexivity.
Qed.
End AddNodes.

Lemma buckets_nil {A : Type} (f : nat → list A) (L : list nat) :
  (∀ i, f i = []) → concat (f <$> L) = [].
Proof.
  intros Hf. induction L as [|i L IH]; [done|].
  rewrite fmap_cons. cbn [concat]. by rewrite Hf, IH.
Qed.

Lemma buckets_cons {A : Type} (key : A → nat) (q : nat) (x : A) (l : list A)
    (L : list nat) :
  NoDup L →
  concat ((λ i, filter (λ y, key y mod q = i) (x :: l)) <$> L)
  ≡ₚ (if decide (key x mod q ∈ L) then [x] else []) ++
     concat ((λ i, filter (λ y, key y mod q = i) l) <$> L).
Proof.
  induction 1 as [|i L Hi Hnd IH]; [done|].
  rewrite !fmap_cons. cbn [concat]. rewrite IH.
  destruct (decide (key x mod q = i)) as [Heq|Hne].
  - rewrite filter_cons_True by exact Heq.
    destruct (decide (key x mod q ∈ L)) as [Hin|_]; [by rewrite Heq in Hin|].
    destruct (decide (key x mod q ∈ i :: L)) as [_|Hnin];
      [reflexivity|exfalso; apply Hnin; rewrite Heq; by left].
  - rewrite filter_cons_False by exact Hne.
    destruct (decide (key x mod q ∈ L)) as [Hin|Hnin].
    + destruct (decide (key x mod q ∈ i :: L)) as [_|Hnin'];
        [|exfalso; apply Hnin'; by right].
      cbn [app]. by rewrite Permutation_middle.
    + destruct (decide (key x mod q ∈ i :: L)) as [Hin'|_]; [|reflexivity].
      apply elem_of_cons in Hin' as [?|?]; done.
Qed.

(** Sorting the elements of a list by [key mod q] into the buckets
    [0 .. q-1] loses and doubles nothing. *)
Lemma buckets_perm {A : Type} (key : A → nat) (q : nat) (l : list A) :
  1 ≤ q →
  concat ((λ i, filter (λ y, key y mod q = i) l) <$> seq 0 q) ≡ₚ l.
Proof.
  intros Hq. induction l as [|x l IH].
  - by rewrite buckets_nil.
  - rewrite buckets_cons by apply NoDup_seq.
    destruct (decide (key x mod q ∈ seq 0 q)) as [_|Hnin].
    + by rewrite IH.
    + exfalso. apply Hnin, elem_of_seq. split; [lia|].
      apply Nat.mod_upper_bound. lia.
Qed.

(** X14.  The indexing threads [0 .. q-1] of a build with [q >= 1]
    threads, run one after the other, make between them exactly one node
    for each object but the first, with the position of the object as
    internal id; the nodes that were there keep their objects and ids. *)
Theorem IndexThreadSW_threads_cover {S : Space} (q : nat) (idx idx' : SmallWorldRand) :
  1 ≤ q →
  foldM (λ idx i, IndexThreadSW (mkIndexThreadParamsSW i q) idx) idx (seq 0 q)
    = Ok idx' →
  data_ idx' = data_ idx ∧
  nodes (heap idx')
  ≡ₚ nodes (heap idx) ++
     zip (drop 1 (data_ idx)) (seq 1 (length (drop 1 (data_ idx)))).
Proof.
  intros Hq H.
  set (Z := zip (drop 1 (data_ idx)) (seq 1 (length (drop 1 (data_ idx))))).
  assert (∀ L idx0 idx1,
            data_ idx0 = data_ idx →
            foldM (λ idx i, IndexThreadSW (mkIndexThreadParamsSW i q) idx) idx0 L
              = Ok idx1 →
            data_ idx1 = data_ idx ∧
            nodes (heap idx1)
            = nodes (heap idx0) ++
              concat ((λ i, filter (λ on : Object * nat, on.2 mod q = i) Z) <$> L))
    as Hall.
  { induction L as [|i L IH]; intros idx0 idx1 Hd; simpl.
    - intros [= <-]. by rewrite app_nil_r.
    - intros (idx2 & Hthread & Hrest)%rbind_Ok.
      unfold IndexThreadSW in Hthread.
      apply IndexThreadSW_loop_nodes in Hthread as [Hd2 Hn2].
      cbn [out_of_ index_every_] in Hn2. rewrite Hd in Hn2, Hd2.
      destruct (IH _ _ Hd2 Hrest) as [Hd1 Hn1]. split; [exact Hd1|].
      rewrite Hn1, Hn2, <- app_assoc. reflexivity. }
  destruct (Hall _ _ _ eq_refl H) as [Hd Hn]. split; [exact Hd|].
  rewrite Hn. apply Permutation_app_head.
  apply (buckets_perm (λ on : Object * nat, on.2) q Z Hq).
Qed.

(** ** The unit-test helpers *)

Lemma prefix_app (p s : string) : String.prefix p (p +:+ s) = true.
Proof.
  induction p as [|c p IH]; [by destruct s|].
  rewrite String_app_cons. cbn [String.prefix].
  destruct (ascii_dec c c) as [_|Hne]; [exact IH|done].
Qed.

Lemma location_prefix (file_name : string) (line_num : Z) (rest : string) :
  String.prefix (BUnit.location file_name line_num)
    (file_name +:+ "(" +:+ print_Z line_num +:+ "): " +:+ rest) = true.
Proof.
  replace (file_name +:+ "(" +:+ print_Z line_num +:+ "): " +:+ rest)
    with (BUnit.location file_name line_num +:+ rest).
  - apply prefix_app.
  - unfold BUnit.location. by rewrite !String_app_assoc.
Qed.

(** X15.  For a type whose [==] decides equality, [Expect_EQ] returns
    exactly when the two values are equal and [Expect_NE] exactly when
    they differ, whatever [eps] is given (the primary template of [EQ]
    ignores it); so of the two exactly one throws.  The text of the
    exception starts with [file(line): ]. *)
Theorem Expect_EQ_NE {T : Type} `{BUnit.Testable T}
    (msg : string) (expected actual eps : T) (file_name : string) (line_num : Z) :
  (∀ x y : T, BUnit.op_eq x y = true ↔ x = y) →
  (BUnit.Expect_EQ msg expected actual file_name line_num eps = BUnit.Passed
   ↔ expected = actual) ∧
  (BUnit.Expect_NE msg expected actual file_name line_num eps = BUnit.Passed
   ↔ expected ≠ actual) ∧
  (∀ e, BUnit.Expect_EQ msg expected actual file_name line_num eps = BUnit.Threw e ∨
        BUnit.Expect_NE msg expected actual file_name line_num eps = BUnit.Threw e →
        String.prefix (BUnit.location file_name line_num) (BUnit.what e) = true).
Proof.
  intros Heq. unfold BUnit.Expect_EQ, BUnit.Expect_NE, BUnit.EQ.
  specialize (Heq expected actual).
  destruct (BUnit.op_eq expected actual) eqn:E; cbn [negb].
  - assert (expected = actual) as Hxy by (by apply Heq).
    split; [done|]. split; [split; [discriminate|done]|].
    intros e [He|He]; [discriminate|]. injection He as <-. cbn [BUnit.what].
    apply location_prefix.
  - assert (expected ≠ actual) as Hxy by (intros Hx; apply Heq in Hx; discriminate).
    split; [split; [discriminate|done]|]. split; [done|].
    intros e [He|He]; [|discriminate]. injection He as <-. cbn [BUnit.what].
    apply location_prefix.
Qed.

(** [Expect_True] returns exactly when its [int] condition is not
    zero and [Expect_False] exactly when it is zero, so for every
    condition exactly one of the two throws. *)
Theorem Expect_True_False (msg : string) (condition : Z) (file_name : string)
    (line_num : Z) :
  (BUnit.Expect_True msg condition file_name line_num = BUnit.Passed
   ↔ condition ≠ 0%Z) ∧
  (BUnit.Expect_False msg condition file_name line_num = BUnit.Passed
   ↔ condition = 0%Z) ∧
  (BUnit.Expect_True msg condition file_name line_num = BUnit.Passed
   ↔ BUnit.Expect_False msg condition file_name line_num ≠ BUnit.Passed).
Proof.
  unfold BUnit.Expect_True, BUnit.Expect_False.
  destruct (condition =? 0)%Z eqn:E; cbn [negb].
  - apply Z.eqb_eq in E. repeat split; try done; intros; try discriminate.
  - apply Z.eqb_neq in E. repeat split; try done; intros; try discriminate.
Qed.

(** ** Parameters across a build, a save and a load *)

(** X16.  Of the parameters only [NN] is in the file: an index loaded
    from what [SaveIndex] wrote has the [NN_] of the index that was
    saved, while [efConstruction_], [efSearch_], [use_proxy_dist_], the
    algorithm choice and the entry point are those of the index that
    loads, whatever the saved index had. *)
Theorem save_load_parameters {F : FieldIO} {O : ElementMapOrder}
    {M : Implementation} (idx idx0 idx' : SmallWorldRand) (file : list string) :
  SaveIndex idx = Ok file → LoadIndex file idx0 = Ok idx' →
  NN_ idx' = NN_ idx ∧ settings idx' = settings idx0.
Proof.
  intros Hsave Hload.
  apply SaveIndex_first_lines in Hsave as (rest & Hfile).
  apply LoadIndex_first_lines in Hload as (Hs & desc & nn & rest' & Hfile' & HNN).
  split; [|exact Hs].
  rewrite Hfile' in Hfile. injection Hfile as _ -> _.
  rewrite ReadField_WriteField_nat in HNN. congruence.
Qed.

(** X17.  A sequential build with [NN = 0] over a non-empty data sequence
    leaves [efSearch_ = 0], so every query on the index it returns fails
    with "efSearch should be > 0" until [efSearch] is set. *)
Theorem CreateIndex_NN_zero_queries_fail {S : Space} {O : ElementMapOrder}
    (hw : nat) (prm : AnyParams) (print : bool) (data : list Object) (junk : Uninit)
    (idx : SmallWorldRand) (query : KNNQuery) :
  CreateIndex hw prm (SmallWorldRand_new print data junk) = Ok idx →
  NN_ idx = 0 → data ≠ [] →
  Search idx query = Throw ErrEfSearch ∧
  SearchOld idx query = Throw ErrEfSearch ∧
  SearchV1Merge idx query = Throw ErrEfSearch.
Proof.
  intros H HNN Hne.
  destruct (CreateIndex_graph _ _ _ _ _ _ Hne H) as (Hinv & _ & _ & Hef & Halgo).
  assert (Hnonempty : ElList_ idx ≠ ∅).
  { intros He. pose proof (gi_k _ _ _ Hinv) as Hk.
    destruct (lookup_lt_is_Some_2 data 0) as [obj0 Hobj0]; [lia|].
    assert (ElList_ idx !! Object_id obj0 = Some 0) as H0.
    { apply (gi_table _ _ _ Hinv). split; [lia|]. split; [by rewrite Hobj0|].
      intros q Hq. lia. }
    rewrite He, lookup_empty in H0. discriminate. }
  unfold Search, SearchOld, SearchV1Merge, SearchV1Merge_traverse,
    SearchOld_init, SearchV1Merge_init.
  rewrite Halgo, Hef, HNN.
  destruct (decide _) as [|_]; [done|]. by repeat split.
Qed.

(** X18.  [add] changes friend lists and may bind one more object id: the
    nodes keep their objects and internal ids, the entry point stays, and
    a binding of the node table is neither changed nor removed (for an
    id that is bound already, [insert] leaves the first binding). *)
Theorem add_keeps_nodes_and_bindings {S : Space} (idx idx' : SmallWorldRand)
    (newElement : ptr) (maxInternalId : nat) :
  add idx newElement maxInternalId = Ok idx' →
  nodes (heap idx') = nodes (heap idx) ∧
  settings idx' = settings idx ∧ NN_ idx' = NN_ idx ∧
  (∀ o p, ElList_ idx !! o = Some p → ElList_ idx' !! o = Some p) ∧
  (∀ o p, ElList_ idx' !! o = Some p →
     ElList_ idx !! o = Some p ∨
     p = newElement ∧ ∃ n, heap idx !! newElement = Some n ∧ Object_id (getData n) = o).
Proof.
  intros H. pose proof (add_nodes _ _ _ _ H) as [Hn Hd].
  split; [exact Hn|]. revert H. unfold add.
  intros (h & Hrem & H)%rbind_Ok. proj_simpl_in H.
  destruct (decide _) as [|_]; [discriminate|].
  apply rbind_Ok in H as (n & _ & H).
  apply rbind_Ok in H as (st & _ & H).
  apply rbind_Ok in H as (h2 & _ & H).
  unfold addCriticalSection in H. proj_simpl_in H.
  apply rbind_Ok in H as (n1 & Hn1%deref_Ok & H).
  assert (Hnew : ∃ n0, heap idx !! newElement = Some n0 ∧
                       Object_id (getData n0) = Object_id (getData n1)).
  { assert (nodes h2 !! newElement = Some (getData n1, getId n1)) as Hl.
    { unfold nodes. by rewrite list_lookup_fmap, Hn1. }
    assert (nodes (heap idx') = nodes h2) as Hh
      by (destruct (ElList_ idx !! _); injection H as <-; reflexivity).
    rewrite <- Hh, Hn in Hl. unfold nodes in Hl. rewrite list_lookup_fmap in Hl.
    destruct (heap idx !! newElement) as [n0|]; [|discriminate].
    exists n0. split; [reflexivity|]. simpl in Hl. congruence. }
  destruct (ElList_ idx !! Object_id (getData n1)) eqn:Hl; injection H as <-;
    proj_simpl.
  - repeat split; auto.
  - split; [reflexivity|]. split; [reflexivity|]. split.
    + intros o p Hp. rewrite lookup_insert_ne; [exact Hp|]. congruence.
    + intros o p. destruct (decide (o = Object_id (getData n1))) as [->|Hne].
      * rewrite lookup_insert_eq. intros [= <-]. right. split; [reflexivity|].
        exact Hnew.
      * rewrite lookup_insert_ne by done. auto.
Qed.

(** ** The indexing search returns the nearest of the nodes it evaluated *)

Section Nearest.
Context {S : Space}.
Hypothesis dist_lt_asym : ∀ a b : dist_t, dist_lt a b = true → dist_lt b a = false.
Hypothesis dist_lt_cotrans : ∀ a b c : dist_t,
  dist_lt a b = true → dist_lt a c = true ∨ dist_lt c b = true.

Lemma dist_lt_trans (a b c : dist_t) :
  dist_lt a b = true → dist_lt b c = true → dist_lt a c = true.
Proof.
  intros Hab Hbc. destruct (dist_lt_cotrans a b c Hab) as [H|H]; [exact H|].
  apply dist_lt_asym in Hbc. congruence.
Qed.

Lemma dist_ge_trans (a b c : dist_t) :
  dist_lt a b = false → dist_lt b c = false → dist_lt a c = false.
Proof.
  intros Hab Hbc. destruct (dist_lt a c) eqn:Hac; [|reflexivity].
  destruct (dist_lt_cotrans a c b Hac); congruence.
Qed.

Lemma HdRel_pq_push (y x : EvaluatedMSWNode) q :
  HdRel (λ a b, less_Direct a b = false) y q → less_Direct y x = false →
  HdRel (λ a b, less_Direct a b = false) y (pq_push less_Direct x q).
Proof.
  intros Hq Hx. destruct q as [|z q]; simpl; [by constructor|].
  destruct (less_Direct z x); constructor; [exact Hx|].
  by inversion Hq.
Qed.

Lemma pq_push_sorted x R :
  farthest_first R → farthest_first (pq_push less_Direct x R).
Proof.
  unfold farthest_first. induction 1 as [|y q Hq IH Hhd]; simpl.
  - by repeat constructor.
  - destruct (less_Direct y x) eqn:Hyx.
    + constructor; [by constructor|]. constructor. unfold less_Direct in *.
      by apply dist_lt_asym.
    + constructor; [exact IH|]. by apply HdRel_pq_push.
Qed.

Lemma farthest_first_head t q r :
  farthest_first (t :: q) → r ∈ q → less_Direct t r = false.
Proof.
  unfold farthest_first. intros Hs Hr.
  apply Sorted_StronglySorted in Hs.
  - inversion Hs as [|? ? _ Hall]; subst.
    by eapply Forall_forall in Hall.
  - intros a b c. unfold less_Direct. apply dist_ge_trans.
Qed.

Lemma nearest_grow idx queryObj R evd p :
  nearest_inv idx queryObj R evd → p ∉ evd → length R < NN_ idx →
  nearest_inv idx queryObj
    (pq_push less_Direct (mkEvaluated (idist idx queryObj p) p) R) (evd ++ [p]).
Proof.
  intros [Hs Hd Hk Hnd Hf Hdr Hl] Hnew Hlt.
  set (x := mkEvaluated (idist idx queryObj p) p).
  assert (Hperm : pq_push less_Direct x R ≡ₚ x :: R) by apply pq_push_perm.
  assert (Hin : ∀ p', p' ∈ evd ++ [p] → p' ∈ getMSWNode <$> pq_push less_Direct x R).
  { intros p' Hp'. rewrite Hperm, fmap_cons. apply elem_of_app in Hp' as [Hp'|Hp'].
    - right. by apply Hf.
    - apply list_elem_of_singleton in Hp' as ->. by left. }
  constructor.
  - by apply pq_push_sorted.
  - intros ev Hev. rewrite Hperm in Hev. apply elem_of_cons in Hev as [->|Hev];
      [reflexivity|by apply Hd].
  - intros ev Hev. rewrite Hperm in Hev. apply elem_of_app.
    apply elem_of_cons in Hev as [->|Hev]; [right; by left|left; by apply Hk].
  - rewrite Hperm, fmap_cons. apply NoDup_cons. split; [|exact Hnd].
    intros (ev & Hev1 & Hev2)%list_elem_of_fmap. apply Hnew.
    simpl in Hev1. rewrite Hev1. by apply Hk.
  - intros _. exact Hin.
  - intros p' ev Hp' Hnin. by destruct (Hnin (Hin p' Hp')).
  - rewrite length_pq_push, length_app. simpl. lia.
Qed.

Lemma nearest_replace idx queryObj t q evd p :
  nearest_inv idx queryObj (t :: q) evd → p ∉ evd →
  NN_ idx ≤ length (t :: q) →
  dist_lt (idist idx queryObj p) (getDistance t) = true →
  nearest_inv idx queryObj
    (pq_push less_Direct (mkEvaluated (idist idx queryObj p) p) q) (evd ++ [p]).
Proof.
  intros [Hs Hd Hk Hnd Hf Hdr Hl] Hnew Hge Hlt.
  set (x := mkEvaluated (idist idx queryObj p) p).
  assert (Hperm : pq_push less_Direct x q ≡ₚ x :: q) by apply pq_push_perm.
  cbn [fmap list_fmap] in Hnd. apply NoDup_cons in Hnd as [Htq Hndq].
  assert (Hsq : farthest_first q) by (by inversion Hs).
  constructor.
  - by apply pq_push_sorted.
  - intros ev Hev. rewrite Hperm in Hev. apply elem_of_cons in Hev as [->|Hev];
      [reflexivity|]. apply Hd. by right.
  - intros ev Hev. rewrite Hperm in Hev. apply elem_of_app.
    apply elem_of_cons in Hev as [->|Hev]; [right; by left|].
    left. apply Hk. by right.
  - rewrite Hperm, fmap_cons. apply NoDup_cons. split; [|exact Hndq].
    intros (ev & Hev1 & Hev2)%list_elem_of_fmap. apply Hnew.
    simpl in Hev1. rewrite Hev1. apply Hk. by right.
  - rewrite length_pq_push. simpl in Hge. lia.
  - intros p' ev Hp' Hnin Hev.
    rewrite Hperm, fmap_cons in Hnin. apply not_elem_of_cons in Hnin as [Hne Hninq].
    simpl in Hne.
    apply elem_of_app in Hp' as [Hp'|Hp'];
      [|apply list_elem_of_singleton in Hp'; done].
    rewrite Hperm in Hev.
    destruct (decide (p' = getMSWNode t)) as [->|Hnt].
    + rewrite <- (Hd t) by (by left).
      apply elem_of_cons in Hev as [->|Hev].
      * simpl. by apply dist_lt_asym.
      * by apply (farthest_first_head t q ev).
    + assert (Hold : p' ∉ getMSWNode <$> t :: q).
      { rewrite fmap_cons. by apply not_elem_of_cons. }
      apply elem_of_cons in Hev as [->|Hev].
      * simpl. destruct (dist_lt (idist idx queryObj p') (idist idx queryObj p))
          eqn:Hpp; [|reflexivity].
        pose proof (dist_lt_trans _ _ _ Hpp Hlt) as Hpt.
        rewrite (Hdr p' t Hp' Hold) in Hpt by (by left). discriminate.
      * apply (Hdr p' ev Hp' Hold). by right.
  - rewrite length_pq_push, length_app. simpl in *. lia.
Qed.

Lemma nearest_drop idx queryObj t q evd p :
  nearest_inv idx queryObj (t :: q) evd → p ∉ evd →
  NN_ idx ≤ length (t :: q) →
  dist_lt (idist idx queryObj p) (getDistance t) = false →
  nearest_inv idx queryObj (t :: q) (evd ++ [p]).
Proof.
  intros [Hs Hd Hk Hnd Hf Hdr Hl] Hnew Hge Hlt.
  constructor; auto.
  - intros ev Hev. apply elem_of_app. left. by apply Hk.
  - intros Hlen. lia.
  - intros p' ev Hp' Hnin Hev.
    apply elem_of_app in Hp' as [Hp'|Hp']; [by apply Hdr|].
    apply list_elem_of_singleton in Hp' as ->.
    apply elem_of_cons in Hev as [->|Hev]; [exact Hlt|].
    eapply dist_ge_trans; [exact Hlt|]. by apply (farthest_first_head t q ev).
  - rewrite length_app. simpl in *. lia.
Qed.

Lemma searchForIndexing_neighbor_nearest idx queryObj maxInternalId st p st' :
  searchForIndexing_neighbor idx queryObj maxInternalId st p = Ok st' →
  trace_inv (heap idx) (is_visitedBitset st) (is_events st) →
  nearest_inv idx queryObj (is_resultSet st) (evaluated (is_events st)) →
  nearest_inv idx queryObj (is_resultSet st') (evaluated (is_events st')).
Proof.
  unfold searchForIndexing_neighbor. intros H Htr Hinv.
  apply rbind_Ok in H as (n & Hn%deref_Ok & H).
  destruct (maxInternalId <? getId n); [discriminate|].
  apply rbind_Ok in H as (seen & Hseen%bit_Ok & H).
  destruct seen; [by injection H as <-|].
  assert (Hnew : p ∉ evaluated (is_events st)) by (by eapply not_evaluated_yet).
  assert (Hd : index_distance idx (getData n) queryObj = idist idx queryObj p).
  { unfold idist, node_at. by rewrite Hn. }
  rewrite Hd in H.
  assert (Hlen : length (is_resultSet st) ≤ NN_ idx).
  { rewrite (ni_length _ _ _ _ Hinv). lia. }
  assert (Hev1 : evaluated (is_events st ++ [Dist p; Push p])
                 = evaluated (is_events st) ++ [p])
    by (by rewrite evaluated_app).
  assert (Hev2 : evaluated (is_events st ++ [Dist p])
                 = evaluated (is_events st) ++ [p])
    by (by rewrite evaluated_app).
  destruct (_ || _);
    (destruct (length (is_resultSet st) <? NN_ idx) eqn:Hlt;
     [apply Nat.ltb_lt in Hlt; injection H as <-; cbn [is_resultSet is_events];
      rewrite ?Hev1, ?Hev2, length_pq_push;
      replace (NN_ idx <? Datatypes.S (length (is_resultSet st))) with false
        by (symmetry; apply Nat.ltb_ge; lia);
      by apply nearest_grow
     |apply Nat.ltb_ge in Hlt;
      destruct (is_resultSet st) as [|t q] eqn:HR; [discriminate|];
      cbn [pq_top head] in H;
      destruct (dist_lt (idist idx queryObj p) (getDistance t)) eqn:Hdt;
      injection H as <-; cbn [is_resultSet is_events]; rewrite ?Hev1, ?Hev2;
      [unfold less_Direct at 1 2 3; cbn [getDistance];
       rewrite (dist_lt_asym _ _ Hdt); cbn [length]; rewrite length_pq_push;
       replace (NN_ idx <? Datatypes.S (Datatypes.S (length q))) with true
         by (symmetry; apply Nat.ltb_lt; simpl in *; lia);
       cbn [pq_pop tail];
       by apply (nearest_replace idx queryObj t q)
      |by apply nearest_drop]]).
Qed.
Lemma searchForIndexing_loop_nearest idx queryObj maxInternalId fuel : ∀ st st',
  searchForIndexing_loop fuel idx queryObj maxInternalId st = Ok st' →
  trace_inv (heap idx) (is_visitedBitset st) (is_events st) →
  nearest_inv idx queryObj (is_resultSet st) (evaluated (is_events st)) →
  nearest_inv idx queryObj (is_resultSet st') (evaluated (is_events st')).
Proof.
  induction fuel as [|fuel IH]; intros st st'; simpl; [discriminate|].
  destruct (pq_top (is_candidateSet st)) as [currEv|]; [|by intros [= <-]].
  destruct (pq_top (is_closestDistQueue st)); [|discriminate].
  destruct (dist_lt _ _); [by intros [= <-]|].
  intros (currNode & Hn & (st2 & H2 & Hl)%rbind_Ok)%rbind_Ok Htr Hinv.
  assert (H : trace_inv (heap idx) (is_visitedBitset st2) (is_events st2)
              ∧ nearest_inv idx queryObj (is_resultSet st2)
                  (evaluated (is_events st2))).
  { refine (foldM_invariant
              (λ s, trace_inv (heap idx) (is_visitedBitset s) (is_events s)
                    ∧ nearest_inv idx queryObj (is_resultSet s)
                        (evaluated (is_events s))) _ _ _ _ _ _ H2);
      [|split; [exact Htr|exact Hinv]].
    intros a b a' [Ha1 Ha2] Hab. split.
    - eapply visit_trace_inv; [|exact Ha1].
      exact (searchForIndexing_neighbor_visit _ _ _ _ _ _ Hab).
    - by eapply searchForIndexing_neighbor_nearest. }
  destruct H as [Htr2 Hinv2]. by apply (IH _ _ Hl).
Qed.

(** X19.  When [dist_lt] is a strict weak order (asymmetric, and an
    element below another is below, or the other above, any third), the
    result queue of [searchForIndexing] holds the [NN_] nearest of the nodes
    whose distance the search evaluated, or all of them when they are fewer:
    each once, with its index-time distance to the query object, the
    farthest on top, and no evaluated node left out is nearer than a node
    kept. *)
Theorem searchForIndexing_nearest idx queryObj maxInternalId st :
  searchForIndexing idx queryObj [] maxInternalId = Ok st →
  let R := is_resultSet st in
  let evd := evaluated (is_events st) in
  length R = NN_ idx `min` length evd
  ∧ farthest_first R
  ∧ NoDup (getMSWNode <$> R)
  ∧ (∀ ev, ev ∈ R →
       getMSWNode ev ∈ evd
       ∧ getDistance ev = idist idx queryObj (getMSWNode ev))
  ∧ (∀ p ev, p ∈ evd → p ∉ getMSWNode <$> R → ev ∈ R →
       dist_lt (idist idx queryObj p) (getDistance ev) = false).
Proof.
  unfold searchForIndexing. intros (st0 & H0 & Hl)%rbind_Ok.
  cut (nearest_inv idx queryObj (is_resultSet st) (evaluated (is_events st))).
  { intros [Hs Hd Hk Hnd Hf Hdr Hlen]. simpl. repeat split; auto. }
  pose proof (searchForIndexing_init_spec _ _ _ _ _ H0) as [_ Htr].
  apply (searchForIndexing_loop_nearest _ _ _ _ _ _ Hl Htr).
  revert H0. clear Hl Htr. unfold searchForIndexing_init.
  destruct (pEntryPoint_ idx) as [provider|]; [|discriminate].
  intros (pnode & Hp%deref_Ok & H)%rbind_Ok.
  destruct (maxInternalId <? getId pnode); [discriminate|].
  injection H as <-. cbn [is_resultSet is_events evaluated pq_push length].
  assert (Hd : index_distance idx (getData pnode) queryObj
               = idist idx queryObj provider).
  { unfold idist, node_at. by rewrite Hp. }
  rewrite Hd. change (evaluated [Dist provider; Push provider]) with [provider].
  destruct (NN_ idx <? 1) eqn:Hlt;
    [apply Nat.ltb_lt in Hlt|apply Nat.ltb_ge in Hlt]; cbn [pq_pop tail].
  - constructor; simpl.
    + constructor.
    + intros ev Hev. by apply elem_of_nil in Hev.
    + intros ev Hev. by apply elem_of_nil in Hev.
    + constructor.
    + lia.
    + intros p ev _ _ Hev. by apply elem_of_nil in Hev.
    + lia.
  - constructor; simpl.
    + by repeat constructor.
    + by intros ev ->%list_elem_of_singleton.
    + intros ev ->%list_elem_of_singleton. simpl. by constructor.
    + apply NoDup_singleton.
    + by intros _ p Hp'.
    + intros p ev Hp' Hnin. by destruct Hnin.
    + lia.
Qed.
End Nearest.

(** ** The bound on internal ids in the indexing search *)


Section IdBound.
Context {S : Space}.
Variables (idx : SmallWorldRand) (queryObj : Object) (maxInternalId : nat).





Variable P : ptr → Prop.
Hypothesis P_closed : friend_closed (heap idx) P.


End IdBound.


(** ** The load where the node is released before its key is read *)

Section ReleaseFirst.
Context {F : FieldIO} {O : ElementMapOrder} {M : Implementation}.
Hypothesis released : release_first = true.

(** No line gets through the first pass: when its head is accepted, line
    651 goes through the pointer that [release] has emptied. *)
Lemma LoadIndex_line_release_first ld line ld' :
  LoadIndex_line 0 ld line ≠ Ok ld'.
Proof.
  unfold LoadIndex_line.
  destruct (LoadIndex_head (ld_index ld) line) as [[[str nodeID] obj]| | |];
    cbn [rbind Nat.eqb new_MSWNode]; try discriminate.
  rewrite released. discriminate.
Qed.

Lemma LoadIndex_release_first desc nn line rest idx idx' :
  is_empty line = false → LoadIndex (desc :: nn :: line :: rest) idx ≠ Ok idx'.
Proof.
  intros Hline H. unfold LoadIndex in H.
  apply rbind_Ok in H as (ld0 & H0 & _).
  unfold LoadIndex_pass, ReadField in H0.
  destruct (ReadField_str METHOD_DESC desc) as [methDesc|]; [|discriminate].
  cbn [rbind] in H0. destruct (negb _); [discriminate|].
  destruct (ReadField_nat "NN" nn) as [NN|]; [|discriminate].
  cbn [rbind LoadIndex_lines] in H0. rewrite Hline in H0.
  apply rbind_Ok in H0 as ([[inFile lineNum] ld1] & (ld' & Hl & _)%rbind_Ok & _).
  by apply LoadIndex_line_release_first in Hl.
Qed.

(** The file of an index with a node has a node line behind the two
    fields. *)
Lemma SaveIndex_node_line idx file :
  SaveIndex idx = Ok file → ElList_ idx ≠ ∅ →
  ∃ desc nn line rest, file = desc :: nn :: line :: rest ∧ is_empty line = false.
Proof.
  unfold SaveIndex. intros ([outFile lineNum] & Hf & [= <-])%rbind_Ok Hne.
  apply SaveIndex_nodes_shape in Hf as (lines & -> & Hlen & _ & Hall).
  destruct lines as [|line lines].
  - exfalso. apply Hne. apply map_size_empty_iff.
    rewrite <- length_map_to_list, <- (iteration_perm (ElList_ idx)).
    by rewrite <- Hlen.
  - apply Forall_cons in Hall as [Hline _].
    rewrite <- !app_assoc. cbn [app]. eauto 6.
Qed.

(** A file that [SaveIndex] wrote for an index with a node is never
    loaded, into whatever index. *)
Lemma LoadIndex_saved_release_first idx file idx0 idx' :
  SaveIndex idx = Ok file → ElList_ idx ≠ ∅ → LoadIndex file idx0 ≠ Ok idx'.
Proof.
  intros Hsave Hne.
  destruct (SaveIndex_node_line _ _ Hsave Hne) as (desc & nn & line & rest & -> & Hl).
  by apply LoadIndex_release_first.
Qed.
End ReleaseFirst.

(** * The properties on a concrete index *)

Import Sample.

(** [efSearch = 0] on the index over three points. *)
Lemma efSearch_zero_witness :
  efSearch_ (Sample.ready 0 (Sample.built [5; 1; 9]%Z)) = 0 ∧
  let idx := Sample.ready 0 (Sample.built [5; 1; 9]%Z) in
  let query := Sample.query_at 4 2 in
  let expected := if decide (ElList_ idx = ∅) then Ok [] else Throw ErrEfSearch in
  SearchOld idx query = expected ∧ SearchV1Merge idx query = expected
  ∧ Search idx query = expected.
Proof.
  split; [reflexivity|].
  apply (efSearch_zero (Sample.ready 0 (Sample.built [5; 1; 9]%Z))
           (Sample.query_at 4 2)).
  reflexivity.
Defined.

(** A [SearchOld] query for the two points nearest to 4 among six. *)
Lemma SearchOld_offers_every_evaluated_node_witness :
  let idx := Sample.built [5; 1; 9; 3; 7; 2]%Z in
  let query := Sample.query_at 4 2 in
  let events := Sample.from_Ok [] (SearchOld idx query) in
  SearchOld idx query = Ok events ∧
  offered events = evaluated events ∧
  Forall (λ dp, ∃ n, heap idx !! dp.2 = Some n ∧
                     dp.1 = DistanceObjLeft query (getData n)) (offers events) ∧
  pushed events `sublist_of` offered events ∧
  NoDup (offered events) ∧
  NoDup (node_id (heap idx) <$> offered events).
Proof.
  intros idx query events.
  assert (Hrun : SearchOld idx query = Ok events) by (vm_compute; reflexivity).
  split; [exact Hrun|].
  exact (SearchOld_offers_every_evaluated_node idx query events Hrun).
Defined.

(** A [SearchV1Merge] query for the two points nearest to 4 among six. *)
Lemma V1Merge_offers_sorted_prefix_witness :
  let idx := Sample.built [5; 1; 9; 3; 7; 2]%Z in
  let query := Sample.query_at 4 2 in
  let events := Sample.from_Ok [] (SearchV1Merge idx query) in
  (∀ a b : Z, (a <? b)%Z = true → (b <? a)%Z = false) ∧
  ElList_ idx ≠ ∅ ∧
  SearchV1Merge idx query = Ok events ∧
  ∃ st, SearchV1Merge_traverse idx query = Ok st ∧
        let buffer := sa_items (v1_sortedArr st) in
        offers events
          = (λ e, (key e, data e)) <$> take (GetK query `min` length buffer) buffer ∧
        ascending (key <$> buffer) ∧
        ascending (offers events).*1.
Proof.
  intros idx query events.
  assert (Hasym : ∀ a b : Z, (a <? b)%Z = true → (b <? a)%Z = false)
    by (intros a b; rewrite Z.ltb_lt, Z.ltb_ge; lia).
  assert (Hne : ElList_ idx ≠ ∅) by compute_done.
  assert (Hrun : SearchV1Merge idx query = Ok events) by (vm_compute; reflexivity).
  split; [exact Hasym|]. split; [exact Hne|]. split; [exact Hrun|].
  exact (V1Merge_offers_sorted_prefix idx query events Hasym Hne Hrun).
Defined.

(** Two single-threaded builds over the same four points, with the
    parameters given in a different way. *)
Lemma CreateIndex_deterministic_witness :
  let prm2 : AnyParams :=
    [("indexThreadQty", PNat 0); ("efConstruction", PNat 2); ("NN", PNat 2)] in
  let data := Sample.points [5; 1; 9; 3]%Z in
  build_params 4 Sample.params 2 2 1 false ∧
  build_params 8 prm2 2 2 0 false ∧
  1 ≤ 1 ∧ 0 ≤ 1 ∧
  let build1 := CreateIndex 4 Sample.params (SmallWorldRand_new false data Sample.junk) in
  let build2 :=
    CreateIndex 8 prm2 (SmallWorldRand_new true data (mkUninit 7 7 7 7 kV1Merge (Some 5))) in
  rmap graph build1 = rmap graph build2 ∧
  (data ≠ [] → rmap pEntryPoint_ build1 = rmap pEntryPoint_ build2).
Proof.
  intros prm2 data.
  assert (H1 : build_params 4 Sample.params 2 2 1 false)
    by (repeat split; reflexivity).
  assert (H2 : build_params 8 prm2 2 2 0 false) by (repeat split; reflexivity).
  assert (L1 : 1 ≤ 1) by lia.
  assert (L2 : 0 ≤ 1) by lia.
  split; [exact H1|]. split; [exact H2|]. split; [exact L1|]. split; [exact L2|].
  exact (CreateIndex_deterministic Sample.map_order Sample.map_order data 2 2 false
           4 8 1 0 Sample.params prm2 false true Sample.junk
           (mkUninit 7 7 7 7 kV1Merge (Some 5)) H1 H2 L1 L2).
Defined.

(** ** The round trip *)

(** C1.  [LoadIndex] installs a node with
    [ElList_.insert(make_pair(node->getData()->id(), node.release()))]
    (line 651), and C++ leaves open which argument is evaluated first.
    Where [node.release()] comes first, [node] is empty when its object
    id is asked for, and the load goes through a null pointer on the
    first node line: the file saved from the index over three points is
    not loaded, and no file that [SaveIndex] wrote for an index with a
    node is ever loaded, into whatever index.  Where the key comes
    first, the same file is loaded and the index has the graph of the
    one that was saved. *)
Theorem LoadIndex_uses_released_node :
  let l := [5; 1; 9]%Z in
  CreateIndex 4 Sample.params (Sample.fresh l) = Ok (Sample.built l) ∧
  SaveIndex (Sample.built l) = Ok (Sample.saved l) ∧
  SaveIndex (M := Sample.right_to_left) (Sample.built l) = Ok (Sample.saved l) ∧
  Sample.saved l
  = ["MethodDesc:small_world_rand"; "NN:2"; "1:101: 0 2"; "2:102: 1 0";
     "0:100: 1 2"; EmptyString; "LineQty:7"] ∧
  LoadIndex (M := Sample.right_to_left) (Sample.saved l) (Sample.fresh l)
    = Throw UndefinedBehaviour ∧
  (∀ (F : FieldIO) (O : ElementMapOrder) (M : Implementation)
     (idx : SmallWorldRand) (file : list string) (idx0 idx' : SmallWorldRand),
     release_first = true → SaveIndex idx = Ok file → ElList_ idx ≠ ∅ →
     LoadIndex file idx0 ≠ Ok idx') ∧
  LoadIndex (M := Sample.left_to_right) (Sample.saved l) (Sample.fresh l)
    = Ok (Sample.loaded l) ∧
  (∀ i o fs, has_node (Sample.loaded l) i o fs ↔ has_node (Sample.built l) i o fs).
Proof.
  intros l.
  assert (Hb : CreateIndex 4 Sample.params (Sample.fresh l) = Ok (Sample.built l))
    by (vm_compute; reflexivity).
  assert (Hs : SaveIndex (Sample.built l) = Ok (Sample.saved l))
    by (vm_compute; reflexivity).
  assert (Hl : LoadIndex (Sample.saved l) (Sample.fresh l) = Ok (Sample.loaded l))
    by (vm_compute; reflexivity).
  split; [exact Hb|]. split; [exact Hs|].
  split; [vm_compute; reflexivity|]. split; [vm_compute; reflexivity|].
  split; [vm_compute; reflexivity|].
  split.
  { intros F O M idx file idx0 idx' Hrel Hsave Hne.
    exact (LoadIndex_saved_release_first Hrel idx file idx0 idx' Hsave Hne). }
  split; [exact Hl|].
  assert (Hfit : fits_IdType (Sample.points l)).
  { split; [vm_compute; discriminate|repeat constructor]. }
  assert (Hnd : NoDup (Object_id <$> Sample.points l)) by compute_done.
  destruct (save_load_round_trip (M := Sample.left_to_right) 4 Sample.params
              (Sample.points l) false false Sample.junk Sample.junk
              (Sample.built l) (eq_refl false) Hfit Hnd Hb)
    as (file & idx' & Hs' & _ & Hl' & Hnodes).
  assert (file = Sample.saved l) as -> by congruence.
  assert (idx' = Sample.loaded l) as -> by (unfold Sample.fresh in Hl; congruence).
  exact Hnodes.
Qed.

(** Numbers outside [IdType] in a file.  A last friend id that is too
    large ends the friend loop at the end of the line, so the line is
    accepted without that friend; when something follows it the line is
    refused, and a node id that is too large is a line of the wrong
    format. *)
Example LoadIndex_outside_IdType :
  let file (line : string) : list string :=
    ["MethodDesc:small_world_rand"; "NN:2"; "1:101: 0 2"; "2:102: 1 0"; line;
     EmptyString; "LineQty:7"] in
  let friends_of (line : string) :=
    rmap (λ idx, getAllFriends <$> heap idx)
         (LoadIndex (file line) (Sample.fresh [5; 1; 9]%Z)) in
  friends_of "0:100: 1 2" = Ok [[2; 1]; [0; 2]; [0; 1]] ∧
  friends_of "0:100: 1 4294967297" = Ok [[2; 1]; [0; 2]; [0]] ∧
  friends_of "0:100: 4294967297 1" = Throw ErrTrailing ∧
  friends_of "4294967296:100: 1 2" = Throw ErrFormat ∧
  friends_of "0:100: 1 2147483647" = Throw ErrFriendId.
Proof. repeat split; vm_compute; reflexivity. Qed.

(** ** The entry point after a load *)

(** C2.  [CreateIndex] on a non-empty data sequence sets the entry point
    to the first node, but [LoadIndex] never assigns it: the index loaded
    has the entry point that the fresh index came with.  On the index over
    three points, saved and loaded into a fresh index whose entry point is
    null, the node table has its three nodes, the entry point is null, and
    with [efSearch] set both query searches fail with "Bug: there is not
    entry point set!", while the same queries on the index that was built
    return.  This is the load where the key of line 651 is evaluated
    before the node is released; no load assigns the entry point,
    whichever comes first, and where the release comes first the file is
    not loaded at all. *)
Theorem LoadIndex_leaves_entry_point_unset :
  let l := [5; 1; 9]%Z in
  CreateIndex 4 Sample.params (Sample.fresh l) = Ok (Sample.built l) ∧
  pEntryPoint_ (Sample.built l) = Some 0 ∧
  SaveIndex (Sample.built l) = Ok (Sample.saved l) ∧
  LoadIndex (Sample.saved l) (Sample.fresh l) = Ok (Sample.loaded l) ∧
  size (ElList_ (Sample.loaded l)) = 3 ∧
  pEntryPoint_ (Sample.loaded l) = None ∧
  (∀ (M : Implementation) junk' idx',
     LoadIndex (M := M) (Sample.saved l)
       (SmallWorldRand_new false (Sample.points l) junk') = Ok idx' →
     pEntryPoint_ idx' = u_pEntryPoint junk') ∧
  (∀ query : KNNQuery,
     SearchOld (Sample.ready 10 (Sample.loaded l)) query = Throw ErrNoEntryPoint ∧
     SearchV1Merge (Sample.ready 10 (Sample.loaded l)) query = Throw ErrNoEntryPoint) ∧
  SearchOld (Sample.ready 10 (Sample.built l)) (Sample.query_at 4 2)
    = Ok [Dist 0; Offer 1%Z 0; Push 0; Dist 1; Push 1; Offer 3%Z 1;
          Dist 2; Push 2; Offer 5%Z 2] ∧
  SearchV1Merge (Sample.ready 10 (Sample.built l)) (Sample.query_at 4 2)
    = Ok [Dist 0; Push 0; Dist 1; Push 1; Dist 2; Push 2;
          Offer 1%Z 0; Offer 3%Z 1] ∧
  LoadIndex (M := Sample.right_to_left) (Sample.saved l) (Sample.fresh l)
    = Throw UndefinedBehaviour.
Proof.
  intros l.
  split; [vm_compute; reflexivity|]. split; [vm_compute; reflexivity|].
  split; [vm_compute; reflexivity|]. split; [vm_compute; reflexivity|].
  split; [vm_compute; reflexivity|]. split; [vm_compute; reflexivity|].
  split.
  { intros M junk' idx' Hload. apply LoadIndex_pEntryPoint in Hload. exact Hload. }
  split; [|split; [|split]; vm_compute; reflexivity].
  intros query. unfold SearchOld, SearchV1Merge.
  destruct (decide (ElList_ (Sample.ready 10 (Sample.loaded l)) = ∅)) as [He|_].
  { exfalso. revert He. compute_done. }
  split; reflexivity.
Qed.

(** ** The bound on internal ids in the indexing search *)


(** * The further properties on concrete indexes *)

(** X1 on a build over four points. *)
Lemma CreateIndex_returns_witness :
  build_params 4 Sample.params 2 2 1 false ∧ 1 ≤ 1 ∧ 1 ≤ 2 ∧
  returns (CreateIndex 4 Sample.params
             (SmallWorldRand_new false (Sample.points [5; 1; 9; 3]%Z) Sample.junk)).
Proof.
  assert (H1 : build_params 4 Sample.params 2 2 1 false)
    by (repeat split; reflexivity).
  assert (L1 : 1 ≤ 1) by lia.
  assert (L2 : 1 ≤ 2) by lia.
  split; [exact H1|]. split; [exact L1|]. split; [exact L2|].
  exact (CreateIndex_returns 4 Sample.params false (Sample.points [5; 1; 9; 3]%Z)
           Sample.junk 2 2 1 false H1 L1 L2).
Defined.

(** X2 on a build over three points. *)
Lemma CreateIndex_efConstruction_zero_witness :
  let prm : AnyParams :=
    [("NN", PNat 2); ("efConstruction", PNat 0); ("indexThreadQty", PNat 1)] in
  let data := Sample.points [5; 1; 9]%Z in
  build_params 4 prm 2 0 1 false ∧ 1 ≤ 1 ∧ 2 ≤ length data ∧
  CreateIndex 4 prm (SmallWorldRand_new false data Sample.junk)
    = Throw UndefinedBehaviour.
Proof.
  intros prm data.
  assert (H1 : build_params 4 prm 2 0 1 false) by (repeat split; reflexivity).
  assert (L1 : 1 ≤ 1) by lia.
  assert (L2 : 2 ≤ length data) by (simpl; lia).
  split; [exact H1|]. split; [exact L1|]. split; [exact L2|].
  exact (CreateIndex_efConstruction_zero 4 prm false data Sample.junk 2 1 false
           H1 L1 L2).
Defined.

(** X3 on a build over four points. *)
Lemma CreateIndex_node_table_witness :
  let data := Sample.points [5; 1; 9; 3]%Z in
  let idx := Sample.built [5; 1; 9; 3]%Z in
  CreateIndex 4 Sample.params (SmallWorldRand_new false data Sample.junk) = Ok idx ∧
  data_ idx = data ∧ length (heap idx) = length data ∧
  (∀ p obj, data !! p = Some obj →
     ∃ fs, heap idx !! p = Some (mkMSWNode obj p fs) ∧
           Forall (λ f, f < length data) fs) ∧
  (∀ o p, ElList_ idx !! o = Some p ↔ first_with_id data (length data) o p) ∧
  size (ElList_ idx) = length (remove_dups (Object_id <$> data)) ∧
  (data ≠ [] → pEntryPoint_ idx = Some 0).
Proof.
  intros data idx.
  assert (Hb : CreateIndex 4 Sample.params
                 (SmallWorldRand_new false data Sample.junk) = Ok idx)
    by (vm_compute; reflexivity).
  split; [exact Hb|].
  exact (CreateIndex_node_table 4 Sample.params false data Sample.junk idx Hb).
Defined.

(** X4 on a build over four points. *)
Lemma CreateIndex_undirected_witness :
  let data := Sample.points [5; 1; 9; 3]%Z in
  let idx := Sample.built [5; 1; 9; 3]%Z in
  CreateIndex 4 Sample.params (SmallWorldRand_new false data Sample.junk) = Ok idx ∧
  ∀ p, NoDup (friends (heap idx) p) ∧ (p ∉ friends (heap idx) p) ∧
       ∀ q, q ∈ friends (heap idx) p ↔ p ∈ friends (heap idx) q.
Proof.
  intros data idx.
  assert (Hb : CreateIndex 4 Sample.params
                 (SmallWorldRand_new false data Sample.junk) = Ok idx)
    by (vm_compute; reflexivity).
  split; [exact Hb|].
  exact (CreateIndex_undirected 4 Sample.params false data Sample.junk idx Hb).
Defined.

(** X5: the last of four nodes is reached from the entry point. *)
Lemma CreateIndex_connected_witness :
  let data := Sample.points [5; 1; 9; 3]%Z in
  let idx := Sample.built [5; 1; 9; 3]%Z in
  CreateIndex 4 Sample.params (SmallWorldRand_new false data Sample.junk) = Ok idx ∧
  1 ≤ NN_ idx ∧ pEntryPoint_ idx = Some 0 ∧ 3 < length (heap idx) ∧
  reach (heap idx) 0 3.
Proof.
  intros data idx.
  assert (Hb : CreateIndex 4 Sample.params
                 (SmallWorldRand_new false data Sample.junk) = Ok idx)
    by (vm_compute; reflexivity).
  assert (HNN : 1 ≤ NN_ idx) by (vm_compute; lia).
  assert (He : pEntryPoint_ idx = Some 0) by (vm_compute; reflexivity).
  assert (Hp : 3 < length (heap idx)) by (vm_compute; lia).
  split; [exact Hb|]. split; [exact HNN|]. split; [exact He|]. split; [exact Hp|].
  exact (CreateIndex_connected 4 Sample.params false data Sample.junk idx 0 3
           Hb HNN He Hp).
Defined.

(** X6 on a build over four points. *)
Lemma CreateIndex_degree_sum_witness :
  let data := Sample.points [5; 1; 9; 3]%Z in
  let idx := Sample.built [5; 1; 9; 3]%Z in
  CreateIndex 4 Sample.params (SmallWorldRand_new false data Sample.junk) = Ok idx ∧
  degree_sum (heap idx) ≤ 2 * NN_ idx * (length data - 1) ∧
  (NN_ idx = 0 → ∀ p, friends (heap idx) p = []).
Proof.
  intros data idx.
  assert (Hb : CreateIndex 4 Sample.params
                 (SmallWorldRand_new false data Sample.junk) = Ok idx)
    by (vm_compute; reflexivity).
  split; [exact Hb|].
  exact (CreateIndex_degree_sum 4 Sample.params false data Sample.junk idx Hb).
Defined.

(** X7: the queries for the two points nearest to 4 among six, with
    [efSearch = 10]. *)
Lemma queries_return_on_built_index_witness :
  let data := Sample.points [5; 1; 9; 3; 7; 2]%Z in
  let idx := Sample.built [5; 1; 9; 3; 7; 2]%Z in
  let qprm : AnyParams := [("efSearch", PNat 10)] in
  let idx' := Sample.ready 10 idx in
  let query := Sample.query_at 4 2 in
  NoDup (Object_id <$> data) ∧
  CreateIndex 4 Sample.params (SmallWorldRand_new false data Sample.junk) = Ok idx ∧
  SetQueryTimeParams qprm idx = Ok idx' ∧ 1 ≤ efSearch_ idx' ∧
  returns (SearchOld idx' query) ∧ returns (SearchV1Merge idx' query) ∧
  returns (Search idx' query).
Proof.
  intros data idx qprm idx' query.
  assert (Hnd : NoDup (Object_id <$> data)) by compute_done.
  assert (Hb : CreateIndex 4 Sample.params
                 (SmallWorldRand_new false data Sample.junk) = Ok idx)
    by (vm_compute; reflexivity).
  assert (Hq : SetQueryTimeParams qprm idx = Ok idx') by (vm_compute; reflexivity).
  assert (Hef : 1 ≤ efSearch_ idx') by (vm_compute; lia).
  split; [exact Hnd|]. split; [exact Hb|]. split; [exact Hq|]. split; [exact Hef|].
  exact (queries_return_on_built_index 4 Sample.params qprm false data Sample.junk
           idx idx' query Hnd Hb Hq Hef).
Defined.

(** X8: a [SearchV1Merge] query for the two points nearest to 4 among
    six. *)
Lemma SearchV1Merge_offers_witness :
  let idx := Sample.built [5; 1; 9; 3; 7; 2]%Z in
  let query := Sample.query_at 4 2 in
  let events := Sample.from_Ok [] (SearchV1Merge idx query) in
  SearchV1Merge idx query = Ok events ∧
  Forall (true_distance idx query) (offers events) ∧
  NoDup (offered events) ∧
  (∀ p, p ∈ offered events → p ∈ evaluated events) ∧
  length (offers events) ≤ GetK query.
Proof.
  intros idx query events.
  assert (Hrun : SearchV1Merge idx query = Ok events) by (vm_compute; reflexivity).
  split; [exact Hrun|].
  exact (SearchV1Merge_offers idx query events Hrun).
Defined.

(** X9 on the index over six points. *)
Lemma searches_stay_reachable_witness :
  let idx := Sample.built [5; 1; 9; 3; 7; 2]%Z in
  let queryObj := mkObject 901 [4]%Z in
  let query := Sample.query_at 4 2 in
  pEntryPoint_ idx = Some 0 ∧
  (∀ st, searchForIndexing idx queryObj [] 6 = Ok st →
         Forall (reach (heap idx) 0) (evaluated (is_events st))) ∧
  (∀ events, SearchOld idx query = Ok events →
             Forall (reach (heap idx) 0) (evaluated events)) ∧
  (∀ events, SearchV1Merge idx query = Ok events →
             Forall (reach (heap idx) 0) (evaluated events)).
Proof.
  intros idx queryObj query.
  assert (He : pEntryPoint_ idx = Some 0) by (vm_compute; reflexivity).
  split; [exact He|].
  exact (searches_stay_reachable idx 0 queryObj 6 query He).
Defined.

(** X10: the file of the index over four points. *)
Lemma SaveIndex_file_shape_witness :
  let idx := Sample.built [5; 1; 9; 3]%Z in
  let file := Sample.saved [5; 1; 9; 3]%Z in
  SaveIndex idx = Ok file ∧
  ∃ lines,
    file = [WriteField_str METHOD_DESC StrDesc; WriteField_nat "NN" (NN_ idx)] ++
           lines ++ [EmptyString; WriteField_nat LINE_QTY (length file)] ∧
    length lines = size (ElList_ idx) ∧
    Forall (λ line, line ≠ EmptyString) lines.
Proof.
  intros idx file.
  assert (Hs : SaveIndex idx = Ok file) by (vm_compute; reflexivity).
  split; [exact Hs|].
  exact (SaveIndex_file_shape idx file Hs).
Defined.

(** X11: the load of that file. *)
Lemma LoadIndex_file_shape_witness :
  let file := Sample.saved [5; 1; 9; 3]%Z in
  let idx := Sample.fresh [5; 1; 9; 3]%Z in
  let idx' := Sample.loaded [5; 1; 9; 3]%Z in
  LoadIndex file idx = Ok idx' ∧
  settings idx' = settings idx ∧
  ∃ desc nn lines q rest,
    file = desc :: nn :: lines ++ EmptyString :: q :: rest ∧
    ReadField_str METHOD_DESC desc = Some StrDesc ∧
    ReadField_nat "NN" nn = Some (NN_ idx') ∧
    Forall (λ l, l ≠ EmptyString) lines ∧
    ReadField_nat LINE_QTY q = Some (length lines + 4).
Proof.
  intros file idx idx'.
  assert (Hl : LoadIndex file idx = Ok idx') by (vm_compute; reflexivity).
  split; [exact Hl|].
  exact (LoadIndex_file_shape file idx idx' Hl).
Defined.

(** X12: the same file with two more lines behind the line count. *)
Lemma LoadIndex_ignores_trailing_lines_witness :
  let file := Sample.saved [5; 1; 9; 3]%Z in
  let idx := Sample.fresh [5; 1; 9; 3]%Z in
  let idx' := Sample.loaded [5; 1; 9; 3]%Z in
  LoadIndex file idx = Ok idx' ∧
  LoadIndex (file ++ ["100:101"; "not a line of an index"]) idx = Ok idx'.
Proof.
  intros file idx idx'.
  assert (Hl : LoadIndex file idx = Ok idx') by (vm_compute; reflexivity).
  split; [exact Hl|].
  exact (LoadIndex_ignores_trailing_lines file
           ["100:101"; "not a line of an index"] idx idx' Hl).
Defined.

(** X13: the index loaded from the file of the index over four points. *)
Lemma LoadIndex_nodes_agree_with_data_witness :
  let file := Sample.saved [5; 1; 9; 3]%Z in
  let data := Sample.points [5; 1; 9; 3]%Z in
  let idx' := Sample.loaded [5; 1; 9; 3]%Z in
  LoadIndex file (SmallWorldRand_new false data Sample.junk) = Ok idx' ∧
  (∀ p n, heap idx' !! p = Some n →
     data !! getId n = Some (getData n) ∧
     Forall (λ f, f < length (heap idx')) (getAllFriends n)) ∧
  (∀ o p, ElList_ idx' !! o = Some p →
     ∃ n, heap idx' !! p = Some n ∧ Object_id (getData n) = o).
Proof.
  intros file data idx'.
  assert (Hl : LoadIndex file (SmallWorldRand_new false data Sample.junk) = Ok idx')
    by (vm_compute; reflexivity).
  split; [exact Hl|].
  exact (LoadIndex_nodes_agree_with_data file false data Sample.junk idx' Hl).
Defined.

(** X14: two indexing threads, one after the other, on four points of
    which the first has its node. *)
Lemma IndexThreadSW_threads_cover_witness :
  let idx :=
    first_index false (mkObject 100 [5]%Z)
      [mkObject 101 [1]%Z; mkObject 102 [9]%Z; mkObject 103 [3]%Z] 2 2 2 false in
  let run :=
    foldM (λ idx i, IndexThreadSW (mkIndexThreadParamsSW i 2) idx) idx (seq 0 2) in
  let idx' := Sample.from_Ok idx run in
  1 ≤ 2 ∧ run = Ok idx' ∧
  data_ idx' = data_ idx ∧
  nodes (heap idx')
  ≡ₚ nodes (heap idx) ++
     zip (drop 1 (data_ idx)) (seq 1 (length (drop 1 (data_ idx)))).
Proof.
  intros idx run idx'.
  assert (L : 1 ≤ 2) by lia.
  assert (Hrun : run = Ok idx') by (vm_compute; reflexivity).
  split; [exact L|]. split; [exact Hrun|].
  exact (IndexThreadSW_threads_cover 2 idx idx' L Hrun).
Defined.

(** X15 at [int]. *)
Lemma Expect_EQ_NE_witness :
  let I := BUnit.Testable_int in
  (∀ x y : Z, @BUnit.op_eq Z I x y = true ↔ x = y) ∧
  (@BUnit.Expect_EQ Z I "sum" 4%Z 5%Z "test.cc" 17%Z 0%Z = BUnit.Passed
   ↔ 4%Z = 5%Z) ∧
  (@BUnit.Expect_NE Z I "sum" 4%Z 5%Z "test.cc" 17%Z 0%Z = BUnit.Passed
   ↔ 4%Z ≠ 5%Z) ∧
  (∀ e, @BUnit.Expect_EQ Z I "sum" 4%Z 5%Z "test.cc" 17%Z 0%Z = BUnit.Threw e ∨
        @BUnit.Expect_NE Z I "sum" 4%Z 5%Z "test.cc" 17%Z 0%Z = BUnit.Threw e →
        String.prefix (BUnit.location "test.cc" 17%Z) (BUnit.what e) = true).
Proof.
  intros I.
  assert (Heq : ∀ x y : Z, @BUnit.op_eq Z I x y = true ↔ x = y)
    by (intros x y; apply Z.eqb_eq).
  split; [exact Heq|].
  exact (@Expect_EQ_NE Z I "sum" 4%Z 5%Z 0%Z "test.cc" 17%Z Heq).
Defined.

(** X16: the index over four points, loaded into an index that was
    constructed with other members. *)
Lemma save_load_parameters_witness :
  let idx := Sample.built [5; 1; 9; 3]%Z in
  let file := Sample.saved [5; 1; 9; 3]%Z in
  let idx0 :=
    SmallWorldRand_new true (Sample.points [5; 1; 9; 3]%Z)
      (mkUninit 7 7 7 7 kV1Merge (Some 5)) in
  let idx' := Sample.from_Ok idx0 (LoadIndex file idx0) in
  SaveIndex idx = Ok file ∧ LoadIndex file idx0 = Ok idx' ∧
  NN_ idx' = NN_ idx ∧ settings idx' = settings idx0.
Proof.
  intros idx file idx0 idx'.
  assert (Hs : SaveIndex idx = Ok file) by (vm_compute; reflexivity).
  assert (Hl : LoadIndex file idx0 = Ok idx') by (vm_compute; reflexivity).
  split; [exact Hs|]. split; [exact Hl|].
  exact (save_load_parameters idx idx0 idx' file Hs Hl).
Defined.

(** X17: a build with [NN = 0] over three points. *)
Lemma CreateIndex_NN_zero_queries_fail_witness :
  let prm : AnyParams :=
    [("NN", PNat 0); ("efConstruction", PNat 2); ("indexThreadQty", PNat 1)] in
  let data := Sample.points [5; 1; 9]%Z in
  let build := CreateIndex 4 prm (SmallWorldRand_new false data Sample.junk) in
  let idx := Sample.from_Ok (Sample.fresh []) build in
  let query := Sample.query_at 4 2 in
  build = Ok idx ∧ NN_ idx = 0 ∧ data ≠ [] ∧
  Search idx query = Throw ErrEfSearch ∧
  SearchOld idx query = Throw ErrEfSearch ∧
  SearchV1Merge idx query = Throw ErrEfSearch.
Proof.
  intros prm data build idx query.
  assert (Hb : build = Ok idx) by (vm_compute; reflexivity).
  assert (HNN : NN_ idx = 0) by (vm_compute; reflexivity).
  assert (Hd : data ≠ []) by (vm_compute; discriminate).
  split; [exact Hb|]. split; [exact HNN|]. split; [exact Hd|].
  exact (CreateIndex_NN_zero_queries_fail 4 prm false data Sample.junk idx query
           Hb HNN Hd).
Defined.

(** X18: one more node added to the index over three points. *)
Lemma add_keeps_nodes_and_bindings_witness :
  let idx := (new_MSWNode (Sample.built [5; 1; 9]%Z) (mkObject 900 [3]%Z) 3).1 in
  let newElement := 3 in
  let idx' := Sample.extended [5; 1; 9]%Z 3 3 in
  add idx newElement 3 = Ok idx' ∧
  nodes (heap idx') = nodes (heap idx) ∧
  settings idx' = settings idx ∧ NN_ idx' = NN_ idx ∧
  (∀ o p, ElList_ idx !! o = Some p → ElList_ idx' !! o = Some p) ∧
  (∀ o p, ElList_ idx' !! o = Some p →
     ElList_ idx !! o = Some p ∨
     p = newElement ∧ ∃ n, heap idx !! newElement = Some n ∧ Object_id (getData n) = o).
Proof.
  intros idx newElement idx'.
  assert (Ha : add idx newElement 3 = Ok idx') by (vm_compute; reflexivity).
  split; [exact Ha|].
  exact (add_keeps_nodes_and_bindings idx idx' newElement 3 Ha).
Defined.

(** X19: the indexing search for an object at 4 on the index over six
    points, with distances in [Z]. *)
Lemma searchForIndexing_nearest_witness :
  let idx := Sample.built [5; 1; 9; 3; 7; 2]%Z in
  let queryObj := mkObject 901 [4]%Z in
  let st :=
    Sample.from_Ok (mkIndexSearch [] [] [] [] [])
      (searchForIndexing idx queryObj [] 6) in
  (∀ a b : Z, (a <? b)%Z = true → (b <? a)%Z = false) ∧
  (∀ a b c : Z, (a <? b)%Z = true → (a <? c)%Z = true ∨ (c <? b)%Z = true) ∧
  searchForIndexing idx queryObj [] 6 = Ok st ∧
  let R := is_resultSet st in
  let evd := evaluated (is_events st) in
  length R = NN_ idx `min` length evd
  ∧ farthest_first R
  ∧ NoDup (getMSWNode <$> R)
  ∧ (∀ ev, ev ∈ R →
       getMSWNode ev ∈ evd
       ∧ getDistance ev = idist idx queryObj (getMSWNode ev))
  ∧ (∀ p ev, p ∈ evd → p ∉ getMSWNode <$> R → ev ∈ R →
       dist_lt (idist idx queryObj p) (getDistance ev) = false).
Proof.
  intros idx queryObj st.
  assert (Hasym : ∀ a b : Z, (a <? b)%Z = true → (b <? a)%Z = false)
    by (intros a b; rewrite Z.ltb_lt, Z.ltb_ge; lia).
  assert (Hco : ∀ a b c : Z,
            (a <? b)%Z = true → (a <? c)%Z = true ∨ (c <? b)%Z = true)
    by (intros a b c; rewrite !Z.ltb_lt; lia).
  assert (Hrun : searchForIndexing idx queryObj [] 6 = Ok st)
    by (vm_compute; reflexivity).
  split; [exact Hasym|]. split; [exact Hco|]. split; [exact Hrun|].
  exact (searchForIndexing_nearest Hasym Hco idx queryObj 6 st Hrun).
Defined.
